(** * Entropy encoding (Huffman) for webp lossless: a shallow embedding

    The development follows [src/webp/src/utils/huffman_encode.c], function
    by function.  C [int] values are integers of [Z]; the places where the C
    code can leave the range of [int] (signed overflow is undefined
    behaviour) or index outside an array are made explicit through the
    [result] type below.  [uint8_t] and [uint32_t] values are integers of [Z]
    with their wrap-around written out. *)

From Stdlib Require Import ZArith List Lia Bool QArith Qpower Sorted Permutation.
Import ListNotations.
Local Open Scope Z_scope.

(* ------------------------------------------------------------------------- *)
(** ** Outcomes of a C computation *)

Inductive error : Type :=
| IntOverflow        (* a signed [int] operation left the range of [int] *)
| OutOfBounds        (* an array was indexed outside its bounds *)
| AssertionFailure   (* an [assert] did not hold *)
| OutOfFuel.         (* the model ran out of loop fuel *)

Inductive result (A : Type) : Type :=
| Ok (a : A)
| Err (e : error).

Arguments Ok {A} a.
Arguments Err {A} e.

Definition bind {A B : Type} (r : result A) (k : A -> result B) : result B :=
  match r with
  | Ok a => k a
  | Err e => Err e
  end.

Notation "x <- r ;; k" := (bind r (fun x => k))
  (at level 61, r at next level, right associativity).

Definition INT_MAX : Z := 2147483647.
Definition INT_MIN : Z := -2147483648.

(** The value of an [int] expression: defined when it fits the type. *)
Definition int_ok (z : Z) : result Z :=
  if (INT_MIN <=? z) && (z <=? INT_MAX) then Ok z else Err IntOverflow.

(** Modelled from the spec: the constant [MAX_ALLOWED_CODE_LENGTH] of
    [webp/format_constants.h], which is not part of the sources at hand; the
    specification bounds code lengths by 15. *)
Definition MAX_ALLOWED_CODE_LENGTH : Z := 15.


(* ------------------------------------------------------------------------- *)
(** ** Data *)

(** Modelled from the spec: the records [HuffmanTreeToken] and
    [HuffmanTreeCode] are declared in [huffman_encode.h], which is not part
    of the sources at hand.  A token is a code in 0..18 with its extra bits;
    a code table has [num_symbols] code lengths and as many codes. *)
Record HuffmanTreeToken : Type := mkToken { code : Z; extra_bits : Z }.

(** The field [num_symbols] is the common length of the two arrays. *)
Record HuffmanTreeCode : Type := mkCode { code_lengths : list Z; codes : list Z }.

Definition num_symbols (tree : HuffmanTreeCode) : Z :=
  Z.of_nat (length (code_lengths tree)).

(** Arrays of integers: reading [a[i]] and writing [a[i] = v].  The callers
    below only use indices that they have checked to be in range. *)
Definition load (a : list Z) (i : Z) : Z := nth (Z.to_nat i) a 0.

Fixpoint update (a : list Z) (n : nat) (v : Z) : list Z :=
  match a, n with
  | [], _ => []
  | _ :: t, O => v :: t
  | h :: t, S n' => h :: update t n' v
  end.

Definition store (a : list Z) (i : Z) (v : Z) : list Z :=
  if 0 <=? i then update a (Z.to_nat i) v else a.

(* ------------------------------------------------------------------------- *)
(** ** Util function to optimize the symbol map for RLE coding *)

(** [for (i = 0; i < n; ++i) body] over a state, with failure. *)
Fixpoint for_each {S : Type} (indices : list Z) (body : Z -> S -> result S) (s : S)
    : result S :=
  match indices with
  | [] => Ok s
  | i :: rest => s' <- body i s ;; for_each rest body s'
  end.

(** The indices [0 .. n-1]. *)
Definition range (n : nat) : list Z := map Z.of_nat (seq 0 n).

(** [for (k = 0; k < stride; ++k) a[i - k - 1] = v]. *)
Definition fill_back (a : list Z) (i : Z) (stride : Z) (v : Z) : list Z :=
  fold_left (fun a k => store a (i - k - 1) v) (range (Z.to_nat stride)) a.

(** Heuristics for selecting the stride ranges to collapse:
    [abs(a - b) < 4]. *)
Definition ValuesShouldBeCollapsedToStrideAverage (a b : Z) : result bool :=
  d <- int_ok (a - b) ;;
  m <- int_ok (Z.abs d) ;;
  Ok (m <? 4).

(** 1) The length without the trailing zeros:
    [for (; length >= 0; --length)], leaving at the first
    [counts[length - 1] != 0]; 0 when all counts are zero. *)
Fixpoint trim_length (length : nat) (counts : list Z) : nat :=
  match length with
  | O => O
  | S length' =>
      if negb (load counts (Z.of_nat length') =? 0) then length
      else trim_length length' counts
  end.

(** 2) One turn of the loop that marks the population counts that already
    can be encoded with an rle code; the state is
    [(symbol, stride, good_for_rle)]. *)
Definition mark_step (length : Z) (counts : list Z) (i : Z)
    (st : Z * Z * list Z) : Z * Z * list Z :=
  let '(symbol, stride, good_for_rle) := st in
  if (i =? length) || negb (load counts i =? symbol) then
    let good_for_rle :=
      if ((symbol =? 0) && (5 <=? stride)) || (negb (symbol =? 0) && (7 <=? stride))
      then fill_back good_for_rle i stride 1
      else good_for_rle in
    let stride := 1 in
    let symbol := if negb (i =? length) then load counts i else symbol in
    (symbol, stride, good_for_rle)
  else
    (symbol, stride + 1, good_for_rle).

Definition mark_good_for_rle (length : nat) (counts : list Z) : list Z :=
  let '(_, _, good_for_rle) :=
    fold_left (fun st i => mark_step (Z.of_nat length) counts i st)
      (range (length + 1)) (load counts 0, 0, repeat 0 length) in
  good_for_rle.

(** 3) The state of the loop that replaces the population counts that lead
    to more rle codes. *)
Record rle_state : Type := mkRle {
  rle_counts : list Z;
  rle_stride : Z;
  rle_limit : Z;
  rle_sum : Z
}.

(** The condition under which the stride must end at [i], evaluated left to
    right as [||] does. *)
Definition stride_ends (length : Z) (good_for_rle : list Z) (i : Z) (st : rle_state)
    : result bool :=
  if i =? length then Ok true
  else if negb (load good_for_rle i =? 0) then Ok true
  else if negb (i =? 0) && negb (load good_for_rle (i - 1) =? 0) then Ok true
  else
    b <- ValuesShouldBeCollapsedToStrideAverage (load (rle_counts st) i) (rle_limit st) ;;
    Ok (negb b).

(** The count written over a collapsed stride; [/] of C is [Z.quot]. *)
Definition collapsed_count (sum stride : Z) : result Z :=
  s <- int_ok (sum + stride ÷ 2) ;;
  let count := s ÷ stride in
  let count := if count <? 1 then 1 else count in
  (* Don't make an all zeros stride to be upgraded to ones. *)
  let count := if sum =? 0 then 0 else count in
  Ok count.

(** Whether a stride that ends is collapsed. *)
Definition stride_collapses (st : rle_state) : bool :=
  (4 <=? rle_stride st) || ((3 <=? rle_stride st) && (rle_sum st =? 0)).

Definition collapse_step (length : Z) (good_for_rle : list Z) (i : Z) (st : rle_state)
    : result rle_state :=
  ends <- stride_ends length good_for_rle i st ;;
  st <-
    (if ends : bool then
       counts <-
         (if stride_collapses st then
            (* The stride must end, collapse what we have, if we have enough (4). *)
            count <- collapsed_count (rle_sum st) (rle_stride st) ;;
            Ok (fill_back (rle_counts st) i (rle_stride st) count)
          else Ok (rle_counts st)) ;;
       limit <-
         (if i <? length - 3 then
            (* All interesting strides have a count of at least 4,
               at least when non-zeros. *)
            s1 <- int_ok (load counts i + load counts (i + 1)) ;;
            s2 <- int_ok (s1 + load counts (i + 2)) ;;
            s3 <- int_ok (s2 + load counts (i + 3)) ;;
            s4 <- int_ok (s3 + 2) ;;
            Ok (s4 ÷ 4)
          else if i <? length then Ok (load counts i)
          else Ok 0) ;;
       Ok (mkRle counts 0 limit 0)
     else Ok st) ;;
  let stride := rle_stride st + 1 in
  if negb (i =? length) then
    sum <- int_ok (rle_sum st + load (rle_counts st) i) ;;
    limit <-
      (if 4 <=? stride then
         s <- int_ok (sum + stride ÷ 2) ;;
         Ok (s ÷ stride)
       else Ok (rle_limit st)) ;;
    Ok (mkRle (rle_counts st) stride limit sum)
  else
    Ok (mkRle (rle_counts st) stride (rle_limit st) (rle_sum st)).

(** Change the population counts in a way that the consequent Huffman tree
    compression, especially its RLE-part, give smaller output.  Returns the
    new counts ([calloc] is taken to succeed). *)
Definition OptimizeHuffmanForRle (length : nat) (counts : list Z) : result (list Z) :=
  let length := trim_length length counts in
  match length with
  | O => Ok counts  (* All zeros. *)
  | S _ =>
      let good_for_rle := mark_good_for_rle length counts in
      st <- for_each (range (length + 1))
              (collapse_step (Z.of_nat length) good_for_rle)
              (mkRle counts 0 (load counts 0) 0) ;;
      Ok (rle_counts st)
  end.

(* ------------------------------------------------------------------------- *)
(** ** The bounded-depth tree builder *)

Record HuffmanTree : Type := mkTree {
  total_count_ : Z;
  value_ : Z;
  pool_index_left_ : Z;
  pool_index_right_ : Z
}.

(** A comparer function for two Huffman trees: sorts first by 'total count'
    (more comes first), and then by 'value' (the smaller value comes first). *)
Definition CompareHuffmanTrees (t1 t2 : HuffmanTree) : Z :=
  if total_count_ t1 >? total_count_ t2 then -1
  else if total_count_ t1 <? total_count_ t2 then 1
  else if value_ t1 <? value_ t2 then -1
  else if value_ t1 >? value_ t2 then 1
  else 0.

(** [qsort] of the C library with [CompareHuffmanTrees], modelled by an
    insertion sort.  The comparer returns 0 only on equal counts and equal
    values, and the leaves sorted have distinct values: the sorted array does
    not depend on the algorithm. *)
Fixpoint qsort_insert (t : HuffmanTree) (sorted : list HuffmanTree)
    : list HuffmanTree :=
  match sorted with
  | [] => [t]
  | h :: rest =>
      if CompareHuffmanTrees t h <=? 0 then t :: sorted
      else h :: qsort_insert t rest
  end.

Definition qsort (tree : list HuffmanTree) : list HuffmanTree :=
  fold_right qsort_insert [] tree.

(** Arrays with checked bounds. *)
Definition store_checked (a : list Z) (i : Z) (v : Z) : result (list Z) :=
  if (0 <=? i) && (i <? Z.of_nat (length a)) then Ok (store a i v)
  else Err OutOfBounds.

Definition pool_at (pool : list HuffmanTree) (i : Z) : result HuffmanTree :=
  if 0 <=? i then
    match nth_error pool (Z.to_nat i) with
    | Some t => Ok t
    | None => Err OutOfBounds
    end
  else Err OutOfBounds.

(** Conversion to [uint8_t]. *)
Definition u8 (z : Z) : Z := z mod 256.

(** [SetBitDepths]: the recursion follows the pool indices; its depth is
    bounded by the number of nodes, which the fuel stands for. *)
Fixpoint SetBitDepths (fuel : nat) (tree : HuffmanTree) (pool : list HuffmanTree)
    (bit_depths : list Z) (level : Z) : result (list Z) :=
  match fuel with
  | O => Err OutOfFuel
  | S fuel' =>
      if 0 <=? pool_index_left_ tree then
        left <- pool_at pool (pool_index_left_ tree) ;;
        bit_depths <- SetBitDepths fuel' left pool bit_depths (level + 1) ;;
        right <- pool_at pool (pool_index_right_ tree) ;;
        SetBitDepths fuel' right pool bit_depths (level + 1)
      else
        store_checked bit_depths (value_ tree) (u8 level)
  end.

(** The number of used symbols, [tree_size_orig]. *)
Fixpoint count_used (histogram : list Z) : Z :=
  match histogram with
  | [] => 0
  | h :: rest => (if negb (h =? 0) then 1 else 0) + count_used rest
  end.

(** The leaves: one per non-zero entry [histogram[j]], with the count raised
    to [count_min]; [j] is the index of the head of [histogram]. *)
Fixpoint init_leaves (histogram : list Z) (j : Z) (count_min : Z)
    : list HuffmanTree :=
  match histogram with
  | [] => []
  | h :: rest =>
      if negb (h =? 0) then
        let count := if h <? count_min then count_min else h in
        mkTree count j (-1) (-1) :: init_leaves rest (j + 1) count_min
      else init_leaves rest (j + 1) count_min
  end.

(** Search for the insertion point:
    [for (k = 0; k < tree_size; ++k) if (tree[k].total_count_ <= count) break;] *)
Fixpoint insertion_point (tree : list HuffmanTree) (count : Z) : nat :=
  match tree with
  | [] => O
  | t :: rest =>
      if total_count_ t <=? count then O else S (insertion_point rest count)
  end.

(** One turn of the loop [while (tree_size > 1)]: the two last trees go to
    the pool, and a node for their sum is inserted in the array. *)
Definition merge_step (tree tree_pool : list HuffmanTree)
    : result (list HuffmanTree * list HuffmanTree) :=
  let tree_size := length tree in
  match nth_error tree (tree_size - 1), nth_error tree (tree_size - 2) with
  | Some last, Some before_last =>
      let tree_pool := tree_pool ++ [last; before_last] in
      let tree_pool_size := Z.of_nat (length tree_pool) in
      count <- int_ok (total_count_ before_last + total_count_ last) ;;
      let tree := firstn (tree_size - 2) tree in
      let k := insertion_point tree count in
      let node := mkTree count (-1) (tree_pool_size - 1) (tree_pool_size - 2) in
      Ok (firstn k tree ++ node :: skipn k tree, tree_pool)
  | _, _ => Err OutOfBounds
  end.

(** [while (tree_size > 1)]: every turn makes the array one shorter. *)
Fixpoint merge_loop (fuel : nat) (tree tree_pool : list HuffmanTree)
    : result (list HuffmanTree * list HuffmanTree) :=
  if (1 <? length tree)%nat then
    match fuel with
    | O => Err OutOfFuel
    | S fuel' =>
        r <- merge_step tree tree_pool ;;
        merge_loop fuel' (fst r) (snd r)
    end
  else Ok (tree, tree_pool).

(** The body of the retry loop up to the test of the depth: the bit depths
    for the histogram raised to [count_min]. *)
Definition assign_depths (histogram : list Z) (count_min : Z) (bit_depths : list Z)
    : result (list Z) :=
  let tree := qsort (init_leaves histogram 0 count_min) in
  let tree_size := length tree in
  if (1 <? tree_size)%nat then  (* Normal case. *)
    r <- merge_loop tree_size tree [] ;;
    match fst r with
    | root :: _ => SetBitDepths (S (length (snd r))) root (snd r) bit_depths 0
    | [] => Err OutOfBounds
    end
  else
    match tree with
    | [t] => store_checked bit_depths (value_ t) 1  (* only one element *)
    | _ => Ok bit_depths
    end.

(** [max_depth] over [bit_depths[0 .. histogram_size - 1]]; the source reads
    [bit_depths[0]] first. *)
Definition max_bit_depth (bit_depths : list Z) : result Z :=
  match bit_depths with
  | [] => Err OutOfBounds
  | d :: rest => Ok (fold_left (fun m d' => if m <? d' then d' else m) rest d)
  end.

(** The loop [for (count_min = 1; ; count_min *= 2)]; it has no bound in the
    source and runs on fuel here. *)
Fixpoint GenerateOptimalTree_loop (fuel : nat) (histogram : list Z)
    (tree_depth_limit : Z) (bit_depths : list Z) (count_min : Z)
    : result (list Z) :=
  match fuel with
  | O => Err OutOfFuel
  | S fuel' =>
      bit_depths <- assign_depths histogram count_min bit_depths ;;
      max_depth <- max_bit_depth bit_depths ;;
      if max_depth <=? tree_depth_limit then Ok bit_depths
      else
        count_min <- int_ok (count_min * 2) ;;
        GenerateOptimalTree_loop fuel' histogram tree_depth_limit bit_depths count_min
  end.

(** [assert(tree_size_orig <= (1 << (tree_depth_limit - 1)))]; the shift of
    the [int] 1 is defined for the shift counts 0 to 30. *)
Definition assert_depth_limit (tree_size_orig tree_depth_limit : Z) : result unit :=
  if (0 <=? tree_depth_limit - 1) && (tree_depth_limit - 1 <? 31) then
    if tree_size_orig <=? Z.shiftl 1 (tree_depth_limit - 1) then Ok tt
    else Err AssertionFailure
  else Err IntOverflow.

(** Create an optimal Huffman tree.  [histogram] and [bit_depths] have
    [histogram_size] entries.  Returns the bit depths ([WebPSafeMalloc] is
    taken to succeed). *)
Definition GenerateOptimalTree (fuel : nat) (histogram : list Z)
    (tree_depth_limit : Z) (bit_depths : list Z) : result (list Z) :=
  if (length bit_depths =? length histogram)%nat then
    _ <- assert_depth_limit (count_used histogram) tree_depth_limit ;;
    GenerateOptimalTree_loop fuel histogram tree_depth_limit bit_depths 1
  else Err OutOfBounds.

(** The precondition of [GenerateOptimalTree], as its assertion has it. *)
Definition feasible_depth_limit (histogram : list Z) (tree_depth_limit : Z) : Prop :=
  1 <= tree_depth_limit <= 31
  /\ count_used histogram <= 2 ^ (tree_depth_limit - 1).

(* ------------------------------------------------------------------------- *)
(** ** Coding of the Huffman tree values *)

(** The output cursor [tokens] is the list of the tokens written so far; a
    function that advances the cursor returns the extended list.  The [while]
    loops run on fuel; [repetitions] decreases at every turn, so that
    [Z.to_nat repetitions] turns are always enough (see [CodeRepeatedValues_loop_fuel]
    and [CodeRepeatedZeros_loop_fuel]). *)
Fixpoint CodeRepeatedValues_loop (fuel : nat) (repetitions : Z)
    (tokens : list HuffmanTreeToken) (value : Z) : list HuffmanTreeToken :=
  match fuel with
  | O => tokens
  | S fuel' =>
      if 1 <=? repetitions then
        if repetitions <? 3 then
          tokens ++ repeat (mkToken value 0) (Z.to_nat repetitions)
        else if repetitions <? 7 then
          tokens ++ [mkToken 16 (repetitions - 3)]
        else
          CodeRepeatedValues_loop fuel' (repetitions - 6)
            (tokens ++ [mkToken 16 3]) value
      else tokens
  end.

(** What [CodeRepeatedValues] writes once its entry assertion has held: the
    literal when [value != prev_value], then the [while] loop. *)
Definition CodeRepeatedValues_body (repetitions : Z) (tokens : list HuffmanTreeToken)
    (value prev_value : Z) : list HuffmanTreeToken :=
  if negb (value =? prev_value) then
    CodeRepeatedValues_loop (Z.to_nat (repetitions - 1)) (repetitions - 1)
      (tokens ++ [mkToken value 0]) value
  else
    CodeRepeatedValues_loop (Z.to_nat repetitions) repetitions tokens value.

(** [assert(value <= MAX_ALLOWED_CODE_LENGTH)] on entry, then the body. *)
Definition CodeRepeatedValues (repetitions : Z) (tokens : list HuffmanTreeToken)
    (value prev_value : Z) : result (list HuffmanTreeToken) :=
  if value <=? MAX_ALLOWED_CODE_LENGTH then
    Ok (CodeRepeatedValues_body repetitions tokens value prev_value)
  else Err AssertionFailure.

Fixpoint CodeRepeatedZeros_loop (fuel : nat) (repetitions : Z)
    (tokens : list HuffmanTreeToken) : list HuffmanTreeToken :=
  match fuel with
  | O => tokens
  | S fuel' =>
      if 1 <=? repetitions then
        if repetitions <? 3 then
          tokens ++ repeat (mkToken 0 0) (Z.to_nat repetitions)
        else if repetitions <? 11 then
          tokens ++ [mkToken 17 (repetitions - 3)]
        else if repetitions <? 139 then
          tokens ++ [mkToken 18 (repetitions - 11)]
        else
          CodeRepeatedZeros_loop fuel' (repetitions - 138)
            (tokens ++ [mkToken 18 127])
      else tokens
  end.

Definition CodeRepeatedZeros (repetitions : Z) (tokens : list HuffmanTreeToken)
    : list HuffmanTreeToken :=
  CodeRepeatedZeros_loop (Z.to_nat repetitions) repetitions tokens.

(** The inner scan [while (k < depth_size && code_lengths[k] == value) ++k]:
    the number of entries equal to [value] at the head of the remaining
    array. *)
Fixpoint run_length (value : Z) (rest : list Z) : nat :=
  match rest with
  | x :: rest' => if x =? value then S (run_length value rest') else O
  | [] => O
  end.

(** The main loop of [VP8LCreateCompressedHuffmanTree].  The index [i] is
    represented by the part [code_lengths[i..]] of the array that remains to
    be coded.  Every turn consumes at least one entry.  The assertion
    [tokens <= ending_token] is checked after each run, as in the source;
    the one on [value] is made by [CodeRepeatedValues] itself. *)
Fixpoint compress_loop (fuel : nat) (remaining : list Z)
    (tokens : list HuffmanTreeToken) (max_tokens : Z) (prev_value : Z)
    : result (list HuffmanTreeToken) :=
  match remaining with
  | [] => Ok tokens
  | value :: rest =>
      match fuel with
      | O => Err OutOfFuel
      | S fuel' =>
          let runs := S (run_length value rest) in
          tokens' <-
            (if value =? 0 then Ok (CodeRepeatedZeros (Z.of_nat runs) tokens)
             else CodeRepeatedValues (Z.of_nat runs) tokens value prev_value) ;;
          let prev_value' := if value =? 0 then prev_value else value in
          if Z.of_nat (length tokens') <=? max_tokens then
            compress_loop fuel' (skipn runs remaining) tokens' max_tokens prev_value'
          else Err AssertionFailure
      end
  end.

(** Returns the tokens written and their number, [tokens - starting_token]. *)
Definition VP8LCreateCompressedHuffmanTree (tree : HuffmanTreeCode) (max_tokens : Z)
    : result (list HuffmanTreeToken * Z) :=
  tokens <- compress_loop (length (code_lengths tree)) (code_lengths tree) [] max_tokens 8 ;;
  Ok (tokens, Z.of_nat (length tokens)).

(** The reading of a token stream, after the wire semantics of the
    specification: a literal 0..15 stands for one length; 16 repeats the
    previously emitted non-zero length 3 + extra_bits times; 17 stands for
    3 + extra_bits zeros; 18 for 11 + extra_bits zeros.  [prev] is the
    previously emitted non-zero length; as in the encoder it starts at 8. *)
Fixpoint expand_tokens (prev : Z) (tokens : list HuffmanTreeToken) : list Z :=
  match tokens with
  | [] => []
  | t :: ts =>
      if code t <? 16 then
        code t :: expand_tokens (if code t =? 0 then prev else code t) ts
      else if code t =? 16 then
        repeat prev (Z.to_nat (3 + extra_bits t)) ++ expand_tokens prev ts
      else if code t =? 17 then
        repeat 0 (Z.to_nat (3 + extra_bits t)) ++ expand_tokens prev ts
      else
        repeat 0 (Z.to_nat (11 + extra_bits t)) ++ expand_tokens prev ts
  end.

(** The previously emitted non-zero length after a token stream was read. *)
Fixpoint prev_after (prev : Z) (tokens : list HuffmanTreeToken) : Z :=
  match tokens with
  | [] => prev
  | t :: ts =>
      prev_after (if (code t <? 16) && negb (code t =? 0) then code t else prev) ts
  end.

(** The number of code lengths a token stands for. *)
Definition token_repeats (t : HuffmanTreeToken) : Z :=
  if code t <? 16 then 1
  else if code t =? 16 then 3 + extra_bits t
  else if code t =? 17 then 3 + extra_bits t
  else 11 + extra_bits t.

Definition valid_code_lengths (l : list Z) : Prop :=
  Forall (fun v => 0 <= v <= MAX_ALLOWED_CODE_LENGTH) l.


(** A token stands for at least one and at most 138 code lengths. *)
Definition token_ok (t : HuffmanTreeToken) : Prop := 1 <= token_repeats t <= 138.

Definition sum_repeats (tokens : list HuffmanTreeToken) : Z :=
  fold_right (fun t acc => token_repeats t + acc) 0 tokens.

(* ------------------------------------------------------------------------- *)
(** ** Canonical codes *)

(** Conversion to [uint32_t]. *)
Definition u32 (z : Z) : Z := z mod 2 ^ 32.

(** Pre-reversed 4-bit values. *)
Definition kReversedBits : list Z :=
  [ 0x0; 0x8; 0x4; 0xc; 0x2; 0xa; 0x6; 0xe;
    0x1; 0x9; 0x5; 0xd; 0x3; 0xb; 0x7; 0xf ].

(** The loop of [ReverseBits]; [i] grows by 4 at every turn, so that
    [num_bits] turns are enough. *)
Fixpoint ReverseBits_loop (fuel : nat) (num_bits i retval bits : Z) : Z :=
  match fuel with
  | O => retval
  | S fuel' =>
      if i <? num_bits then
        let i := i + 4 in
        let retval :=
          u32 (Z.lor retval
                 (Z.shiftl (load kReversedBits (Z.land bits 0xf))
                           (MAX_ALLOWED_CODE_LENGTH + 1 - i))) in
        ReverseBits_loop fuel' num_bits i retval (Z.shiftr bits 4)
      else retval
  end.

Definition ReverseBits (num_bits : Z) (bits : Z) : Z :=
  let retval := ReverseBits_loop (Z.to_nat num_bits) num_bits 0 0 bits in
  Z.shiftr retval (MAX_ALLOWED_CODE_LENGTH + 1 - num_bits).

(** First loop of [ConvertBitDepthsToSymbols]: [++depth_count[code_length]]
    for every symbol, under the assertion
    [code_length <= MAX_ALLOWED_CODE_LENGTH] ([code_length] is a [uint8_t],
    never negative). *)
Fixpoint count_depths (code_lengths : list Z) (depth_count : list Z)
    : result (list Z) :=
  match code_lengths with
  | [] => Ok depth_count
  | code_length :: rest =>
      if (0 <=? code_length) && (code_length <=? MAX_ALLOWED_CODE_LENGTH) then
        count_depths rest
          (store depth_count code_length (load depth_count code_length + 1))
      else Err AssertionFailure
  end.

(** Second loop: [code = (code + depth_count[i - 1]) << 1; next_code[i] = code]
    for [i] from 1, in [uint32_t] arithmetic. *)
Fixpoint next_code_loop (turns : nat) (i : Z) (code : Z)
    (depth_count next_code : list Z) : list Z :=
  match turns with
  | O => next_code
  | S turns' =>
      let code := u32 (Z.shiftl (u32 (code + load depth_count (i - 1))) 1) in
      next_code_loop turns' (i + 1) code depth_count (store next_code i code)
  end.

(** Third loop: symbol [i] gets [f code_length (next_code[code_length]++)].
    In the source [f] is [ReverseBits]; with [f] the second projection the
    loop yields the code values before the reversal. *)
Fixpoint assign_codes (f : Z -> Z -> Z) (next_code : list Z) (code_lengths : list Z)
    : list Z :=
  match code_lengths with
  | [] => []
  | code_length :: rest =>
      let c := load next_code code_length in
      f code_length c
        :: assign_codes f (store next_code code_length (u32 (c + 1))) rest
  end.

(** The array [next_code] on entry of the third loop. *)
Definition first_codes (code_lengths : list Z) : result (list Z) :=
  depth_count <-
    count_depths code_lengths (repeat 0 (Z.to_nat (MAX_ALLOWED_CODE_LENGTH + 1))) ;;
  let depth_count := store depth_count 0 0 in  (* ignore unused symbol *)
  let next_code := store (repeat 0 (Z.to_nat (MAX_ALLOWED_CODE_LENGTH + 1))) 0 0 in
  Ok (next_code_loop (Z.to_nat MAX_ALLOWED_CODE_LENGTH) 1 0 depth_count next_code).

(** Get the actual bit values for a tree of bit depths. *)
Definition ConvertBitDepthsToSymbols (tree : HuffmanTreeCode) : result HuffmanTreeCode :=
  next_code <- first_codes (code_lengths tree) ;;
  Ok (mkCode (code_lengths tree)
             (assign_codes ReverseBits next_code (code_lengths tree))).

(** The code values handed to [ReverseBits], symbol by symbol. *)
Definition codes_before_reversal (tree : HuffmanTreeCode) : result (list Z) :=
  next_code <- first_codes (code_lengths tree) ;;
  Ok (assign_codes (fun _ c => c) next_code (code_lengths tree)).

(** The reversal of the [n] low bits of [x]: the low bit is moved in front,
    [n] times. *)
Fixpoint reverse_low_bits (n : nat) (x acc : Z) : Z :=
  match n with
  | O => acc
  | S n' => reverse_low_bits n' (x / 2) (2 * acc + x mod 2)
  end.

Definition bit_reversal (n : Z) (x : Z) : Z := reverse_low_bits (Z.to_nat n) x 0.

(* ------------------------------------------------------------------------- *)
(** ** Main entry point *)

(** [VP8LCreateHuffmanTree]: returns the histogram as it was rewritten and
    the code table. *)
Definition VP8LCreateHuffmanTree (fuel : nat) (histogram : list Z)
    (tree_depth_limit : Z) (tree : HuffmanTreeCode)
    : result (list Z * HuffmanTreeCode) :=
  let num_symbols := length (code_lengths tree) in
  if (length histogram =? num_symbols)%nat then
    histogram <- OptimizeHuffmanForRle num_symbols histogram ;;
    bit_depths <- GenerateOptimalTree fuel histogram tree_depth_limit (code_lengths tree) ;;
    (* Create the actual bit codes for the bit lengths. *)
    tree <- ConvertBitDepthsToSymbols (mkCode bit_depths (codes tree)) ;;
    Ok (histogram, tree)
  else Err OutOfBounds.

(* ------------------------------------------------------------------------- *)
(** ** Notions used to state the properties *)

(** Number of symbols of code length [l]. *)
Definition occurrences (l : Z) (code_lengths : list Z) : Z :=
  Z.of_nat (count_occ Z.eq_dec code_lengths l).

(** The same, length 0 (unused symbols) being ignored. *)
Definition used_count (code_lengths : list Z) (l : Z) : Z :=
  if l =? 0 then 0 else occurrences l code_lengths.

(** The canonical recurrence over the integers, without wrap-around:
    first code value of each length. *)
Fixpoint canonical_first (code_lengths : list Z) (l : nat) : Z :=
  match l with
  | O => 0
  | S l' => 2 * (canonical_first code_lengths l' + used_count code_lengths (Z.of_nat l'))
  end.

(** Number of used symbols of length at most [l]. *)
Fixpoint used_upto (code_lengths : list Z) (l : nat) : Z :=
  match l with
  | O => used_count code_lengths 0
  | S l' => used_upto code_lengths l' + used_count code_lengths (Z.of_nat (S l'))
  end.

(** No wrap-around: every length's last code value fits 32 bits. *)
Definition codes_fit (code_lengths : list Z) : Prop :=
  forall l : nat, (l <= 15)%nat ->
    canonical_first code_lengths l + used_count code_lengths (Z.of_nat l) < 2 ^ 32.

(** The sum of [n] entries of [a] from index [from]. *)
Fixpoint sum_range (a : list Z) (from : Z) (n : nat) : Z :=
  match n with
  | O => 0
  | S n' => load a from + sum_range a (from + 1) n'
  end.

(** The state of pass 3 of [OptimizeHuffmanForRle] on entry of turn [i]. *)
Definition rle_state_before (length : nat) (counts : list Z) (i : nat)
    : result rle_state :=
  for_each (range i)
    (collapse_step (Z.of_nat length) (mark_good_for_rle length counts))
    (mkRle counts 0 (load counts 0) 0).

(** On entry of turn [i] of pass 3 the current stride is made of the
    [rle_stride] positions before [i], and [rle_sum] is the sum of their
    counts. *)
Definition stride_invariant (i : nat) (st : rle_state) : Prop :=
  0 <= rle_stride st <= Z.of_nat i
  /\ rle_sum st
     = sum_range (rle_counts st) (Z.of_nat i - rle_stride st)
         (Z.to_nat (rle_stride st)).

(** [counts] has the size of [counts0], no negative entry, and a positive
    entry wherever [counts0] has one. *)
Definition keeps_used (counts0 counts : list Z) : Prop :=
  length counts = length counts0
  /\ (forall p, 0 <= p -> 0 <= load counts p)
  /\ (forall p, 0 <= p -> 0 < load counts0 p -> 0 < load counts p).

(** *** The merge tree as a tree *)

(** The tree that a node of the working array stands for, the pool indices
    followed. *)
Inductive htree : Type :=
| Leaf (count value : Z)
| Node (count : Z) (left right : htree).

Definition cnt (t : htree) : Z :=
  match t with
  | Leaf c _ => c
  | Node c _ _ => c
  end.

Fixpoint height (t : htree) : nat :=
  match t with
  | Leaf _ _ => O
  | Node _ l r => S (Nat.max (height l) (height r))
  end.

(** The symbols at the leaves, left to right. *)
Fixpoint leaf_values (t : htree) : list Z :=
  match t with
  | Leaf _ v => [v]
  | Node _ l r => leaf_values l ++ leaf_values r
  end.

(** The leaves with their depths, the root being at [level]. *)
Fixpoint leaf_depths (t : htree) (level : Z) : list (Z * Z) :=
  match t with
  | Leaf _ v => [(v, level)]
  | Node _ l r => leaf_depths l (level + 1) ++ leaf_depths r (level + 1)
  end.

(** [represents pool node t]: following the pool indices from [node] one
    reads the tree [t]. *)
Inductive represents (pool : list HuffmanTree) : HuffmanTree -> htree -> Prop :=
| represents_leaf node :
    pool_index_left_ node < 0 ->
    represents pool node (Leaf (total_count_ node) (value_ node))
| represents_node node l r tl tr :
    0 <= pool_index_left_ node ->
    pool_at pool (pool_index_left_ node) = Ok l ->
    pool_at pool (pool_index_right_ node) = Ok r ->
    represents pool l tl ->
    represents pool r tr ->
    represents pool node (Node (total_count_ node) tl tr).

(** What [SetBitDepths] writes for a tree. *)
Fixpoint write_depths (t : htree) (level : Z) (bit_depths : list Z) : list Z :=
  match t with
  | Leaf _ v => store bit_depths v (u8 level)
  | Node _ l r =>
      write_depths r (level + 1) (write_depths l (level + 1) bit_depths)
  end.

(** One turn of the merge loop on the trees. *)
Fixpoint forest_insertion_point (forest : list htree) (count : Z) : nat :=
  match forest with
  | [] => O
  | t :: rest =>
      if cnt t <=? count then O else S (forest_insertion_point rest count)
  end.

Definition merge_forest (rest : list htree) (before_last last : htree) : list htree :=
  let count := cnt before_last + cnt last in
  let k := forest_insertion_point rest count in
  firstn k rest ++ Node count before_last last :: skipn k rest.

(** The indices of the used symbols, [j] being the index of the head. *)
Fixpoint used_symbols (histogram : list Z) (j : Z) : list Z :=
  match histogram with
  | [] => []
  | h :: rest =>
      if negb (h =? 0) then j :: used_symbols rest (j + 1)
      else used_symbols rest (j + 1)
  end.

(** The Kraft sum of the used symbols: the sum of [2 ^ - bit_depths[i]] over
    the symbols [i] with [histogram[i] != 0]. *)
Fixpoint kraft_sum (histogram bit_depths : list Z) : Q :=
  match histogram, bit_depths with
  | h :: histogram', d :: bit_depths' =>
      ((if negb (h =? 0) then (1 # 2) ^ d else 0) + kraft_sum histogram' bit_depths')%Q
  | _, _ => 0%Q
  end.

(** The working array is sorted by decreasing count. *)
Definition counts_descending (tree : list HuffmanTree) : Prop :=
  StronglySorted (fun a b => total_count_ b <= total_count_ a) tree.

Definition forest_descending (forest : list htree) : Prop :=
  StronglySorted (fun a b => cnt b <= cnt a) forest.

(** Counts are at least 1 at the leaves and add up at the nodes. *)
Fixpoint well_formed (t : htree) : Prop :=
  match t with
  | Leaf c _ => 1 <= c
  | Node c l r => c = cnt l + cnt r /\ well_formed l /\ well_formed r
  end.

(** The numbers 1, 2, 3, 5, 8, ... *)
Fixpoint fibo_pair (n : nat) : Z * Z :=
  match n with
  | O => (1, 2)
  | S n' => let '(a, b) := fibo_pair n' in (b, a + b)
  end.

Definition fibo (n : nat) : Z := fst (fibo_pair n).

(** A tree of height [h] weighs at least [fibo h], and so do its subtrees. *)
Fixpoint fibo_bounded (t : htree) : Prop :=
  fibo (height t) <= cnt t
  /\ match t with
     | Leaf _ _ => True
     | Node _ l r => fibo_bounded l /\ fibo_bounded r
     end.

(** The larger count of the two children of a node. *)
Definition child_max (t : htree) : Z :=
  match t with
  | Leaf _ _ => 0
  | Node _ l r => Z.max (cnt l) (cnt r)
  end.

(** The invariant of the merge loop. *)
Definition forest_ok (forest : list htree) : Prop :=
  forest_descending forest
  /\ Forall well_formed forest
  /\ Forall fibo_bounded forest
  /\ (forall t u, In t forest -> In u forest -> child_max t <= cnt u).

(** The symbols at the leaves of the trees of the working array. *)
Definition forest_leaves (forest : list htree) : list Z :=
  flat_map leaf_values forest.

(** The tree a leaf of the working array stands for. *)
Definition leaf_of (node : HuffmanTree) : htree :=
  Leaf (total_count_ node) (value_ node).

(** Sum of a list of rationals. *)
Definition qsum (l : list Q) : Q := fold_right Qplus 0%Q l.

(** The depth of the shallowest leaf. *)
Fixpoint min_depth (t : htree) : nat :=
  match t with
  | Leaf _ _ => O
  | Node _ l r => S (Nat.min (min_depth l) (min_depth r))
  end.

(** The sum of the counts of the trees of the working array. *)
Definition forest_sum (forest : list htree) : Z :=
  fold_right (fun t acc => cnt t + acc) 0 forest.

(** The working array when all leaves have the same count: no count is
    more than twice another, the trees towards the tail are not deeper than
    the shallowest leaf of the trees before them, and all leaves are within
    one level of each other. *)
Definition balanced_forest (forest : list htree) : Prop :=
  (forall t u, In t forest -> In u forest -> cnt t <= 2 * cnt u)
  /\ StronglySorted (fun a b => (height b <= min_depth a)%nat) forest
  /\ (forall s t, In s forest -> In t forest -> (height s <= S (min_depth t))%nat).

(** The histogram is flat at [count_min]: every used symbol enters the tree
    with the count [count_min]. *)
Definition flat_at (histogram : list Z) (count_min : Z) : Prop :=
  Forall (fun h => h <= count_min) histogram.

(** The entries of [bit_depths] for the unused symbols are within the
    limit. *)
Definition unused_within_limit (histogram : list Z) (tree_depth_limit : Z)
    (bit_depths : list Z) : Prop :=
  forall i, 0 <= i < Z.of_nat (length bit_depths) ->
    ~ In i (used_symbols histogram 0) -> load bit_depths i <= tree_depth_limit.

(** An array sorted by [CompareHuffmanTrees], no two entries comparing
    equal. *)
Definition sorted_by_compare (tree : list HuffmanTree) : Prop :=
  StronglySorted (fun a b => CompareHuffmanTrees a b < 0) tree.

(* ------------------------------------------------------------------------- *)
(** ** Notions used to state the further properties *)

(** The Kraft weight of a table of code lengths on the scale [2 ^ 15]: every
    used symbol of length [l] weighs [2 ^ (15 - l)]. *)
Fixpoint kraft_weight (code_lengths : list Z) : Z :=
  match code_lengths with
  | [] => 0
  | l :: rest =>
      (if l =? 0 then 0 else 2 ^ (MAX_ALLOWED_CODE_LENGTH - l)) + kraft_weight rest
  end.

(** The part of the weight that the lengths [1 .. l] make. *)
Fixpoint weight_upto (code_lengths : list Z) (l : nat) : Z :=
  match l with
  | O => 0
  | S l' =>
      weight_upto code_lengths l'
      + used_count code_lengths (Z.of_nat l) * 2 ^ (MAX_ALLOWED_CODE_LENGTH - Z.of_nat l)
  end.

(** A token as the bit writer takes it: a literal 0..15 without extra bits,
    16 with two extra bits, 17 with three, 18 with seven. *)
Definition token_wire_ok (t : HuffmanTreeToken) : Prop :=
  (0 <= code t <= 15 /\ extra_bits t = 0)
  \/ (code t = 16 /\ 0 <= extra_bits t < 4)
  \/ (code t = 17 /\ 0 <= extra_bits t < 8)
  \/ (code t = 18 /\ 0 <= extra_bits t < 128).

(** The number of tokens of a run of [repetitions >= 1] equal lengths coded
    by repeat tokens of at most [longest] repetitions: one token for every
    full [longest], then the rest as one repeat token, or as one or two
    literals when it is shorter than 3. *)
Definition run_cost (longest repetitions : Z) : Z :=
  let rest := (repetitions - 1) mod longest + 1 in
  (repetitions - 1) / longest + (if rest <? 3 then rest else 1).

(** The tokens of a run of [repetitions >= 1] zeros, in closed form: one
    token [{18, 127}] for every full 138 zeros, then for the [rest] of 1 to
    138 zeros one literal 0 per zero when it is shorter than 3, one token 17
    when it is 3 to 10, one token 18 when it is 11 to 138. *)
Definition zero_run_code (repetitions : Z) : list HuffmanTreeToken :=
  let rest := (repetitions - 1) mod 138 + 1 in
  repeat (mkToken 18 127) (Z.to_nat ((repetitions - 1) / 138))
  ++ (if rest <? 3 then repeat (mkToken 0 0) (Z.to_nat rest)
      else if rest <? 11 then [mkToken 17 (rest - 3)]
      else [mkToken 18 (rest - 11)]).

(** The tokens of [left] repetitions of the previous length [value], in
    closed form: none for no repetition; else one token [{16, 3}] for every
    full 6 repetitions, then for the [rest] of 1 to 6 one literal per
    repetition when it is shorter than 3, one token 16 otherwise. *)
Definition value_run_code (value left : Z) : list HuffmanTreeToken :=
  if left <? 1 then []
  else
    let rest := (left - 1) mod 6 + 1 in
    repeat (mkToken 16 3) (Z.to_nat ((left - 1) / 6))
    ++ (if rest <? 3 then repeat (mkToken value 0) (Z.to_nat rest)
        else [mkToken 16 (rest - 3)]).

(** The sum of all counts. *)
Definition total_count (counts : list Z) : Z := sum_range counts 0 (length counts).

(** The state of pass 3 of [OptimizeHuffmanForRle] on entry of turn [i], for
    a histogram [counts0] with counts between 0 and [max_count], [len] being
    its length without the trailing zeros: the array has kept its size and
    its bounds, the stride is not empty after the first turn, the positions
    from its start on are still those of [counts0], [limit] is a
    non-negative [int], and up to the last turn the stride is summed in
    [sum]. *)
Definition smoothing_invariant (counts0 : list Z) (len : nat) (max_count : Z)
    (i : nat) (st : rle_state) : Prop :=
  length (rle_counts st) = length counts0
  /\ Z.min 1 (Z.of_nat i) <= rle_stride st <= Z.of_nat i
  /\ (forall p, Z.of_nat i - rle_stride st <= p ->
        load (rle_counts st) p = load counts0 p)
  /\ (forall p, 0 <= p -> 0 <= load (rle_counts st) p <= max_count)
  /\ 0 <= rle_limit st <= INT_MAX
  /\ ((i <= len)%nat -> stride_invariant i st).

(** Pass 3 of [OptimizeHuffmanForRle] on entry of turn [i], as to the marks
    [good_for_rle]: a marked position is a stride of its own, and the marked
    positions, like the positions from [i - 1] on, still hold the counts of
    [counts0]. *)
Definition protecting_invariant (counts0 good_for_rle : list Z) (i : nat)
    (st : rle_state) : Prop :=
  length (rle_counts st) = length counts0
  /\ 0 <= rle_stride st <= Z.of_nat i
  /\ (forall p, Z.of_nat i - rle_stride st <= p < Z.of_nat i ->
        load good_for_rle p <> 0 -> rle_stride st = 1)
  /\ (forall p, 0 <= p -> load good_for_rle p <> 0 \/ Z.of_nat i - 1 <= p ->
        load (rle_counts st) p = load counts0 p).

(** A run of the value [v] at the positions [a .. b-1] of [counts] that
    cannot be extended, neither to the left nor to the right. *)
Definition maximal_run (counts : list Z) (a b : nat) (v : Z) : Prop :=
  (a < b <= length counts)%nat
  /\ (forall p, Z.of_nat a <= p < Z.of_nat b -> load counts p = v)
  /\ (a = O \/ load counts (Z.of_nat a - 1) <> v)
  /\ (b = length counts \/ load counts (Z.of_nat b) <> v).

(** Whether a run of [n] counts [v] is marked by pass 2. *)
Definition long_run (v : Z) (n : Z) : Prop :=
  (v = 0 /\ 5 <= n) \/ (v <> 0 /\ 7 <= n).

(** Pass 2 of [OptimizeHuffmanForRle] on entry of turn [i], as to the run
    [a .. b-1]: [symbol] is the count before [i], [stride] counts the run
    while [i] is inside it, and the run is marked once [i] is past it. *)
Definition marking_invariant (counts : list Z) (len a b : nat) (i : nat)
    (st : Z * Z * list Z) : Prop :=
  let '(symbol, stride, good_for_rle) := st in
  length good_for_rle = len
  /\ (i = O -> symbol = load counts 0 /\ stride = 0)
  /\ ((1 <= i <= len)%nat -> symbol = load counts (Z.of_nat i - 1))
  /\ ((a < i <= b)%nat -> stride = Z.of_nat i - Z.of_nat a)
  /\ ((b < i)%nat ->
      forall p, Z.of_nat a <= p < Z.of_nat b -> load good_for_rle p = 1).

(** An array sorted as [qsort] leaves it: no entry compares greater than a
    later one. *)
Definition sorted_for_qsort (tree : list HuffmanTree) : Prop :=
  StronglySorted (fun a b => CompareHuffmanTrees a b <= 0) tree.

(** [merges_to forest t]: the merge loop, run on the trees [forest], ends on
    the tree [t]. *)
Inductive merges_to : list htree -> htree -> Prop :=
| merges_done t : merges_to [t] t
| merges_step rest y x t :
    merges_to (merge_forest rest y x) t -> merges_to (rest ++ [y; x]) t.

(** [occurs_at t e d]: [e] is the subtree of [t] at a node of depth [d]. *)
Inductive occurs_at : htree -> htree -> nat -> Prop :=
| occurs_here t : occurs_at t t O
| occurs_left c l r e d : occurs_at l e d -> occurs_at (Node c l r) e (S d)
| occurs_right c l r e d : occurs_at r e d -> occurs_at (Node c l r) e (S d).

Definition is_node (t : htree) : Prop :=
  match t with
  | Node _ _ _ => True
  | Leaf _ _ => False
  end.

(** The order of the depths, in the final tree, of two trees of the working
    array, the first one before the second: the first is not deeper, and
    when it is a merged node the second is at most one level deeper. *)
Definition depth_ordered (a b : htree * nat) : Prop :=
  (snd a <= snd b)%nat /\ (is_node (fst a) -> (snd b <= S (snd a))%nat).

(** The count with which a used symbol enters the tree. *)
Definition raised_count (count_min h : Z) : Z := if h <? count_min then count_min else h.

(** *** Codes as lists of weights and lengths *)

(** The cost of a code: the sum of weight times length. *)
Fixpoint code_cost (C : list (Z * nat)) : Z :=
  match C with
  | [] => 0
  | (w, d) :: rest => w * Z.of_nat d + code_cost rest
  end.

(** The Kraft sum of a code on the scale [2 ^ D]. *)
Fixpoint kraft_at (D : nat) (C : list (Z * nat)) : Z :=
  match C with
  | [] => 0
  | (_, d) :: rest => 2 ^ (Z.of_nat D - Z.of_nat d) + kraft_at D rest
  end.

(** Kraft's inequality for lengths of at most [D]. *)
Definition kraft_valid (D : nat) (C : list (Z * nat)) : Prop :=
  Forall (fun p => (snd p <= D)%nat) C /\ kraft_at D C <= 2 ^ Z.of_nat D.

(** The length [d] is carried down the code and exchanged with every larger
    length on its way: the result is the largest length, and the code with
    the lengths met on the way moved up. *)
Fixpoint push_down (d : nat) (C : list (Z * nat)) : nat * list (Z * nat) :=
  match C with
  | [] => (d, [])
  | (w, e) :: rest =>
      if (d <? e)%nat then
        let '(m, rest') := push_down e rest in (m, (w, d) :: rest')
      else
        let '(m, rest') := push_down d rest in (m, (w, e) :: rest')
  end.

(** The cost of the trees of the working array at their depths in the final
    tree. *)
Fixpoint forest_cost (G : list (htree * nat)) : Z :=
  match G with
  | [] => 0
  | (t, d) :: rest => cnt t * Z.of_nat d + forest_cost rest
  end.

(** The sum, over the used symbols, of [g] applied to the count with which
    the symbol enters the tree and to its entry in [lengths]. *)
Fixpoint used_sum (g : Z -> Z -> Z) (count_min : Z) (histogram lengths : list Z) : Z :=
  match histogram, lengths with
  | h :: histogram', l :: lengths' =>
      (if h =? 0 then 0 else g (raised_count count_min h) l)
      + used_sum g count_min histogram' lengths'
  | _, _ => 0
  end.

(** The cost of coding with the code lengths [lengths]: the sum of count
    times length over the used symbols, the counts raised to [count_min]. *)
Definition coding_cost (count_min : Z) (histogram lengths : list Z) : Z :=
  used_sum Z.mul count_min histogram lengths.

(** The Kraft sum of the code lengths of the used symbols on the scale
    [2 ^ D]. *)
Definition kraft_scaled (D : Z) (histogram lengths : list Z) : Z :=
  used_sum (fun _ l => 2 ^ (D - l)) 1 histogram lengths.

(** A sum over the nodes of the working array. *)
Fixpoint node_sum (f : HuffmanTree -> Z) (tree : list HuffmanTree) : Z :=
  match tree with
  | [] => 0
  | node :: rest => f node + node_sum f rest
  end.
(* ------------------------------------------------------------------------- *)
(** * Properties *)

(** ** Outcomes *)

Lemma bind_Ok_inv {A B : Type} (r : result A) (k : A -> result B) (b : B) :
  bind r k = Ok b -> exists a, r = Ok a /\ k a = Ok b.
Proof. destruct r as [a|e]; simpl; intros H; [eauto | discriminate]. Qed.

Lemma int_ok_inv z z' : int_ok z = Ok z' -> z' = z /\ INT_MIN <= z <= INT_MAX.
Proof.
  unfold int_ok. destruct (INT_MIN <=? z) eqn:E1; destruct (z <=? INT_MAX) eqn:E2;
    simpl; intros H; inversion H; subst. split; [reflexivity | lia].
Qed.

(** Arithmetic is left folded by [simpl]; [lia] deals with it. *)
#[local] Arguments Z.add : simpl never.
#[local] Arguments Z.sub : simpl never.
#[local] Arguments Z.mul : simpl never.
#[local] Arguments Z.div : simpl never.
#[local] Arguments Z.modulo : simpl never.
#[local] Arguments Z.pow : simpl never.
#[local] Arguments Z.of_nat : simpl never.
#[local] Arguments Z.to_nat : simpl never.

(** Boolean comparisons decided by [lia]. *)
Ltac blia :=
  match goal with
  | |- true = (_ <=? _) => symmetry; apply Z.leb_le; lia
  | |- false = (_ <=? _) => symmetry; apply Z.leb_gt; lia
  | |- true = (_ <? _) => symmetry; apply Z.ltb_lt; lia
  | |- false = (_ <? _) => symmetry; apply Z.ltb_ge; lia
  | |- true = (_ =? _) => symmetry; apply Z.eqb_eq; lia
  | |- false = (_ =? _) => symmetry; apply Z.eqb_neq; lia
  | _ => lia
  end.

(** Case analysis on the comparisons of the goal. *)
Ltac split_cmp :=
  repeat match goal with
  | |- context [?a <? ?b] => destruct (Z.ltb_spec a b)
  | |- context [?a <=? ?b] => destruct (Z.leb_spec a b)
  | |- context [?a =? ?b] => destruct (Z.eqb_spec a b)
  end.

(** ** Arrays *)

Lemma length_update a : forall n v, length (update a n v) = length a.
Proof. induction a as [|h t IH]; intros [|n] v; simpl; auto. Qed.

Lemma length_store a i v : length (store a i v) = length a.
Proof. unfold store. destruct (0 <=? i); [apply length_update | reflexivity]. Qed.

Lemma nth_update_same a : forall n v d,
  (n < length a)%nat -> nth n (update a n v) d = v.
Proof.
  induction a as [|h t IH]; intros [|n] v d H; simpl in *; try lia; auto.
  apply IH. lia.
Qed.

Lemma nth_update_other a : forall n m v d,
  n <> m -> nth m (update a n v) d = nth m a d.
Proof.
  induction a as [|h t IH]; intros [|n] [|m] v d H; simpl; auto; try congruence.
Qed.

Lemma load_store_same a i v :
  0 <= i < Z.of_nat (length a) -> load (store a i v) i = v.
Proof.
  intros H. unfold load, store. replace (0 <=? i) with true by lia.
  apply nth_update_same. lia.
Qed.

Lemma load_store_other a i j v :
  0 <= j -> i <> j -> load (store a i v) j = load a j.
Proof.
  intros Hj H. unfold load, store. destruct (Z.leb_spec 0 i); [|reflexivity].
  apply nth_update_other. lia.
Qed.

Lemma load_store a i j v :
  0 <= i < Z.of_nat (length a) -> 0 <= j ->
  load (store a i v) j = if i =? j then v else load a j.
Proof.
  intros Hi Hj. destruct (Z.eqb_spec i j) as [->|Hne].
  - now apply load_store_same.
  - now apply load_store_other.
Qed.

Lemma load_repeat_0 n i : load (repeat 0 n) i = 0.
Proof.
  unfold load. generalize (Z.to_nat i). induction n; intros [|m]; simpl; auto.
Qed.

Lemma load_Forall (P : Z -> Prop) a i :
  Forall P a -> P 0 -> P (load a i).
Proof.
  intros Ha H0. unfold load. destruct (nth_in_or_default (Z.to_nat i) a 0) as [Hin| ->].
  - rewrite Forall_forall in Ha. auto.
  - exact H0.
Qed.

(* ------------------------------------------------------------------------- *)
(** ** The histogram smoother *)

Example OptimizeHuffmanForRle_example1 :
  OptimizeHuffmanForRle 5 [1; 0; 0; 0; 1] = Ok [1; 1; 1; 1; 1].
Proof. vm_compute. reflexivity. Qed.

Example OptimizeHuffmanForRle_example2 :
  OptimizeHuffmanForRle 12 [10; 12; 11; 9; 0; 0; 0; 0; 0; 0; 40; 0]
  = Ok [11; 11; 11; 11; 0; 0; 0; 0; 0; 0; 40; 0].
Proof. vm_compute. reflexivity. Qed.

(** *** Loops *)

Lemma for_each_app {S : Type} (body : Z -> S -> result S) l1 : forall l2 s,
  for_each (l1 ++ l2) body s = (s' <- for_each l1 body s ;; for_each l2 body s').
Proof.
  induction l1 as [|i l1 IH]; intros l2 s; simpl; [reflexivity|].
  destruct (body i s) as [s'|e]; simpl; [apply IH | reflexivity].
Qed.

Lemma range_S n : range (S n) = range n ++ [Z.of_nat n].
Proof. unfold range. rewrite seq_S, map_app. reflexivity. Qed.

(** An invariant of the turns [0 .. n-1] holds after the loop. *)
Lemma for_each_range_invariant {S : Type} (body : Z -> S -> result S)
    (P : nat -> S -> Prop) n :
  (forall i s s', (i < n)%nat -> P i s -> body (Z.of_nat i) s = Ok s' -> P (Datatypes.S i) s') ->
  forall s s', P O s -> for_each (range n) body s = Ok s' -> P n s'.
Proof.
  induction n as [|n IH]; intros Hstep s s' H0 Hrun.
  - simpl in Hrun. inversion Hrun; subst. exact H0.
  - rewrite range_S, for_each_app in Hrun.
    apply bind_Ok_inv in Hrun. destruct Hrun as (s1 & Hrun1 & Hrun2).
    simpl in Hrun2. apply bind_Ok_inv in Hrun2. destruct Hrun2 as (s2 & Hb & Hs).
    inversion Hs; subst s2.
    apply (Hstep n s1 s'); [lia | | exact Hb].
    apply (IH ltac:(intros; eapply Hstep; eauto; lia) s s1 H0 Hrun1).
Qed.

(** *** [fill_back] *)

Lemma fill_back_S a i n v :
  fill_back a i (Z.of_nat (S n)) v
  = store (fill_back a i (Z.of_nat n) v) (i - Z.of_nat n - 1) v.
Proof.
  unfold fill_back. rewrite !Nat2Z.id, range_S, fold_left_app. reflexivity.
Qed.

Lemma length_fill_back a i stride v : length (fill_back a i stride v) = length a.
Proof.
  unfold fill_back. generalize (range (Z.to_nat stride)). intros l. revert a.
  induction l as [|k l IH]; intros a; simpl; [reflexivity|].
  now rewrite IH, length_store.
Qed.

Lemma load_fill_back_nat a i v p : forall n,
  Z.of_nat n <= i <= Z.of_nat (length a) -> 0 <= p ->
  load (fill_back a i (Z.of_nat n) v) p
  = if (i - Z.of_nat n <=? p) && (p <? i) then v else load a p.
Proof.
  induction n as [|n IH]; intros Hi Hp.
  - unfold fill_back. simpl. split_cmp; simpl; try reflexivity; lia.
  - rewrite fill_back_S. rewrite load_store; [| rewrite length_fill_back; lia | lia].
    rewrite IH by lia.
    split_cmp; simpl; try reflexivity; lia.
Qed.

Lemma load_fill_back a i stride v p :
  0 <= stride <= i -> i <= Z.of_nat (length a) -> 0 <= p ->
  load (fill_back a i stride v) p
  = if (i - stride <=? p) && (p <? i) then v else load a p.
Proof.
  intros Hs Hi Hp. rewrite <- (Z2Nat.id stride) at 1 by lia.
  rewrite load_fill_back_nat by lia. rewrite Z2Nat.id by lia. reflexivity.
Qed.

(** *** Sums over a stride *)

Lemma sum_range_snoc a : forall n from,
  sum_range a from (S n) = sum_range a from n + load a (from + Z.of_nat n).
Proof.
  induction n as [|n IH]; intros from.
  - simpl. replace (from + Z.of_nat 0) with from by lia. lia.
  - cbn [sum_range] in *. rewrite IH.
    replace (from + 1 + Z.of_nat n) with (from + Z.of_nat (S n)) by lia. lia.
Qed.

Lemma sum_range_ext a b : forall n from,
  (forall p, from <= p < from + Z.of_nat n -> load a p = load b p) ->
  sum_range a from n = sum_range b from n.
Proof.
  induction n as [|n IH]; intros from H; cbn [sum_range]; [reflexivity|].
  rewrite H by lia. rewrite (IH (from + 1)); [reflexivity|].
  intros p Hp. apply H. lia.
Qed.

Lemma sum_range_nonneg a : forall n from,
  (forall p, from <= p < from + Z.of_nat n -> 0 <= load a p) ->
  0 <= sum_range a from n.
Proof.
  induction n as [|n IH]; intros from H; cbn [sum_range]; [lia|].
  pose proof (H from ltac:(lia)). pose proof (IH (from + 1) ltac:(intros; apply H; lia)).
  lia.
Qed.

Lemma sum_range_zero a : forall n from,
  (forall p, from <= p < from + Z.of_nat n -> 0 <= load a p) ->
  sum_range a from n = 0 ->
  forall p, from <= p < from + Z.of_nat n -> load a p = 0.
Proof.
  induction n as [|n IH]; intros from Hnn Hs p Hp; [lia|].
  cbn [sum_range] in Hs.
  pose proof (Hnn from ltac:(lia)).
  pose proof (sum_range_nonneg a n (from + 1) ltac:(intros; apply Hnn; lia)).
  destruct (Z.eq_dec p from) as [->|Hne]; [lia|].
  apply (IH (from + 1)); try lia. intros q Hq. apply Hnn. lia.
Qed.

(** *** One turn of pass 3 *)

(** The state in the middle of a turn, after the stride was ended (or not). *)
Lemma collapse_step_inv length good i st st' :
  collapse_step length good i st = Ok st' ->
  exists ends st1,
    stride_ends length good i st = Ok ends
    /\ (if ends : bool then
          exists counts1 limit1,
            st1 = mkRle counts1 0 limit1 0
            /\ (if stride_collapses st then
                  exists count,
                    collapsed_count (rle_sum st) (rle_stride st) = Ok count
                    /\ counts1 = fill_back (rle_counts st) i (rle_stride st) count
                else counts1 = rle_counts st)
        else st1 = st)
    /\ rle_counts st' = rle_counts st1
    /\ rle_stride st' = rle_stride st1 + 1
    /\ rle_sum st'
       = if i =? length then rle_sum st1 else rle_sum st1 + load (rle_counts st1) i.
Proof.
  unfold collapse_step. intros H.
  apply bind_Ok_inv in H. destruct H as (ends & Hends & H).
  apply bind_Ok_inv in H. destruct H as (st1 & Hst1 & H).
  exists ends, st1. split; [assumption|]. split.
  - destruct ends; [|now inversion Hst1].
    apply bind_Ok_inv in Hst1. destruct Hst1 as (counts1 & Hc & Hst1).
    apply bind_Ok_inv in Hst1. destruct Hst1 as (limit1 & Hl & Hst1).
    inversion Hst1; subst st1; clear Hst1.
    exists counts1, limit1. split; [reflexivity|].
    destruct (stride_collapses st).
    + apply bind_Ok_inv in Hc. destruct Hc as (count & Hcount & Hc).
      inversion Hc; subst. eauto.
    + now inversion Hc.
  - destruct (Z.eqb_spec i length) as [->|Hne]; simpl in H.
    + inversion H; subst; simpl. auto.
    + apply bind_Ok_inv in H. destruct H as (sum & Hsum & H).
      apply bind_Ok_inv in H. destruct H as (limit & Hlimit & H).
      inversion H; subst; simpl. apply int_ok_inv in Hsum. destruct Hsum as [-> _].
      auto.
Qed.

Lemma collapsed_count_inv sum stride count :
  collapsed_count sum stride = Ok count ->
  count = if sum =? 0 then 0 else Z.max 1 ((sum + stride ÷ 2) ÷ stride).
Proof.
  unfold collapsed_count. intros H.
  apply bind_Ok_inv in H. destruct H as (s & Hs & H).
  apply int_ok_inv in Hs. destruct Hs as [-> _]. inversion H; subst; clear H.
  destruct (sum =? 0); [reflexivity|].
  destruct (Z.ltb_spec ((sum + stride ÷ 2) ÷ stride) 1); lia.
Qed.

(** The invariant on the stride is kept by every turn before the last. *)
Lemma collapse_step_stride_invariant length good i st st' :
  (i < length)%nat ->
  collapse_step (Z.of_nat length) good (Z.of_nat i) st = Ok st' ->
  stride_invariant i st -> stride_invariant (S i) st'.
Proof.
  intros Hi Hstep [Hs Hsum].
  apply collapse_step_inv in Hstep.
  destruct Hstep as (ends & st1 & _ & Hst1 & Hc & Hstr & Hsm).
  replace (Z.of_nat i =? Z.of_nat length) with false in Hsm by lia.
  unfold stride_invariant. rewrite Hc, Hstr, Hsm.
  destruct ends.
  - destruct Hst1 as (counts1 & limit1 & -> & _). simpl.
    split; [lia|]. replace (Z.of_nat (S i) - (0 + 1)) with (Z.of_nat i) by lia. lia.
  - subst st1. split; [lia|].
    replace (Z.to_nat (rle_stride st + 1)) with (S (Z.to_nat (rle_stride st))) by lia.
    rewrite sum_range_snoc, Hsum. rewrite Z2Nat.id by lia.
    replace (Z.of_nat (S i) - (rle_stride st + 1)) with (Z.of_nat i - rle_stride st) by lia.
    replace (Z.of_nat i - rle_stride st + rle_stride st) with (Z.of_nat i) by lia.
    reflexivity.
Qed.

Lemma stride_invariant_before length counts : forall i st,
  (i <= length)%nat ->
  rle_state_before length counts i = Ok st ->
  stride_invariant i st.
Proof.
  unfold rle_state_before. intros i st Hi Hrun.
  revert Hrun.
  apply (for_each_range_invariant _ (fun i st => stride_invariant i st)).
  - intros j s s' Hj Hinv Hstep.
    apply (collapse_step_stride_invariant length (mark_good_for_rle length counts) j s s');
      [lia | assumption | assumption].
  - split; simpl; lia.
Qed.

(** C9, as the code has it.  In pass 3 of [OptimizeHuffmanForRle], whenever
    a stride is collapsed (its length is at least 4, or at least 3 with sum
    zero), every position of the stride is overwritten with the stride's
    rounded mean [(sum + stride / 2) / stride] raised to at least 1, except
    that a stride whose sum is zero is overwritten with 0.  The positions of
    the stride are the [rle_stride] positions before [i], [sum] is the sum
    of their counts, and no other position is written. *)
Theorem collapsed_stride_value (length : nat) (counts : list Z) (i : nat)
    (st st' : rle_state) :
  (i <= length <= List.length counts)%nat ->
  rle_state_before length counts i = Ok st ->
  collapse_step (Z.of_nat length) (mark_good_for_rle length counts) (Z.of_nat i) st
    = Ok st' ->
  stride_ends (Z.of_nat length) (mark_good_for_rle length counts) (Z.of_nat i) st
    = Ok true ->
  stride_collapses st = true ->
  let stride := rle_stride st in
  let sum := sum_range (rle_counts st) (Z.of_nat i - stride) (Z.to_nat stride) in
  rle_sum st = sum
  /\ 3 <= stride <= Z.of_nat i
  /\ (4 <= stride \/ sum = 0)
  /\ (forall p, Z.of_nat i - stride <= p < Z.of_nat i ->
        load (rle_counts st') p
        = if sum =? 0 then 0 else Z.max 1 ((sum + stride ÷ 2) ÷ stride))
  /\ (forall p, 0 <= p -> ~ (Z.of_nat i - stride <= p < Z.of_nat i) ->
        load (rle_counts st') p = load (rle_counts st) p).
Proof.
  intros Hi Hbefore Hstep Hends Hcol. cbv zeta.
  assert (Hlen : List.length (rle_counts st) = List.length counts).
  { revert Hbefore. unfold rle_state_before.
    apply (for_each_range_invariant _
             (fun _ s => List.length (rle_counts s) = List.length counts)); [|reflexivity].
    intros j s s' _ Hs Hj. apply collapse_step_inv in Hj.
    destruct Hj as (ends & st1 & _ & Hst1 & Hc & _). rewrite Hc.
    destruct ends; [|now subst].
    destruct Hst1 as (counts1 & limit1 & -> & Hc1). simpl.
    destruct (stride_collapses s).
    - destruct Hc1 as (count & _ & ->). now rewrite length_fill_back.
    - now subst. }
  destruct (stride_invariant_before length counts i st ltac:(lia) Hbefore) as [Hs Hsum].
  apply collapse_step_inv in Hstep.
  destruct Hstep as (ends & st1 & Hends' & Hst1 & Hc & _).
  rewrite Hends in Hends'. inversion Hends'; subst ends; clear Hends'.
  destruct Hst1 as (counts1 & limit1 & -> & Hc1). rewrite Hcol in Hc1.
  destruct Hc1 as (count & Hcount & ->). simpl in Hc. rewrite Hc.
  apply collapsed_count_inv in Hcount. rewrite Hsum in Hcount.
  unfold stride_collapses in Hcol.
  split; [assumption|]. split.
  { destruct (Z.leb_spec 4 (rle_stride st)); simpl in Hcol; [lia|].
    destruct (Z.leb_spec 3 (rle_stride st)); simpl in Hcol; [lia | discriminate]. }
  split.
  { destruct (Z.leb_spec 4 (rle_stride st)); simpl in Hcol; [now left|].
    right. rewrite <- Hsum.
    destruct (Z.eqb_spec (rle_sum st) 0); [assumption|].
    rewrite andb_false_r in Hcol. discriminate. }
  split.
  - intros p Hp. rewrite load_fill_back by lia.
    replace ((Z.of_nat i - rle_stride st <=? p) && (p <? Z.of_nat i)) with true
      by (symmetry; apply andb_true_intro; split; lia).
    exact Hcount.
  - intros p Hp Hnot. rewrite load_fill_back by lia.
    destruct (Z.leb_spec (Z.of_nat i - rle_stride st) p);
      destruct (Z.ltb_spec p (Z.of_nat i)); simpl; try reflexivity; lia.
Qed.

Lemma collapsed_stride_value_witness :
  let st := mkRle [1; 0; 0; 0; 1] 5 0 2 in
  let st' := mkRle [1; 1; 1; 1; 1] 1 0 0 in
  let stride := rle_stride st in
  let sum := sum_range (rle_counts st) (Z.of_nat 5 - stride) (Z.to_nat stride) in
  rle_sum st = sum
  /\ 3 <= stride <= Z.of_nat 5
  /\ (4 <= stride \/ sum = 0)
  /\ (forall p, Z.of_nat 5 - stride <= p < Z.of_nat 5 ->
        load (rle_counts st') p
        = if sum =? 0 then 0 else Z.max 1 ((sum + stride ÷ 2) ÷ stride))
  /\ (forall p, 0 <= p -> ~ (Z.of_nat 5 - stride <= p < Z.of_nat 5) ->
        load (rle_counts st') p = load (rle_counts st) p).
Proof.
  apply (collapsed_stride_value 5 [1; 0; 0; 0; 1] 5
           (mkRle [1; 0; 0; 0; 1] 5 0 2) (mkRle [1; 1; 1; 1; 1] 1 0 0)).
  - simpl. lia.
  - vm_compute. reflexivity.
  - vm_compute. reflexivity.
  - vm_compute. reflexivity.
  - vm_compute. reflexivity.
Defined.

(** The claim C9 as the specification words it fails: the stride
    [1, 0, 0, 0, 1] has the sum 2 and the rounded mean (2 + 2) / 5 = 0, and
    is overwritten with 1. *)
Lemma collapsed_stride_value_counterexample :
  let good := mark_good_for_rle 5 [1; 0; 0; 0; 1] in
  let st := mkRle [1; 0; 0; 0; 1] 5 0 2 in
  rle_state_before 5 [1; 0; 0; 0; 1] 5 = Ok st
  /\ stride_ends 5 good 5 st = Ok true
  /\ stride_collapses st = true
  /\ collapse_step 5 good 5 st = Ok (mkRle [1; 1; 1; 1; 1] 1 0 0)
  /\ sum_range [1; 0; 0; 0; 1] 0 5 = 2
  /\ (2 + 5 ÷ 2) ÷ 5 = 0
  /\ load [1; 1; 1; 1; 1] 1 <> 0
  /\ OptimizeHuffmanForRle 5 [1; 0; 0; 0; 1] = Ok [1; 1; 1; 1; 1].
Proof. vm_compute. repeat split; discriminate. Qed.

(** *** Used symbols stay used *)

Lemma trim_length_le counts : forall length, (trim_length length counts <= length)%nat.
Proof.
  induction length as [|n IH]; simpl; [lia|].
  destruct (negb (load counts (Z.of_nat n) =? 0)); lia.
Qed.

Lemma collapse_step_keeps_used counts0 length good i st st' :
  (i <= length <= List.length counts0)%nat ->
  collapse_step (Z.of_nat length) good (Z.of_nat i) st = Ok st' ->
  stride_invariant i st ->
  keeps_used counts0 (rle_counts st) ->
  keeps_used counts0 (rle_counts st').
Proof.
  intros Hi Hstep [Hs Hsum] (Hlen & Hnn & Hpos).
  apply collapse_step_inv in Hstep.
  destruct Hstep as (ends & st1 & _ & Hst1 & Hc & _). rewrite Hc.
  destruct ends; [|subst st1; repeat split; assumption].
  destruct Hst1 as (counts1 & limit1 & -> & Hc1). simpl.
  destruct (stride_collapses st); [|subst counts1; repeat split; assumption].
  destruct Hc1 as (count & Hcount & ->).
  apply collapsed_count_inv in Hcount.
  assert (Hsn : 0 <= rle_sum st).
  { rewrite Hsum. apply sum_range_nonneg. intros p Hp. apply Hnn. lia. }
  split; [now rewrite length_fill_back|]. split.
  - intros p Hp. rewrite load_fill_back by lia.
    destruct ((Z.of_nat i - rle_stride st <=? p) && (p <? Z.of_nat i)); [|auto].
    subst count. destruct (rle_sum st =? 0); lia.
  - intros p Hp Hp0. rewrite load_fill_back by lia.
    destruct (Z.leb_spec (Z.of_nat i - rle_stride st) p);
      destruct (Z.ltb_spec p (Z.of_nat i)); simpl; auto.
    subst count. destruct (Z.eqb_spec (rle_sum st) 0) as [E|E]; [|lia].
    exfalso. rewrite Hsum in E.
    apply sum_range_zero with (p := p) in E;
      [| intros q Hq; apply Hnn; lia | lia].
    specialize (Hpos p Hp Hp0). lia.
Qed.

(** [OptimizeHuffmanForRle] keeps the size of the histogram, and on a
    histogram without negative counts it yields no negative count and keeps
    every positive count positive. *)
Lemma OptimizeHuffmanForRle_keeps_used counts counts' :
  (forall p, 0 <= p -> 0 <= load counts p) ->
  OptimizeHuffmanForRle (List.length counts) counts = Ok counts' ->
  keeps_used counts counts'.
Proof.
  intros Hnn. unfold OptimizeHuffmanForRle.
  pose proof (trim_length_le counts (List.length counts)) as Hle.
  destruct (trim_length (List.length counts) counts) as [|n] eqn:El.
  { intros H. inversion H; subst. repeat split; auto. }
  set (len := S n) in *. intros H.
  apply bind_Ok_inv in H. destruct H as (st & Hrun & H). inversion H; subst counts'.
  assert (Hinv : keeps_used counts (rle_counts st)
                 /\ ((len + 1 <= len)%nat -> stride_invariant (len + 1) st)).
  { revert Hrun.
    apply (for_each_range_invariant _
             (fun i s => keeps_used counts (rle_counts s)
                         /\ ((i <= len)%nat -> stride_invariant i s))).
    - intros i s s' Hi [Hk Hsi] Hstep. split.
      + apply (collapse_step_keeps_used counts len (mark_good_for_rle len counts) i s s');
          try assumption; [lia | apply Hsi; lia].
      + intros Hi'.
        apply (collapse_step_stride_invariant len (mark_good_for_rle len counts) i s s');
          [lia | assumption | apply Hsi; lia].
    - split; [repeat split; auto|]. intros _. split; simpl; lia. }
  apply Hinv.
Qed.

(* ------------------------------------------------------------------------- *)
(** ** The tree builder *)

(** Four symbols of equal counts get the depth 2; the assertion of the
    source asks for a limit of 3 to let them in. *)
Example GenerateOptimalTree_example1 :
  GenerateOptimalTree 1 [1; 1; 1; 1] 3 [0; 0; 0; 0] = Ok [2; 2; 2; 2]
  /\ assign_depths [1; 1; 1; 1] 1 [0; 0; 0; 0] = Ok [2; 2; 2; 2]
  /\ GenerateOptimalTree 1 [1; 1; 1; 1] 2 [0; 0; 0; 0] = Err AssertionFailure.
Proof. repeat split; vm_compute; reflexivity. Qed.

Example GenerateOptimalTree_example2 :
  GenerateOptimalTree 1 [5] 1 [0] = Ok [1].
Proof. vm_compute. reflexivity. Qed.

(** A second try, with the counts raised to 2, is needed here: the first
    one gives the depths [6, 6, 0, 5, 4, 3, 2, 1]. *)
Example GenerateOptimalTree_example3 :
  GenerateOptimalTree 1 [1; 0; 2; 4; 8; 16] 4 [0; 0; 0; 0; 0; 0] = Ok [4; 0; 4; 3; 2; 1]
  /\ assign_depths [1; 1; 0; 2; 3; 5; 8; 13] 1 [0; 0; 0; 0; 0; 0; 0; 0]
     = Ok [6; 6; 0; 5; 4; 3; 2; 1]
  /\ GenerateOptimalTree 2 [1; 1; 0; 2; 3; 5; 8; 13] 4 [0; 0; 0; 0; 0; 0; 0; 0]
     = Ok [3; 4; 0; 4; 3; 3; 2; 2].
Proof. repeat split; vm_compute; reflexivity. Qed.

(** Five used symbols fit in three bits, but not under the assertion of the
    source, which allows 2^(3-1) of them. *)
Example GenerateOptimalTree_example4 :
  GenerateOptimalTree 3 [1; 0; 2; 4; 8; 16] 3 [0; 0; 0; 0; 0; 0] = Err AssertionFailure.
Proof. vm_compute. reflexivity. Qed.

Example VP8LCreateHuffmanTree_example :
  VP8LCreateHuffmanTree 1 [1; 0; 0; 0; 1] 15 (mkCode [0; 0; 0; 0; 0] [0; 0; 0; 0; 0])
  = Ok ([1; 1; 1; 1; 1], mkCode [2; 2; 2; 3; 3] [0; 2; 1; 3; 7]).
Proof. vm_compute. reflexivity. Qed.

(** *** Trees and the pool *)

Lemma pool_at_app pool extra i t :
  pool_at pool i = Ok t -> pool_at (pool ++ extra) i = Ok t.
Proof.
  unfold pool_at. destruct (0 <=? i); [|discriminate].
  destruct (nth_error pool (Z.to_nat i)) as [x|] eqn:E; [|discriminate].
  intros H. inversion H; subst.
  rewrite nth_error_app1 by (apply nth_error_Some; congruence).
  now rewrite E.
Qed.

Lemma represents_app pool extra node t :
  represents pool node t -> represents (pool ++ extra) node t.
Proof.
  induction 1 as [node Hl | node l r tl tr Hl Hpl Hpr _ IHl _ IHr].
  - now constructor.
  - apply represents_node with (l := l) (r := r); auto using pool_at_app.
Qed.

Lemma length_write_depths t : forall level bd,
  length (write_depths t level bd) = length bd.
Proof.
  induction t as [c v | c l IHl r IHr]; intros level bd; simpl.
  - apply length_store.
  - now rewrite IHr, IHl.
Qed.

(** [SetBitDepths] on a node that stands for [t] writes the depths of [t]. *)
Lemma SetBitDepths_represents pool node t :
  represents pool node t ->
  forall fuel bd level,
    (height t < fuel)%nat ->
    (forall v, In v (leaf_values t) -> 0 <= v < Z.of_nat (length bd)) ->
    SetBitDepths fuel node pool bd level = Ok (write_depths t level bd).
Proof.
  induction 1 as [node Hl | node l r tl tr Hl Hpl Hpr _ IHl _ IHr];
    intros fuel bd level Hf Hv.
  - destruct fuel as [|fuel]; [lia|]. simpl.
    replace (0 <=? pool_index_left_ node) with false by lia.
    unfold store_checked. specialize (Hv (value_ node) ltac:(simpl; auto)).
    replace ((0 <=? value_ node) && (value_ node <? Z.of_nat (length bd))) with true
      by (symmetry; apply andb_true_intro; split; lia).
    reflexivity.
  - destruct fuel as [|fuel]; [lia|]. cbn [SetBitDepths height] in *.
    replace (0 <=? pool_index_left_ node) with true by lia.
    rewrite Hpl. cbn [bind].
    rewrite IHl; [| lia | intros v Hin; apply Hv; simpl; apply in_or_app; auto].
    cbn [bind]. rewrite Hpr. cbn [bind].
    apply IHr; [lia|]. intros v Hin. rewrite length_write_depths.
    apply Hv. simpl. apply in_or_app. auto.
Qed.

Lemma leaf_depths_values t : forall level,
  map fst (leaf_depths t level) = leaf_values t.
Proof.
  induction t as [c v | c l IHl r IHr]; intros level; simpl; [reflexivity|].
  now rewrite map_app, IHl, IHr.
Qed.

Lemma load_write_depths_other t : forall level bd v,
  0 <= v -> ~ In v (leaf_values t) ->
  load (write_depths t level bd) v = load bd v.
Proof.
  induction t as [c w | c l IHl r IHr]; intros level bd v Hv Hnot; simpl in *.
  - apply load_store_other; [assumption|]. intros ->. apply Hnot. auto.
  - rewrite IHr, IHl; auto; intros Hin; apply Hnot; apply in_or_app; auto.
Qed.

Lemma load_write_depths t : forall level bd v d,
  NoDup (leaf_values t) ->
  (forall w, In w (leaf_values t) -> 0 <= w < Z.of_nat (length bd)) ->
  In (v, d) (leaf_depths t level) ->
  load (write_depths t level bd) v = u8 d.
Proof.
  induction t as [c w | c l IHl r IHr]; intros level bd v d Hnd Hr Hin; simpl in *.
  - destruct Hin as [Hin|[]]. inversion Hin; subst.
    apply load_store_same. apply Hr. auto.
  - apply NoDup_app_remove_l in Hnd as Hndr.
    apply NoDup_app_remove_r in Hnd as Hndl.
    apply in_app_or in Hin. destruct Hin as [Hin|Hin].
    + rewrite load_write_depths_other.
      * apply IHl; auto. intros w Hw. apply Hr. apply in_or_app. auto.
      * assert (In v (leaf_values l)).
        { rewrite <- (leaf_depths_values l (level + 1)).
          apply (in_map fst) in Hin. exact Hin. }
        specialize (Hr v ltac:(apply in_or_app; auto)). lia.
      * intros Hin'. 
        assert (In v (leaf_values l)).
        { rewrite <- (leaf_depths_values l (level + 1)).
          apply (in_map fst) in Hin. exact Hin. }
        revert Hnd. clear -H Hin'. intros Hnd.
        induction (leaf_values l) as [|x xs IH]; simpl in *; [contradiction|].
        inversion Hnd as [|? ? Hx Hxs]; subst. destruct H as [->|H].
        -- apply Hx. apply in_or_app. auto.
        -- auto.
    + apply IHr; auto. intros w Hw. rewrite length_write_depths.
      apply Hr. apply in_or_app. auto.
Qed.

(** *** One turn of the merge loop *)

Lemma list_last_two {A : Type} (l : list A) :
  (2 <= length l)%nat -> exists rest y x, l = rest ++ [y; x].
Proof.
  intros H. destruct (exists_last (l := l)) as (l1 & x & ->).
  { intros ->; simpl in H; lia. }
  rewrite length_app in H. simpl in H.
  destruct (exists_last (l := l1)) as (rest & y & ->).
  { intros ->; simpl in H; lia. }
  exists rest, y, x. now rewrite <- app_assoc.
Qed.

Lemma nth_error_last_two {A : Type} (rest : list A) y x :
  nth_error (rest ++ [y; x]) (length (rest ++ [y; x]) - 1) = Some x
  /\ nth_error (rest ++ [y; x]) (length (rest ++ [y; x]) - 2) = Some y
  /\ firstn (length (rest ++ [y; x]) - 2) (rest ++ [y; x]) = rest.
Proof.
  rewrite length_app. simpl.
  replace (length rest + 2 - 1)%nat with (length rest + 1)%nat by lia.
  replace (length rest + 2 - 2)%nat with (length rest + 0)%nat by lia.
  rewrite !nth_error_app2 by lia.
  replace (length rest + 1 - length rest)%nat with 1%nat by lia.
  replace (length rest + 0 - length rest)%nat with 0%nat by lia.
  rewrite Nat.add_0_r, firstn_app, Nat.sub_diag, firstn_all. simpl.
  now rewrite app_nil_r.
Qed.

Lemma represents_cnt pool node t :
  represents pool node t -> cnt t = total_count_ node.
Proof. destruct 1; reflexivity. Qed.

Lemma insertion_point_represents pool count tree forest :
  Forall2 (represents pool) tree forest ->
  insertion_point tree count = forest_insertion_point forest count.
Proof.
  induction 1 as [|node t tree forest Hr _ IH]; simpl; [reflexivity|].
  rewrite (represents_cnt _ _ _ Hr). destruct (total_count_ node <=? count); congruence.
Qed.

Lemma Forall2_firstn {A B : Type} (R : A -> B -> Prop) l1 l2 : forall n,
  Forall2 R l1 l2 -> Forall2 R (firstn n l1) (firstn n l2).
Proof.
  intros n H. revert n. induction H; intros [|n]; simpl; constructor; auto.
Qed.

Lemma Forall2_skipn {A B : Type} (R : A -> B -> Prop) l1 l2 : forall n,
  Forall2 R l1 l2 -> Forall2 R (skipn n l1) (skipn n l2).
Proof.
  intros n H. revert n. induction H; intros [|n]; simpl; try constructor; auto.
Qed.

Lemma pool_at_last_two pool last before_last :
  let pool' := pool ++ [last; before_last] in
  pool_at pool' (Z.of_nat (length pool') - 1) = Ok before_last
  /\ pool_at pool' (Z.of_nat (length pool') - 2) = Ok last.
Proof.
  cbv zeta. rewrite length_app. simpl. unfold pool_at.
  replace (0 <=? Z.of_nat (length pool + 2) - 1) with true by blia.
  replace (0 <=? Z.of_nat (length pool + 2) - 2) with true by blia.
  replace (Z.to_nat (Z.of_nat (length pool + 2) - 1)) with (length pool + 1)%nat by lia.
  replace (Z.to_nat (Z.of_nat (length pool + 2) - 2)) with (length pool + 0)%nat by lia.
  rewrite !nth_error_app2 by lia.
  replace (length pool + 1 - length pool)%nat with 1%nat by lia.
  replace (length pool + 0 - length pool)%nat with 0%nat by lia.
  simpl. auto.
Qed.

(** A turn of the loop on the array is a turn on the trees it stands for. *)
Lemma merge_step_represents pool tree forest tree' pool' :
  Forall2 (represents pool) tree forest ->
  (2 <= length tree)%nat ->
  merge_step tree pool = Ok (tree', pool') ->
  exists rest y x,
    forest = rest ++ [y; x]
    /\ Forall2 (represents pool') tree' (merge_forest rest y x)
    /\ INT_MIN <= cnt y + cnt x <= INT_MAX
    /\ length pool' = (length pool + 2)%nat.
Proof.
  intros Hrep Hlen Hstep.
  destruct (list_last_two tree Hlen) as (trest & bl & last & ->).
  apply Forall2_app_inv_l in Hrep.
  destruct Hrep as (rest & tail & Hrest & Htail & ->).
  inversion Htail as [|? y ? tail' Hy Htail']; subst.
  inversion Htail' as [|? x ? tail'' Hx Htail'']; subst.
  inversion Htail''; subst.
  exists rest, y, x. split; [reflexivity|].
  unfold merge_step in Hstep.
  destruct (nth_error_last_two trest bl last) as (E1 & E2 & E3).
  rewrite E1, E2, E3 in Hstep.
  apply bind_Ok_inv in Hstep. destruct Hstep as (count & Hcount & Hstep).
  apply int_ok_inv in Hcount. destruct Hcount as [-> Hrange].
  inversion Hstep; subst tree' pool'; clear Hstep.
  rewrite (represents_cnt _ _ _ Hy), (represents_cnt _ _ _ Hx).
  split; [|split; [assumption | rewrite length_app; reflexivity]].
  unfold merge_forest.
  rewrite (represents_cnt _ _ _ Hy), (represents_cnt _ _ _ Hx).
  rewrite (insertion_point_represents pool _ trest rest Hrest).
  assert (Hrest' : Forall2 (represents (pool ++ [last; bl])) trest rest).
  { revert Hrest. apply Forall2_impl. intros a b. apply represents_app. }
  apply Forall2_app; [now apply Forall2_firstn|].
  constructor; [|now apply Forall2_skipn].
  destruct (pool_at_last_two pool last bl) as [P1 P2].
  set (node := mkTree _ _ _ _).
  change (total_count_ bl + total_count_ last) with (total_count_ node).
  apply represents_node with (l := bl) (r := last); subst node; simpl.
  - rewrite length_app. simpl. lia.
  - exact P1.
  - exact P2.
  - now apply represents_app.
  - now apply represents_app.
Qed.

(** *** The place of the merged node *)

Lemma StronglySorted_app {A : Type} (R : A -> A -> Prop) (a b : list A) :
  StronglySorted R (a ++ b) <->
  StronglySorted R a /\ StronglySorted R b
  /\ (forall x y, In x a -> In y b -> R x y).
Proof.
  induction a as [|h a IH]; simpl.
  - split.
    + intros H. repeat split; [constructor | assumption | intros x y []].
    + intros (_ & H & _). exact H.
  - split.
    + intros H. inversion H as [|? ? Hs Hf]; subst.
      apply IH in Hs. destruct Hs as (Ha & Hb & Hab).
      rewrite Forall_app in Hf. destruct Hf as [Hfa Hfb].
      repeat split; [constructor; assumption | assumption |].
      intros x y [<-|Hx] Hy.
      * rewrite Forall_forall in Hfb. auto.
      * auto.
    + intros (Ha & Hb & Hab). inversion Ha as [|? ? Hs Hf]; subst.
      constructor.
      * apply IH. repeat split; auto.
      * apply Forall_app. split; [assumption|].
        apply Forall_forall. intros y Hy. apply Hab; auto.
Qed.

Lemma insertion_point_firstn tree count :
  Forall (fun t => count < total_count_ t) (firstn (insertion_point tree count) tree).
Proof.
  induction tree as [|t rest IH]; simpl; [constructor|].
  destruct (Z.leb_spec (total_count_ t) count); simpl; constructor; auto.
Qed.

Lemma insertion_point_skipn tree count :
  counts_descending tree ->
  Forall (fun t => total_count_ t <= count) (skipn (insertion_point tree count) tree).
Proof.
  unfold counts_descending.
  induction tree as [|t rest IH]; intros Hs; simpl; [constructor|].
  inversion Hs as [|? ? Hs' Hf]; subst.
  destruct (Z.leb_spec (total_count_ t) count); simpl.
  - constructor; [assumption|]. revert Hf. apply Forall_impl. intros; lia.
  - auto.
Qed.

(** C8, as the code has it.  In the merge loop the node made of the two last
    trees is inserted before the first tree of the descending array whose
    count is at most its own: every tree before it has a larger count, and
    every tree whose count ties its count, leaf or not, comes after it.  The
    array stays sorted by decreasing count. *)
Theorem merged_node_position (tree tree_pool tree' tree_pool' : list HuffmanTree) :
  (2 <= length tree)%nat ->
  counts_descending tree ->
  merge_step tree tree_pool = Ok (tree', tree_pool') ->
  exists rest before_last last before after node,
    tree = rest ++ [before_last; last]
    /\ rest = before ++ after
    /\ tree' = before ++ node :: after
    /\ value_ node = -1
    /\ total_count_ node = total_count_ before_last + total_count_ last
    /\ Forall (fun t => total_count_ node < total_count_ t) before
    /\ Forall (fun t => total_count_ t <= total_count_ node) after
    /\ counts_descending tree'.
Proof.
  intros Hlen Hs Hstep.
  destruct (list_last_two tree Hlen) as (rest & bl & last & ->).
  unfold merge_step in Hstep.
  destruct (nth_error_last_two rest bl last) as (E1 & E2 & E3).
  rewrite E1, E2, E3 in Hstep.
  apply bind_Ok_inv in Hstep. destruct Hstep as (count & Hcount & Hstep).
  apply int_ok_inv in Hcount. destruct Hcount as [-> _].
  inversion Hstep; subst tree' tree_pool'; clear Hstep.
  set (count := total_count_ bl + total_count_ last).
  set (k := insertion_point rest count).
  apply StronglySorted_app in Hs. destruct Hs as (Hrest & Htail & Hcross).
  pose proof (insertion_point_firstn rest count) as Hbefore.
  pose proof (insertion_point_skipn rest count Hrest) as Hafter.
  fold k in Hbefore, Hafter.
  exists rest, bl, last, (firstn k rest), (skipn k rest).
  eexists. split; [reflexivity|]. split; [now rewrite firstn_skipn|].
  split; [reflexivity|]. simpl. repeat split; try assumption.
  unfold counts_descending. apply StronglySorted_app.
  rewrite <- (firstn_skipn k rest) in Hrest.
  apply StronglySorted_app in Hrest. destruct Hrest as (H1 & H2 & H3).
  repeat split; [assumption | constructor; assumption |].
  intros x y Hx [<-|Hy]; simpl.
  - rewrite Forall_forall in Hbefore. specialize (Hbefore x Hx). simpl in Hbefore. lia.
  - auto.
Qed.

Lemma merged_node_position_witness :
  exists rest before_last last before after node,
    qsort (init_leaves [1; 1; 2; 5] 0 1) = rest ++ [before_last; last]
    /\ rest = before ++ after
    /\ [mkTree 5 3 (-1) (-1); mkTree 2 (-1) 1 0; mkTree 2 2 (-1) (-1)]
       = before ++ node :: after
    /\ value_ node = -1
    /\ total_count_ node = total_count_ before_last + total_count_ last
    /\ Forall (fun t => total_count_ node < total_count_ t) before
    /\ Forall (fun t => total_count_ t <= total_count_ node) after
    /\ counts_descending
         [mkTree 5 3 (-1) (-1); mkTree 2 (-1) 1 0; mkTree 2 2 (-1) (-1)].
Proof.
  apply (merged_node_position (qsort (init_leaves [1; 1; 2; 5] 0 1)) []
           [mkTree 5 3 (-1) (-1); mkTree 2 (-1) 1 0; mkTree 2 2 (-1) (-1)]
           [mkTree 1 1 (-1) (-1); mkTree 1 0 (-1) (-1)]).
  - simpl. lia.
  - unfold counts_descending. simpl.
    repeat (constructor; simpl; try lia).
  - vm_compute. reflexivity.
Defined.

(** The claim C8 as the specification words it fails: the leaves of the
    histogram [1, 1, 2, 5] being sorted, the node merged from the two leaves
    of count 1 has the count 2 of the leaf of symbol 2, and is placed before
    that leaf, not after it. *)
Lemma merged_node_position_counterexample :
  qsort (init_leaves [1; 1; 2; 5] 0 1)
    = [mkTree 5 3 (-1) (-1); mkTree 2 2 (-1) (-1);
       mkTree 1 0 (-1) (-1); mkTree 1 1 (-1) (-1)]
  /\ merge_step (qsort (init_leaves [1; 1; 2; 5] 0 1)) []
     = Ok ([mkTree 5 3 (-1) (-1); mkTree 2 (-1) 1 0; mkTree 2 2 (-1) (-1)],
           [mkTree 1 1 (-1) (-1); mkTree 1 0 (-1) (-1)])
  /\ total_count_ (mkTree 2 (-1) 1 0) = total_count_ (mkTree 2 2 (-1) (-1)).
Proof. vm_compute. repeat split. Qed.

(** *** The invariant of the merge loop *)

Lemma fibo_SS n : fibo (S (S n)) = fibo n + fibo (S n).
Proof.
  unfold fibo. simpl. destruct (fibo_pair n) as [a b]. reflexivity.
Qed.

Lemma fibo_pos n : 1 <= fibo n /\ 1 <= fibo (S n).
Proof.
  induction n as [|n [IH1 IH2]].
  - unfold fibo. simpl. lia.
  - split; [assumption|]. rewrite fibo_SS. lia.
Qed.

Lemma fibo_le_S n : fibo n <= fibo (S n).
Proof.
  destruct n as [|n].
  - unfold fibo. simpl. lia.
  - rewrite fibo_SS. pose proof (fibo_pos n). lia.
Qed.

Lemma fibo_mono n m : (n <= m)%nat -> fibo n <= fibo m.
Proof.
  induction 1 as [|m Hle IH]; [lia|]. pose proof (fibo_le_S m). lia.
Qed.

Lemma well_formed_pos t : well_formed t -> 1 <= cnt t.
Proof.
  induction t as [c v | c l IHl r IHr]; simpl; [auto|].
  intros (-> & Hl & Hr). specialize (IHl Hl). specialize (IHr Hr). lia.
Qed.

Lemma fibo_bounded_cnt t : fibo_bounded t -> fibo (height t) <= cnt t.
Proof. destruct t; simpl; intros [H _]; exact H. Qed.

(** The merged node weighs enough for its height: the lighter of the two
    merged trees weighs at least as much as each child of the other. *)
Lemma fibo_merge a b :
  fibo_bounded a -> 1 <= cnt a -> 1 <= cnt b ->
  child_max a <= cnt b ->
  fibo (S (height a)) <= cnt a + cnt b.
Proof.
  intros Ha Hpa Hpb Hcm. destruct a as [c v | c l r].
  - unfold fibo. simpl in *. lia.
  - cbn [height]. rewrite fibo_SS.
    pose proof (fibo_bounded_cnt _ Ha) as H1. cbn [height] in H1.
    simpl in Ha. destruct Ha as (_ & Hl & Hr).
    apply fibo_bounded_cnt in Hl, Hr. simpl in Hcm.
    assert (fibo (Nat.max (height l) (height r)) <= Z.max (cnt l) (cnt r)).
    { destruct (Nat.max_spec (height l) (height r)) as [[_ ->]|[_ ->]]; lia. }
    lia.
Qed.

Lemma forest_insertion_point_firstn forest count :
  Forall (fun t => count < cnt t) (firstn (forest_insertion_point forest count) forest).
Proof.
  induction forest as [|t rest IH]; simpl; [constructor|].
  destruct (Z.leb_spec (cnt t) count); simpl; constructor; auto.
Qed.

Lemma forest_insertion_point_skipn forest count :
  forest_descending forest ->
  Forall (fun t => cnt t <= count) (skipn (forest_insertion_point forest count) forest).
Proof.
  unfold forest_descending.
  induction forest as [|t rest IH]; intros Hs; simpl; [constructor|].
  inversion Hs as [|? ? Hs' Hf]; subst.
  destruct (Z.leb_spec (cnt t) count); simpl.
  - constructor; [assumption|]. revert Hf. apply Forall_impl. intros; lia.
  - auto.
Qed.

Lemma merge_forest_In rest y x t :
  In t (merge_forest rest y x) <-> t = Node (cnt y + cnt x) y x \/ In t rest.
Proof.
  unfold merge_forest. set (k := forest_insertion_point _ _).
  rewrite <- (firstn_skipn k rest) at 3. rewrite !in_app_iff. simpl.
  intuition congruence.
Qed.

Lemma merge_forest_descending rest y x :
  forest_descending rest -> forest_descending (merge_forest rest y x).
Proof.
  intros Hrest. unfold merge_forest.
  set (count := cnt y + cnt x). set (k := forest_insertion_point rest count).
  pose proof (forest_insertion_point_firstn rest count) as Hbefore.
  pose proof (forest_insertion_point_skipn rest count Hrest) as Hafter.
  fold k in Hbefore, Hafter.
  unfold forest_descending in *. apply StronglySorted_app.
  rewrite <- (firstn_skipn k rest) in Hrest.
  apply StronglySorted_app in Hrest. destruct Hrest as (H1 & H2 & H3).
  repeat split; [assumption | constructor; assumption |].
  intros a b Ha [<-|Hb]; simpl.
  - rewrite Forall_forall in Hbefore. specialize (Hbefore a Ha). simpl in Hbefore. lia.
  - auto.
Qed.

Lemma merge_forest_ok rest y x :
  forest_ok (rest ++ [y; x]) -> forest_ok (merge_forest rest y x).
Proof.
  intros (Hs & Hwf & Hfb & Hcm).
  apply StronglySorted_app in Hs. destruct Hs as (Hrest & Htail & Hcross).
  inversion Htail as [|? ? _ Hyx]; subst. inversion Hyx as [|? ? Hxy _]; subst.
  rewrite Forall_app in Hwf, Hfb.
  destruct Hwf as [Hwfr Hwft]. destruct Hfb as [Hfbr Hfbt].
  inversion Hwft as [|? ? Hwy Hwft']; subst. inversion Hwft' as [|? ? Hwx _]; subst.
  inversion Hfbt as [|? ? Hfy Hfbt']; subst. inversion Hfbt' as [|? ? Hfx _]; subst.
  pose proof (well_formed_pos _ Hwy) as Hpy.
  pose proof (well_formed_pos _ Hwx) as Hpx.
  assert (Hiny : In y (rest ++ [y; x])) by (apply in_or_app; simpl; auto).
  assert (Hinx : In x (rest ++ [y; x])) by (apply in_or_app; simpl; auto).
  assert (Hinr : forall t, In t rest -> In t (rest ++ [y; x]))
    by (intros; apply in_or_app; auto).
  assert (Hz : fibo_bounded (Node (cnt y + cnt x) y x)).
  { simpl. split; [|auto].
    destruct (Nat.max_spec (height y) (height x)) as [[Hlt ->]|[Hle ->]].
    - pose proof (fibo_merge x y Hfx Hpx Hpy (Hcm x y Hinx Hiny)). lia.
    - apply (fibo_merge y x Hfy Hpy Hpx (Hcm y x Hiny Hinx)). }
  repeat split.
  - now apply merge_forest_descending.
  - apply Forall_forall. intros t Ht. apply merge_forest_In in Ht.
    destruct Ht as [->|Ht]; [simpl; auto|].
    rewrite Forall_forall in Hwfr. auto.
  - apply Forall_forall. intros t Ht. apply merge_forest_In in Ht.
    destruct Ht as [->|Ht]; [assumption|].
    rewrite Forall_forall in Hfbr. auto.
  - intros t u Ht Hu. apply merge_forest_In in Ht, Hu.
    destruct Ht as [->|Ht]; destruct Hu as [->|Hu]; simpl.
    + lia.
    + pose proof (Hcross u y Hu ltac:(simpl; auto)) as H1.
      pose proof (Hcross u x Hu ltac:(simpl; auto)) as H2. simpl in *. lia.
    + pose proof (Hcm t y (Hinr t Ht) Hiny). lia.
    + apply Hcm; auto.
Qed.

Lemma merge_forest_length rest y x :
  length (merge_forest rest y x) = S (length rest).
Proof.
  unfold merge_forest. set (k := forest_insertion_point _ _).
  rewrite length_app. simpl. rewrite <- (firstn_skipn k rest) at 3.
  rewrite length_app. lia.
Qed.

Lemma merge_forest_leaves rest y x :
  Permutation (forest_leaves (rest ++ [y; x])) (forest_leaves (merge_forest rest y x)).
Proof.
  unfold merge_forest, forest_leaves. set (k := forest_insertion_point _ _).
  rewrite <- (firstn_skipn k rest) at 1.
  rewrite !flat_map_app. simpl. rewrite app_nil_r, <- app_assoc.
  apply Permutation_app_head. apply Permutation_app_comm.
Qed.

(** The merge loop, started on at least two trees, ends on a single tree
    with the same leaves; the invariant holds for it and its count is an
    [int]. *)
Lemma merge_loop_spec (Inv : list htree -> Prop) :
  (forall rest y x,
     forest_ok (rest ++ [y; x]) -> Inv (rest ++ [y; x]) -> Inv (merge_forest rest y x)) ->
  forall fuel tree pool forest tree' pool',
  Forall2 (represents pool) tree forest ->
  forest_ok forest ->
  Inv forest ->
  Forall (fun t => (height t <= length pool)%nat) forest ->
  (2 <= length tree)%nat ->
  merge_loop fuel tree pool = Ok (tree', pool') ->
  exists root t,
    tree' = [root]
    /\ represents pool' root t
    /\ forest_ok [t]
    /\ Inv [t]
    /\ Permutation (forest_leaves forest) (leaf_values t)
    /\ (1 <= height t <= length pool')%nat
    /\ cnt t <= INT_MAX.
Proof.
  intros Hpres.
  induction fuel as [|fuel IH];
    intros tree pool forest tree' pool' Hrep Hok Hinv Hh Hlen Hrun.
  - simpl in Hrun. destruct (Nat.ltb_spec 1 (length tree)); [discriminate | lia].
  - cbn [merge_loop] in Hrun.
    destruct (Nat.ltb_spec 1 (length tree)); [|lia].
    apply bind_Ok_inv in Hrun. destruct Hrun as ([tree1 pool1] & Hstep & Hrun).
    cbn [fst snd] in Hrun.
    destruct (merge_step_represents pool tree forest tree1 pool1 Hrep Hlen Hstep)
      as (rest & y & x & -> & Hrep1 & Hrange & Hpool1).
    pose proof (merge_forest_ok rest y x Hok) as Hok1.
    pose proof (Hpres rest y x Hok Hinv) as Hinv1.
    pose proof (merge_forest_leaves rest y x) as Hperm.
    assert (Hh1 : Forall (fun t => (height t <= length pool1)%nat) (merge_forest rest y x)).
    { apply Forall_forall. intros t Ht. apply merge_forest_In in Ht.
      rewrite Forall_forall in Hh. destruct Ht as [->|Ht].
      - pose proof (Hh y ltac:(apply in_or_app; simpl; auto)).
        pose proof (Hh x ltac:(apply in_or_app; simpl; auto)).
        simpl. lia.
      - pose proof (Hh t ltac:(apply in_or_app; auto)). lia. }
    pose proof (Forall2_length Hrep1) as Hl1. rewrite merge_forest_length in Hl1.
    destruct (le_lt_dec 2 (length tree1)) as [Hge|Hlt].
    + destruct (IH tree1 pool1 _ tree' pool' Hrep1 Hok1 Hinv1 Hh1 Hge Hrun)
        as (root & t & -> & Hr & Hokt & Hinvt & Hp & Hht & Hc).
      exists root, t.
      split; [reflexivity|]. split; [assumption|]. split; [assumption|].
      split; [assumption|].
      split; [eapply Permutation_trans; eassumption|].
      split; [lia | assumption].
    + (* the array is down to the merged node *)
      assert (Hrest : rest = []) by (destruct rest; [reflexivity | simpl in Hl1; lia]).
      subst rest. unfold merge_forest in *. simpl in *.
      inversion Hrep1 as [|root t ? ? Hr Hnil]; subst. inversion Hnil; subst.
      assert (Hend : tree' = [root] /\ pool' = pool1)
        by (destruct fuel; simpl in Hrun; inversion Hrun; auto).
      destruct Hend as [-> ->].
      exists root, (Node (cnt y + cnt x) y x).
      split; [reflexivity|]. split; [assumption|]. split; [assumption|].
      split; [assumption|].
      split; [unfold forest_leaves; simpl; rewrite app_nil_r; apply Permutation_refl|].
      split; [|simpl; lia].
      inversion Hh1 as [|? ? Hz _]; subst; simpl in Hz |- *; lia.
Qed.

(** *** Leaves of equal counts give a balanced tree *)

(** With counts within a factor two of each other the merged node goes to
    the front of the array. *)
Lemma merge_forest_front rest y x :
  forest_ok (rest ++ [y; x]) -> balanced_forest (rest ++ [y; x]) ->
  merge_forest rest y x = Node (cnt y + cnt x) y x :: rest.
Proof.
  intros (Hs & _) (Hc & _). unfold merge_forest.
  apply StronglySorted_app in Hs. destruct Hs as (_ & Htail & _).
  inversion Htail as [|? ? _ Hyx]; subst. inversion Hyx as [|? ? Hxy _]; subst.
  destruct rest as [|h rest]; [reflexivity|]. cbn [forest_insertion_point].
  pose proof (Hc h x ltac:(simpl; auto) ltac:(apply in_or_app; simpl; auto)) as Hh.
  destruct (Z.leb_spec (cnt h) (cnt y + cnt x)); [reflexivity | lia].
Qed.

Lemma merge_forest_balanced rest y x :
  forest_ok (rest ++ [y; x]) -> balanced_forest (rest ++ [y; x]) ->
  balanced_forest (merge_forest rest y x).
Proof.
  intros Hok Hbal. rewrite (merge_forest_front rest y x Hok Hbal).
  destruct Hok as (Hs & Hwf & _). destruct Hbal as (Hc & Hd & Hl).
  apply StronglySorted_app in Hs. destruct Hs as (_ & Htail & Hcross).
  inversion Htail as [|? ? _ Hyx]; subst. inversion Hyx as [|? ? Hxy _]; subst.
  rewrite Forall_app in Hwf. destruct Hwf as [_ Hwft].
  inversion Hwft as [|? ? Hwy Hwft']; subst. inversion Hwft' as [|? ? Hwx _]; subst.
  apply well_formed_pos in Hwy, Hwx.
  apply StronglySorted_app in Hd. destruct Hd as (Hdrest & Hdtail & Hdcross).
  assert (Hiny : In y (rest ++ [y; x])) by (apply in_or_app; simpl; auto).
  assert (Hinx : In x (rest ++ [y; x])) by (apply in_or_app; simpl; auto).
  assert (Hinr : forall t, In t rest -> In t (rest ++ [y; x]))
    by (intros; apply in_or_app; auto).
  split; [|split].
  - intros t u [<-|Ht] [<-|Hu]; simpl.
    + lia.
    + pose proof (Hcross u y Hu ltac:(simpl; auto)). simpl in *. lia.
    + pose proof (Hc t x (Hinr t Ht) Hinx). lia.
    + apply Hc; auto.
  - constructor; [assumption|]. apply Forall_forall. intros u Hu. simpl.
    pose proof (Hl u y (Hinr u Hu) Hiny). pose proof (Hl u x (Hinr u Hu) Hinx). lia.
  - intros s t [<-|Hs'] [<-|Ht]; simpl.
    + pose proof (Hl y y Hiny Hiny). pose proof (Hl y x Hiny Hinx).
      pose proof (Hl x y Hinx Hiny). pose proof (Hl x x Hinx Hinx). lia.
    + pose proof (Hdcross t y Ht ltac:(simpl; auto)).
      pose proof (Hdcross t x Ht ltac:(simpl; auto)). simpl in *. lia.
    + pose proof (Hl s y (Hinr s Hs') Hiny). pose proof (Hl s x (Hinr s Hs') Hinx). lia.
    + apply Hl; auto.
Qed.

Lemma pow2_min_depth t : 2 ^ Z.of_nat (min_depth t) <= Z.of_nat (length (leaf_values t)).
Proof.
  induction t as [c v | c l IHl r IHr]; simpl; [reflexivity|].
  rewrite length_app, Nat2Z.inj_add.
  set (m := Nat.min (min_depth l) (min_depth r)).
  replace (Z.of_nat (S m)) with (Z.succ (Z.of_nat m)) by lia.
  rewrite Z.pow_succ_r by lia.
  assert (2 ^ Z.of_nat m <= 2 ^ Z.of_nat (min_depth l)) by (apply Z.pow_le_mono_r; lia).
  assert (2 ^ Z.of_nat m <= 2 ^ Z.of_nat (min_depth r)) by (apply Z.pow_le_mono_r; lia).
  lia.
Qed.

Lemma init_leaves_flat histogram count_min : forall j,
  flat_at histogram count_min ->
  Forall (fun node => total_count_ node = count_min) (init_leaves histogram j count_min).
Proof.
  unfold flat_at.
  induction histogram as [|h rest IH]; intros j Hflat; simpl; [constructor|].
  inversion Hflat as [|? ? Hh Hrest]; subst.
  destruct (negb (h =? 0)); [|now apply IH].
  constructor; [|now apply IH]. simpl. destruct (Z.ltb_spec h count_min); lia.
Qed.

(** *** The sorted leaves *)

Lemma qsort_insert_perm t sorted : Permutation (t :: sorted) (qsort_insert t sorted).
Proof.
  induction sorted as [|h rest IH]; simpl; [apply Permutation_refl|].
  destruct (CompareHuffmanTrees t h <=? 0); [apply Permutation_refl|].
  eapply Permutation_trans; [apply perm_swap|]. now apply perm_skip.
Qed.

Lemma qsort_perm tree : Permutation tree (qsort tree).
Proof.
  induction tree as [|t rest IH]; simpl; [constructor|].
  eapply Permutation_trans; [|apply qsort_insert_perm]. now apply perm_skip.
Qed.

Lemma CompareHuffmanTrees_le t h :
  CompareHuffmanTrees t h <= 0 -> total_count_ h <= total_count_ t.
Proof.
  unfold CompareHuffmanTrees.
  destruct (Z.gtb_spec (total_count_ t) (total_count_ h)); [lia|].
  destruct (Z.ltb_spec (total_count_ t) (total_count_ h)); lia.
Qed.

Lemma CompareHuffmanTrees_gt t h :
  0 < CompareHuffmanTrees t h -> total_count_ t <= total_count_ h.
Proof.
  unfold CompareHuffmanTrees.
  destruct (Z.gtb_spec (total_count_ t) (total_count_ h)); [lia|].
  destruct (Z.ltb_spec (total_count_ t) (total_count_ h)); lia.
Qed.

Lemma qsort_insert_descending t sorted :
  counts_descending sorted -> counts_descending (qsort_insert t sorted).
Proof.
  unfold counts_descending.
  induction sorted as [|h rest IH]; intros Hs; simpl.
  - repeat constructor.
  - inversion Hs as [|? ? Hs' Hf]; subst.
    destruct (Z.leb_spec (CompareHuffmanTrees t h) 0) as [Hc|Hc].
    + apply CompareHuffmanTrees_le in Hc. constructor; [assumption|].
      constructor; [assumption|]. revert Hf. apply Forall_impl. intros; lia.
    + apply CompareHuffmanTrees_gt in Hc. constructor; [auto|].
      apply Forall_forall. intros x Hx.
      apply (Permutation_in _ (Permutation_sym (qsort_insert_perm t rest))) in Hx.
      destruct Hx as [<-|Hx]; [assumption|].
      rewrite Forall_forall in Hf. auto.
Qed.

Lemma qsort_descending tree : counts_descending (qsort tree).
Proof.
  induction tree as [|t rest IH]; simpl; [constructor|].
  now apply qsort_insert_descending.
Qed.

(** The comparer is a strict order on nodes of distinct values: whatever
    the sorting algorithm, the sorted array is the one of [qsort]. *)
Lemma CompareHuffmanTrees_cases a b :
  (CompareHuffmanTrees a b < 0 /\
   (total_count_ b < total_count_ a
    \/ (total_count_ a = total_count_ b /\ value_ a < value_ b)))
  \/ (0 < CompareHuffmanTrees a b /\
      (total_count_ a < total_count_ b
       \/ (total_count_ a = total_count_ b /\ value_ b < value_ a)))
  \/ (CompareHuffmanTrees a b = 0 /\
      total_count_ a = total_count_ b /\ value_ a = value_ b).
Proof.
  unfold CompareHuffmanTrees.
  destruct (Z.gtb_spec (total_count_ a) (total_count_ b));
    destruct (Z.ltb_spec (total_count_ a) (total_count_ b));
    destruct (Z.ltb_spec (value_ a) (value_ b));
    destruct (Z.gtb_spec (value_ a) (value_ b)); lia.
Qed.

Lemma CompareHuffmanTrees_trans a b c :
  CompareHuffmanTrees a b < 0 -> CompareHuffmanTrees b c < 0 ->
  CompareHuffmanTrees a c < 0.
Proof.
  destruct (CompareHuffmanTrees_cases a b) as [H|[H|H]];
    destruct (CompareHuffmanTrees_cases b c) as [H'|[H'|H']];
    destruct (CompareHuffmanTrees_cases a c) as [H''|[H''|H'']]; lia.
Qed.

Lemma CompareHuffmanTrees_asym a b :
  CompareHuffmanTrees a b < 0 -> CompareHuffmanTrees b a < 0 -> False.
Proof.
  destruct (CompareHuffmanTrees_cases a b) as [H|[H|H]];
    destruct (CompareHuffmanTrees_cases b a) as [H'|[H'|H']]; lia.
Qed.

Lemma qsort_insert_sorted t sorted :
  sorted_by_compare sorted ->
  (forall x, In x sorted -> value_ x <> value_ t) ->
  sorted_by_compare (qsort_insert t sorted).
Proof.
  unfold sorted_by_compare.
  induction sorted as [|h rest IH]; intros Hs Hv; simpl.
  - repeat constructor.
  - inversion Hs as [|? ? Hs' Hf]; subst.
    destruct (Z.leb_spec (CompareHuffmanTrees t h) 0) as [Hc|Hc].
    + assert (Hlt : CompareHuffmanTrees t h < 0).
      { pose proof (Hv h ltac:(simpl; auto)).
        destruct (CompareHuffmanTrees_cases t h) as [H'|[H'|H']]; lia. }
      constructor; [assumption|]. constructor; [assumption|].
      revert Hf. apply Forall_impl. intros x Hx.
      now apply (CompareHuffmanTrees_trans t h x).
    + constructor; [apply IH; auto; intros x Hx; apply Hv; simpl; auto|].
      apply Forall_forall. intros x Hx.
      apply (Permutation_in _ (Permutation_sym (qsort_insert_perm t rest))) in Hx.
      destruct Hx as [<-|Hx].
      * destruct (CompareHuffmanTrees_cases t h) as [H'|[H'|H']];
          destruct (CompareHuffmanTrees_cases h t) as [H''|[H''|H'']]; lia.
      * rewrite Forall_forall in Hf. auto.
Qed.

Lemma qsort_sorted tree :
  NoDup (map value_ tree) -> sorted_by_compare (qsort tree).
Proof.
  induction tree as [|t rest IH]; intros Hnd; simpl; [constructor|].
  inversion Hnd as [|? ? Hnot Hnd']; subst.
  apply qsort_insert_sorted; [auto|].
  intros x Hx Heq. apply Hnot.
  apply (Permutation_in _ (Permutation_sym (qsort_perm rest))) in Hx.
  rewrite <- Heq. now apply in_map.
Qed.

Lemma sorted_by_compare_unique l1 : forall l2,
  Permutation l1 l2 -> sorted_by_compare l1 -> sorted_by_compare l2 -> l1 = l2.
Proof.
  unfold sorted_by_compare.
  induction l1 as [|h1 r1 IH]; intros l2 Hp H1 H2.
  - apply Permutation_nil in Hp. now subst.
  - destruct l2 as [|h2 r2]; [apply Permutation_sym, Permutation_nil in Hp; discriminate|].
    inversion H1 as [|? ? Hs1 Hf1]; subst. inversion H2 as [|? ? Hs2 Hf2]; subst.
    rewrite Forall_forall in Hf1, Hf2.
    assert (Heq : h1 = h2).
    { pose proof (Permutation_in h1 Hp ltac:(simpl; auto)) as Hin1.
      pose proof (Permutation_in h2 (Permutation_sym Hp) ltac:(simpl; auto)) as Hin2.
      destruct Hin1 as [E|Hin1]; [now symmetry|].
      destruct Hin2 as [E|Hin2]; [assumption|].
      exfalso. apply (CompareHuffmanTrees_asym h1 h2); auto. }
    subst h2. f_equal. apply IH; try assumption.
    now apply Permutation_cons_inv in Hp.
Qed.

(** Any array that holds the leaves sorted by the comparer is the array of
    [qsort]. *)
Lemma qsort_unique tree sorted :
  NoDup (map value_ tree) ->
  Permutation tree sorted -> sorted_by_compare sorted ->
  sorted = qsort tree.
Proof.
  intros Hnd Hp Hs. apply sorted_by_compare_unique; [|assumption|now apply qsort_sorted].
  eapply Permutation_trans; [apply Permutation_sym; eassumption | apply qsort_perm].
Qed.

Lemma init_leaves_values histogram count_min : forall j,
  map value_ (init_leaves histogram j count_min) = used_symbols histogram j.
Proof.
  induction histogram as [|h rest IH]; intros j; simpl; [reflexivity|].
  destruct (negb (h =? 0)); simpl; now rewrite IH.
Qed.

Lemma init_leaves_leaf histogram count_min : forall j,
  Forall (fun node => pool_index_left_ node = -1 /\ count_min <= total_count_ node)
         (init_leaves histogram j count_min).
Proof.
  induction histogram as [|h rest IH]; intros j; simpl; [constructor|].
  destruct (negb (h =? 0)); [|apply IH].
  constructor; [|apply IH]. simpl. split; [reflexivity|].
  destruct (Z.ltb_spec h count_min); lia.
Qed.

Lemma used_symbols_range histogram : forall j i,
  In i (used_symbols histogram j) -> j <= i < j + Z.of_nat (length histogram).
Proof.
  induction histogram as [|h rest IH]; intros j i Hin; simpl in *; [contradiction|].
  destruct (negb (h =? 0)); simpl in Hin.
  - destruct Hin as [<-|Hin]; [lia|]. apply IH in Hin. lia.
  - apply IH in Hin. lia.
Qed.

Lemma used_symbols_NoDup histogram : forall j, NoDup (used_symbols histogram j).
Proof.
  induction histogram as [|h rest IH]; intros j; simpl; [constructor|].
  destruct (negb (h =? 0)); [|apply IH].
  constructor; [|apply IH]. intros Hin. apply used_symbols_range in Hin. lia.
Qed.

Lemma used_symbols_spec histogram : forall j i,
  In i (used_symbols histogram j) <->
  j <= i < j + Z.of_nat (length histogram) /\ load histogram (i - j) <> 0.
Proof.
  induction histogram as [|h rest IH]; intros j i; simpl.
  - split; [contradiction | lia].
  - assert (Hstep : forall k, j < k -> load (h :: rest) (k - j) = load rest (k - (j + 1))).
    { intros k Hk. unfold load.
      replace (Z.to_nat (k - j)) with (S (Z.to_nat (k - (j + 1)))) by lia. reflexivity. }
    destruct (Z.eqb_spec h 0) as [->|Hne]; simpl.
    + rewrite IH. split.
      * intros [Hr Hl]. split; [lia|]. rewrite Hstep by lia. exact Hl.
      * intros [Hr Hl]. destruct (Z.eq_dec i j) as [->|Hij].
        -- rewrite Z.sub_diag in Hl. unfold load in Hl. simpl in Hl. congruence.
        -- rewrite Hstep in Hl by lia. split; [lia | exact Hl].
    + rewrite IH. split.
      * intros [<-|[Hr Hl]].
        -- split; [lia|]. rewrite Z.sub_diag. unfold load. simpl. exact Hne.
        -- split; [lia|]. rewrite Hstep by lia. exact Hl.
      * intros [Hr Hl]. destruct (Z.eq_dec i j) as [->|Hij]; [now left|].
        right. rewrite Hstep in Hl by lia. split; [lia | exact Hl].
Qed.

Lemma count_used_length histogram : forall j,
  count_used histogram = Z.of_nat (length (used_symbols histogram j)).
Proof.
  induction histogram as [|h rest IH]; intros j; simpl; [reflexivity|].
  rewrite (IH (j + 1)). destruct (negb (h =? 0)); simpl length; lia.
Qed.

(** The leaves, sorted, stand for a forest that satisfies the invariant. *)
Lemma sorted_leaves_spec histogram count_min :
  1 <= count_min ->
  let tree := qsort (init_leaves histogram 0 count_min) in
  let forest := map leaf_of tree in
  Forall2 (represents []) tree forest
  /\ forest_ok forest
  /\ Forall (fun t => (height t <= 0)%nat) forest
  /\ Permutation (used_symbols histogram 0) (forest_leaves forest)
  /\ length tree = length (used_symbols histogram 0)
  /\ (flat_at histogram count_min -> balanced_forest forest).
Proof.
  intros Hmin. cbv zeta.
  set (leaves := init_leaves histogram 0 count_min).
  assert (Hflat : flat_at histogram count_min ->
                  Forall (fun node => total_count_ node = count_min) (qsort leaves)).
  { intros Hf. apply Forall_forall. intros x Hx.
    apply (Permutation_in _ (Permutation_sym (qsort_perm leaves))) in Hx.
    pose proof (init_leaves_flat histogram count_min 0 Hf) as H.
    rewrite Forall_forall in H. auto. }
  pose proof (qsort_perm leaves) as Hperm.
  pose proof (qsort_descending leaves) as Hdesc.
  assert (Hleaf : Forall (fun node => pool_index_left_ node = -1
                                      /\ count_min <= total_count_ node) (qsort leaves)).
  { apply Forall_forall. intros x Hx.
    apply (Permutation_in _ (Permutation_sym Hperm)) in Hx.
    pose proof (init_leaves_leaf histogram count_min 0) as H.
    rewrite Forall_forall in H. auto. }
  set (tree := qsort leaves) in *. clearbody tree.
  split; [|split; [|split; [|split; [|split]]]].
  - clear -Hleaf. induction Hleaf as [|node rest [Hl _] _ IH]; simpl; constructor; auto.
    unfold leaf_of. constructor. lia.
  - split; [|split; [|split]].
    + unfold forest_descending, counts_descending in *. clear -Hdesc.
      induction Hdesc as [|node rest _ IH Hf]; simpl; constructor; auto.
      rewrite Forall_map. exact Hf.
    + rewrite Forall_map. revert Hleaf. apply Forall_impl. simpl. intros; lia.
    + rewrite Forall_map. revert Hleaf. apply Forall_impl.
      intros a [_ Ha]. unfold leaf_of. simpl. change (fibo 0) with 1.
      split; [lia | exact I].
    + intros t u Ht Hu. apply in_map_iff in Ht, Hu.
      destruct Ht as (nt & <- & _). destruct Hu as (nu & <- & Hnu). simpl.
      rewrite Forall_forall in Hleaf. specialize (Hleaf nu Hnu). lia.
  - rewrite Forall_map. apply Forall_forall. intros; simpl; lia.
  - unfold forest_leaves. rewrite flat_map_concat_map, map_map. simpl.
    rewrite <- flat_map_concat_map.
    replace (flat_map (fun x => [value_ x]) tree) with (map value_ tree)
      by (clear; induction tree; simpl; congruence).
    rewrite <- (init_leaves_values histogram count_min 0). fold leaves.
    now apply Permutation_map.
  - rewrite <- (init_leaves_values histogram count_min 0). fold leaves.
    rewrite length_map. symmetry. now apply Permutation_length.
  - intros Hf. specialize (Hflat Hf). rewrite Forall_forall in Hflat.
    split; [|split].
    + intros t u Ht Hu. apply in_map_iff in Ht, Hu.
      destruct Ht as (nt & <- & Hnt). destruct Hu as (nu & <- & Hnu). simpl.
      rewrite (Hflat nt Hnt), (Hflat nu Hnu). lia.
    + clear. induction tree as [|node rest IH]; simpl; constructor; auto.
      rewrite Forall_map. apply Forall_forall. intros; simpl; lia.
    + intros s t Hs Ht. apply in_map_iff in Hs, Ht.
      destruct Hs as (ns & <- & _). destruct Ht as (nt & <- & _). simpl. lia.
Qed.

(** *** The depths written by one try *)

Lemma fibo_45 : INT_MAX < fibo 45.
Proof. vm_compute. reflexivity. Qed.

Lemma height_bound t : fibo_bounded t -> cnt t <= INT_MAX -> (height t <= 44)%nat.
Proof.
  intros Hf Hc. apply fibo_bounded_cnt in Hf.
  destruct (le_lt_dec (height t) 44) as [H|H]; [assumption|].
  pose proof (fibo_mono 45 (height t) ltac:(lia)). pose proof fibo_45. lia.
Qed.

Lemma store_checked_inv a i v a' :
  store_checked a i v = Ok a' -> a' = store a i v /\ 0 <= i < Z.of_nat (length a).
Proof.
  unfold store_checked.
  destruct (Z.leb_spec 0 i) as [H0|H0];
    destruct (Z.ltb_spec i (Z.of_nat (length a))) as [H1|H1];
    simpl; intros H; inversion H; subst. split; [reflexivity | lia].
Qed.

(** What one turn of the retry loop writes: nothing without used symbol,
    the depth 1 for a single used symbol, and otherwise the depths of a tree
    whose leaves are the used symbols and whose height is at most 44. *)
Lemma assign_depths_spec histogram count_min bit_depths bit_depths' :
  1 <= count_min ->
  length bit_depths = length histogram ->
  assign_depths histogram count_min bit_depths = Ok bit_depths' ->
  match used_symbols histogram 0 with
  | [] => bit_depths' = bit_depths
  | [v] => bit_depths' = store bit_depths v 1
  | _ =>
      exists t,
        Permutation (used_symbols histogram 0) (leaf_values t)
        /\ (1 <= height t <= 44)%nat
        /\ bit_depths' = write_depths t 0 bit_depths
        /\ (flat_at histogram count_min -> (height t <= S (min_depth t))%nat)
  end.
Proof.
  intros Hmin Hlen Hrun. unfold assign_depths in Hrun.
  destruct (sorted_leaves_spec histogram count_min Hmin)
    as (Hrep & Hok & Hh & Hperm & Hsize & Hbal).
  set (tree := qsort (init_leaves histogram 0 count_min)) in *.
  destruct (Nat.ltb_spec 1 (length tree)) as [Hgt|Hle].
  - apply bind_Ok_inv in Hrun. destruct Hrun as ([tree' pool'] & Hloop & Hrun).
    cbn [fst snd] in Hrun.
    destruct (merge_loop_spec
                (fun f => flat_at histogram count_min -> balanced_forest f)
                ltac:(intros rest y x Hk Hi Hf; apply merge_forest_balanced; auto)
                _ _ _ _ _ _ Hrep Hok Hbal Hh ltac:(lia) Hloop)
      as (root & t & -> & Hr & Hokt & Hbalt & Hp & Hht & Hc).
    assert (Hpt : Permutation (used_symbols histogram 0) (leaf_values t))
      by (eapply Permutation_trans; eassumption).
    rewrite (SetBitDepths_represents _ _ _ Hr) in Hrun; [| lia |].
    2:{ intros v Hv. apply (Permutation_in _ (Permutation_sym Hpt)) in Hv.
        apply used_symbols_range in Hv. lia. }
    inversion Hrun; subst bit_depths'; clear Hrun.
    destruct Hokt as (_ & _ & Hfb & _). inversion Hfb as [|? ? Hfbt _]; subst.
    pose proof (height_bound t Hfbt Hc) as H44.
    destruct (used_symbols histogram 0) as [|a [|b l]]; simpl in Hsize; try lia.
    exists t. split; [assumption|]. split; [lia|]. split; [reflexivity|].
    intros Hf. destruct (Hbalt Hf) as (_ & _ & Hl). apply Hl; simpl; auto.
  - clearbody tree. destruct tree as [|node [|node' others]]; simpl in Hle; try lia.
    + inversion Hrun; subst. destruct (used_symbols histogram 0); [reflexivity|].
      simpl in Hsize. lia.
    + apply store_checked_inv in Hrun. destruct Hrun as [-> _].
      unfold forest_leaves in Hperm. simpl in Hperm.
      apply Permutation_sym, Permutation_length_1_inv in Hperm.
      rewrite Hperm. reflexivity.
Qed.

Lemma leaf_depths_bound t : forall level v d,
  In (v, d) (leaf_depths t level) ->
  level + (if (height t =? 0)%nat then 0 else 1) <= d <= level + Z.of_nat (height t).
Proof.
  induction t as [c w | c l IHl r IHr]; intros level v d Hin; simpl in Hin.
  - destruct Hin as [Hin|[]]. inversion Hin; subst. simpl. lia.
  - cbn [height]. replace (S (Nat.max (height l) (height r)) =? 0)%nat with false
      by reflexivity.
    apply in_app_or in Hin. destruct Hin as [Hin|Hin].
    + apply IHl in Hin. destruct (height l =? 0)%nat; lia.
    + apply IHr in Hin. destruct (height r =? 0)%nat; lia.
Qed.

Lemma assign_depths_frame histogram count_min bit_depths bit_depths' :
  1 <= count_min ->
  length bit_depths = length histogram ->
  assign_depths histogram count_min bit_depths = Ok bit_depths' ->
  length bit_depths' = length bit_depths
  /\ forall i, 0 <= i -> ~ In i (used_symbols histogram 0) ->
       load bit_depths' i = load bit_depths i.
Proof.
  intros Hmin Hlen Hrun.
  pose proof (assign_depths_spec _ _ _ _ Hmin Hlen Hrun) as Hspec.
  destruct (used_symbols histogram 0) as [|a [|b l]].
  - subst. auto.
  - subst. split; [apply length_store|].
    intros i Hi Hnot. apply load_store_other; [assumption|].
    intros ->. apply Hnot. simpl. auto.
  - destruct Hspec as (t & Hperm & _ & -> & _). split; [apply length_write_depths|].
    intros i Hi Hnot. apply load_write_depths_other; [assumption|].
    intros Hin. apply Hnot. apply (Permutation_in _ (Permutation_sym Hperm)). exact Hin.
Qed.

Lemma max_bit_depth_spec bit_depths m :
  max_bit_depth bit_depths = Ok m -> Forall (fun d => d <= m) bit_depths.
Proof.
  destruct bit_depths as [|d rest]; simpl; [discriminate|].
  intros H. inversion H; subst m; clear H.
  assert (Hgen : forall l m0,
            m0 <= fold_left (fun m d' => if m <? d' then d' else m) l m0
            /\ Forall (fun d => d <= fold_left (fun m d' => if m <? d' then d' else m) l m0) l).
  { induction l as [|x l IH]; intros m0; simpl; [split; [lia | constructor]|].
    destruct (IH (if m0 <? x then x else m0)) as [H1 H2].
    destruct (Z.ltb_spec m0 x); split; try lia; constructor; auto; lia. }
  destruct (Hgen rest d) as [H1 H2]. constructor; assumption.
Qed.

(** The try that the retry loop returns. *)
Lemma GenerateOptimalTree_loop_spec histogram tree_depth_limit fuel :
  forall bit_depths count_min bit_depths',
    1 <= count_min ->
    length bit_depths = length histogram ->
    GenerateOptimalTree_loop fuel histogram tree_depth_limit bit_depths count_min
      = Ok bit_depths' ->
    exists count_min' bit_depths_in m,
      1 <= count_min'
      /\ length bit_depths_in = length histogram
      /\ (forall i, 0 <= i -> ~ In i (used_symbols histogram 0) ->
            load bit_depths_in i = load bit_depths i)
      /\ assign_depths histogram count_min' bit_depths_in = Ok bit_depths'
      /\ max_bit_depth bit_depths' = Ok m
      /\ m <= tree_depth_limit.
Proof.
  induction fuel as [|fuel IH]; intros bd cm bd' Hmin Hlen Hrun; [discriminate|].
  cbn [GenerateOptimalTree_loop] in Hrun.
  apply bind_Ok_inv in Hrun. destruct Hrun as (bd1 & Hassign & Hrun).
  apply bind_Ok_inv in Hrun. destruct Hrun as (m & Hmax & Hrun).
  destruct (Z.leb_spec m tree_depth_limit) as [Hle|Hgt].
  - inversion Hrun; subst bd'. exists cm, bd, m. repeat split; auto.
  - apply bind_Ok_inv in Hrun. destruct Hrun as (cm2 & Hcm2 & Hrun).
    apply int_ok_inv in Hcm2. destruct Hcm2 as [-> _].
    destruct (assign_depths_frame _ _ _ _ Hmin Hlen Hassign) as [Hlen1 Hframe1].
    destruct (IH bd1 (cm * 2) bd' ltac:(lia) ltac:(lia) Hrun)
      as (cm' & bd_in & m' & H1 & H2 & H3 & H4 & H5 & H6).
    exists cm', bd_in, m'. repeat split; auto.
    intros i Hi Hnot. rewrite H3 by assumption. now apply Hframe1.
Qed.

Lemma assert_depth_limit_spec tree_size_orig tree_depth_limit :
  assert_depth_limit tree_size_orig tree_depth_limit = Ok tt <->
  1 <= tree_depth_limit <= 31 /\ tree_size_orig <= 2 ^ (tree_depth_limit - 1).
Proof.
  unfold assert_depth_limit.
  destruct (Z.leb_spec 0 (tree_depth_limit - 1)) as [H0|H0];
    destruct (Z.ltb_spec (tree_depth_limit - 1) 31) as [H1|H1]; simpl;
    try (split; [discriminate | lia]).
  rewrite Z.shiftl_1_l.
  destruct (Z.leb_spec tree_size_orig (2 ^ (tree_depth_limit - 1))).
  - split; [lia | reflexivity].
  - split; [discriminate | lia].
Qed.

Lemma GenerateOptimalTree_inv fuel histogram tree_depth_limit bit_depths bit_depths' :
  GenerateOptimalTree fuel histogram tree_depth_limit bit_depths = Ok bit_depths' ->
  length bit_depths = length histogram
  /\ feasible_depth_limit histogram tree_depth_limit
  /\ GenerateOptimalTree_loop fuel histogram tree_depth_limit bit_depths 1
     = Ok bit_depths'.
Proof.
  unfold GenerateOptimalTree. intros Hrun.
  destruct (Nat.eqb_spec (length bit_depths) (length histogram)) as [Hlen|]; [|discriminate].
  apply bind_Ok_inv in Hrun. destruct Hrun as ([] & Hassert & Hrun).
  apply assert_depth_limit_spec in Hassert. auto.
Qed.

(** What [GenerateOptimalTree] returns: the depths are within the limit;
    the entries of the unused symbols are those of the array on entry; a
    single used symbol has the depth 1; two or more used symbols have their
    depths in a tree of height at most 44 whose leaves they are. *)
Lemma GenerateOptimalTree_spec fuel histogram tree_depth_limit bit_depths bit_depths' :
  GenerateOptimalTree fuel histogram tree_depth_limit bit_depths = Ok bit_depths' ->
  length bit_depths' = length histogram
  /\ Forall (fun d => d <= tree_depth_limit) bit_depths'
  /\ (forall i, 0 <= i -> ~ In i (used_symbols histogram 0) ->
        load bit_depths' i = load bit_depths i)
  /\ match used_symbols histogram 0 with
     | [] => True
     | [v] => load bit_depths' v = 1
     | _ =>
         exists t,
           Permutation (used_symbols histogram 0) (leaf_values t)
           /\ (1 <= height t <= 44)%nat
           /\ forall v d, In (v, d) (leaf_depths t 0) -> load bit_depths' v = d
     end.
Proof.
  intros Hrun. apply GenerateOptimalTree_inv in Hrun. destruct Hrun as (Hlen & _ & Hrun).
  apply GenerateOptimalTree_loop_spec in Hrun; [| lia | assumption].
  destruct Hrun as (cm & bd_in & m & Hmin & Hlen_in & Hin & Hassign & Hmax & Hm).
  destruct (assign_depths_frame _ _ _ _ Hmin Hlen_in Hassign) as [Hlen' Hframe].
  pose proof (assign_depths_spec _ _ _ _ Hmin Hlen_in Hassign) as Hspec.
  split; [lia|]. split.
  { apply max_bit_depth_spec in Hmax. revert Hmax. apply Forall_impl. intros; lia. }
  split.
  { intros i Hi Hnot. rewrite Hframe by assumption. now apply Hin. }
  pose proof (used_symbols_range histogram 0) as Hrange.
  pose proof (used_symbols_NoDup histogram 0) as Hnd.
  destruct (used_symbols histogram 0) as [|a [|b l]]; [exact I | |].
  - subst bit_depths'. apply load_store_same.
    specialize (Hrange a ltac:(simpl; auto)). lia.
  - destruct Hspec as (t & Hperm & Hh & -> & _). exists t.
    split; [assumption|]. split; [assumption|].
    intros v d Hvd.
    rewrite (load_write_depths t 0 bd_in v d); [| | | assumption].
    + apply leaf_depths_bound in Hvd. unfold u8. apply Z.mod_small.
      destruct (Nat.eqb_spec (height t) 0); lia.
    + apply (Permutation_NoDup Hperm). exact Hnd.
    + intros w Hw. apply (Permutation_in _ (Permutation_sym Hperm)) in Hw.
      apply Hrange in Hw. lia.
Qed.

(** C1.  For every histogram and every depth limit such that the number
    of used symbols is at most [2 ^ (tree_depth_limit - 1)], when
    [GenerateOptimalTree] returns, every entry of the returned code lengths,
    and so their maximum, is at most [tree_depth_limit]. *)
Theorem depth_limit_respected (fuel : nat) (histogram : list Z)
    (tree_depth_limit : Z) (bit_depths bit_depths' : list Z) :
  count_used histogram <= 2 ^ (tree_depth_limit - 1) ->
  GenerateOptimalTree fuel histogram tree_depth_limit bit_depths = Ok bit_depths' ->
  length bit_depths' = length histogram
  /\ Forall (fun d => d <= tree_depth_limit) bit_depths'
  /\ exists max_depth,
       max_bit_depth bit_depths' = Ok max_depth /\ max_depth <= tree_depth_limit.
Proof.
  intros _ Hrun. pose proof (GenerateOptimalTree_spec _ _ _ _ _ Hrun) as (H1 & H2 & _).
  split; [assumption|]. split; [assumption|].
  apply GenerateOptimalTree_inv in Hrun. destruct Hrun as (Hlen & _ & Hrun).
  apply GenerateOptimalTree_loop_spec in Hrun; [| lia | assumption].
  destruct Hrun as (cm & bd_in & m & _ & _ & _ & _ & Hmax & Hm). eauto.
Qed.

Lemma depth_limit_respected_witness :
  length [3; 4; 0; 4; 3; 3; 2; 2] = length [1; 1; 0; 2; 3; 5; 8; 13]
  /\ Forall (fun d => d <= 4) [3; 4; 0; 4; 3; 3; 2; 2]
  /\ exists max_depth,
       max_bit_depth [3; 4; 0; 4; 3; 3; 2; 2] = Ok max_depth /\ max_depth <= 4.
Proof.
  apply (depth_limit_respected 2 [1; 1; 0; 2; 3; 5; 8; 13] 4 [0; 0; 0; 0; 0; 0; 0; 0]).
  - vm_compute. discriminate.
  - vm_compute. reflexivity.
Defined.

(** *** The Kraft sum *)

Lemma qsum_app a b : (qsum (a ++ b) == qsum a + qsum b)%Q.
Proof.
  induction a as [|x a IH]; simpl.
  - ring.
  - rewrite IH. ring.
Qed.

Lemma qsum_perm {A : Type} (f : A -> Q) l l' :
  Permutation l l' -> (qsum (map f l) == qsum (map f l'))%Q.
Proof.
  induction 1 as [| x l l' _ IH | x y l | l l' l'' _ IH1 _ IH2]; simpl.
  - reflexivity.
  - rewrite IH. reflexivity.
  - ring.
  - rewrite IH1. exact IH2.
Qed.

Lemma half_power_succ level : ((1 # 2) ^ (level + 1) + (1 # 2) ^ (level + 1) == (1 # 2) ^ level)%Q.
Proof.
  rewrite Qpower_plus by discriminate.
  change ((1 # 2) ^ 1)%Q with (1 # 2)%Q. field.
Qed.

(** The leaves of a full binary tree, the root at [level], weigh
    [2 ^ - level] together. *)
Lemma kraft_tree t : forall level,
  (qsum (map (fun p => (1 # 2) ^ snd p) (leaf_depths t level)) == (1 # 2) ^ level)%Q.
Proof.
  induction t as [c v | c l IHl r IHr]; intros level; simpl.
  - ring.
  - rewrite map_app, qsum_app, IHl, IHr. apply half_power_succ.
Qed.

Lemma kraft_sum_used histogram : forall bit_depths j,
  length bit_depths = length histogram ->
  (kraft_sum histogram bit_depths
   == qsum (map (fun i => (1 # 2) ^ load bit_depths (i - j)) (used_symbols histogram j)))%Q.
Proof.
  induction histogram as [|h rest IH]; intros bd j Hlen; simpl; [reflexivity|].
  destruct bd as [|d bd]; [discriminate|]. simpl in Hlen.
  rewrite (IH bd (j + 1)) by lia.
  assert (Hext : map (fun i => ((1 # 2) ^ load bd (i - (j + 1)))%Q) (used_symbols rest (j + 1))
                 = map (fun i => ((1 # 2) ^ load (d :: bd) (i - j))%Q) (used_symbols rest (j + 1))).
  { apply map_ext_in. intros i Hi. apply used_symbols_range in Hi.
    f_equal. unfold load.
    replace (Z.to_nat (i - j)) with (S (Z.to_nat (i - (j + 1)))) by lia. reflexivity. }
  rewrite Hext. destruct (negb (h =? 0)); simpl.
  - rewrite Z.sub_diag. unfold load at 1. simpl. reflexivity.
  - ring.
Qed.

(** The Kraft sum of what [GenerateOptimalTree] returns. *)
Lemma GenerateOptimalTree_kraft fuel histogram tree_depth_limit bit_depths bit_depths' :
  GenerateOptimalTree fuel histogram tree_depth_limit bit_depths = Ok bit_depths' ->
  (1 < count_used histogram -> (kraft_sum histogram bit_depths' == 1)%Q)
  /\ (kraft_sum histogram bit_depths' <= 1)%Q.
Proof.
  intros Hrun.
  destruct (GenerateOptimalTree_spec _ _ _ _ _ Hrun) as (Hlen & _ & _ & Hspec).
  rewrite (kraft_sum_used histogram bit_depths' 0 Hlen).
  rewrite (count_used_length histogram 0).
  destruct (used_symbols histogram 0) as [|a [|b l]] eqn:Eu.
  - simpl. split; [intros H; lia | discriminate].
  - simpl. rewrite Z.sub_0_r, Hspec. split; [intros H; lia | discriminate].
  - destruct Hspec as (t & Hperm & Hh & Hd).
    assert (Hone : (qsum (map (fun i => (1 # 2) ^ load bit_depths' (i - 0)) (a :: b :: l))
                    == 1)%Q).
    { rewrite (qsum_perm _ _ _ Hperm).
      rewrite <- (leaf_depths_values t 0), map_map.
      rewrite (map_ext_in _ (fun p => ((1 # 2) ^ snd p)%Q)).
      - rewrite kraft_tree. reflexivity.
      - intros [v d] Hvd. simpl. rewrite Z.sub_0_r. now rewrite (Hd v d Hvd). }
    rewrite Hone. split; [reflexivity | apply Qle_refl].
Qed.

(** C3.  The code lengths returned by [GenerateOptimalTree] satisfy the
    Kraft equality when more than one symbol is used: the sum of
    [2 ^ - code_length] over the used symbols is 1; and for every input the
    sum is at most 1. *)
Theorem kraft_of_code_lengths (fuel : nat) (histogram : list Z)
    (tree_depth_limit : Z) (bit_depths bit_depths' : list Z) :
  GenerateOptimalTree fuel histogram tree_depth_limit bit_depths = Ok bit_depths' ->
  (1 < count_used histogram -> (kraft_sum histogram bit_depths' == 1)%Q)
  /\ (kraft_sum histogram bit_depths' <= 1)%Q.
Proof. apply GenerateOptimalTree_kraft. Qed.

Lemma kraft_of_code_lengths_witness :
  (1 < count_used [1; 1; 0; 2; 3; 5; 8; 13] ->
   (kraft_sum [1; 1; 0; 2; 3; 5; 8; 13]%Z [3; 4; 0; 4; 3; 3; 2; 2]%Z == 1)%Q)
  /\ (kraft_sum [1; 1; 0; 2; 3; 5; 8; 13]%Z [3; 4; 0; 4; 3; 3; 2; 2]%Z <= 1)%Q.
Proof.
  apply (kraft_of_code_lengths 2 [1; 1; 0; 2; 3; 5; 8; 13] 4 [0; 0; 0; 0; 0; 0; 0; 0]).
  vm_compute. reflexivity.
Defined.

(** *** The depths of the used symbols *)

(** Every used symbol gets a depth between 1 and 44. *)
Lemma GenerateOptimalTree_used fuel histogram tree_depth_limit bit_depths bit_depths' :
  GenerateOptimalTree fuel histogram tree_depth_limit bit_depths = Ok bit_depths' ->
  forall i, In i (used_symbols histogram 0) -> 1 <= load bit_depths' i <= 44.
Proof.
  intros Hrun i Hi.
  destruct (GenerateOptimalTree_spec _ _ _ _ _ Hrun) as (_ & _ & _ & Hspec).
  destruct (used_symbols histogram 0) as [|a [|b l]]; [contradiction | |].
  - destruct Hi as [<-|[]]. lia.
  - destruct Hspec as (t & Hperm & Hh & Hd).
    apply (Permutation_in _ Hperm) in Hi.
    rewrite <- (leaf_depths_values t 0) in Hi. apply in_map_iff in Hi.
    destruct Hi as ([v d] & Hv & Hvd). simpl in Hv. subst v.
    rewrite (Hd i d Hvd). apply leaf_depths_bound in Hvd.
    destruct (Nat.eqb_spec (height t) 0); lia.
Qed.

(* ------------------------------------------------------------------------- *)
(** ** [GenerateOptimalTree] returns *)

Lemma int_ok_in_range z : INT_MIN <= z <= INT_MAX -> int_ok z = Ok z.
Proof.
  intros H. unfold int_ok.
  replace (INT_MIN <=? z) with true by blia. replace (z <=? INT_MAX) with true by blia.
  reflexivity.
Qed.

Lemma forest_sum_app a b : forest_sum (a ++ b) = forest_sum a + forest_sum b.
Proof. induction a as [|t a IH]; simpl; [reflexivity|]. rewrite IH. lia. Qed.

Lemma forest_sum_merge rest y x :
  forest_sum (merge_forest rest y x) = forest_sum (rest ++ [y; x]).
Proof.
  unfold merge_forest. set (k := forest_insertion_point _ _).
  rewrite <- (firstn_skipn k rest) at 3.
  rewrite !forest_sum_app. simpl. lia.
Qed.

Lemma forest_sum_nonneg forest :
  Forall well_formed forest -> 0 <= forest_sum forest.
Proof.
  induction 1 as [|t rest Ht _ IH]; simpl; [lia|].
  apply well_formed_pos in Ht. lia.
Qed.

Lemma merge_forest_well_formed rest y x :
  Forall well_formed (rest ++ [y; x]) -> Forall well_formed (merge_forest rest y x).
Proof.
  intros H. rewrite Forall_forall in H. apply Forall_forall. intros t Ht.
  apply merge_forest_In in Ht. destruct Ht as [->|Ht].
  - simpl. repeat split; apply H; apply in_or_app; simpl; auto.
  - apply H. apply in_or_app. auto.
Qed.

(** The merge loop returns when the counts of the array sum to an [int]. *)
Lemma merge_loop_total fuel : forall tree pool forest,
  Forall2 (represents pool) tree forest ->
  Forall well_formed forest ->
  forest_sum forest <= INT_MAX ->
  (length tree <= S fuel)%nat ->
  exists r, merge_loop fuel tree pool = Ok r.
Proof.
  induction fuel as [|fuel IH]; intros tree pool forest Hrep Hwf Hsum Hlen.
  - simpl. destruct (Nat.ltb_spec 1 (length tree)); [lia | eauto].
  - cbn [merge_loop]. destruct (Nat.ltb_spec 1 (length tree)) as [Hgt|]; [|eauto].
    assert (Hstep : exists tree1 pool1, merge_step tree pool = Ok (tree1, pool1)).
    { destruct (list_last_two tree ltac:(lia)) as (trest & bl & last & ->).
      pose proof Hrep as Hrep'.
      apply Forall2_app_inv_l in Hrep'.
      destruct Hrep' as (rest & tail & Hrest & Htail & ->).
      inversion Htail as [|? y ? tail' Hy Htail']; subst.
      inversion Htail' as [|? x ? tail'' Hx Htail'']; subst.
      inversion Htail''; subst.
      unfold merge_step.
      destruct (nth_error_last_two trest bl last) as (E1 & E2 & E3).
      rewrite E1, E2, E3.
      rewrite <- (represents_cnt _ _ _ Hy), <- (represents_cnt _ _ _ Hx).
      rewrite int_ok_in_range; [simpl; eauto|].
      rewrite forest_sum_app in Hsum. simpl in Hsum.
      rewrite Forall_app in Hwf. destruct Hwf as [Hwfr Hwft].
      pose proof (forest_sum_nonneg rest Hwfr).
      inversion Hwft as [|? ? Hwy Hwft']; subst. inversion Hwft' as [|? ? Hwx _]; subst.
      apply well_formed_pos in Hwy, Hwx. unfold INT_MIN. lia. }
    destruct Hstep as (tree1 & pool1 & Hstep). rewrite Hstep. cbn [bind fst snd].
    destruct (merge_step_represents pool tree forest tree1 pool1 Hrep ltac:(lia) Hstep)
      as (rest & y & x & -> & Hrep1 & _ & _).
    apply (IH tree1 pool1 (merge_forest rest y x)).
    + assumption.
    + now apply merge_forest_well_formed.
    + now rewrite forest_sum_merge.
    + apply Forall2_length in Hrep1. rewrite merge_forest_length in Hrep1.
      apply Forall2_length in Hrep. rewrite length_app in Hrep. simpl in Hrep. lia.
Qed.

Lemma leaves_sum_bound tree bound :
  Forall (fun node => total_count_ node <= bound) tree ->
  forest_sum (map leaf_of tree) <= Z.of_nat (length tree) * bound.
Proof.
  induction 1 as [|node rest Hn _ IH]; simpl; [lia|].
  replace (Z.of_nat (S (length rest))) with (Z.of_nat (length rest) + 1) by lia. lia.
Qed.

Lemma init_leaves_bound histogram count_min bound : forall j,
  count_min <= bound -> Forall (fun h => h <= bound) histogram ->
  Forall (fun node => total_count_ node <= bound) (init_leaves histogram j count_min).
Proof.
  induction histogram as [|h rest IH]; intros j Hc Hb; simpl; [constructor|].
  inversion Hb as [|? ? Hh Hrest]; subst.
  destruct (negb (h =? 0)); [|now apply IH].
  constructor; [|now apply IH]. simpl. destruct (Z.ltb_spec h count_min); lia.
Qed.

(** The fuel of the inner loops is enough: the merging loop and the walk of
    [SetBitDepths] never stop for lack of it, so that [OutOfFuel] can only
    come from the retry loop, which the source leaves unbounded. *)
Lemma merge_step_length tree pool tree' pool' :
  (2 <= length tree)%nat ->
  merge_step tree pool = Ok (tree', pool') ->
  S (length tree') = length tree.
Proof.
  intros Hlen Hstep. unfold merge_step in Hstep.
  destruct (nth_error tree (length tree - 1)) as [last|]; [|discriminate].
  destruct (nth_error tree (length tree - 2)) as [before_last|]; [|discriminate].
  apply bind_Ok_inv in Hstep. destruct Hstep as (count & _ & Hstep).
  inversion Hstep; subst; clear Hstep.
  set (rest := firstn (length tree - 2) tree).
  assert (Hrest : length rest = (length tree - 2)%nat)
    by (unfold rest; rewrite length_firstn; lia).
  rewrite length_app. cbn [length].
  pose proof (f_equal (@length _) (firstn_skipn (insertion_point rest count) rest)) as E.
  rewrite length_app in E. lia.
Qed.

Lemma merge_step_fuel tree pool : merge_step tree pool <> Err OutOfFuel.
Proof.
  unfold merge_step.
  destruct (nth_error tree (length tree - 1)); [|discriminate].
  destruct (nth_error tree (length tree - 2)); [|discriminate].
  unfold int_ok. destruct (_ && _); simpl; discriminate.
Qed.

Lemma merge_loop_fuel fuel : forall tree pool,
  (length tree <= S fuel)%nat -> merge_loop fuel tree pool <> Err OutOfFuel.
Proof.
  induction fuel as [|fuel IH]; intros tree pool Hlen; simpl.
  - destruct (Nat.ltb_spec 1 (length tree)); [lia | discriminate].
  - destruct (Nat.ltb_spec 1 (length tree)) as [Hgt|]; [|discriminate].
    destruct (merge_step tree pool) as [[tree' pool']|e] eqn:Hstep; simpl.
    + apply IH. apply merge_step_length in Hstep; lia.
    + intros E. inversion E; subst. now apply (merge_step_fuel tree pool).
Qed.

Lemma assign_depths_fuel histogram count_min bit_depths :
  1 <= count_min ->
  length bit_depths = length histogram ->
  assign_depths histogram count_min bit_depths <> Err OutOfFuel.
Proof.
  intros Hmin Hlen.
  destruct (assign_depths histogram count_min bit_depths) as [bd|e] eqn:Hrun;
    [discriminate|].
  intros E. inversion E; subst e; clear E. revert Hrun. unfold assign_depths.
  destruct (sorted_leaves_spec histogram count_min Hmin)
    as (Hrep & Hok & Hh & Hperm & Hsize & _).
  set (tree := qsort (init_leaves histogram 0 count_min)) in *.
  destruct (Nat.ltb_spec 1 (length tree)) as [Hgt|Hle].
  - destruct (merge_loop (length tree) tree []) as [[tree' pool']|e] eqn:Hloop;
      cbn [bind fst snd].
    + destruct (merge_loop_spec (fun _ => True) ltac:(auto)
                  _ _ _ _ _ _ Hrep Hok I Hh ltac:(lia) Hloop)
        as (root & t & -> & Hr & _ & _ & Hp & Hht & _).
      rewrite (SetBitDepths_represents _ _ _ Hr); [discriminate | lia |].
      intros v Hv.
      assert (Hin : In v (used_symbols histogram 0)).
      { apply (Permutation_in _ (Permutation_sym Hperm)).
        apply (Permutation_in _ (Permutation_sym Hp)). exact Hv. }
      apply used_symbols_range in Hin. lia.
    + intros E. inversion E; subst e.
      apply (merge_loop_fuel (length tree) tree []); [lia | assumption].
  - clearbody tree. destruct tree as [|node [|node' others]]; [discriminate| |discriminate].
    unfold store_checked. destruct (_ && _); discriminate.
Qed.

(** More fuel does not change a result of the retry loop. *)
Lemma GenerateOptimalTree_loop_fuel_mono fuel : forall fuel' histogram limit bd count_min r,
  (fuel <= fuel')%nat ->
  GenerateOptimalTree_loop fuel histogram limit bd count_min = Ok r ->
  GenerateOptimalTree_loop fuel' histogram limit bd count_min = Ok r.
Proof.
  induction fuel as [|fuel IH]; intros fuel' histogram limit bd count_min r Hle Hrun;
    [discriminate|].
  destruct fuel' as [|fuel']; [lia|]. simpl in *.
  destruct (assign_depths histogram count_min bd) as [bd1|]; [|discriminate]. simpl in *.
  destruct (max_bit_depth bd1) as [m|]; [|discriminate]. simpl in *.
  destruct (m <=? limit); [assumption|].
  destruct (int_ok (count_min * 2)) as [c|]; [|discriminate]. simpl in *.
  apply IH; [lia | assumption].
Qed.

Lemma GenerateOptimalTree_fuel_mono fuel fuel' histogram limit bd r :
  (fuel <= fuel')%nat ->
  GenerateOptimalTree fuel histogram limit bd = Ok r ->
  GenerateOptimalTree fuel' histogram limit bd = Ok r.
Proof.
  intros Hle. unfold GenerateOptimalTree.
  destruct (_ =? _)%nat; [|discriminate].
  destruct (assert_depth_limit _ _); [|discriminate]. simpl.
  now apply GenerateOptimalTree_loop_fuel_mono.
Qed.

(** One try returns when the raised counts sum to an [int]. *)
Lemma assign_depths_total histogram count_min bit_depths bound :
  1 <= count_min -> count_min <= bound ->
  Forall (fun h => h <= bound) histogram ->
  count_used histogram * bound <= INT_MAX ->
  length bit_depths = length histogram ->
  exists bit_depths', assign_depths histogram count_min bit_depths = Ok bit_depths'.
Proof.
  intros Hmin Hcb Hb Hsum Hlen. unfold assign_depths.
  destruct (sorted_leaves_spec histogram count_min Hmin)
    as (Hrep & Hok & Hh & Hperm & Hsize & _).
  pose proof (init_leaves_bound histogram count_min bound 0 Hcb Hb) as Hlb.
  pose proof (qsort_perm (init_leaves histogram 0 count_min)) as Hqp.
  set (tree := qsort (init_leaves histogram 0 count_min)) in *.
  assert (Htb : Forall (fun node => total_count_ node <= bound) tree).
  { apply Forall_forall. intros x Hx.
    apply (Permutation_in _ (Permutation_sym Hqp)) in Hx.
    rewrite Forall_forall in Hlb. auto. }
  pose proof (leaves_sum_bound tree bound Htb) as Hfs.
  rewrite (count_used_length histogram 0), <- Hsize in Hsum.
  destruct (Nat.ltb_spec 1 (length tree)) as [Hgt|Hle].
  - destruct Hok as (Hs & Hwf & Hfb & Hcm).
    destruct (merge_loop_total (length tree) tree [] _ Hrep Hwf ltac:(lia) ltac:(lia))
      as ([tree' pool'] & Hloop).
    rewrite Hloop. cbn [bind fst snd].
    destruct (merge_loop_spec (fun _ => True) ltac:(auto)
                _ _ _ _ _ _ Hrep (conj Hs (conj Hwf (conj Hfb Hcm))) I Hh ltac:(lia) Hloop)
      as (root & t & -> & Hr & _ & _ & Hp & Hht & _).
    rewrite (SetBitDepths_represents _ _ _ Hr); [eauto | lia |].
    intros v Hv.
    apply (Permutation_in _ (Permutation_sym (Permutation_trans Hperm Hp))) in Hv.
    apply used_symbols_range in Hv. lia.
  - clearbody tree. destruct tree as [|node [|node' others]]; simpl in Hle; try lia.
    + eauto.
    + unfold forest_leaves in Hperm. simpl in Hperm.
      assert (Hin : In (value_ node) (used_symbols histogram 0))
        by (apply (Permutation_in _ (Permutation_sym Hperm)); simpl; auto).
      apply used_symbols_range in Hin. unfold store_checked.
      replace (0 <=? value_ node) with true by blia.
      replace (value_ node <? Z.of_nat (length bit_depths)) with true by blia.
      simpl. eauto.
Qed.

Lemma Forall_load (P : Z -> Prop) a :
  (forall i, 0 <= i < Z.of_nat (length a) -> P (load a i)) -> Forall P a.
Proof.
  induction a as [|x a IH]; intros H; constructor.
  - apply (H 0). simpl. lia.
  - apply IH. intros i Hi. specialize (H (i + 1) ltac:(simpl; lia)).
    unfold load in *. replace (Z.to_nat (i + 1)) with (S (Z.to_nat i)) in H by lia.
    exact H.
Qed.

Lemma max_bit_depth_le bit_depths limit :
  bit_depths <> [] -> Forall (fun d => d <= limit) bit_depths ->
  exists m, max_bit_depth bit_depths = Ok m /\ m <= limit.
Proof.
  destruct bit_depths as [|d rest]; [congruence|]. intros _ H.
  inversion H as [|? ? Hd Hrest]; subst. simpl. eexists. split; [reflexivity|].
  clear H. revert d Hd. induction Hrest as [|x rest Hx _ IH]; intros d Hd; simpl; [lia|].
  apply IH. destruct (Z.ltb_spec d x); lia.
Qed.

(** On a flat histogram the depths are within any feasible limit. *)
Lemma assign_depths_flat histogram count_min tree_depth_limit bit_depths bit_depths' :
  1 <= count_min ->
  length bit_depths = length histogram ->
  flat_at histogram count_min ->
  feasible_depth_limit histogram tree_depth_limit ->
  assign_depths histogram count_min bit_depths = Ok bit_depths' ->
  forall i, In i (used_symbols histogram 0) -> load bit_depths' i <= tree_depth_limit.
Proof.
  intros Hmin Hlen Hflat [[Hl1 _] Hfeas] Hrun i Hi.
  pose proof (assign_depths_spec _ _ _ _ Hmin Hlen Hrun) as Hspec.
  pose proof (used_symbols_range histogram 0) as Hrange.
  pose proof (used_symbols_NoDup histogram 0) as Hnd.
  rewrite (count_used_length histogram 0) in Hfeas.
  destruct (used_symbols histogram 0) as [|a [|b l]] eqn:Eu; [contradiction | |].
  - destruct Hi as [<-|[]]. subst bit_depths'.
    rewrite load_store_same; [lia|]. specialize (Hrange a ltac:(simpl; auto)). lia.
  - destruct Hspec as (t & Hperm & Hh & -> & Hbal). specialize (Hbal Hflat).
    pose proof (pow2_min_depth t) as Hpow.
    rewrite <- (Permutation_length Hperm) in Hpow.
    assert (Hmd : Z.of_nat (min_depth t) <= tree_depth_limit - 1).
    { apply (Z.pow_le_mono_r_iff 2); lia. }
    apply (Permutation_in _ Hperm) in Hi.
    pose proof Hi as Hi'.
    rewrite <- (leaf_depths_values t 0) in Hi'. apply in_map_iff in Hi'.
    destruct Hi' as ([v d] & Hv & Hvd). simpl in Hv. subst v.
    rewrite (load_write_depths t 0 bit_depths i d); [| | | assumption].
    + apply leaf_depths_bound in Hvd.
      destruct (Nat.eqb_spec (height t) 0); [lia|].
      unfold u8. rewrite Z.mod_small; lia.
    + apply (Permutation_NoDup Hperm). exact Hnd.
    + intros w Hw. apply (Permutation_in _ (Permutation_sym Hperm)) in Hw.
      apply Hrange in Hw. lia.
Qed.

Section Termination.

Variables (histogram : list Z) (tree_depth_limit max_count : Z).

Hypothesis histogram_not_empty : histogram <> [].
Hypothesis max_count_pos : 1 <= max_count.
Hypothesis counts_bounded : Forall (fun h => h <= max_count) histogram.
Hypothesis no_overflow : 2 * max_count * Z.max 1 (count_used histogram) <= INT_MAX.
Hypothesis feasible : feasible_depth_limit histogram tree_depth_limit.

Lemma count_used_nonneg : 0 <= count_used histogram.
Proof. rewrite (count_used_length histogram 0). lia. Qed.

(** [k] doublings before the histogram is flat: the loop returns within
    [k + 1] turns. *)
Lemma GenerateOptimalTree_loop_terminates k : forall count_min bit_depths,
  1 <= count_min ->
  max_count <= count_min * 2 ^ Z.of_nat k ->
  count_min * 2 ^ Z.of_nat k < 2 * max_count ->
  length bit_depths = length histogram ->
  unused_within_limit histogram tree_depth_limit bit_depths ->
  exists bit_depths',
    GenerateOptimalTree_loop (S k) histogram tree_depth_limit bit_depths count_min
    = Ok bit_depths'.
Proof.
  pose proof count_used_nonneg as Hn0.
  induction k as [|k IH]; intros cm bd Hmin Hlo Hhi Hlen Hunused.
  1: change (2 ^ Z.of_nat 0) with 1 in Hlo, Hhi.
  2: assert (Hpow : 1 <= 2 ^ Z.of_nat k) by (apply Z.lt_pred_le, Z.pow_pos_nonneg; lia).
  2: rewrite Nat2Z.inj_succ, Z.pow_succ_r in Hlo, Hhi by lia.
  all: destruct (assign_depths_total histogram cm bd (2 * max_count)) as [bd1 Hassign];
    [ lia | nia | revert counts_bounded; apply Forall_impl; intros; lia | nia
    | assumption | ].
  all: destruct (assign_depths_frame _ _ _ _ Hmin Hlen Hassign) as [Hlen1 Hframe].
  all: cbn [GenerateOptimalTree_loop]; rewrite Hassign; cbn [bind].
  all: assert (Hne : bd1 <> [])
    by (intros ->; destruct histogram; [congruence | simpl in *; lia]).
  - (* the histogram is flat *)
    assert (Hflat : flat_at histogram cm).
    { revert counts_bounded. apply Forall_impl. intros; lia. }
    assert (Hall : Forall (fun d => d <= tree_depth_limit) bd1).
    { apply Forall_load. intros i Hi.
      destruct (in_dec Z.eq_dec i (used_symbols histogram 0)) as [Hin|Hnot].
      - apply (assign_depths_flat histogram cm tree_depth_limit bd bd1); assumption.
      - rewrite Hframe by (assumption || lia). apply Hunused; [lia | assumption]. }
    destruct (max_bit_depth_le bd1 tree_depth_limit Hne Hall) as (m & Hm & Hle).
    rewrite Hm. cbn [bind]. replace (m <=? tree_depth_limit) with true by blia. eauto.
  - destruct (max_bit_depth bd1) as [m|e] eqn:Hm.
    2:{ destruct bd1; [congruence | discriminate]. }
    cbn [bind]. destruct (Z.leb_spec m tree_depth_limit) as [Hle|Hgt]; [eauto|].
    rewrite int_ok_in_range by (unfold INT_MIN; nia). cbn [bind].
    apply IH; try lia.
    intros i Hi Hnot. rewrite Hframe by (assumption || lia). apply Hunused; [lia | assumption].
Qed.

(** The loop returns within one more try than [max_count] has binary
    digits. *)
Lemma GenerateOptimalTree_terminates_in (bit_depths : list Z) :
  length bit_depths = length histogram ->
  unused_within_limit histogram tree_depth_limit bit_depths ->
  exists bit_depths',
    GenerateOptimalTree (S (Z.to_nat (Z.log2_up max_count)))
      histogram tree_depth_limit bit_depths = Ok bit_depths'.
Proof.
  intros Hlen Hunused. unfold GenerateOptimalTree.
  rewrite Hlen, Nat.eqb_refl.
  destruct feasible as [Hl Hf].
  rewrite (proj2 (assert_depth_limit_spec _ _) (conj Hl Hf)). cbn [bind].
  set (k := Z.to_nat (Z.log2_up max_count)).
  assert (Hk : max_count <= 1 * 2 ^ Z.of_nat k < 2 * max_count).
  { unfold k. rewrite Z2Nat.id by apply Z.log2_up_nonneg. rewrite Z.mul_1_l.
    destruct (Z.eq_dec max_count 1) as [E|Hne].
    { rewrite E. change (2 ^ Z.log2_up 1) with 1. lia. }
    pose proof (Z.log2_up_spec max_count ltac:(lia)) as [H1 H2].
    split; [assumption|].
    replace (Z.log2_up max_count) with (Z.succ (Z.pred (Z.log2_up max_count))) by lia.
    rewrite Z.pow_succ_r; [lia|].
    pose proof (Z.log2_up_pos max_count ltac:(lia)). lia. }
  destruct (GenerateOptimalTree_loop_terminates k 1 bit_depths) as [bd' H];
    try lia; try assumption.
  exists bd'. exact H.
Qed.

(** For a histogram whose counts, doubled, sum to an [int], a feasible
    depth limit and an array [bit_depths] whose entries for the unused
    symbols are within the limit, [GenerateOptimalTree] returns. *)
Theorem GenerateOptimalTree_terminates (bit_depths : list Z) :
  length bit_depths = length histogram ->
  unused_within_limit histogram tree_depth_limit bit_depths ->
  exists fuel bit_depths',
    GenerateOptimalTree fuel histogram tree_depth_limit bit_depths = Ok bit_depths'.
Proof.
  intros Hlen Hunused.
  destruct (GenerateOptimalTree_terminates_in bit_depths Hlen Hunused) as [bd' H].
  eauto.
Qed.

(** Under the same conditions [GenerateOptimalTree] returns code lengths
    within the limit that satisfy the Kraft inequality, with equality for
    more than one used symbol. *)
Corollary GenerateOptimalTree_total_correct (bit_depths : list Z) :
  length bit_depths = length histogram ->
  unused_within_limit histogram tree_depth_limit bit_depths ->
  exists fuel bit_depths',
    GenerateOptimalTree fuel histogram tree_depth_limit bit_depths = Ok bit_depths'
    /\ Forall (fun d => d <= tree_depth_limit) bit_depths'
    /\ (1 < count_used histogram -> (kraft_sum histogram bit_depths' == 1)%Q)
    /\ (kraft_sum histogram bit_depths' <= 1)%Q.
Proof.
  intros Hlen Hunused.
  destruct (GenerateOptimalTree_terminates bit_depths Hlen Hunused) as (fuel & bd' & H).
  exists fuel, bd'. split; [assumption|].
  destruct (GenerateOptimalTree_spec _ _ _ _ _ H) as (_ & Hmax & _).
  destruct (GenerateOptimalTree_kraft _ _ _ _ _ H) as [Hk1 Hk2]. auto.
Qed.

End Termination.

Example GenerateOptimalTree_total_correct_example :
  exists fuel bit_depths',
    GenerateOptimalTree fuel [1; 1; 0; 2; 3; 5; 8; 13] 4 [0; 0; 0; 0; 0; 0; 0; 0]
    = Ok bit_depths'
    /\ Forall (fun d => d <= 4) bit_depths'
    /\ (1 < count_used [1; 1; 0; 2; 3; 5; 8; 13] ->
        (kraft_sum [1; 1; 0; 2; 3; 5; 8; 13]%Z bit_depths' == 1)%Q)
    /\ (kraft_sum [1; 1; 0; 2; 3; 5; 8; 13]%Z bit_depths' <= 1)%Q.
Proof.
  apply (GenerateOptimalTree_total_correct [1; 1; 0; 2; 3; 5; 8; 13] 4 13).
  - discriminate.
  - lia.
  - repeat constructor; lia.
  - vm_compute. discriminate.
  - unfold feasible_depth_limit. split; [lia | vm_compute; discriminate].
  - reflexivity.
  - intros i Hi _. apply (load_Forall (fun d => d <= 4)); [|lia].
    repeat constructor; lia.
Qed.

(* ------------------------------------------------------------------------- *)
(** ** The token encoder *)

Section TokenLoops.

Lemma CodeRepeatedValues_loop_app fuel : forall repetitions tokens value,
  CodeRepeatedValues_loop fuel repetitions tokens value
  = tokens ++ CodeRepeatedValues_loop fuel repetitions [] value.
Proof.
  induction fuel as [|fuel IH]; intros r tokens v; simpl.
  - now rewrite app_nil_r.
  - destruct (1 <=? r); [|now rewrite app_nil_r].
    destruct (r <? 3); [reflexivity|].
    destruct (r <? 7); [reflexivity|].
    rewrite IH. rewrite (IH _ [_]). now rewrite app_assoc.
Qed.

Lemma CodeRepeatedZeros_loop_app fuel : forall repetitions tokens,
  CodeRepeatedZeros_loop fuel repetitions tokens
  = tokens ++ CodeRepeatedZeros_loop fuel repetitions [].
Proof.
  induction fuel as [|fuel IH]; intros r tokens; simpl.
  - now rewrite app_nil_r.
  - destruct (1 <=? r); [|now rewrite app_nil_r].
    destruct (r <? 3); [reflexivity|].
    destruct (r <? 11); [reflexivity|].
    destruct (r <? 139); [reflexivity|].
    rewrite IH. rewrite (IH _ [_]). now rewrite app_assoc.
Qed.

(** More fuel than [repetitions] changes nothing: the loops are total. *)
Lemma CodeRepeatedValues_loop_fuel fuel1 : forall fuel2 repetitions tokens value,
  (Z.to_nat repetitions <= fuel1)%nat -> (Z.to_nat repetitions <= fuel2)%nat ->
  CodeRepeatedValues_loop fuel1 repetitions tokens value
  = CodeRepeatedValues_loop fuel2 repetitions tokens value.
Proof.
  induction fuel1 as [|fuel1 IH]; intros fuel2 r tokens v H1 H2.
  - destruct fuel2; simpl; [reflexivity|].
    destruct (1 <=? r) eqn:E; [lia | reflexivity].
  - destruct fuel2; simpl.
    + destruct (1 <=? r) eqn:E; [lia | reflexivity].
    + destruct (1 <=? r); [|reflexivity].
      destruct (r <? 3); [reflexivity|].
      destruct (r <? 7) eqn:E7; [reflexivity|].
      apply IH; lia.
Qed.

Lemma CodeRepeatedZeros_loop_fuel fuel1 : forall fuel2 repetitions tokens,
  (Z.to_nat repetitions <= fuel1)%nat -> (Z.to_nat repetitions <= fuel2)%nat ->
  CodeRepeatedZeros_loop fuel1 repetitions tokens
  = CodeRepeatedZeros_loop fuel2 repetitions tokens.
Proof.
  induction fuel1 as [|fuel1 IH]; intros fuel2 r tokens H1 H2.
  - destruct fuel2; simpl; [reflexivity|].
    destruct (1 <=? r) eqn:E; [lia | reflexivity].
  - destruct fuel2; simpl.
    + destruct (1 <=? r) eqn:E; [lia | reflexivity].
    + destruct (1 <=? r); [|reflexivity].
      destruct (r <? 3); [reflexivity|].
      destruct (r <? 11); [reflexivity|].
      destruct (r <? 139) eqn:E139; [reflexivity|].
      apply IH; lia.
Qed.

End TokenLoops.

Lemma expand_tokens_app : forall a prev b,
  expand_tokens prev (a ++ b)
  = expand_tokens prev a ++ expand_tokens (prev_after prev a) b.
Proof.
  induction a as [|t a IH]; intros prev b; simpl; [reflexivity|].
  destruct (code t <? 16) eqn:E16; simpl.
  - rewrite IH. destruct (code t =? 0); reflexivity.
  - destruct (code t =? 16); [|destruct (code t =? 17)];
      rewrite IH, <- app_assoc; reflexivity.
Qed.

Lemma prev_after_app : forall a prev b,
  prev_after prev (a ++ b) = prev_after (prev_after prev a) b.
Proof. induction a as [|t a IH]; intros; simpl; [reflexivity | apply IH]. Qed.

Lemma repeat_Z_succ {A} (x : A) (n : Z) :
  0 <= n -> repeat x (Z.to_nat (n + 1)) = x :: repeat x (Z.to_nat n).
Proof. intros H. replace (Z.to_nat (n + 1)) with (S (Z.to_nat n)) by lia. reflexivity. Qed.

Lemma repeat_Z_add {A} (x : A) (n m : Z) :
  0 <= n -> 0 <= m ->
  repeat x (Z.to_nat (n + m)) = repeat x (Z.to_nat n) ++ repeat x (Z.to_nat m).
Proof. intros Hn Hm. rewrite Z2Nat.inj_add by lia. apply repeat_app. Qed.

Lemma expand_literals prev value n :
  0 <= value < 16 ->
  expand_tokens prev (repeat (mkToken value 0) n) = repeat value n.
Proof.
  intros Hv. revert prev. induction n as [|n IH]; intros prev; simpl; [reflexivity|].
  replace (value <? 16) with true by lia. now rewrite IH.
Qed.

Lemma prev_after_literals prev value n :
  prev_after prev (repeat (mkToken value 0) n)
  = if (value <? 16) && negb (value =? 0) then
      match n with O => prev | S _ => value end
    else prev.
Proof.
  revert prev. induction n as [|n IH]; intros prev; simpl.
  - destruct ((value <? 16) && negb (value =? 0)); reflexivity.
  - rewrite IH. destruct ((value <? 16) && negb (value =? 0)); [destruct n|]; reflexivity.
Qed.

(** What the zero loop writes reads back as the run of zeros, and leaves the
    previous non-zero length alone. *)
Lemma CodeRepeatedZeros_loop_expand fuel : forall repetitions prev,
  0 <= repetitions -> (Z.to_nat repetitions <= fuel)%nat ->
  expand_tokens prev (CodeRepeatedZeros_loop fuel repetitions [])
    = repeat 0 (Z.to_nat repetitions)
  /\ prev_after prev (CodeRepeatedZeros_loop fuel repetitions []) = prev.
Proof.
  induction fuel as [|fuel IH]; intros r prev Hr Hf.
  - replace (Z.to_nat r) with O by lia. simpl. auto.
  - simpl. destruct (1 <=? r) eqn:E1.
    2:{ replace (Z.to_nat r) with O by lia. simpl. auto. }
    destruct (r <? 3) eqn:E3.
    { simpl. rewrite expand_literals by lia. rewrite prev_after_literals. simpl. auto. }
    destruct (r <? 11) eqn:E11.
    { simpl. replace (3 + (r - 3)) with r by lia. rewrite app_nil_r. auto. }
    destruct (r <? 139) eqn:E139.
    { simpl. replace (11 + (r - 11)) with r by lia. rewrite app_nil_r. auto. }
    rewrite CodeRepeatedZeros_loop_app. simpl.
    destruct (IH (r - 138) prev) as [IH1 IH2]; [lia | lia |].
    rewrite IH1, IH2. split; [|reflexivity].
    replace r with (138 + (r - 138)) at 2 by lia.
    rewrite repeat_Z_add by lia. reflexivity.
Qed.

Lemma CodeRepeatedValues_loop_expand fuel : forall repetitions value,
  0 <= repetitions -> (Z.to_nat repetitions <= fuel)%nat -> 1 <= value < 16 ->
  expand_tokens value (CodeRepeatedValues_loop fuel repetitions [] value)
    = repeat value (Z.to_nat repetitions)
  /\ prev_after value (CodeRepeatedValues_loop fuel repetitions [] value) = value.
Proof.
  induction fuel as [|fuel IH]; intros r v Hr Hf Hv.
  - replace (Z.to_nat r) with O by lia. simpl. auto.
  - simpl. destruct (1 <=? r) eqn:E1.
    2:{ replace (Z.to_nat r) with O by lia. simpl. auto. }
    destruct (r <? 3) eqn:E3.
    { simpl. rewrite expand_literals by lia. rewrite prev_after_literals.
      destruct ((v <? 16) && negb (v =? 0)); [destruct (Z.to_nat r)|]; auto. }
    destruct (r <? 7) eqn:E7.
    { simpl. replace (3 + (r - 3)) with r by lia. rewrite app_nil_r. auto. }
    rewrite CodeRepeatedValues_loop_app. simpl.
    destruct (IH (r - 6) v) as [IH1 IH2]; [lia | lia | lia |].
    rewrite IH1, IH2. split; [|reflexivity].
    replace r with (6 + (r - 6)) at 2 by lia.
    rewrite repeat_Z_add by lia. reflexivity.
Qed.

Lemma CodeRepeatedZeros_app repetitions tokens :
  CodeRepeatedZeros repetitions tokens = tokens ++ CodeRepeatedZeros repetitions [].
Proof. unfold CodeRepeatedZeros. apply CodeRepeatedZeros_loop_app. Qed.

Lemma CodeRepeatedValues_app repetitions tokens value prev_value :
  CodeRepeatedValues_body repetitions tokens value prev_value
  = tokens ++ CodeRepeatedValues_body repetitions [] value prev_value.
Proof.
  unfold CodeRepeatedValues_body. destruct (negb (value =? prev_value)).
  - rewrite CodeRepeatedValues_loop_app, (CodeRepeatedValues_loop_app _ _ ([] ++ _)).
    now rewrite <- app_assoc.
  - apply CodeRepeatedValues_loop_app.
Qed.

Lemma CodeRepeatedValues_expand repetitions value prev_value :
  1 <= repetitions -> 1 <= value < 16 ->
  expand_tokens prev_value (CodeRepeatedValues_body repetitions [] value prev_value)
    = repeat value (Z.to_nat repetitions)
  /\ prev_after prev_value (CodeRepeatedValues_body repetitions [] value prev_value) = value.
Proof.
  intros Hr Hv. unfold CodeRepeatedValues_body.
  destruct (value =? prev_value) eqn:E; simpl.
  - apply Z.eqb_eq in E. subst prev_value.
    apply CodeRepeatedValues_loop_expand; lia.
  - rewrite CodeRepeatedValues_loop_app. simpl.
    replace (value <? 16) with true by lia.
    replace (value =? 0) with false by lia. simpl.
    destruct (CodeRepeatedValues_loop_expand (Z.to_nat (repetitions - 1))
                (repetitions - 1) value) as [H1 H2]; [lia | lia | lia |].
    rewrite H1, H2. split; [|reflexivity].
    replace repetitions with ((repetitions - 1) + 1) at 2 by lia.
    now rewrite repeat_Z_succ by lia.
Qed.

(** The run found by the inner scan, and what is left after it. *)
Lemma run_length_split value rest :
  rest = repeat value (run_length value rest) ++ skipn (run_length value rest) rest.
Proof.
  induction rest as [|x rest IH]; simpl; [reflexivity|].
  destruct (x =? value) eqn:E; simpl; [|reflexivity].
  apply Z.eqb_eq in E. subst x. now rewrite <- IH.
Qed.

Lemma run_length_le value rest : (run_length value rest <= length rest)%nat.
Proof.
  induction rest as [|x rest IH]; simpl; [lia|]. destruct (x =? value); simpl; lia.
Qed.

Lemma literal_token_ok value : 0 <= value < 16 -> token_ok (mkToken value 0).
Proof.
  intros H. unfold token_ok, token_repeats; simpl.
  replace (value <? 16) with true by lia. lia.
Qed.

Lemma CodeRepeatedZeros_loop_ok fuel : forall repetitions,
  Forall token_ok (CodeRepeatedZeros_loop fuel repetitions []).
Proof.
  induction fuel as [|fuel IH]; intros r; simpl; [constructor|].
  destruct (1 <=? r) eqn:E1; [|constructor].
  destruct (r <? 3) eqn:E3.
  { apply Forall_forall. intros t Ht. apply repeat_spec in Ht. subst t.
    apply literal_token_ok. lia. }
  destruct (r <? 11) eqn:E11.
  { repeat constructor; unfold token_repeats; simpl; lia. }
  destruct (r <? 139) eqn:E139.
  { repeat constructor; unfold token_repeats; simpl; lia. }
  rewrite CodeRepeatedZeros_loop_app. apply Forall_app. split; [|apply IH].
  repeat constructor; unfold token_repeats; simpl; lia.
Qed.

Lemma CodeRepeatedValues_loop_ok fuel : forall repetitions value,
  0 <= value < 16 ->
  Forall token_ok (CodeRepeatedValues_loop fuel repetitions [] value).
Proof.
  induction fuel as [|fuel IH]; intros r v Hv; simpl; [constructor|].
  destruct (1 <=? r) eqn:E1; [|constructor].
  destruct (r <? 3) eqn:E3.
  { apply Forall_forall. intros t Ht. apply repeat_spec in Ht. subst t.
    now apply literal_token_ok. }
  destruct (r <? 7) eqn:E7.
  { repeat constructor; unfold token_repeats; simpl; lia. }
  rewrite CodeRepeatedValues_loop_app. apply Forall_app. split; [|now apply IH].
  repeat constructor; unfold token_repeats; simpl; lia.
Qed.

Lemma CodeRepeatedValues_ok repetitions value prev_value :
  0 <= value < 16 ->
  Forall token_ok (CodeRepeatedValues_body repetitions [] value prev_value).
Proof.
  intros Hv. unfold CodeRepeatedValues_body. destruct (negb (value =? prev_value)).
  - rewrite CodeRepeatedValues_loop_app. apply Forall_app. split.
    + constructor; [now apply literal_token_ok | constructor].
    + now apply CodeRepeatedValues_loop_ok.
  - now apply CodeRepeatedValues_loop_ok.
Qed.

Lemma expand_tokens_length : forall tokens prev,
  Forall token_ok tokens ->
  Z.of_nat (length (expand_tokens prev tokens)) = sum_repeats tokens.
Proof.
  induction tokens as [|t ts IH]; intros prev H; simpl; [reflexivity|].
  inversion H as [|? ? Ht Hts]; subst. unfold token_ok, token_repeats in *.
  destruct (code t <? 16); simpl.
  - rewrite Nat2Z.inj_succ, IH by assumption. lia.
  - destruct (code t =? 16); [|destruct (code t =? 17)];
      rewrite length_app, repeat_length, Nat2Z.inj_add, IH by assumption; lia.
Qed.

Lemma token_count_le_sum tokens :
  Forall token_ok tokens -> Z.of_nat (length tokens) <= sum_repeats tokens.
Proof.
  induction 1 as [|t ts Ht Hts IH]; simpl; [lia|].
  unfold token_ok in Ht. lia.
Qed.

(** The tokens written for one run: they read back as the run, move the
    previous non-zero length as the encoder does, and each of them stands for
    1 to 138 lengths. *)
Lemma run_tokens_spec value runs tokens prev_value tokens' :
  0 <= value <= MAX_ALLOWED_CODE_LENGTH -> (1 <= runs)%nat ->
  (if value =? 0 then Ok (CodeRepeatedZeros (Z.of_nat runs) tokens)
   else CodeRepeatedValues (Z.of_nat runs) tokens value prev_value) = Ok tokens' ->
  exists new,
    tokens' = tokens ++ new
    /\ expand_tokens prev_value new = repeat value runs
    /\ prev_after prev_value new = (if value =? 0 then prev_value else value)
    /\ Forall token_ok new.
Proof.
  unfold CodeRepeatedValues, MAX_ALLOWED_CODE_LENGTH. intros Hv Hr H.
  destruct (value =? 0) eqn:E0.
  - apply Z.eqb_eq in E0. subst value. inversion H; subst; clear H.
    exists (CodeRepeatedZeros (Z.of_nat runs) []).
    split; [apply CodeRepeatedZeros_app|].
    unfold CodeRepeatedZeros.
    destruct (CodeRepeatedZeros_loop_expand (Z.to_nat (Z.of_nat runs))
                (Z.of_nat runs) prev_value) as [H1 H2]; [lia | lia |].
    rewrite H1, H2, Nat2Z.id. repeat split. apply CodeRepeatedZeros_loop_ok.
  - replace (value <=? 15) with true in H by lia. inversion H; subst; clear H.
    exists (CodeRepeatedValues_body (Z.of_nat runs) [] value prev_value).
    split; [apply CodeRepeatedValues_app|].
    destruct (CodeRepeatedValues_expand (Z.of_nat runs) value prev_value)
      as [H1 H2]; [lia | lia |].
    rewrite H1, H2, Nat2Z.id. repeat split. apply CodeRepeatedValues_ok. lia.
Qed.

Lemma valid_code_lengths_skipn n l :
  valid_code_lengths l -> valid_code_lengths (skipn n l).
Proof.
  unfold valid_code_lengths. rewrite !Forall_forall. intros H x Hx.
  apply H. rewrite <- (firstn_skipn n l). apply in_or_app. now right.
Qed.

Lemma compress_loop_sound fuel : forall remaining tokens max_tokens prev_value out,
  valid_code_lengths remaining ->
  compress_loop fuel remaining tokens max_tokens prev_value = Ok out ->
  exists new,
    out = tokens ++ new
    /\ expand_tokens prev_value new = remaining
    /\ Forall token_ok new.
Proof.
  induction fuel as [|fuel IH]; intros remaining tokens max_tokens prev out Hv H.
  - destruct remaining; simpl in H; [|discriminate].
    inversion H; subst. exists []. rewrite app_nil_r. repeat split. constructor.
  - destruct remaining as [|value rest]; simpl in H.
    { inversion H; subst. exists []. rewrite app_nil_r. repeat split. constructor. }
    apply bind_Ok_inv in H. destruct H as (tokens' & Hrun & H).
    destruct (Z.of_nat (length tokens') <=? max_tokens); [|discriminate].
    apply run_tokens_spec in Hrun; [| now inversion Hv | lia].
    destruct Hrun as (new1 & -> & Hx1 & Hp1 & Hok1).
    apply IH in H; [| apply (valid_code_lengths_skipn (S (run_length value rest)) _ Hv)].
    destruct H as (new2 & -> & Hx2 & Hok2).
    exists (new1 ++ new2). split; [now rewrite app_assoc|]. split.
    + rewrite expand_tokens_app, Hx1, Hp1, Hx2. simpl.
      f_equal. symmetry. apply run_length_split.
    + apply Forall_app. now split.
Qed.

Lemma compress_loop_total fuel : forall remaining tokens max_tokens prev_value,
  valid_code_lengths remaining ->
  (length remaining <= fuel)%nat ->
  Z.of_nat (length tokens + length remaining) <= max_tokens ->
  exists out, compress_loop fuel remaining tokens max_tokens prev_value = Ok out.
Proof.
  induction fuel as [|fuel IH]; intros remaining tokens max_tokens prev Hv Hf Hm.
  - destruct remaining; simpl in *; [eauto | lia].
  - destruct remaining as [|value rest]; simpl; [eauto|].
    set (runs := S (run_length value rest)).
    pose proof (run_length_le value rest) as Hle. simpl in Hf, Hm.
    destruct (if value =? 0 then Ok (CodeRepeatedZeros (Z.of_nat runs) tokens)
              else CodeRepeatedValues (Z.of_nat runs) tokens value prev)
      as [tokens'|e] eqn:Hrun.
    2:{ exfalso. inversion Hv as [|? ? Hv1 _]; subst. unfold CodeRepeatedValues in Hrun.
        destruct (value =? 0); [discriminate|].
        destruct (value <=? MAX_ALLOWED_CODE_LENGTH) eqn:E; [discriminate | lia]. }
    simpl.
    pose proof Hrun as Hrun'.
    apply run_tokens_spec in Hrun'; [| now inversion Hv | unfold runs; lia].
    destruct Hrun' as (new1 & -> & Hx1 & _ & Hok1).
    assert (Hlen : (length new1 <= runs)%nat).
    { pose proof (token_count_le_sum _ Hok1) as H1.
      pose proof (expand_tokens_length _ prev Hok1) as H2.
      rewrite Hx1, repeat_length in H2. lia. }
    rewrite length_app.
    destruct (Z.leb_spec (Z.of_nat (length tokens + length new1)) max_tokens);
      [|unfold runs in *; lia].
    apply IH.
    + apply (valid_code_lengths_skipn (S (run_length value rest)) _ Hv).
    + rewrite length_skipn. lia.
    + rewrite length_app, length_skipn. unfold runs in *. lia.
Qed.

(** With room for [num_symbols] tokens the encoder returns. *)
Lemma VP8LCreateCompressedHuffmanTree_total tree max_tokens :
  valid_code_lengths (code_lengths tree) ->
  num_symbols tree <= max_tokens ->
  exists tokens,
    VP8LCreateCompressedHuffmanTree tree max_tokens
    = Ok (tokens, Z.of_nat (length tokens)).
Proof.
  intros Hv Hm. unfold VP8LCreateCompressedHuffmanTree, num_symbols in *.
  destruct (compress_loop_total (length (code_lengths tree)) (code_lengths tree)
              [] max_tokens 8 Hv) as [out Hout]; [lia | simpl; lia |].
  rewrite Hout. simpl. eauto.
Qed.

(** What the encoder returns reads back as the code lengths. *)
Lemma VP8LCreateCompressedHuffmanTree_sound tree max_tokens tokens n :
  valid_code_lengths (code_lengths tree) ->
  VP8LCreateCompressedHuffmanTree tree max_tokens = Ok (tokens, n) ->
  n = Z.of_nat (length tokens)
  /\ expand_tokens 8 tokens = code_lengths tree
  /\ Forall token_ok tokens.
Proof.
  intros Hv H. unfold VP8LCreateCompressedHuffmanTree in H.
  apply bind_Ok_inv in H. destruct H as (out & Hout & H).
  inversion H; subst; clear H.
  apply compress_loop_sound in Hout; [|assumption].
  destruct Hout as (new & -> & Hx & Hok). simpl. auto.
Qed.

(** The reader has to start from the same previous length as the encoder:
    three leading 8s are written as one repeat token. *)
Example leading_repeat_token :
  VP8LCreateCompressedHuffmanTree (mkCode [8; 8; 8] []) 3 = Ok ([mkToken 16 0], 1)
  /\ forall prev, expand_tokens prev [mkToken 16 0] = [8; 8; 8] -> prev = 8.
Proof.
  split; [reflexivity|]. intros prev H. simpl in H. now inversion H.
Qed.

(** C2.  For every array of code lengths with entries in 0..15 (and a token
    buffer of at least [num_symbols] entries) [VP8LCreateCompressedHuffmanTree]
    returns a token sequence whose expansion, literal tokens to one length,
    16 to 3 + extra_bits copies of the previous non-zero length (8 before any
    was emitted), 17 to 3 + extra_bits zeros and 18 to 11 + extra_bits zeros,
    is exactly the original array. *)
Theorem token_round_trip (tree : HuffmanTreeCode) (max_tokens : Z) :
  valid_code_lengths (code_lengths tree) ->
  num_symbols tree <= max_tokens ->
  exists tokens n,
    VP8LCreateCompressedHuffmanTree tree max_tokens = Ok (tokens, n)
    /\ expand_tokens 8 tokens = code_lengths tree.
Proof.
  intros Hv Hm.
  destruct (VP8LCreateCompressedHuffmanTree_total tree max_tokens Hv Hm) as [tokens H].
  exists tokens, (Z.of_nat (length tokens)). split; [assumption|].
  now apply (VP8LCreateCompressedHuffmanTree_sound tree max_tokens tokens _ Hv H).
Qed.

Lemma token_round_trip_witness :
  exists tokens n,
    VP8LCreateCompressedHuffmanTree (mkCode [3;3;3;3;3;3;3;3;0;0;0;8;8;8;8] []) 15
      = Ok (tokens, n)
    /\ expand_tokens 8 tokens = [3;3;3;3;3;3;3;3;0;0;0;8;8;8;8].
Proof.
  apply (token_round_trip (mkCode [3;3;3;3;3;3;3;3;0;0;0;8;8;8;8] []) 15).
  - unfold valid_code_lengths, MAX_ALLOWED_CODE_LENGTH. simpl.
    repeat constructor; lia.
  - vm_compute. discriminate.
Defined.

(** One turn of the main loop. *)
Lemma compress_loop_step fuel value rest tokens max_tokens prev_value out :
  compress_loop (S fuel) (value :: rest) tokens max_tokens prev_value = Ok out ->
  exists tokens',
    (if value =? 0 then
       Ok (CodeRepeatedZeros (Z.of_nat (S (run_length value rest))) tokens)
     else
       CodeRepeatedValues (Z.of_nat (S (run_length value rest))) tokens
         value prev_value) = Ok tokens'
    /\ compress_loop fuel (skipn (run_length value rest) rest) tokens' max_tokens
         (if value =? 0 then prev_value else value) = Ok out.
Proof.
  simpl. intros H. apply bind_Ok_inv in H. destruct H as (tokens' & Hrun & H).
  exists tokens'. split; [assumption|].
  destruct (Z.of_nat (length tokens') <=? max_tokens); [assumption | discriminate].
Qed.

Lemma compress_loop_fuel_needed fuel remaining tokens max_tokens prev_value out :
  compress_loop fuel remaining tokens max_tokens prev_value = Ok out ->
  remaining <> [] -> exists fuel', fuel = S fuel'.
Proof.
  destruct fuel; [|eauto]. destruct remaining; simpl; [congruence | discriminate].
Qed.

(** C10.  For every array of [num_symbols] code lengths with entries in 0..15
    [VP8LCreateCompressedHuffmanTree] writes at most [num_symbols] tokens:
    each token written accounts for at least one position and together they
    account for all positions.  With [max_tokens >= num_symbols] the
    assertion on the token cursor holds throughout and the call returns. *)
Theorem token_count_bounded (tree : HuffmanTreeCode) (max_tokens : Z) :
  valid_code_lengths (code_lengths tree) ->
  (num_symbols tree <= max_tokens ->
   exists tokens n, VP8LCreateCompressedHuffmanTree tree max_tokens = Ok (tokens, n))
  /\
  (forall tokens n,
     VP8LCreateCompressedHuffmanTree tree max_tokens = Ok (tokens, n) ->
     n = Z.of_nat (length tokens)
     /\ n <= num_symbols tree
     /\ Forall (fun t => 1 <= token_repeats t) tokens
     /\ sum_repeats tokens = num_symbols tree).
Proof.
  intros Hv. split.
  - intros Hm.
    destruct (VP8LCreateCompressedHuffmanTree_total tree max_tokens Hv Hm) as [tokens H].
    eauto.
  - intros tokens n H.
    destruct (VP8LCreateCompressedHuffmanTree_sound tree max_tokens tokens n Hv H)
      as (-> & Hx & Hok).
    pose proof (token_count_le_sum _ Hok) as H1.
    pose proof (expand_tokens_length _ 8 Hok) as H2.
    rewrite Hx in H2. unfold num_symbols. repeat split; try lia.
    revert Hok. apply Forall_impl. unfold token_ok. intros; lia.
Qed.

Lemma token_count_bounded_witness :
  (16 <= 16 ->
   exists tokens n,
     VP8LCreateCompressedHuffmanTree
       (mkCode [0;0;0;0;5;5;5;5;5;5;5;5;5;4;4;0] []) 16 = Ok (tokens, n))
  /\
  (forall tokens n,
     VP8LCreateCompressedHuffmanTree
       (mkCode [0;0;0;0;5;5;5;5;5;5;5;5;5;4;4;0] []) 16 = Ok (tokens, n) ->
     n = Z.of_nat (length tokens)
     /\ n <= 16
     /\ Forall (fun t => 1 <= token_repeats t) tokens
     /\ sum_repeats tokens = 16).
Proof.
  apply (token_count_bounded (mkCode [0;0;0;0;5;5;5;5;5;5;5;5;5;4;4;0] []) 16).
  unfold valid_code_lengths, MAX_ALLOWED_CODE_LENGTH. simpl.
  repeat constructor; lia.
Defined.

(* C6 *)

Lemma run_length_zeros z v rest :
  v <> 0 -> run_length 0 (repeat 0 z ++ v :: rest) = z.
Proof.
  intros Hv. induction z as [|z IH]; simpl.
  - destruct (v =? 0) eqn:E; [lia | reflexivity].
  - now rewrite IH.
Qed.

Lemma skipn_repeat_app {A} (x : A) n l : skipn n (repeat x n ++ l) = l.
Proof. induction n; simpl; auto. Qed.

Lemma CodeRepeatedValues_first_literal repetitions tokens value prev_value :
  1 <= repetitions -> value <> prev_value \/ repetitions < 3 ->
  exists more,
    CodeRepeatedValues_body repetitions tokens value prev_value
    = tokens ++ mkToken value 0 :: more.
Proof.
  intros Hr Hc. unfold CodeRepeatedValues_body.
  destruct (value =? prev_value) eqn:E; simpl.
  - destruct Hc as [Hc|Hc]; [lia|].
    destruct (Z.to_nat repetitions) as [|f] eqn:Ef; [lia|]. simpl.
    replace (1 <=? repetitions) with true by lia.
    replace (repetitions <? 3) with true by lia.
    rewrite Ef. simpl. eauto.
  - rewrite CodeRepeatedValues_loop_app, <- app_assoc. simpl. eauto.
Qed.

Lemma first_nonzero_run_from value rest fuel tokens max_tokens out :
  1 <= value <= MAX_ALLOWED_CODE_LENGTH ->
  valid_code_lengths rest ->
  value <> 8 \/ (run_length value rest < 2)%nat ->
  compress_loop fuel (value :: rest) tokens max_tokens 8 = Ok out ->
  exists post,
    out = tokens ++ mkToken value 0 :: post /\ expand_tokens value post = rest.
Proof.
  unfold MAX_ALLOWED_CODE_LENGTH. intros Hv Hrest Hc H.
  pose proof H as Hsound.
  apply compress_loop_sound in Hsound;
    [| constructor; [unfold MAX_ALLOWED_CODE_LENGTH; lia | assumption]].
  destruct Hsound as (new & -> & Hx & _).
  assert (Hne : value :: rest <> []) by discriminate.
  destruct (compress_loop_fuel_needed _ _ _ _ _ _ H Hne) as [fuel' ->].
  apply compress_loop_step in H. destruct H as (tokens' & Hrun & H).
  unfold CodeRepeatedValues in Hrun.
  replace (value =? 0) with false in Hrun by lia.
  replace (value <=? MAX_ALLOWED_CODE_LENGTH) with true in Hrun
    by (unfold MAX_ALLOWED_CODE_LENGTH; lia).
  inversion Hrun as [Ht]; clear Hrun.
  destruct (CodeRepeatedValues_first_literal
              (Z.of_nat (S (run_length value rest))) tokens value 8)
    as [more Hmore]; [lia | lia |].
  rewrite Hmore in Ht. subst tokens'.
  apply compress_loop_sound in H;
    [| apply (valid_code_lengths_skipn (S (run_length value rest))
                (value :: rest));
       constructor; [unfold MAX_ALLOWED_CODE_LENGTH; lia | assumption]].
  destruct H as (new2 & Heq & _).
  rewrite <- app_assoc in Heq. apply app_inv_head in Heq. simpl in Heq.
  subst new. exists (more ++ new2). split; [reflexivity|].
  simpl in Hx. replace (value <? 16) with true in Hx by lia.
  replace (value =? 0) with false in Hx by lia. now inversion Hx.
Qed.

Lemma CodeRepeatedValues_first_repeat repetitions tokens value :
  3 <= repetitions ->
  exists more,
    CodeRepeatedValues_body repetitions tokens value value
    = tokens ++ mkToken 16 (Z.min 3 (repetitions - 3)) :: more.
Proof.
  intros Hr. unfold CodeRepeatedValues_body. rewrite Z.eqb_refl. cbn [negb].
  destruct (Z.to_nat repetitions) as [|f] eqn:Ef; [lia|]. simpl.
  replace (1 <=? repetitions) with true by lia.
  replace (repetitions <? 3) with false by lia.
  destruct (Z.ltb_spec repetitions 7).
  - rewrite Z.min_r by lia. exists []. reflexivity.
  - rewrite Z.min_l by lia. rewrite CodeRepeatedValues_loop_app, <- app_assoc.
    simpl. eauto.
Qed.

Lemma first_repeat_run_from rest fuel tokens max_tokens out :
  valid_code_lengths rest ->
  (2 <= run_length 8 rest)%nat ->
  compress_loop fuel (8 :: rest) tokens max_tokens 8 = Ok out ->
  exists post,
    out = tokens ++ mkToken 16 (Z.min 3 (Z.of_nat (run_length 8 rest) - 2)) :: post
    /\ expand_tokens 8
         (mkToken 16 (Z.min 3 (Z.of_nat (run_length 8 rest) - 2)) :: post)
       = 8 :: rest.
Proof.
  intros Hrest Hc H.
  assert (Hvalid : valid_code_lengths (8 :: rest))
    by (constructor; [unfold MAX_ALLOWED_CODE_LENGTH; lia | assumption]).
  pose proof H as Hsound.
  apply compress_loop_sound in Hsound; [|assumption].
  destruct Hsound as (new & -> & Hx & _).
  assert (Hne : 8 :: rest <> []) by discriminate.
  destruct (compress_loop_fuel_needed _ _ _ _ _ _ H Hne) as [fuel' ->].
  apply compress_loop_step in H. destruct H as (tokens' & Hrun & H).
  unfold CodeRepeatedValues in Hrun. change (8 =? 0) with false in Hrun, H.
  change (8 <=? MAX_ALLOWED_CODE_LENGTH) with true in Hrun. cbv iota in Hrun, H.
  inversion Hrun as [Ht]; clear Hrun.
  destruct (CodeRepeatedValues_first_repeat
              (Z.of_nat (S (run_length 8 rest))) tokens 8)
    as [more Hmore]; [lia|].
  replace (Z.of_nat (S (run_length 8 rest)) - 3)
    with (Z.of_nat (run_length 8 rest) - 2) in Hmore by lia.
  rewrite Hmore in Ht. subst tokens'.
  apply compress_loop_sound in H;
    [| apply (valid_code_lengths_skipn (S (run_length 8 rest)) (8 :: rest) Hvalid)].
  destruct H as (new2 & Heq & _).
  rewrite <- app_assoc in Heq. apply app_inv_head in Heq. simpl in Heq.
  subst new. exists (more ++ new2). split; [reflexivity | exact Hx].
Qed.

(** The tokens of the zeros that lead the table, and the state in which the
    main loop reaches the first run of non-zero values. *)
Lemma leading_zeros_tokens z v rest cs max_tokens tokens n :
  v <> 0 ->
  VP8LCreateCompressedHuffmanTree (mkCode (repeat 0 z ++ v :: rest) cs) max_tokens
    = Ok (tokens, n) ->
  exists pre fuel,
    expand_tokens 8 pre = repeat 0 z
    /\ compress_loop fuel (v :: rest) pre max_tokens 8 = Ok tokens.
Proof.
  intros Hv H. unfold VP8LCreateCompressedHuffmanTree in H.
  apply bind_Ok_inv in H. destruct H as (out & Hout & H).
  inversion H; subst; clear H. cbn [code_lengths] in Hout.
  destruct z as [|z]; cbn [repeat app length] in Hout.
  - exists [], (length (v :: rest)). split; [reflexivity | exact Hout].
  - apply compress_loop_step in Hout.
    destruct Hout as (tokens' & Hrun & Hout). simpl in Hrun.
    inversion Hrun as [Ht]; clear Hrun.
    rewrite run_length_zeros in Ht, Hout by assumption.
    rewrite skipn_repeat_app in Hout. simpl in Hout.
    exists tokens', (length (repeat 0 z ++ v :: rest)). split; [|exact Hout].
    subst tokens'. unfold CodeRepeatedZeros.
    destruct (CodeRepeatedZeros_loop_expand (Z.to_nat (Z.of_nat (S z)))
                (Z.of_nat (S z)) 8) as [H1 _]; [lia | lia |].
    rewrite H1, Nat2Z.id. reflexivity.
Qed.

(** C6, as the code has it.  Let the first run of non-zero values of
    [code_lengths] have the value [v] in 1..15, after [z] leading zeros, and
    let [pre] be the tokens that stand for these zeros.  When [v] is not 8,
    or the run is shorter than 3, the first token written for the run is the
    literal [{v, 0}], and the tokens after it stand for the rest of the
    array.  When [v] is 8, the initial [prev_value], and the run has three
    or more entries, the first token written for the run is the repeat token
    [{16, e}] and no literal, with [e] the smaller of 3 and the run length
    less 3; this token and those after it stand for the whole run and the
    rest of the array. *)
Theorem first_nonzero_run_literal (z : nat) (v : Z) (rest cs : list Z)
    (max_tokens : Z) (tokens : list HuffmanTreeToken) (n : Z) :
  1 <= v <= MAX_ALLOWED_CODE_LENGTH ->
  valid_code_lengths rest ->
  VP8LCreateCompressedHuffmanTree (mkCode (repeat 0 z ++ v :: rest) cs) max_tokens
    = Ok (tokens, n) ->
  (v <> 8 \/ (run_length v rest < 2)%nat ->
   exists pre post,
     tokens = pre ++ mkToken v 0 :: post
     /\ expand_tokens 8 pre = repeat 0 z
     /\ expand_tokens v post = rest)
  /\
  (v = 8 -> (2 <= run_length v rest)%nat ->
   exists pre post,
     tokens = pre ++ mkToken 16 (Z.min 3 (Z.of_nat (run_length v rest) - 2)) :: post
     /\ expand_tokens 8 pre = repeat 0 z
     /\ repeat 8 (Z.to_nat (3 + Z.min 3 (Z.of_nat (run_length v rest) - 2)))
          ++ expand_tokens 8 post
        = v :: rest).
Proof.
  intros Hv Hrest H.
  apply leading_zeros_tokens in H; [|lia].
  destruct H as (pre & fuel & Hpre & Hout). split.
  - intros Hc. apply first_nonzero_run_from in Hout; try assumption.
    destruct Hout as (post & -> & Hpost). exists pre, post. auto.
  - intros -> Hc. apply first_repeat_run_from in Hout; try assumption.
    destruct Hout as (post & -> & Hpost). exists pre, post.
    split; [reflexivity|]. split; [assumption|]. exact Hpost.
Qed.

Lemma first_nonzero_run_literal_witness :
  (exists pre post,
     [mkToken 17 0; mkToken 5 0; mkToken 16 1; mkToken 0 0; mkToken 8 0; mkToken 8 0]
       = pre ++ mkToken 5 0 :: post
     /\ expand_tokens 8 pre = repeat 0 3
     /\ expand_tokens 5 post = [5;5;5;5;0;8;8])
  /\
  (exists pre post,
     [mkToken 0 0; mkToken 16 3; mkToken 8 0; mkToken 8 0; mkToken 3 0]
       = pre ++ mkToken 16 3 :: post
     /\ expand_tokens 8 pre = repeat 0 1
     /\ repeat 8 (Z.to_nat (3 + 3)) ++ expand_tokens 8 post = [8;8;8;8;8;8;8;8;3]).
Proof.
  split.
  - apply (proj1 (first_nonzero_run_literal 3 5 [5;5;5;5;0;8;8] [] 12 _ 6
                    ltac:(unfold MAX_ALLOWED_CODE_LENGTH; lia)
                    ltac:(unfold valid_code_lengths, MAX_ALLOWED_CODE_LENGTH;
                          repeat constructor; lia)
                    ltac:(vm_compute; reflexivity))).
    left. lia.
  - apply (proj2 (first_nonzero_run_literal 1 8 [8;8;8;8;8;8;8;3] [] 10 _ 5
                    ltac:(unfold MAX_ALLOWED_CODE_LENGTH; lia)
                    ltac:(unfold valid_code_lengths, MAX_ALLOWED_CODE_LENGTH;
                          repeat constructor; lia)
                    ltac:(vm_compute; reflexivity))).
    + reflexivity.
    + simpl. lia.
Defined.

(** The claim C6 as the specification words it fails for the value 8: a
    first run of three 8s is coded by the single token [{16, 0}]. *)
Lemma first_nonzero_run_literal_counterexample :
  VP8LCreateCompressedHuffmanTree (mkCode [8; 8; 8] []) 3 = Ok ([mkToken 16 0], 1)
  /\ 1 <= 8 <= MAX_ALLOWED_CODE_LENGTH
  /\ ~ (exists post, [mkToken 16 0] = mkToken 8 0 :: post).
Proof.
  split; [vm_compute; reflexivity|]. split; [unfold MAX_ALLOWED_CODE_LENGTH; lia|].
  intros [post H]. discriminate H.
Qed.

(* C7 *)

Lemma CodeRepeatedZeros_20 tokens :
  CodeRepeatedZeros 20 tokens = tokens ++ [mkToken 18 9].
Proof. reflexivity. Qed.

(** C7, as the code has it.  A maximal run of exactly 20 zero code lengths
    is coded by the single token [{18, 9}] (11 + 9 zeros): for a leading run,
    the tokens after it stand for the rest of the array.  No token written by
    the encoder stands for more than 138 code lengths. *)
Theorem zero_run_of_20 :
  (forall tokens, CodeRepeatedZeros 20 tokens = tokens ++ [mkToken 18 9])
  /\
  (forall (v : Z) (rest cs : list Z) (max_tokens : Z) tokens n,
     v <> 0 -> valid_code_lengths (v :: rest) ->
     VP8LCreateCompressedHuffmanTree (mkCode (repeat 0 20 ++ v :: rest) cs) max_tokens
       = Ok (tokens, n) ->
     exists post, tokens = mkToken 18 9 :: post /\ expand_tokens 8 post = v :: rest)
  /\
  (forall cs max_tokens tokens n,
     VP8LCreateCompressedHuffmanTree (mkCode (repeat 0 20) cs) max_tokens
       = Ok (tokens, n) ->
     tokens = [mkToken 18 9])
  /\
  (forall tree max_tokens tokens n,
     valid_code_lengths (code_lengths tree) ->
     VP8LCreateCompressedHuffmanTree tree max_tokens = Ok (tokens, n) ->
     Forall (fun t => token_repeats t <= 138) tokens).
Proof.
  split; [exact CodeRepeatedZeros_20|]. split; [|split].
  - intros v rest cs max_tokens tokens n Hv0 Hv H.
    unfold VP8LCreateCompressedHuffmanTree in H.
    apply bind_Ok_inv in H. destruct H as (out & Hout & H).
    inversion H; subst; clear H. cbn [code_lengths] in Hout.
    change (repeat 0 20) with (0 :: repeat 0 19) in Hout.
    cbn [app length] in Hout.
    apply compress_loop_step in Hout.
    destruct Hout as (tokens' & Hrun & Hout).
    change (0 =? 0) with true in Hrun, Hout. cbv iota in Hrun, Hout.
    rewrite run_length_zeros in Hrun, Hout by assumption.
    inversion Hrun as [Ht]; clear Hrun.
    rewrite skipn_repeat_app in Hout.
    change (Z.of_nat 20) with 20 in Ht. rewrite CodeRepeatedZeros_20 in Ht.
    subst tokens'. apply compress_loop_sound in Hout; [|assumption].
    destruct Hout as (new & -> & Hx & _). exists new. auto.
  - intros cs max_tokens tokens n H.
    unfold VP8LCreateCompressedHuffmanTree in H.
    apply bind_Ok_inv in H. destruct H as (out & Hout & H).
    inversion H; subst; clear H. cbn [code_lengths] in Hout.
    change (length (repeat 0 20)) with 20%nat in Hout.
    change (repeat 0 20) with (0 :: repeat 0 19) in Hout.
    apply compress_loop_step in Hout.
    destruct Hout as (tokens' & Hrun & Hout).
    change (run_length 0 (repeat 0 19)) with 19%nat in Hrun, Hout.
    change (skipn 19 (repeat 0 19)) with (@nil Z) in Hout.
    change (0 =? 0) with true in Hrun. cbv iota in Hrun.
    change (Z.of_nat 20) with 20 in Hrun. rewrite CodeRepeatedZeros_20 in Hrun.
    cbn [compress_loop app] in Hout, Hrun. congruence.
  - intros tree max_tokens tokens n Hv H.
    unfold VP8LCreateCompressedHuffmanTree in H.
    apply bind_Ok_inv in H. destruct H as (out & Hout & H).
    inversion H; subst; clear H.
    apply compress_loop_sound in Hout; [|assumption].
    destruct Hout as (new & -> & _ & Hok). simpl.
    revert Hok. apply Forall_impl. unfold token_ok. intros; lia.
Qed.

Lemma zero_run_of_20_witness :
  exists post,
    [mkToken 18 9; mkToken 3 0; mkToken 3 0] = mkToken 18 9 :: post
    /\ expand_tokens 8 post = [3; 3].
Proof.
  destruct zero_run_of_20 as (_ & H & _).
  apply (H 3 [3] [] 22 _ 3).
  - lia.
  - unfold valid_code_lengths, MAX_ALLOWED_CODE_LENGTH. repeat constructor; lia.
  - vm_compute. reflexivity.
Defined.

(** The claim C7 as the specification words it fails: for a run of 20 zeros
    the encoder does not write [{18, 7}] and two literal zeros. *)
Lemma zero_run_of_20_counterexample :
  VP8LCreateCompressedHuffmanTree (mkCode (repeat 0 20) []) 20
    = Ok ([mkToken 18 9], 1)
  /\ CodeRepeatedZeros 20 [] <> [mkToken 18 7; mkToken 0 0; mkToken 0 0].
Proof. split; [vm_compute; reflexivity | vm_compute; discriminate]. Qed.

(* ------------------------------------------------------------------------- *)
(** ** Canonical codes *)

(** *** [ReverseBits] reverses the low [num_bits] bits *)

Lemma reverse_low_bits_testbit n : forall x acc k,
  0 <= k ->
  Z.testbit (reverse_low_bits n x acc) k
  = if k <? Z.of_nat n then Z.testbit x (Z.of_nat n - 1 - k)
    else Z.testbit acc (k - Z.of_nat n).
Proof.
  induction n as [|n IH]; intros x acc k Hk.
  - simpl. split_cmp; [lia|]. f_equal. lia.
  - cbn [reverse_low_bits]. rewrite IH by assumption.
    rewrite <- Z.bit0_mod. rewrite Nat2Z.inj_succ.
    destruct (Z.ltb_spec k (Z.of_nat n)); destruct (Z.ltb_spec k (Z.succ (Z.of_nat n)));
      try lia.
    + rewrite Z.div2_bits by lia. f_equal. lia.
    + replace (k - Z.of_nat n) with 0 by lia. rewrite Z.testbit_0_r. f_equal. lia.
    + replace (k - Z.of_nat n) with (Z.succ (k - Z.succ (Z.of_nat n))) by lia.
      rewrite Z.testbit_succ_r by lia. reflexivity.
Qed.

Lemma kReversedBits_spec y :
  0 <= y < 16 -> load kReversedBits y = reverse_low_bits 4 y 0.
Proof.
  intros H.
  assert (Hc : y = 0 \/ y = 1 \/ y = 2 \/ y = 3 \/ y = 4 \/ y = 5 \/ y = 6 \/ y = 7 \/
               y = 8 \/ y = 9 \/ y = 10 \/ y = 11 \/ y = 12 \/ y = 13 \/ y = 14 \/
               y = 15) by lia.
  repeat (destruct Hc as [-> | Hc]; [vm_compute; reflexivity|]).
  subst y. vm_compute. reflexivity.
Qed.

Lemma kReversedBits_testbit bits m :
  0 <= m ->
  Z.testbit (load kReversedBits (Z.land bits 0xf)) m
  = (m <? 4) && Z.testbit bits (3 - m).
Proof.
  intros Hm. change 0xf with (Z.ones 4). rewrite Z.land_ones by lia.
  rewrite kReversedBits_spec by (apply Z.mod_pos_bound; lia).
  rewrite reverse_low_bits_testbit by assumption. change (Z.of_nat 4) with 4.
  destruct (Z.ltb_spec m 4); simpl.
  - rewrite Z.testbit_mod_pow2 by lia. replace (4 - 1 - m) with (3 - m) by lia.
    destruct (Z.ltb_spec (3 - m) 4); [reflexivity | lia].
  - apply Z.testbit_0_l.
Qed.

Lemma u32_testbit z p : Z.testbit (u32 z) p = (p <? 32) && Z.testbit z p.
Proof. unfold u32. apply Z.testbit_mod_pow2. lia. Qed.

Lemma ReverseBits_loop_bits x num_bits :
  0 <= num_bits <= 16 ->
  forall fuel t retval,
    0 <= t <= 4 ->
    (Z.to_nat (num_bits - 4 * t) <= fuel)%nat ->
    (forall p, 0 <= p ->
       Z.testbit retval p = (16 - 4 * t <=? p) && (p <? 16) && Z.testbit x (15 - p)) ->
    exists t',
      num_bits <= 4 * t' /\ 0 <= t' <= 4 /\
      forall p, 0 <= p ->
        Z.testbit (ReverseBits_loop fuel num_bits (4 * t) retval (Z.shiftr x (4 * t))) p
        = (16 - 4 * t' <=? p) && (p <? 16) && Z.testbit x (15 - p).
Proof.
  intros Hn. induction fuel as [|fuel IH]; intros t retval Ht Hf Hr.
  - exists t. simpl. repeat split; try lia. exact Hr.
  - cbn [ReverseBits_loop]. destruct (Z.ltb_spec (4 * t) num_bits) as [Hlt|Hge].
    2:{ exists t. repeat split; try lia. exact Hr. }
    rewrite Z.shiftr_shiftr by lia.
    replace (4 * t + 4) with (4 * (t + 1)) by lia.
    apply IH; [lia | lia |].
    intros p Hp. rewrite u32_testbit, Z.lor_spec, Hr by assumption.
    rewrite Z.shiftl_spec by assumption.
    unfold MAX_ALLOWED_CODE_LENGTH.
    destruct (Z.leb_spec (16 - 4 * (t + 1)) p) as [H1|H1].
    + rewrite kReversedBits_testbit by lia.
      destruct (Z.ltb_spec (p - (15 + 1 - 4 * (t + 1))) 4) as [H2|H2].
      * rewrite Z.shiftr_spec by lia.
        replace (3 - (p - (15 + 1 - 4 * (t + 1))) + 4 * t) with (15 - p) by lia.
        split_cmp; simpl; try reflexivity; lia.
      * split_cmp; simpl; try lia; rewrite ?orb_false_r; reflexivity.
    + rewrite (Z.testbit_neg_r _ (p - _)) by lia.
      split_cmp; simpl; try reflexivity; lia.
Qed.

(** [ReverseBits] is the reversal of the low [num_bits] bits of [bits]. *)
Lemma ReverseBits_spec num_bits bits :
  0 <= num_bits <= MAX_ALLOWED_CODE_LENGTH + 1 ->
  ReverseBits num_bits bits = bit_reversal num_bits bits.
Proof.
  unfold MAX_ALLOWED_CODE_LENGTH. intros Hn.
  apply Z.bits_inj'. intros k Hk.
  unfold ReverseBits, bit_reversal, MAX_ALLOWED_CODE_LENGTH.
  rewrite Z.shiftr_spec by assumption.
  rewrite reverse_low_bits_testbit by assumption. rewrite Z2Nat.id by lia.
  destruct (ReverseBits_loop_bits bits num_bits ltac:(lia) (Z.to_nat num_bits) 0 0)
    as (t' & Ht1 & Ht2 & Hbits); [lia | lia | |].
  { intros p Hp. rewrite Z.testbit_0_l. split_cmp; simpl; try reflexivity; lia. }
  change (4 * 0) with 0 in Hbits. rewrite Z.shiftr_0_r in Hbits.
  rewrite Hbits by lia. rewrite Z.testbit_0_l.
  split_cmp; simpl; try reflexivity; try lia. f_equal. lia.
Qed.

(** *** Counting the lengths *)

Lemma occurrences_cons l c rest :
  occurrences l (c :: rest) = (if c =? l then 1 else 0) + occurrences l rest.
Proof.
  unfold occurrences. simpl. destruct (Z.eq_dec c l) as [->|Hne].
  - rewrite Z.eqb_refl. lia.
  - replace (c =? l) with false by lia. lia.
Qed.

Lemma occurrences_nonneg l lens : 0 <= occurrences l lens.
Proof. unfold occurrences. lia. Qed.

Lemma occurrences_nil l : occurrences l [] = 0.
Proof. reflexivity. Qed.

Lemma count_depths_spec lens : forall depth_count,
  length depth_count = 16%nat ->
  valid_code_lengths lens ->
  exists depth_count',
    count_depths lens depth_count = Ok depth_count'
    /\ length depth_count' = 16%nat
    /\ forall l, 0 <= l -> load depth_count' l = load depth_count l + occurrences l lens.
Proof.
  unfold valid_code_lengths, MAX_ALLOWED_CODE_LENGTH.
  induction lens as [|c rest IH]; intros dc Hlen Hv.
  - exists dc. simpl. repeat split; auto. intros l _. rewrite occurrences_nil. lia.
  - inversion Hv as [|? ? Hc Hrest]; subst. cbn [count_depths].
    unfold MAX_ALLOWED_CODE_LENGTH.
    replace ((0 <=? c) && (c <=? 15)) with true by lia.
    destruct (IH (store dc c (load dc c + 1))) as (dc' & H1 & H2 & H3);
      [now rewrite length_store | assumption |].
    exists dc'. repeat split; auto. intros l Hl. rewrite H3 by assumption.
    rewrite load_store by lia. rewrite occurrences_cons.
    destruct (Z.eqb_spec c l); subst; lia.
Qed.

(** *** The canonical recurrence *)

Lemma used_count_nonneg lens l : 0 <= used_count lens l.
Proof. unfold used_count. destruct (l =? 0); [lia | apply occurrences_nonneg]. Qed.

Lemma canonical_first_nonneg lens l : 0 <= canonical_first lens l.
Proof.
  induction l as [|l IH]; simpl; [lia|].
  pose proof (used_count_nonneg lens (Z.of_nat l)). lia.
Qed.

Lemma u32_small z : 0 <= z < 2 ^ 32 -> u32 z = z.
Proof. intros H. unfold u32. now apply Z.mod_small. Qed.

Lemma next_code_loop_spec lens depth_count :
  (forall l, 0 <= l -> load depth_count l = used_count lens l) ->
  codes_fit lens ->
  forall turns k next_code,
    (k + turns <= 15)%nat ->
    length next_code = 16%nat ->
    (forall l : nat, (l <= k)%nat -> load next_code (Z.of_nat l) = canonical_first lens l) ->
    let next_code' :=
      next_code_loop turns (Z.of_nat (S k)) (canonical_first lens k)
        depth_count next_code in
    length next_code' = 16%nat
    /\ forall l : nat, (l <= k + turns)%nat ->
         load next_code' (Z.of_nat l) = canonical_first lens l.
Proof.
  intros Hdc Hfit. induction turns as [|turns IH]; intros k nc Hk Hlen Hnc.
  - simpl. split; [assumption|]. intros l Hl. apply Hnc. lia.
  - cbn [next_code_loop]. cbv zeta.
    replace (Z.of_nat (S k) - 1) with (Z.of_nat k) by lia.
    rewrite Hdc by lia.
    pose proof (Hfit k ltac:(lia)) as Hk1. pose proof (Hfit (S k) ltac:(lia)) as Hk2.
    pose proof (canonical_first_nonneg lens k) as Hk3.
    pose proof (used_count_nonneg lens (Z.of_nat k)) as Hk4.
    pose proof (used_count_nonneg lens (Z.of_nat (S k))) as Hk5.
    cbn [canonical_first] in Hk2.
    rewrite (u32_small (_ + _)) by lia.
    rewrite Z.shiftl_mul_pow2 by lia. change (2 ^ 1) with 2.
    rewrite u32_small by lia.
    replace ((canonical_first lens k + used_count lens (Z.of_nat k)) * 2)
      with (canonical_first lens (S k)) by (cbn [canonical_first]; lia).
    replace (Z.of_nat (S k) + 1) with (Z.of_nat (S (S k))) by lia.
    specialize (IH (S k) (store nc (Z.of_nat (S k)) (canonical_first lens (S k)))).
    destruct IH as [IH1 IH2]; [lia | now rewrite length_store | |].
    + intros l Hl. rewrite load_store by lia.
      destruct (Z.eqb_spec (Z.of_nat (S k)) (Z.of_nat l)) as [E|E].
      * apply Nat2Z.inj in E. now subst l.
      * apply Hnc. lia.
    + split; [assumption|]. intros l Hl. apply IH2. lia.
Qed.

Lemma first_codes_spec lens :
  valid_code_lengths lens -> codes_fit lens ->
  exists next_code,
    first_codes lens = Ok next_code
    /\ length next_code = 16%nat
    /\ forall l : nat, (l <= 15)%nat ->
         load next_code (Z.of_nat l) = canonical_first lens l.
Proof.
  intros Hv Hfit. unfold first_codes.
  change (Z.to_nat (MAX_ALLOWED_CODE_LENGTH + 1)) with 16%nat.
  change (Z.to_nat MAX_ALLOWED_CODE_LENGTH) with 15%nat.
  destruct (count_depths_spec lens (repeat 0 16) eq_refl Hv) as (dc & H1 & H2 & H3).
  rewrite H1. cbn [bind].
  eexists. split; [reflexivity|].
  apply (next_code_loop_spec lens (store dc 0 0)) with (k := O) (turns := 15%nat);
    try assumption; try lia.
  - intros l Hl. rewrite load_store by lia. unfold used_count.
    destruct (Z.eqb_spec 0 l) as [<-|Hne].
    + reflexivity.
    + replace (l =? 0) with false by lia. rewrite H3 by lia.
      rewrite load_repeat_0. lia.
  - now rewrite length_store.
  - intros l Hl. replace l with O by lia. reflexivity.
Qed.

(** *** The assignment loop *)

Lemma assign_codes_length f lens : forall next_code,
  length (assign_codes f next_code lens) = length lens.
Proof. induction lens as [|c rest IH]; intros nc; simpl; auto. Qed.

Lemma assign_codes_spec f lens : forall next_code i li,
  valid_code_lengths lens ->
  length next_code = 16%nat ->
  (forall l, 0 <= l <= 15 ->
     0 <= load next_code l /\ load next_code l + occurrences l lens < 2 ^ 32) ->
  nth_error lens i = Some li ->
  nth_error (assign_codes f next_code lens) i
  = Some (f li (load next_code li + occurrences li (firstn i lens))).
Proof.
  unfold valid_code_lengths, MAX_ALLOWED_CODE_LENGTH.
  induction lens as [|c rest IH]; intros nc i li Hv Hlen Hfit Hi.
  - destruct i; discriminate.
  - inversion Hv as [|? ? Hc Hrest]; subst.
    destruct i as [|i]; simpl in Hi.
    + inversion Hi; subst. simpl. rewrite occurrences_nil. do 2 f_equal. lia.
    + cbn [assign_codes nth_error firstn].
      pose proof (Hfit c Hc) as [Hc1 Hc2]. rewrite occurrences_cons in Hc2.
      rewrite Z.eqb_refl in Hc2. pose proof (occurrences_nonneg c rest).
      rewrite u32_small by lia.
      rewrite (IH _ i li Hrest); [| now rewrite length_store | | assumption].
      * assert (Hli : 0 <= li <= 15).
        { apply nth_error_In in Hi. rewrite Forall_forall in Hrest. auto. }
        rewrite load_store by lia. rewrite occurrences_cons.
        do 2 f_equal. destruct (Z.eqb_spec c li); subst; lia.
      * intros l Hl. rewrite load_store by lia.
        pose proof (Hfit l Hl) as [Hl1 Hl2]. rewrite occurrences_cons in Hl2.
        destruct (Z.eqb_spec c l); subst; lia.
Qed.

Lemma occurrences_firstn_lt lens : forall i j l,
  nth_error lens i = Some l -> (i < j)%nat ->
  occurrences l (firstn i lens) + 1 <= occurrences l (firstn j lens).
Proof.
  induction lens as [|c rest IH]; intros i j l Hi Hij.
  - destruct i; discriminate.
  - destruct j as [|j]; [lia|]. destruct i as [|i]; simpl in Hi.
    + inversion Hi; subst. cbn [firstn]. rewrite occurrences_cons, occurrences_nil.
      rewrite Z.eqb_refl. pose proof (occurrences_nonneg l (firstn j rest)). lia.
    + cbn [firstn]. rewrite !occurrences_cons.
      specialize (IH i j l Hi ltac:(lia)). lia.
Qed.

Lemma occurrences_firstn_le lens l : forall i,
  occurrences l (firstn i lens) <= occurrences l lens.
Proof.
  induction lens as [|c rest IH]; intros [|i]; cbn [firstn];
    rewrite ?occurrences_cons, ?occurrences_nil; try lia.
  - pose proof (occurrences_nonneg l rest). destruct (c =? l); lia.
  - specialize (IH i). lia.
Qed.

Lemma occurrences_before_lt lens i l :
  nth_error lens i = Some l ->
  occurrences l (firstn i lens) + 1 <= occurrences l lens.
Proof.
  intros Hi.
  pose proof (occurrences_firstn_lt lens i (S i) l Hi ltac:(lia)).
  pose proof (occurrences_firstn_le lens l (S i)). lia.
Qed.

Lemma canonical_first_step lens l :
  canonical_first lens l + used_count lens (Z.of_nat l) <= canonical_first lens (S l).
Proof.
  cbn [canonical_first]. pose proof (canonical_first_nonneg lens l).
  pose proof (used_count_nonneg lens (Z.of_nat l)). lia.
Qed.

Lemma canonical_first_mono lens l1 l2 :
  (l1 < l2)%nat ->
  canonical_first lens l1 + used_count lens (Z.of_nat l1) <= canonical_first lens l2.
Proof.
  induction 1 as [|l2 Hle IH].
  - apply canonical_first_step.
  - pose proof (canonical_first_step lens l2).
    pose proof (used_count_nonneg lens (Z.of_nat l2)). lia.
Qed.

(** *** Tables of fewer than 2^18 symbols do not wrap *)

Lemma used_count_cons lens c l :
  used_count (c :: lens) l
  = used_count lens l + (if (negb (l =? 0)) && (c =? l) then 1 else 0).
Proof.
  unfold used_count. rewrite occurrences_cons.
  destruct (l =? 0); simpl; [lia|]. destruct (c =? l); lia.
Qed.

Lemma used_upto_cons lens c l :
  used_upto (c :: lens) l
  = used_upto lens l + (if (1 <=? c) && (c <=? Z.of_nat l) then 1 else 0).
Proof.
  induction l as [|l IH].
  - cbn [used_upto]. rewrite used_count_cons. simpl.
    split_cmp; simpl; lia.
  - cbn [used_upto]. rewrite IH, used_count_cons.
    split_cmp; simpl; lia.
Qed.

Lemma used_upto_le_length lens l : 0 <= used_upto lens l <= Z.of_nat (length lens).
Proof.
  induction lens as [|c rest IH].
  - assert (Hnil : forall k, used_count [] k = 0).
    { intros k. unfold used_count. rewrite occurrences_nil. now destruct (k =? 0). }
    induction l as [|l IHl]; cbn [used_upto]; rewrite Hnil; simpl in *; lia.
  - rewrite used_upto_cons. cbn [length].
    destruct ((1 <=? c) && (c <=? Z.of_nat l)); lia.
Qed.

Lemma canonical_last_bound lens l :
  canonical_first lens (S l) + used_count lens (Z.of_nat (S l))
  <= 2 ^ Z.of_nat l * used_upto lens (S l).
Proof.
  induction l as [|l IH].
  - cbn [canonical_first used_upto]. unfold used_count at 1 3. simpl. lia.
  - remember (S l) as m eqn:Em.
    cbn [canonical_first used_upto].
    replace (2 ^ Z.of_nat m) with (2 * 2 ^ Z.of_nat l)
      by (subst m; rewrite Nat2Z.inj_succ, Z.pow_succ_r by lia; reflexivity).
    pose proof (used_count_nonneg lens (Z.of_nat (S m))).
    assert (0 < 2 ^ Z.of_nat l) by (apply Z.pow_pos_nonneg; lia).
    nia.
Qed.

Lemma small_table_codes_fit lens :
  Z.of_nat (length lens) < 2 ^ 18 -> codes_fit lens.
Proof.
  intros Hn l Hl. destruct l as [|l].
  - simpl. unfold used_count. simpl. lia.
  - pose proof (canonical_last_bound lens l) as H1.
    pose proof (used_upto_le_length lens (S l)) as H2.
    assert (H3 : 0 < 2 ^ Z.of_nat l <= 2 ^ 14).
    { split; [apply Z.pow_pos_nonneg; lia | apply Z.pow_le_mono_r; lia]. }
    change (2 ^ 32) with (2 ^ 14 * 2 ^ 18). nia.
Qed.

Lemma occurrences_le_length l lens : occurrences l lens <= Z.of_nat (length lens).
Proof. unfold occurrences. pose proof (count_occ_bound Z.eq_dec l lens). lia. Qed.

(** The value handed to [ReverseBits] for symbol [i]: the first code of its
    length plus the number of earlier symbols of the same length. *)
Lemma codes_before_reversal_nth f lens next_code i li :
  valid_code_lengths lens -> codes_fit lens ->
  Z.of_nat (length lens) < 2 ^ 32 ->
  first_codes lens = Ok next_code ->
  nth_error lens i = Some li ->
  nth_error (assign_codes f next_code lens) i
  = Some (f li (canonical_first lens (Z.to_nat li) + occurrences li (firstn i lens))).
Proof.
  intros Hv Hfit Hn Hnc Hi.
  destruct (first_codes_spec lens Hv Hfit) as (nc & H1 & H2 & H3).
  rewrite Hnc in H1. inversion H1; subst nc; clear H1.
  assert (Hli : 0 <= li <= 15).
  { apply nth_error_In in Hi. unfold valid_code_lengths in Hv.
    rewrite Forall_forall in Hv. apply Hv in Hi.
    unfold MAX_ALLOWED_CODE_LENGTH in Hi. exact Hi. }
  rewrite (assign_codes_spec f lens next_code i li Hv H2); [| | assumption].
  - rewrite <- (H3 (Z.to_nat li)) by lia. rewrite Z2Nat.id by lia. reflexivity.
  - intros l Hl. specialize (H3 (Z.to_nat l) ltac:(lia)). rewrite Z2Nat.id in H3 by lia.
    rewrite H3. pose proof (canonical_first_nonneg lens (Z.to_nat l)).
    split; [assumption|].
    destruct (Z.eq_dec l 0) as [->|Hne].
    + simpl. pose proof (occurrences_le_length 0 lens). lia.
    + pose proof (Hfit (Z.to_nat l) ltac:(lia)) as Hf. unfold used_count in Hf.
      rewrite Z2Nat.id in Hf by lia. replace (l =? 0) with false in Hf by lia.
      exact Hf.
Qed.

(** C4, as the code has it.  For every table of fewer than 2^18 symbols with
    code lengths in 0..15, [ConvertBitDepthsToSymbols] returns, and the code
    values before reversal satisfy: of two used symbols [i < j] of equal
    length the first has the smaller code; a code of a shorter length is
    smaller than a code of a longer length; and every stored [codes[i]] is
    the reversal of its value within [code_lengths[i]] bits. *)
Theorem canonical_codes (tree : HuffmanTreeCode) :
  valid_code_lengths (code_lengths tree) ->
  num_symbols tree < 2 ^ 18 ->
  exists tree' pre,
    ConvertBitDepthsToSymbols tree = Ok tree'
    /\ codes_before_reversal tree = Ok pre
    /\ code_lengths tree' = code_lengths tree
    /\ length pre = length (code_lengths tree)
    /\ length (codes tree') = length (code_lengths tree)
    /\ (forall i j li lj ci cj,
          nth_error (code_lengths tree) i = Some li ->
          nth_error (code_lengths tree) j = Some lj ->
          nth_error pre i = Some ci ->
          nth_error pre j = Some cj ->
          0 < li -> 0 < lj ->
          ((i < j)%nat /\ li = lj) \/ li < lj ->
          ci < cj)
    /\ (forall i li ci,
          nth_error (code_lengths tree) i = Some li ->
          nth_error pre i = Some ci ->
          nth_error (codes tree') i = Some (bit_reversal li ci)).
Proof.
  unfold num_symbols. set (lens := code_lengths tree). intros Hv Hn.
  pose proof (small_table_codes_fit lens Hn) as Hfit.
  assert (Hn' : Z.of_nat (length lens) < 2 ^ 32)
    by (eapply Z.lt_trans; [exact Hn | reflexivity]).
  destruct (first_codes_spec lens Hv Hfit) as (nc & Hnc & _).
  unfold ConvertBitDepthsToSymbols, codes_before_reversal. fold lens.
  rewrite Hnc. cbn [bind].
  eexists. eexists. split; [reflexivity|]. split; [reflexivity|].
  cbn [code_lengths codes]. rewrite !assign_codes_length.
  repeat split.
  - intros i j li lj ci cj Hi Hj Hci Hcj Hli Hlj Hc.
    rewrite (codes_before_reversal_nth _ lens nc i li Hv Hfit Hn' Hnc Hi) in Hci.
    rewrite (codes_before_reversal_nth _ lens nc j lj Hv Hfit Hn' Hnc Hj) in Hcj.
    inversion Hci; subst ci. inversion Hcj; subst cj. clear Hci Hcj.
    destruct Hc as [[Hij ->] | Hlt].
    + pose proof (occurrences_firstn_lt lens i j lj Hi Hij). lia.
    + pose proof (occurrences_before_lt lens i li Hi) as H1.
      pose proof (canonical_first_mono lens (Z.to_nat li) (Z.to_nat lj) ltac:(lia)) as H2.
      unfold used_count in H2. rewrite Z2Nat.id in H2 by lia.
      replace (li =? 0) with false in H2 by lia.
      pose proof (occurrences_nonneg lj (firstn j lens)). lia.
  - intros i li ci Hi Hci.
    rewrite (codes_before_reversal_nth _ lens nc i li Hv Hfit Hn' Hnc Hi) in Hci.
    rewrite (codes_before_reversal_nth _ lens nc i li Hv Hfit Hn' Hnc Hi).
    inversion Hci; subst ci. f_equal. apply ReverseBits_spec.
    apply nth_error_In in Hi. unfold valid_code_lengths in Hv.
    rewrite Forall_forall in Hv. apply Hv in Hi. lia.
Qed.

Lemma canonical_codes_witness :
  exists tree' pre,
    ConvertBitDepthsToSymbols (mkCode [2; 1; 3; 0; 3] [0; 0; 0; 0; 0]) = Ok tree'
    /\ codes_before_reversal (mkCode [2; 1; 3; 0; 3] [0; 0; 0; 0; 0]) = Ok pre
    /\ code_lengths tree' = [2; 1; 3; 0; 3]
    /\ length pre = 5%nat
    /\ length (codes tree') = 5%nat
    /\ (forall i j li lj ci cj,
          nth_error [2; 1; 3; 0; 3] i = Some li ->
          nth_error [2; 1; 3; 0; 3] j = Some lj ->
          nth_error pre i = Some ci ->
          nth_error pre j = Some cj ->
          0 < li -> 0 < lj ->
          ((i < j)%nat /\ li = lj) \/ li < lj ->
          ci < cj)
    /\ (forall i li ci,
          nth_error [2; 1; 3; 0; 3] i = Some li ->
          nth_error pre i = Some ci ->
          nth_error (codes tree') i = Some (bit_reversal li ci)).
Proof.
  apply (canonical_codes (mkCode [2; 1; 3; 0; 3] [0; 0; 0; 0; 0])).
  - unfold valid_code_lengths, MAX_ALLOWED_CODE_LENGTH. simpl. repeat constructor; lia.
  - vm_compute. reflexivity.
Defined.

Example ConvertBitDepthsToSymbols_example :
  ConvertBitDepthsToSymbols (mkCode [2; 1; 3; 0; 3] [0; 0; 0; 0; 0])
    = Ok (mkCode [2; 1; 3; 0; 3] [1; 0; 3; 0; 7])
  /\ codes_before_reversal (mkCode [2; 1; 3; 0; 3] [0; 0; 0; 0; 0])
    = Ok [2; 0; 6; 0; 7].
Proof. split; vm_compute; reflexivity. Qed.

(** The claim C4 for every table fails on the 32-bit arithmetic of the code:
    after 2^18 symbols of length 1, the first code of length 15 wraps around
    to 0, below the code 1 of the second symbol of length 1. *)
Lemma canonical_codes_counterexample :
  let lens := repeat 1 (Z.to_nat 262144) ++ [15] in
  valid_code_lengths lens
  /\ match codes_before_reversal (mkCode lens []) with
     | Ok pre =>
         nth_error lens 1 = Some 1
         /\ nth_error lens (Z.to_nat 262144) = Some 15
         /\ nth_error pre 1 = Some 1
         /\ nth_error pre (Z.to_nat 262144) = Some 0
     | Err _ => False
     end.
Proof.
  split.
  - apply Forall_app. split.
    + apply Forall_forall. intros x Hx. apply repeat_spec in Hx. subst x.
      unfold MAX_ALLOWED_CODE_LENGTH. lia.
    + constructor; [unfold MAX_ALLOWED_CODE_LENGTH; lia | constructor].
  - vm_compute. repeat split.
Qed.

(* ------------------------------------------------------------------------- *)
(** ** The main entry point *)

Lemma ConvertBitDepthsToSymbols_lengths tree tree' :
  ConvertBitDepthsToSymbols tree = Ok tree' -> code_lengths tree' = code_lengths tree.
Proof.
  unfold ConvertBitDepthsToSymbols. intros H.
  apply bind_Ok_inv in H. destruct H as (nc & _ & H). now inversion H.
Qed.

(** C5, as the code has it.  For a histogram without negative counts and a
    table whose code lengths are zero on entry, the code lengths returned by
    [VP8LCreateHuffmanTree] satisfy: [code_lengths[i] > 0] if and only if
    symbol [i] has a non-zero count in the histogram as rewritten by
    [OptimizeHuffmanForRle]; and every symbol with a non-zero count in the
    histogram supplied by the caller has [code_lengths[i] > 0]. *)
Theorem used_symbols_get_code_lengths (fuel : nat) (histogram : list Z)
    (tree_depth_limit : Z) (tree : HuffmanTreeCode)
    (histogram' : list Z) (tree' : HuffmanTreeCode) :
  Forall (fun c => 0 <= c) histogram ->
  Forall (fun d => d = 0) (code_lengths tree) ->
  VP8LCreateHuffmanTree fuel histogram tree_depth_limit tree = Ok (histogram', tree') ->
  length histogram' = length histogram
  /\ length (code_lengths tree') = length histogram
  /\ forall i, 0 <= i < Z.of_nat (length histogram) ->
       (0 < load (code_lengths tree') i <-> load histogram' i <> 0)
       /\ (load histogram i <> 0 -> 0 < load (code_lengths tree') i).
Proof.
  intros Hnn Hzero Hrun. unfold VP8LCreateHuffmanTree in Hrun.
  destruct (Nat.eqb_spec (length histogram) (length (code_lengths tree))) as [Hlen|];
    [|discriminate].
  apply bind_Ok_inv in Hrun. destruct Hrun as (hist1 & Hrle & Hrun).
  apply bind_Ok_inv in Hrun. destruct Hrun as (bd & Hgen & Hrun).
  apply bind_Ok_inv in Hrun. destruct Hrun as (tree1 & Hconv & Hrun).
  inversion Hrun; subst histogram' tree'; clear Hrun.
  apply ConvertBitDepthsToSymbols_lengths in Hconv. simpl in Hconv. rewrite Hconv.
  rewrite <- Hlen in Hrle.
  apply OptimizeHuffmanForRle_keeps_used in Hrle;
    [| intros p _; apply (load_Forall (fun c => 0 <= c)); [assumption | lia]].
  destruct Hrle as (Hlen1 & Hnn1 & Hpos1).
  destruct (GenerateOptimalTree_spec _ _ _ _ _ Hgen) as (Hlenbd & _ & Hframe & _).
  pose proof (GenerateOptimalTree_used _ _ _ _ _ Hgen) as Hused.
  split; [assumption|]. split; [lia|].
  intros i Hi.
  assert (Hiff : 0 < load bd i <-> load hist1 i <> 0).
  { pose proof (used_symbols_spec hist1 0 i) as Hspec. rewrite Z.sub_0_r in Hspec.
    split.
    - intros Hgt Hz.
      assert (Hnot : ~ In i (used_symbols hist1 0)) by (rewrite Hspec; tauto).
      rewrite (Hframe i ltac:(lia) Hnot) in Hgt.
      assert (load (code_lengths tree) i = 0)
        by (apply (load_Forall (fun d => d = 0)); auto).
      lia.
    - intros Hne. specialize (Hused i ltac:(rewrite Hspec; split; [lia | assumption])).
      lia. }
  split; [assumption|].
  intros Hne. apply Hiff.
  assert (0 <= load histogram i)
    by (apply (load_Forall (fun c => 0 <= c)); [assumption | lia]).
  specialize (Hpos1 i ltac:(lia) ltac:(lia)). lia.
Qed.

Lemma used_symbols_get_code_lengths_witness :
  length [1; 1; 1; 1; 1] = length [1; 0; 0; 0; 1]
  /\ length (code_lengths (mkCode [2; 2; 2; 3; 3] [0; 2; 1; 3; 7])) = length [1; 0; 0; 0; 1]
  /\ forall i, 0 <= i < Z.of_nat (length [1; 0; 0; 0; 1]) ->
       (0 < load (code_lengths (mkCode [2; 2; 2; 3; 3] [0; 2; 1; 3; 7])) i
        <-> load [1; 1; 1; 1; 1] i <> 0)
       /\ (load [1; 0; 0; 0; 1] i <> 0
           -> 0 < load (code_lengths (mkCode [2; 2; 2; 3; 3] [0; 2; 1; 3; 7])) i).
Proof.
  apply (used_symbols_get_code_lengths 1 [1; 0; 0; 0; 1] 15
           (mkCode [0; 0; 0; 0; 0] [0; 0; 0; 0; 0])).
  - repeat constructor; lia.
  - simpl. repeat constructor.
  - vm_compute. reflexivity.
Defined.

(** The claim C5 as the specification words it fails: in the histogram
    [1, 0, 0, 0, 1] the symbols 1, 2 and 3 have the count zero, and
    [OptimizeHuffmanForRle] raises them to 1, so that they get the code
    lengths 2, 2 and 3. *)
Lemma used_symbols_get_code_lengths_counterexample :
  VP8LCreateHuffmanTree 1 [1; 0; 0; 0; 1] 15 (mkCode [0; 0; 0; 0; 0] [0; 0; 0; 0; 0])
    = Ok ([1; 1; 1; 1; 1], mkCode [2; 2; 2; 3; 3] [0; 2; 1; 3; 7])
  /\ feasible_depth_limit [1; 0; 0; 0; 1] 15
  /\ load [1; 0; 0; 0; 1] 1 = 0
  /\ 0 < load [2; 2; 2; 3; 3] 1.
Proof.
  split; [vm_compute; reflexivity|]. split; [|split; vm_compute; reflexivity].
  unfold feasible_depth_limit. simpl. split; [lia|]. vm_compute. discriminate.
Qed.

(* ------------------------------------------------------------------------- *)
(** ** The stored codes form a prefix code *)

(** *** [ReverseBits], bit by bit *)

Lemma ReverseBits_bits num_bits bits k :
  0 <= num_bits <= 16 -> 0 <= k ->
  Z.testbit (ReverseBits num_bits bits) k
  = (k <? num_bits) && Z.testbit bits (num_bits - 1 - k).
Proof.
  intros Hn Hk. rewrite ReverseBits_spec by (unfold MAX_ALLOWED_CODE_LENGTH; lia).
  unfold bit_reversal. rewrite reverse_low_bits_testbit by assumption.
  rewrite Z2Nat.id by lia.
  destruct (Z.ltb_spec k num_bits); [reflexivity | apply Z.testbit_0_l].
Qed.

Lemma bits_below_range x n :
  0 <= n -> (forall k, n <= k -> Z.testbit x k = false) -> 0 <= x < 2 ^ n.
Proof.
  intros Hn Hhigh.
  assert (E : x = x mod 2 ^ n).
  { apply Z.bits_inj'. intros k Hk. rewrite Z.testbit_mod_pow2 by assumption.
    destruct (Z.ltb_spec k n); [reflexivity | now apply Hhigh]. }
  rewrite E. apply Z.mod_pos_bound. now apply Z.pow_pos_nonneg.
Qed.

Lemma bits_above_range x n k :
  0 <= x < 2 ^ n -> n <= k -> Z.testbit x k = false.
Proof.
  intros Hx Hk. destruct (Z.ltb_spec n 0) as [Hneg|Hn].
  - rewrite Z.pow_neg_r in Hx by assumption. lia.
  - rewrite <- (Z.mod_small x (2 ^ n)) by assumption.
    apply Z.mod_pow2_bits_high. lia.
Qed.

Lemma ReverseBits_range num_bits bits :
  0 <= num_bits <= 16 -> 0 <= ReverseBits num_bits bits < 2 ^ num_bits.
Proof.
  intros Hn. apply bits_below_range; [lia|]. intros k Hk.
  rewrite ReverseBits_bits by lia. replace (k <? num_bits) with false by blia.
  reflexivity.
Qed.

(** X1.  For [num_bits] from 0 to 16, bit [k] of [ReverseBits num_bits bits]
    is bit [num_bits - 1 - k] of [bits] when [k < num_bits] and is clear
    otherwise; the result is below [2 ^ num_bits] whatever the high bits of
    [bits] are. *)
Theorem ReverseBits_reverses (num_bits bits : Z) :
  0 <= num_bits <= 16 ->
  (forall k, 0 <= k ->
     Z.testbit (ReverseBits num_bits bits) k
     = (k <? num_bits) && Z.testbit bits (num_bits - 1 - k))
  /\ 0 <= ReverseBits num_bits bits < 2 ^ num_bits.
Proof.
  intros Hn. split.
  - intros k Hk. now apply ReverseBits_bits.
  - now apply ReverseBits_range.
Qed.

Lemma ReverseBits_reverses_witness :
  (forall k, 0 <= k ->
     Z.testbit (ReverseBits 5 0x13) k = (k <? 5) && Z.testbit 0x13 (5 - 1 - k))
  /\ 0 <= ReverseBits 5 0x13 < 2 ^ 5.
Proof. apply (ReverseBits_reverses 5 0x13). lia. Defined.

(** X2.  Reversing twice gives the value back: for [num_bits] from 0 to 16
    and [bits] below [2 ^ num_bits],
    [ReverseBits num_bits (ReverseBits num_bits bits) = bits]. *)
Theorem ReverseBits_involutive (num_bits bits : Z) :
  0 <= num_bits <= 16 -> 0 <= bits < 2 ^ num_bits ->
  ReverseBits num_bits (ReverseBits num_bits bits) = bits.
Proof.
  intros Hn Hb. apply Z.bits_inj'. intros k Hk.
  rewrite ReverseBits_bits by lia.
  destruct (Z.ltb_spec k num_bits) as [Hlt|Hge]; simpl.
  - rewrite ReverseBits_bits by lia.
    replace (num_bits - 1 - k <? num_bits) with true by blia. simpl.
    f_equal. lia.
  - symmetry. now apply (bits_above_range bits num_bits k).
Qed.

Lemma ReverseBits_involutive_witness :
  ReverseBits 11 (ReverseBits 11 1234) = 1234.
Proof. apply (ReverseBits_involutive 11 1234); [lia | vm_compute; split; [discriminate | reflexivity]]. Defined.

(** *** The Kraft inequality bounds the code values *)

Lemma canonical_weight lens l :
  (l <= 15)%nat ->
  2 ^ (MAX_ALLOWED_CODE_LENGTH - Z.of_nat l)
  * (canonical_first lens l + used_count lens (Z.of_nat l))
  = weight_upto lens l.
Proof.
  unfold MAX_ALLOWED_CODE_LENGTH. induction l as [|l IH]; intros Hl.
  - simpl. unfold used_count. simpl. lia.
  - cbn [canonical_first weight_upto]. rewrite <- IH by lia.
    unfold MAX_ALLOWED_CODE_LENGTH.
    replace (15 - Z.of_nat l) with (Z.succ (15 - Z.of_nat (S l))) by lia.
    rewrite Z.pow_succ_r by lia. ring.
Qed.

Lemma weight_upto_cons lens c l :
  weight_upto (c :: lens) l
  = weight_upto lens l
    + (if (1 <=? c) && (c <=? Z.of_nat l) then 2 ^ (MAX_ALLOWED_CODE_LENGTH - c) else 0).
Proof.
  induction l as [|l IH].
  - cbn [weight_upto]. split_cmp; simpl; lia.
  - cbn [weight_upto]. rewrite IH, used_count_cons.
    destruct (Z.eqb_spec c (Z.of_nat (S l))) as [->|Hne].
    + replace (Z.of_nat (S l) =? 0) with false by blia.
      replace (1 <=? Z.of_nat (S l)) with true by blia.
      replace (Z.of_nat (S l) <=? Z.of_nat l) with false by blia.
      replace (Z.of_nat (S l) <=? Z.of_nat (S l)) with true by blia.
      simpl. ring.
    + rewrite andb_false_r. split_cmp; simpl; lia.
Qed.

Lemma weight_upto_le lens : forall l, weight_upto lens l <= kraft_weight lens.
Proof.
  induction lens as [|c rest IH]; intros l.
  - induction l as [|l IHl]; cbn [weight_upto kraft_weight] in *; [lia|].
    unfold used_count. rewrite occurrences_nil. destruct (_ =? 0); lia.
  - rewrite weight_upto_cons. cbn [kraft_weight]. specialize (IH l).
    pose proof (Z.pow_nonneg 2 (MAX_ALLOWED_CODE_LENGTH - c) ltac:(lia)).
    split_cmp; simpl; lia.
Qed.

(** With the Kraft inequality every code value of length [l] is below
    [2 ^ l]. *)
Lemma kraft_code_bound lens l :
  kraft_weight lens <= 2 ^ MAX_ALLOWED_CODE_LENGTH -> (l <= 15)%nat ->
  canonical_first lens l + used_count lens (Z.of_nat l) <= 2 ^ Z.of_nat l.
Proof.
  intros Hk Hl. pose proof (canonical_weight lens l Hl) as Hw.
  pose proof (weight_upto_le lens l) as Hle.
  unfold MAX_ALLOWED_CODE_LENGTH in *.
  assert (Hp : 0 < 2 ^ (15 - Z.of_nat l)) by (apply Z.pow_pos_nonneg; lia).
  assert (Hsplit : 2 ^ 15 = 2 ^ (15 - Z.of_nat l) * 2 ^ Z.of_nat l).
  { rewrite <- Z.pow_add_r by lia. f_equal. lia. }
  rewrite Hsplit in Hk. nia.
Qed.

Lemma kraft_codes_fit lens :
  kraft_weight lens <= 2 ^ MAX_ALLOWED_CODE_LENGTH -> codes_fit lens.
Proof.
  intros Hk l Hl. pose proof (kraft_code_bound lens l Hk Hl) as Hb.
  assert (2 ^ Z.of_nat l <= 2 ^ 15) by (apply Z.pow_le_mono_r; lia).
  assert (2 ^ 15 < 2 ^ 32) by reflexivity. lia.
Qed.

(** The first code of a longer length lies beyond the codes of a shorter
    length, shifted. *)
Lemma canonical_first_scale lens l d :
  2 ^ Z.of_nat (S d) * (canonical_first lens l + used_count lens (Z.of_nat l))
  <= canonical_first lens (l + S d).
Proof.
  induction d as [|d IH].
  - replace (l + 1)%nat with (S l) by lia. cbn [canonical_first].
    change (2 ^ Z.of_nat 1) with 2. lia.
  - replace (l + S (S d))%nat with (S (l + S d)) by lia. cbn [canonical_first].
    pose proof (used_count_nonneg lens (Z.of_nat (l + S d))).
    rewrite (Nat2Z.inj_succ (S d)), Z.pow_succ_r by lia. lia.
Qed.

(** Two code values, the shorter one not leading the longer one, stay
    different once reversed and cut at the shorter length. *)
Lemma reversed_prefix_differs li lj ci cj :
  0 < li <= lj -> lj <= 16 ->
  0 <= ci < 2 ^ li -> 0 <= cj < 2 ^ lj ->
  Z.shiftr cj (lj - li) <> ci ->
  ReverseBits lj cj mod 2 ^ li <> ReverseBits li ci.
Proof.
  intros Hl Hlj Hci Hcj Hne E. apply Hne. apply Z.bits_inj'. intros k Hk.
  rewrite Z.shiftr_spec by assumption.
  destruct (Z.ltb_spec k li) as [Hlt|Hge].
  - pose proof (f_equal (fun z => Z.testbit z (li - 1 - k)) E) as Hbit.
    cbv beta in Hbit.
    rewrite Z.testbit_mod_pow2 in Hbit by lia.
    rewrite !ReverseBits_bits in Hbit by lia.
    replace (li - 1 - k <? li) with true in Hbit by blia.
    replace (li - 1 - k <? lj) with true in Hbit by blia.
    simpl in Hbit.
    replace (lj - 1 - (li - 1 - k)) with (k + (lj - li)) in Hbit by lia.
    replace (li - 1 - (li - 1 - k)) with k in Hbit by lia.
    exact Hbit.
  - rewrite (bits_above_range cj lj) by lia.
    symmetry. now apply (bits_above_range ci li).
Qed.

Lemma stored_code_nth tree tree' i li :
  valid_code_lengths (code_lengths tree) ->
  codes_fit (code_lengths tree) ->
  num_symbols tree < 2 ^ 32 ->
  ConvertBitDepthsToSymbols tree = Ok tree' ->
  nth_error (code_lengths tree) i = Some li ->
  nth_error (codes tree') i
  = Some (ReverseBits li
            (canonical_first (code_lengths tree) (Z.to_nat li)
             + occurrences li (firstn i (code_lengths tree)))).
Proof.
  intros Hv Hfit Hn Hrun Hi. unfold ConvertBitDepthsToSymbols in Hrun.
  apply bind_Ok_inv in Hrun. destruct Hrun as (nc & Hnc & Hrun).
  inversion Hrun; subst tree'; clear Hrun. cbn [codes].
  now apply codes_before_reversal_nth.
Qed.

Lemma canonical_value_range lens i li :
  kraft_weight lens <= 2 ^ MAX_ALLOWED_CODE_LENGTH ->
  nth_error lens i = Some li -> 0 < li <= 15 ->
  0 <= canonical_first lens (Z.to_nat li) + occurrences li (firstn i lens) < 2 ^ li.
Proof.
  intros Hk Hi Hli.
  pose proof (kraft_code_bound lens (Z.to_nat li) Hk ltac:(lia)) as Hb.
  rewrite Z2Nat.id in Hb by lia. unfold used_count in Hb.
  replace (li =? 0) with false in Hb by blia.
  pose proof (occurrences_before_lt lens i li Hi).
  pose proof (canonical_first_nonneg lens (Z.to_nat li)).
  pose proof (occurrences_nonneg li (firstn i lens)). lia.
Qed.

Lemma ConvertBitDepthsToSymbols_prefix tree tree' i j li lj ci cj :
  valid_code_lengths (code_lengths tree) ->
  num_symbols tree < 2 ^ 32 ->
  kraft_weight (code_lengths tree) <= 2 ^ MAX_ALLOWED_CODE_LENGTH ->
  ConvertBitDepthsToSymbols tree = Ok tree' ->
  nth_error (code_lengths tree) i = Some li ->
  nth_error (code_lengths tree) j = Some lj ->
  nth_error (codes tree') i = Some ci ->
  nth_error (codes tree') j = Some cj ->
  i <> j -> 0 < li <= lj ->
  cj mod 2 ^ li <> ci.
Proof.
  intros Hv Hn Hk Hrun Hi Hj Hci Hcj Hij Hl.
  set (lens := code_lengths tree) in *.
  pose proof (kraft_codes_fit lens Hk) as Hfit.
  assert (Hlj : lj <= 15).
  { apply nth_error_In in Hj. unfold valid_code_lengths in Hv.
    rewrite Forall_forall in Hv. apply Hv in Hj.
    unfold MAX_ALLOWED_CODE_LENGTH in Hj. lia. }
  rewrite (stored_code_nth tree tree' i li Hv Hfit Hn Hrun Hi) in Hci.
  rewrite (stored_code_nth tree tree' j lj Hv Hfit Hn Hrun Hj) in Hcj.
  inversion Hci; subst ci. inversion Hcj; subst cj. clear Hci Hcj. fold lens.
  pose proof (canonical_value_range lens i li Hk Hi ltac:(lia)) as Ri.
  pose proof (canonical_value_range lens j lj Hk Hj ltac:(lia)) as Rj.
  apply reversed_prefix_differs; try lia.
  rewrite Z.shiftr_div_pow2 by lia.
  destruct (Z.eq_dec li lj) as [->|Hlt].
  - rewrite Z.sub_diag, Z.div_1_r.
    destruct (Nat.lt_total i j) as [Hlt|[Heq|Hgt]]; [|contradiction|].
    + pose proof (occurrences_firstn_lt lens i j lj Hi Hlt). lia.
    + pose proof (occurrences_firstn_lt lens j i lj Hj Hgt). lia.
  - assert (Hd : exists d, Z.to_nat lj = (Z.to_nat li + S d)%nat)
      by (exists (Z.to_nat lj - Z.to_nat li - 1)%nat; lia).
    destruct Hd as [d Hd].
    pose proof (canonical_first_scale lens (Z.to_nat li) d) as Hs.
    rewrite <- Hd in Hs. rewrite Z2Nat.id in Hs by lia.
    replace (Z.of_nat (S d)) with (lj - li) in Hs by lia.
    unfold used_count in Hs. replace (li =? 0) with false in Hs by blia.
    pose proof (occurrences_before_lt lens i li Hi) as Ho.
    pose proof (occurrences_nonneg lj (firstn j lens)) as Hoj.
    assert (Hp : 0 < 2 ^ (lj - li)) by (apply Z.pow_pos_nonneg; lia).
    intros E.
    assert (Hdiv : canonical_first lens (Z.to_nat li) + occurrences li lens
                   <= (canonical_first lens (Z.to_nat lj)
                       + occurrences lj (firstn j lens)) / 2 ^ (lj - li)).
    { apply Z.div_le_lower_bound; [assumption | lia]. }
    lia.
Qed.

(** X3.  For code lengths in 0..15 that satisfy the Kraft inequality (the
    used lengths [l] weigh [2 ^ (15 - l)], together at most [2 ^ 15]),
    [ConvertBitDepthsToSymbols] stores a prefix code, first bit lowest: of
    two distinct used symbols, the code of the longer or equal length cut
    to the low bits of the shorter length never is the shorter code. *)
Theorem stored_codes_prefix_free (tree tree' : HuffmanTreeCode)
    (i j : nat) (li lj ci cj : Z) :
  valid_code_lengths (code_lengths tree) ->
  num_symbols tree < 2 ^ 32 ->
  kraft_weight (code_lengths tree) <= 2 ^ MAX_ALLOWED_CODE_LENGTH ->
  ConvertBitDepthsToSymbols tree = Ok tree' ->
  nth_error (code_lengths tree) i = Some li ->
  nth_error (code_lengths tree) j = Some lj ->
  nth_error (codes tree') i = Some ci ->
  nth_error (codes tree') j = Some cj ->
  i <> j -> 0 < li <= lj ->
  cj mod 2 ^ li <> ci.
Proof. apply ConvertBitDepthsToSymbols_prefix. Qed.

Lemma stored_codes_prefix_free_witness : 7 mod 2 ^ 2 <> 1.
Proof.
  apply (stored_codes_prefix_free
           (mkCode [2; 1; 3; 0; 3] [0; 0; 0; 0; 0]) (mkCode [2; 1; 3; 0; 3] [1; 0; 3; 0; 7])
           0 4 2 3 1 7).
  - unfold valid_code_lengths, MAX_ALLOWED_CODE_LENGTH. repeat constructor; lia.
  - vm_compute. reflexivity.
  - vm_compute. discriminate.
  - vm_compute. reflexivity.
  - reflexivity.
  - reflexivity.
  - reflexivity.
  - reflexivity.
  - discriminate.
  - lia.
Defined.

(** *** When [ConvertBitDepthsToSymbols] returns *)

Lemma count_depths_invalid lens : forall depth_count,
  ~ valid_code_lengths lens -> count_depths lens depth_count = Err AssertionFailure.
Proof.
  unfold valid_code_lengths.
  induction lens as [|c rest IH]; intros dc Hnv.
  - exfalso. apply Hnv. constructor.
  - cbn [count_depths].
    destruct ((0 <=? c) && (c <=? MAX_ALLOWED_CODE_LENGTH)) eqn:Hc; [|reflexivity].
    apply IH. intros Hrest. apply Hnv. constructor; [lia | assumption].
Qed.

Lemma assign_codes_nth f lens : forall next_code i li ci,
  nth_error lens i = Some li ->
  nth_error (assign_codes f next_code lens) i = Some ci ->
  exists x, ci = f li x.
Proof.
  induction lens as [|c rest IH]; intros nc i li ci Hi Hci.
  - destruct i; discriminate.
  - destruct i as [|i]; simpl in Hi, Hci.
    + inversion Hi; subst. inversion Hci; subst. eauto.
    + eapply IH; eassumption.
Qed.

(** X4.  [ConvertBitDepthsToSymbols] returns exactly for code lengths in
    0..15 and fails on its assertion otherwise.  When it returns, the code
    lengths are unchanged, there is one code per symbol, and every code fits
    the bits of its length; in particular an unused symbol has the code 0. *)
Theorem ConvertBitDepthsToSymbols_returns (tree : HuffmanTreeCode) :
  (valid_code_lengths (code_lengths tree) ->
   exists tree',
     ConvertBitDepthsToSymbols tree = Ok tree'
     /\ code_lengths tree' = code_lengths tree
     /\ length (codes tree') = length (code_lengths tree)
     /\ forall i li ci,
          nth_error (code_lengths tree) i = Some li ->
          nth_error (codes tree') i = Some ci ->
          0 <= ci < 2 ^ li)
  /\ (~ valid_code_lengths (code_lengths tree) ->
      ConvertBitDepthsToSymbols tree = Err AssertionFailure).
Proof.
  unfold ConvertBitDepthsToSymbols, first_codes. split.
  - intros Hv.
    destruct (count_depths_spec (code_lengths tree)
                (repeat 0 (Z.to_nat (MAX_ALLOWED_CODE_LENGTH + 1)))
                ltac:(reflexivity) Hv) as (dc & Hdc & _).
    rewrite Hdc. cbn [bind]. eexists. split; [reflexivity|]. cbn [code_lengths codes].
    split; [reflexivity|]. split; [apply assign_codes_length|].
    intros i li ci Hi Hci.
    destruct (assign_codes_nth _ _ _ _ _ _ Hi Hci) as [x ->].
    apply ReverseBits_range.
    apply nth_error_In in Hi. unfold valid_code_lengths in Hv.
    rewrite Forall_forall in Hv. apply Hv in Hi.
    unfold MAX_ALLOWED_CODE_LENGTH in Hi. lia.
  - intros Hnv. rewrite (count_depths_invalid _ _ Hnv). reflexivity.
Qed.

Lemma ConvertBitDepthsToSymbols_returns_witness :
  exists tree',
    ConvertBitDepthsToSymbols (mkCode [2; 1; 3; 0; 3] [9; 9; 9; 9; 9]) = Ok tree'
    /\ code_lengths tree' = [2; 1; 3; 0; 3]
    /\ length (codes tree') = 5%nat
    /\ forall i li ci,
         nth_error [2; 1; 3; 0; 3] i = Some li ->
         nth_error (codes tree') i = Some ci ->
         0 <= ci < 2 ^ li.
Proof.
  apply (proj1 (ConvertBitDepthsToSymbols_returns (mkCode [2; 1; 3; 0; 3] [9; 9; 9; 9; 9]))).
  unfold valid_code_lengths, MAX_ALLOWED_CODE_LENGTH. repeat constructor; lia.
Defined.

(* ------------------------------------------------------------------------- *)
(** ** The tokens, one by one *)

(** *** Every token is one the bit writer takes *)

Lemma literal_wire_ok value : 0 <= value <= 15 -> token_wire_ok (mkToken value 0).
Proof. intros H. left. simpl. lia. Qed.

Lemma CodeRepeatedZeros_loop_wire fuel : forall repetitions,
  Forall token_wire_ok (CodeRepeatedZeros_loop fuel repetitions []).
Proof.
  induction fuel as [|fuel IH]; intros r; simpl; [constructor|].
  destruct (Z.leb_spec 1 r); [|constructor].
  destruct (Z.ltb_spec r 3).
  { apply Forall_forall. intros t Ht. apply repeat_spec in Ht. subst t.
    apply literal_wire_ok. lia. }
  destruct (Z.ltb_spec r 11).
  { constructor; [|constructor]. right; right; left. simpl. lia. }
  destruct (Z.ltb_spec r 139).
  { constructor; [|constructor]. right; right; right. simpl. lia. }
  rewrite CodeRepeatedZeros_loop_app. apply Forall_app. split; [|apply IH].
  constructor; [|constructor]. right; right; right. simpl. lia.
Qed.

Lemma CodeRepeatedValues_loop_wire fuel : forall repetitions value,
  0 <= value <= 15 ->
  Forall token_wire_ok (CodeRepeatedValues_loop fuel repetitions [] value).
Proof.
  induction fuel as [|fuel IH]; intros r v Hv; simpl; [constructor|].
  destruct (Z.leb_spec 1 r); [|constructor].
  destruct (Z.ltb_spec r 3).
  { apply Forall_forall. intros t Ht. apply repeat_spec in Ht. subst t.
    now apply literal_wire_ok. }
  destruct (Z.ltb_spec r 7).
  { constructor; [|constructor]. right; left. simpl. lia. }
  rewrite CodeRepeatedValues_loop_app. apply Forall_app. split; [|now apply IH].
  constructor; [|constructor]. right; left. simpl. lia.
Qed.

Lemma CodeRepeatedValues_wire repetitions value prev_value :
  0 <= value <= 15 ->
  Forall token_wire_ok (CodeRepeatedValues_body repetitions [] value prev_value).
Proof.
  intros Hv. unfold CodeRepeatedValues_body. destruct (negb (value =? prev_value)).
  - rewrite CodeRepeatedValues_loop_app. apply Forall_app. split.
    + constructor; [now apply literal_wire_ok | constructor].
    + now apply CodeRepeatedValues_loop_wire.
  - now apply CodeRepeatedValues_loop_wire.
Qed.

Lemma Forall_skipn_Z (P : Z -> Prop) n l : Forall P l -> Forall P (skipn n l).
Proof.
  rewrite !Forall_forall. intros H x Hx.
  apply H. rewrite <- (firstn_skipn n l). apply in_or_app. now right.
Qed.

Lemma compress_loop_wire fuel : forall remaining tokens max_tokens prev_value out,
  Forall (fun v => 0 <= v) remaining ->
  Forall token_wire_ok tokens ->
  compress_loop fuel remaining tokens max_tokens prev_value = Ok out ->
  Forall token_wire_ok out.
Proof.
  induction fuel as [|fuel IH]; intros remaining tokens max_tokens prev out Hv Ht Hrun.
  - destruct remaining; simpl in Hrun; [|discriminate]. now inversion Hrun; subst.
  - destruct remaining as [|value rest]; [simpl in Hrun; now inversion Hrun; subst|].
    cbn [compress_loop] in Hrun.
    apply bind_Ok_inv in Hrun. destruct Hrun as (tokens' & Htok & Hrun).
    destruct (Z.of_nat (length tokens') <=? max_tokens); [|discriminate].
    apply IH in Hrun; [assumption | |].
    + inversion Hv; subst. cbn [skipn]. now apply Forall_skipn_Z.
    + inversion Hv as [|? ? Hval _]; subst.
      destruct (value =? 0).
      * inversion Htok; subst tokens'. rewrite CodeRepeatedZeros_app.
        apply Forall_app. split; [assumption|]. apply CodeRepeatedZeros_loop_wire.
      * unfold CodeRepeatedValues in Htok.
        destruct (Z.leb_spec value MAX_ALLOWED_CODE_LENGTH) as [Hle|]; [|discriminate].
        inversion Htok; subst tokens'. rewrite CodeRepeatedValues_app.
        apply Forall_app. split; [assumption|]. apply CodeRepeatedValues_wire.
        unfold MAX_ALLOWED_CODE_LENGTH in Hle. lia.
Qed.

(** X5.  Every token that [VP8LCreateCompressedHuffmanTree] returns for an
    array of non-negative code lengths is one the bit writer takes: a
    literal 0..15 with no extra bits, or 16 with extra bits in 0..3, or 17
    with extra bits in 0..7, or 18 with extra bits in 0..127. *)
Theorem tokens_fit_the_wire (tree : HuffmanTreeCode) (max_tokens : Z)
    (tokens : list HuffmanTreeToken) (n : Z) :
  Forall (fun v => 0 <= v) (code_lengths tree) ->
  VP8LCreateCompressedHuffmanTree tree max_tokens = Ok (tokens, n) ->
  Forall token_wire_ok tokens.
Proof.
  intros Hv Hrun. unfold VP8LCreateCompressedHuffmanTree in Hrun.
  apply bind_Ok_inv in Hrun. destruct Hrun as (out & Hout & Hrun).
  inversion Hrun; subst; clear Hrun.
  apply (compress_loop_wire _ _ _ _ _ _ Hv (Forall_nil _) Hout).
Qed.

Lemma tokens_fit_the_wire_witness :
  Forall token_wire_ok
    [mkToken 17 1; mkToken 5 0; mkToken 16 3; mkToken 5 0; mkToken 5 0;
     mkToken 4 0; mkToken 4 0; mkToken 0 0].
Proof.
  apply (tokens_fit_the_wire (mkCode [0;0;0;0;5;5;5;5;5;5;5;5;5;4;4;0] []) 16 _ 8).
  - repeat constructor; lia.
  - vm_compute. reflexivity.
Defined.

(** *** The number of tokens of a run *)

Lemma run_cost_short longest r :
  3 <= longest -> 1 <= r < 3 -> run_cost longest r = r.
Proof.
  intros Hl Hr. unfold run_cost.
  rewrite Z.mod_small, Z.div_small by lia.
  replace (r - 1 + 1 <? 3) with true by blia. lia.
Qed.

Lemma run_cost_one longest r :
  3 <= r <= longest -> run_cost longest r = 1.
Proof.
  intros Hr. unfold run_cost.
  rewrite Z.mod_small, Z.div_small by lia.
  replace (r - 1 + 1 <? 3) with false by blia. lia.
Qed.

Lemma run_cost_next longest r :
  0 < longest -> longest < r -> run_cost longest r = 1 + run_cost longest (r - longest).
Proof.
  intros Hl Hr. unfold run_cost.
  replace (r - 1) with ((r - longest - 1) + 1 * longest) by lia.
  rewrite Z.mod_add, Z.div_add by lia. lia.
Qed.

Lemma CodeRepeatedZeros_loop_count fuel : forall repetitions,
  1 <= repetitions -> (Z.to_nat repetitions <= fuel)%nat ->
  Z.of_nat (length (CodeRepeatedZeros_loop fuel repetitions [])) = run_cost 138 repetitions.
Proof.
  induction fuel as [|fuel IH]; intros r Hr Hf; [lia|]. simpl.
  replace (1 <=? r) with true by blia.
  destruct (Z.ltb_spec r 3).
  { rewrite repeat_length, run_cost_short by lia. lia. }
  destruct (Z.ltb_spec r 11); [rewrite run_cost_one by lia; reflexivity|].
  destruct (Z.ltb_spec r 139); [rewrite run_cost_one by lia; reflexivity|].
  rewrite CodeRepeatedZeros_loop_app, length_app, Nat2Z.inj_add, IH by lia.
  rewrite (run_cost_next 138 r) by lia. reflexivity.
Qed.

Lemma CodeRepeatedValues_loop_count fuel : forall repetitions value,
  1 <= repetitions -> (Z.to_nat repetitions <= fuel)%nat ->
  Z.of_nat (length (CodeRepeatedValues_loop fuel repetitions [] value))
  = run_cost 6 repetitions.
Proof.
  induction fuel as [|fuel IH]; intros r v Hr Hf; [lia|]. simpl.
  replace (1 <=? r) with true by blia.
  destruct (Z.ltb_spec r 3).
  { rewrite repeat_length, run_cost_short by lia. lia. }
  destruct (Z.ltb_spec r 7); [rewrite run_cost_one by lia; reflexivity|].
  rewrite CodeRepeatedValues_loop_app, length_app, Nat2Z.inj_add, IH by lia.
  rewrite (run_cost_next 6 r) by lia. reflexivity.
Qed.

(** *** The tokens of a run *)

Lemma CodeRepeatedZeros_loop_code fuel : forall repetitions,
  1 <= repetitions -> (Z.to_nat repetitions <= fuel)%nat ->
  CodeRepeatedZeros_loop fuel repetitions [] = zero_run_code repetitions.
Proof.
  induction fuel as [|fuel IH]; intros r Hr Hf; [lia|]. simpl.
  replace (1 <=? r) with true by blia. unfold zero_run_code.
  destruct (Z.ltb_spec r 139) as [Hs|Hl].
  - rewrite Z.mod_small, Z.div_small by lia. simpl.
    replace (r - 1 + 1) with r by lia.
    destruct (r <? 3); [reflexivity|]. destruct (r <? 11); reflexivity.
  - replace (r <? 3) with false by blia. replace (r <? 11) with false by blia.
    rewrite CodeRepeatedZeros_loop_app, IH by lia. unfold zero_run_code.
    replace (r - 1) with ((r - 138 - 1) + 1 * 138) by lia.
    rewrite Z.mod_add, Z.div_add by lia.
    assert (0 <= (r - 138 - 1) / 138) by (apply Z.div_pos; lia).
    replace (Z.to_nat ((r - 138 - 1) / 138 + 1))
      with (S (Z.to_nat ((r - 138 - 1) / 138))) by lia.
    reflexivity.
Qed.

Lemma CodeRepeatedValues_loop_code fuel : forall repetitions value,
  (Z.to_nat repetitions <= fuel)%nat ->
  CodeRepeatedValues_loop fuel repetitions [] value = value_run_code value repetitions.
Proof.
  induction fuel as [|fuel IH]; intros r v Hf.
  - unfold value_run_code. replace (r <? 1) with true by blia. reflexivity.
  - simpl. unfold value_run_code.
    destruct (Z.leb_spec 1 r) as [Hr|Hr];
      [replace (r <? 1) with false by blia | replace (r <? 1) with true by blia; reflexivity].
    destruct (Z.ltb_spec r 7) as [Hs|Hl].
    + rewrite Z.mod_small, Z.div_small by lia. simpl.
      replace (r - 1 + 1) with r by lia.
      destruct (r <? 3); reflexivity.
    + replace (r <? 3) with false by blia.
      rewrite CodeRepeatedValues_loop_app, IH by lia. unfold value_run_code.
      replace (r - 6 <? 1) with false by blia.
      replace (r - 1) with ((r - 6 - 1) + 1 * 6) by lia.
      rewrite Z.mod_add, Z.div_add by lia.
      assert (0 <= (r - 6 - 1) / 6) by (apply Z.div_pos; lia).
      replace (Z.to_nat ((r - 6 - 1) / 6 + 1))
        with (S (Z.to_nat ((r - 6 - 1) / 6))) by lia.
      reflexivity.
Qed.

(** X6.  On a run of [repetitions >= 1] zeros [CodeRepeatedZeros] appends
    to the tokens written so far exactly these: one token 18 with extra
    bits 127 for every full 138 zeros, that is [(repetitions - 1) / 138] of
    them, and then for the 1 to 138 zeros that remain one literal 0 per zero
    when fewer than 3 remain, one token 17 with extra bits [rest - 3] for a
    rest of 3 to 10, one token 18 with extra bits [rest - 11] for a rest of
    11 to 138.  The cursor advances by the number of these tokens. *)
Theorem zero_run_tokens (repetitions : Z) (tokens : list HuffmanTreeToken) :
  1 <= repetitions ->
  CodeRepeatedZeros repetitions tokens
  = tokens
    ++ repeat (mkToken 18 127) (Z.to_nat ((repetitions - 1) / 138))
    ++ (if (repetitions - 1) mod 138 + 1 <? 3 then
          repeat (mkToken 0 0) (Z.to_nat ((repetitions - 1) mod 138 + 1))
        else if (repetitions - 1) mod 138 + 1 <? 11 then
          [mkToken 17 ((repetitions - 1) mod 138 + 1 - 3)]
        else [mkToken 18 ((repetitions - 1) mod 138 + 1 - 11)])
  /\ Z.of_nat (length (CodeRepeatedZeros repetitions tokens))
     = Z.of_nat (length tokens) + run_cost 138 repetitions.
Proof.
  intros Hr. split.
  - rewrite CodeRepeatedZeros_app. f_equal. unfold CodeRepeatedZeros.
    rewrite CodeRepeatedZeros_loop_code by lia. reflexivity.
  - rewrite CodeRepeatedZeros_app, length_app, Nat2Z.inj_add.
    unfold CodeRepeatedZeros. rewrite CodeRepeatedZeros_loop_count by lia. reflexivity.
Qed.

Lemma zero_run_tokens_witness :
  CodeRepeatedZeros 287 [mkToken 3 0]
  = [mkToken 3 0; mkToken 18 127; mkToken 18 127; mkToken 18 0]
  /\ Z.of_nat (length (CodeRepeatedZeros 287 [mkToken 3 0])) = 1 + 3.
Proof. apply (zero_run_tokens 287 [mkToken 3 0]). lia. Defined.

(** X7.  [CodeRepeatedValues] stops on its assertion when [value] exceeds
    15.  Otherwise, on a run of [repetitions >= 1] it appends to the tokens
    written so far exactly these: the literal [{value, 0}] when [value]
    differs from [prev_value], which leaves one repetition less; then, for
    the repetitions left, one token 16 with extra bits 3 for every full 6,
    and for the 1 to 6 that remain one literal per repetition when fewer
    than 3 remain, one token 16 with extra bits [rest - 3] otherwise.  The
    cursor advances by the number of these tokens. *)
Theorem value_run_tokens (repetitions value prev_value : Z)
    (tokens : list HuffmanTreeToken) :
  (MAX_ALLOWED_CODE_LENGTH < value ->
   CodeRepeatedValues repetitions tokens value prev_value = Err AssertionFailure)
  /\
  (value <= MAX_ALLOWED_CODE_LENGTH -> 1 <= repetitions ->
   exists tokens',
     CodeRepeatedValues repetitions tokens value prev_value = Ok tokens'
     /\ tokens'
        = tokens
          ++ (if value =? prev_value then [] else [mkToken value 0])
          ++ value_run_code value
               (if value =? prev_value then repetitions else repetitions - 1)
     /\ Z.of_nat (length tokens')
        = Z.of_nat (length tokens)
          + (if value =? prev_value then run_cost 6 repetitions
             else if repetitions =? 1 then 1
             else 1 + run_cost 6 (repetitions - 1))).
Proof.
  unfold CodeRepeatedValues. split.
  - intros Hv. replace (value <=? MAX_ALLOWED_CODE_LENGTH) with false by blia.
    reflexivity.
  - intros Hv Hr. replace (value <=? MAX_ALLOWED_CODE_LENGTH) with true by blia.
    eexists. split; [reflexivity|]. split.
    + rewrite CodeRepeatedValues_app. f_equal. unfold CodeRepeatedValues_body.
      destruct (Z.eqb_spec value prev_value) as [_|_]; cbn [negb app].
      * apply CodeRepeatedValues_loop_code. lia.
      * rewrite CodeRepeatedValues_loop_app.
        rewrite CodeRepeatedValues_loop_code by lia. reflexivity.
    + rewrite CodeRepeatedValues_app, length_app, Nat2Z.inj_add.
      f_equal. unfold CodeRepeatedValues_body.
      destruct (Z.eqb_spec value prev_value) as [_|_]; cbn [negb].
      * now apply CodeRepeatedValues_loop_count.
      * rewrite CodeRepeatedValues_loop_app, length_app, Nat2Z.inj_add.
        cbn [app length].
        destruct (Z.eqb_spec repetitions 1) as [->|Hne].
        -- reflexivity.
        -- rewrite CodeRepeatedValues_loop_count by lia. reflexivity.
Qed.

Lemma value_run_tokens_witness :
  exists tokens',
    CodeRepeatedValues 12 [mkToken 0 0] 5 8 = Ok tokens'
    /\ tokens' = [mkToken 0 0; mkToken 5 0; mkToken 16 3; mkToken 16 2]
    /\ Z.of_nat (length tokens') = 1 + 3.
Proof.
  apply (proj2 (value_run_tokens 12 5 8 [mkToken 0 0]));
    unfold MAX_ALLOWED_CODE_LENGTH; lia.
Defined.

(** *** The two assertions *)





(* ------------------------------------------------------------------------- *)
(** ** The histogram smoother returns *)

(** A loop whose turns all return, returns. *)
Lemma for_each_range_total {S : Type} (body : Z -> S -> result S)
    (P : nat -> S -> Prop) n :
  (forall i s, (i < n)%nat -> P i s ->
     exists s', body (Z.of_nat i) s = Ok s' /\ P (Datatypes.S i) s') ->
  forall s, P O s -> exists s', for_each (range n) body s = Ok s' /\ P n s'.
Proof.
  induction n as [|n IH]; intros Hstep s H0.
  - exists s. split; [reflexivity | assumption].
  - destruct (IH ltac:(intros; apply Hstep; [lia | assumption]) s H0) as (s1 & Hrun & H1).
    destruct (Hstep n s1 ltac:(lia) H1) as (s2 & Hb & H2).
    exists s2. split; [|assumption].
    rewrite range_S, for_each_app, Hrun. simpl. rewrite Hb. reflexivity.
Qed.

(** *** Sums of counts *)

Lemma sum_range_app a n : forall m from,
  sum_range a from (n + m) = sum_range a from n + sum_range a (from + Z.of_nat n) m.
Proof.
  induction n as [|n IH]; intros m from.
  - simpl. replace (from + Z.of_nat 0) with from by lia. lia.
  - cbn [Nat.add sum_range]. rewrite IH.
    replace (from + 1 + Z.of_nat n) with (from + Z.of_nat (S n)) by lia. lia.
Qed.

Lemma sum_range_le_total a from n :
  (forall p, 0 <= p -> 0 <= load a p) ->
  (from + n <= length a)%nat ->
  sum_range a (Z.of_nat from) n <= total_count a.
Proof.
  intros Hnn Hle. unfold total_count.
  replace (length a) with (from + (n + (length a - from - n)))%nat by lia.
  rewrite !sum_range_app.
  pose proof (sum_range_nonneg a from 0 ltac:(intros; apply Hnn; lia)).
  pose proof (sum_range_nonneg a (length a - from - n) (0 + Z.of_nat from + Z.of_nat n)
                ltac:(intros; apply Hnn; lia)).
  replace (0 + Z.of_nat from) with (Z.of_nat from) in * by lia. lia.
Qed.

Lemma sum_range_le_mul a bound : forall n from,
  (forall p, from <= p < from + Z.of_nat n -> load a p <= bound) ->
  sum_range a from n <= Z.of_nat n * bound.
Proof.
  induction n as [|n IH]; intros from H; cbn [sum_range]; [lia|].
  pose proof (H from ltac:(lia)).
  pose proof (IH (from + 1) ltac:(intros; apply H; lia)). lia.
Qed.

Lemma load_le_total a p :
  (forall q, 0 <= q -> 0 <= load a q) -> 0 <= p -> load a p <= total_count a.
Proof.
  intros Hnn Hp. destruct (Z.ltb_spec p (Z.of_nat (length a))) as [Hlt|Hge].
  - pose proof (sum_range_le_total a (Z.to_nat p) 1 Hnn ltac:(lia)) as H.
    cbn [sum_range] in H. rewrite Z2Nat.id in H by lia. lia.
  - unfold load. rewrite nth_overflow by lia.
    unfold total_count. apply sum_range_nonneg. intros; apply Hnn; lia.
Qed.

(** *** Rounded means *)

Lemma rounded_mean_range sum stride :
  0 <= sum -> 0 < stride ->
  0 <= (sum + stride ÷ 2) ÷ stride <= sum + stride ÷ 2.
Proof.
  intros Hs Hk.
  assert (0 <= stride ÷ 2) by (apply Z.quot_pos; lia).
  split; [apply Z.quot_pos; lia|].
  rewrite Z.quot_div_nonneg by lia.
  apply Z.div_le_upper_bound; [lia | nia].
Qed.

Lemma rounded_mean_bound sum stride bound :
  0 <= sum <= stride * bound -> 0 < stride ->
  (sum + stride ÷ 2) ÷ stride <= bound.
Proof.
  intros Hs Hk.
  assert (H2 : 0 <= stride ÷ 2 < stride).
  { rewrite Z.quot_div_nonneg by lia. split; [apply Z.div_pos; lia|].
    apply Z.div_lt_upper_bound; lia. }
  rewrite Z.quot_div_nonneg by lia.
  apply Z.lt_succ_r, Z.div_lt_upper_bound; [lia | nia].
Qed.

(** *** Every turn of pass 3 returns *)

Section SmoothingTurn.

Variables (counts0 : list Z) (len : nat) (max_count : Z).

Hypothesis counts_nonneg : forall p, 0 <= p -> 0 <= load counts0 p.
Hypothesis counts_sum : total_count counts0 + Z.of_nat (length counts0) <= INT_MAX.
Hypothesis len_le : (len <= length counts0)%nat.

Lemma stride_ends_total good i st :
  0 <= load (rle_counts st) i <= INT_MAX -> 0 <= rle_limit st <= INT_MAX ->
  exists ends, stride_ends (Z.of_nat len) good i st = Ok ends.
Proof.
  intros Ha Hb. unfold stride_ends, ValuesShouldBeCollapsedToStrideAverage.
  destruct (i =? Z.of_nat len); [eauto|].
  destruct (negb _); [eauto|].
  destruct (_ && _); [eauto|].
  rewrite int_ok_in_range by (unfold INT_MIN, INT_MAX in *; lia). cbn [bind].
  rewrite int_ok_in_range by (unfold INT_MIN, INT_MAX in *; lia). cbn [bind]. eauto.
Qed.

Lemma limit_ahead_total counts1 (i : nat) :
  (forall p, Z.of_nat i <= p -> load counts1 p = load counts0 p) ->
  (i <= len)%nat ->
  exists limit,
    (if Z.of_nat i <? Z.of_nat len - 3 then
       s1 <- int_ok (load counts1 (Z.of_nat i) + load counts1 (Z.of_nat i + 1)) ;;
       s2 <- int_ok (s1 + load counts1 (Z.of_nat i + 2)) ;;
       s3 <- int_ok (s2 + load counts1 (Z.of_nat i + 3)) ;;
       s4 <- int_ok (s3 + 2) ;;
       Ok (s4 ÷ 4)
     else if Z.of_nat i <? Z.of_nat len then Ok (load counts1 (Z.of_nat i))
     else Ok 0) = Ok limit
    /\ 0 <= limit <= INT_MAX.
Proof.
  intros Hsame Hi.
  pose proof (load_le_total counts0 (Z.of_nat i) counts_nonneg ltac:(lia)) as Hi0.
  pose proof (counts_nonneg (Z.of_nat i) ltac:(lia)) as Hn0.
  destruct (Z.ltb_spec (Z.of_nat i) (Z.of_nat len - 3)) as [H3|H3].
  - pose proof (sum_range_le_total counts0 i 4 counts_nonneg ltac:(lia)) as H4.
    cbn [sum_range] in H4.
    replace (Z.of_nat i + 1 + 1) with (Z.of_nat i + 2) in H4 by lia.
    replace (Z.of_nat i + 2 + 1) with (Z.of_nat i + 3) in H4 by lia.
    rewrite !Hsame by lia.
    pose proof (counts_nonneg (Z.of_nat i + 1) ltac:(lia)).
    pose proof (counts_nonneg (Z.of_nat i + 2) ltac:(lia)).
    pose proof (counts_nonneg (Z.of_nat i + 3) ltac:(lia)).
    rewrite int_ok_in_range by (unfold INT_MIN, INT_MAX in *; lia). cbn [bind].
    rewrite int_ok_in_range by (unfold INT_MIN, INT_MAX in *; lia). cbn [bind].
    rewrite int_ok_in_range by (unfold INT_MIN, INT_MAX in *; lia). cbn [bind].
    rewrite int_ok_in_range by (unfold INT_MIN, INT_MAX in *; lia). cbn [bind].
    eexists. split; [reflexivity|].
    rewrite Z.quot_div_nonneg by lia.
    split; [apply Z.div_pos; lia|].
    apply Z.div_le_upper_bound; unfold INT_MAX in *; lia.
  - destruct (Z.ltb_spec (Z.of_nat i) (Z.of_nat len)).
    + eexists. split; [reflexivity|]. rewrite Hsame by lia. unfold INT_MAX in *. lia.
    + eexists. split; [reflexivity|]. unfold INT_MAX. lia.
Qed.

Lemma collapse_counts_total (i : nat) st :
  (i <= len)%nat ->
  smoothing_invariant counts0 len max_count i st ->
  exists counts1,
    (if stride_collapses st then
       count <- collapsed_count (rle_sum st) (rle_stride st) ;;
       Ok (fill_back (rle_counts st) (Z.of_nat i) (rle_stride st) count)
     else Ok (rle_counts st)) = Ok counts1
    /\ length counts1 = length counts0
    /\ (forall p, Z.of_nat i <= p -> load counts1 p = load counts0 p)
    /\ (forall p, 0 <= p -> 0 <= load counts1 p <= max_count).
Proof.
  intros Hi (Hlen & Hs & Hsame & Hb & Hlim & Hsi).
  destruct (Hsi Hi) as [_ Hsum].
  destruct (stride_collapses st) eqn:Hcol.
  2:{ exists (rle_counts st). repeat split; auto; try apply Hb; try assumption.
      intros p Hp. apply Hsame. lia. }
  assert (Hs3 : 3 <= rle_stride st).
  { unfold stride_collapses in Hcol.
    destruct (Z.leb_spec 4 (rle_stride st)); [lia|].
    destruct (Z.leb_spec 3 (rle_stride st)); [lia | discriminate]. }
  assert (Hsum0 : rle_sum st
                  = sum_range counts0 (Z.of_nat (i - Z.to_nat (rle_stride st)))
                      (Z.to_nat (rle_stride st))).
  { rewrite Hsum. replace (Z.of_nat (i - Z.to_nat (rle_stride st)))
      with (Z.of_nat i - rle_stride st) by lia.
    apply sum_range_ext. intros p Hp. apply Hsame. lia. }
  assert (Hsn : 0 <= rle_sum st).
  { rewrite Hsum. apply sum_range_nonneg. intros p Hp. apply Hb. lia. }
  assert (Hst : rle_sum st <= total_count counts0).
  { rewrite Hsum0. apply sum_range_le_total; [assumption | lia]. }
  assert (Hsm : rle_sum st <= rle_stride st * max_count).
  { rewrite Hsum.
    pose proof (sum_range_le_mul (rle_counts st) max_count (Z.to_nat (rle_stride st))
                  (Z.of_nat i - rle_stride st)
                  ltac:(intros p Hp; apply Hb; lia)) as H.
    rewrite Z2Nat.id in H by lia. exact H. }
  assert (Hhalf : 0 <= rle_stride st ÷ 2 <= rle_stride st).
  { rewrite Z.quot_div_nonneg by lia. split; [apply Z.div_pos; lia|].
    apply Z.div_le_upper_bound; lia. }
  unfold collapsed_count.
  rewrite int_ok_in_range by (unfold INT_MIN, INT_MAX in *; lia). cbn [bind].
  eexists. split; [reflexivity|].
  split; [now rewrite length_fill_back|]. split.
  - intros p Hp. rewrite load_fill_back by lia.
    replace (p <? Z.of_nat i) with false by blia. rewrite andb_false_r.
    apply Hsame. lia.
  - intros p Hp. rewrite load_fill_back by lia.
    destruct ((Z.of_nat i - rle_stride st <=? p) && (p <? Z.of_nat i)); [|now apply Hb].
    destruct (Z.eqb_spec (rle_sum st) 0) as [E|E].
    + pose proof (Hb p Hp). lia.
    + pose proof (rounded_mean_bound (rle_sum st) (rle_stride st) max_count
                    ltac:(lia) ltac:(lia)).
      assert (1 <= max_count) by nia.
      destruct (Z.ltb_spec ((rle_sum st + rle_stride st ÷ 2) ÷ rle_stride st) 1); lia.
Qed.

Lemma collapse_step_total good (i : nat) st :
  (i <= len)%nat ->
  smoothing_invariant counts0 len max_count i st ->
  exists st',
    collapse_step (Z.of_nat len) good (Z.of_nat i) st = Ok st'
    /\ smoothing_invariant counts0 len max_count (S i) st'.
Proof.
  intros Hi Hinv.
  pose proof Hinv as (Hlen & Hs & Hsame & Hb & Hlim & Hsi).
  pose proof (Hsi Hi) as Hstride. destruct Hstride as [_ Hsum].
  pose proof (load_le_total counts0 (Z.of_nat i) counts_nonneg ltac:(lia)) as Hi0.
  pose proof (counts_nonneg (Z.of_nat i) ltac:(lia)) as Hn0.
  assert (Hcur : 0 <= load (rle_counts st) (Z.of_nat i) <= INT_MAX).
  { rewrite Hsame by lia. unfold INT_MAX in *. lia. }
  destruct (stride_ends_total good (Z.of_nat i) st Hcur Hlim) as [ends Hends].
  assert (Hex : exists st',
    collapse_step (Z.of_nat len) good (Z.of_nat i) st = Ok st'
    /\ length (rle_counts st') = length counts0
    /\ 1 <= rle_stride st' <= Z.of_nat (S i)
    /\ (forall p, Z.of_nat (S i) - rle_stride st' <= p ->
          load (rle_counts st') p = load counts0 p)
    /\ (forall p, 0 <= p -> 0 <= load (rle_counts st') p <= max_count)
    /\ 0 <= rle_limit st' <= INT_MAX).
  { unfold collapse_step. rewrite Hends. cbn [bind].
    destruct ends.
    - destruct (collapse_counts_total i st Hi Hinv) as (counts1 & Hc1 & Hlen1 & Hsame1 & Hb1).
      rewrite Hc1. cbn [bind].
      destruct (limit_ahead_total counts1 i Hsame1 Hi) as (limit1 & Hl1 & Hlim1).
      rewrite Hl1. cbn [bind rle_stride rle_sum rle_counts rle_limit].
      destruct (Z.eqb_spec (Z.of_nat i) (Z.of_nat len)) as [E|E]; cbn [negb].
      + eexists. split; [reflexivity|]. cbn [rle_stride rle_sum rle_counts rle_limit].
        split; [assumption|]. split; [lia|]. split; [intros p Hp; apply Hsame1; lia|].
        split; assumption.
      + rewrite Hsame1 by lia.
        rewrite int_ok_in_range by (unfold INT_MIN, INT_MAX in *; lia). cbn [bind].
        replace (4 <=? 0 + 1) with false by reflexivity. cbn [bind].
        eexists. split; [reflexivity|]. cbn [rle_stride rle_sum rle_counts rle_limit].
        split; [assumption|]. split; [lia|]. split; [intros p Hp; apply Hsame1; lia|].
        split; assumption.
    - assert (Hne : Z.of_nat i <> Z.of_nat len).
      { intros E. unfold stride_ends in Hends. rewrite E, Z.eqb_refl in Hends.
        discriminate. }
      cbn [bind].
      replace (Z.of_nat i =? Z.of_nat len) with false by blia. cbn [negb].
      assert (Hsum1 : rle_sum st + load (rle_counts st) (Z.of_nat i)
                      = sum_range counts0 (Z.of_nat (i - Z.to_nat (rle_stride st)))
                          (S (Z.to_nat (rle_stride st)))).
      { rewrite sum_range_snoc, Hsum.
        replace (Z.of_nat (i - Z.to_nat (rle_stride st)))
          with (Z.of_nat i - rle_stride st) by lia.
        rewrite Z2Nat.id by lia.
        replace (Z.of_nat i - rle_stride st + rle_stride st) with (Z.of_nat i) by lia.
        rewrite (Hsame (Z.of_nat i)) by lia. f_equal.
        apply sum_range_ext. intros p Hp. apply Hsame. lia. }
      assert (Hs1 : 0 <= rle_sum st + load (rle_counts st) (Z.of_nat i)
                    <= total_count counts0).
      { split.
        - rewrite Hsum1. apply sum_range_nonneg. intros p Hp. apply counts_nonneg. lia.
        - rewrite Hsum1. apply sum_range_le_total; [assumption | lia]. }
      rewrite int_ok_in_range by (unfold INT_MIN, INT_MAX in *; lia). cbn [bind].
      assert (Hhalf : 0 <= (rle_stride st + 1) ÷ 2 <= rle_stride st + 1).
      { rewrite Z.quot_div_nonneg by lia. split; [apply Z.div_pos; lia|].
        apply Z.div_le_upper_bound; lia. }
      destruct (Z.leb_spec 4 (rle_stride st + 1)).
      + rewrite int_ok_in_range by (unfold INT_MIN, INT_MAX in *; lia). cbn [bind].
        eexists. split; [reflexivity|]. cbn [rle_stride rle_sum rle_counts rle_limit].
        split; [assumption|]. split; [lia|]. split; [intros p Hp; apply Hsame; lia|].
        split; [assumption|].
        pose proof (rounded_mean_range
                      (rle_sum st + load (rle_counts st) (Z.of_nat i))
                      (rle_stride st + 1) ltac:(lia) ltac:(lia)).
        unfold INT_MAX in *. lia.
      + cbn [bind]. eexists. split; [reflexivity|].
        cbn [rle_stride rle_sum rle_counts rle_limit].
        split; [assumption|]. split; [lia|]. split; [intros p Hp; apply Hsame; lia|].
        split; assumption. }
  destruct Hex as (st' & Hrun & H1 & H2 & H3 & H4 & H5).
  exists st'. split; [assumption|].
  unfold smoothing_invariant. split; [assumption|]. split; [lia|].
  do 3 (split; [assumption|]).
  intros Hi'.
  apply (collapse_step_stride_invariant len good i st st'); [lia | assumption|].
  now apply Hsi.
Qed.

End SmoothingTurn.


(** *** The smoother as a whole *)

Lemma trim_length_zeros counts : forall length p,
  Z.of_nat (trim_length length counts) <= p < Z.of_nat length -> load counts p = 0.
Proof.
  induction length as [|n IH]; intros p Hp; simpl in Hp; [lia|].
  destruct (Z.eqb_spec (load counts (Z.of_nat n)) 0) as [E|E]; simpl in Hp; [|lia].
  destruct (Z.eq_dec p (Z.of_nat n)) as [->|Hne]; [assumption|].
  apply IH. lia.
Qed.

Lemma OptimizeHuffmanForRle_total counts max_count :
  Forall (fun c => 0 <= c <= max_count) counts ->
  total_count counts + Z.of_nat (length counts) <= INT_MAX ->
  exists counts',
    OptimizeHuffmanForRle (length counts) counts = Ok counts'
    /\ length counts' = length counts
    /\ Forall (fun c => 0 <= c <= max_count) counts'
    /\ (forall p, Z.of_nat (trim_length (length counts) counts) <= p ->
          load counts' p = load counts p).
Proof.
  intros Hb Hsum. unfold OptimizeHuffmanForRle.
  pose proof (trim_length_le counts (length counts)) as Hle.
  destruct (trim_length (length counts) counts) as [|n] eqn:El.
  { exists counts. repeat split; auto. }
  set (len := S n) in *.
  assert (Hmax : 0 <= max_count).
  { destruct counts as [|c rest]; [simpl in Hle; lia|].
    inversion Hb; subst. lia. }
  assert (Hload : forall p, 0 <= p -> 0 <= load counts p <= max_count).
  { intros p _. apply (load_Forall (fun c => 0 <= c <= max_count)); [assumption | lia]. }
  destruct (for_each_range_total
              (collapse_step (Z.of_nat len) (mark_good_for_rle len counts))
              (smoothing_invariant counts len max_count) (len + 1)) 
    with (s := mkRle counts 0 (load counts 0) 0) as (st & Hrun & Hinv).
  - intros i s Hi Hinv.
    apply (collapse_step_total counts len max_count); try assumption; try lia.
    intros p Hp. now apply Hload.
  - unfold smoothing_invariant. cbn [rle_counts rle_stride rle_limit rle_sum].
    split; [reflexivity|]. split; [lia|]. split; [reflexivity|].
    split; [assumption|]. split.
    + pose proof (load_le_total counts 0 ltac:(intros; now apply Hload) ltac:(lia)).
      pose proof (Hload 0 ltac:(lia)). unfold INT_MAX in *. lia.
    + intros _. split; simpl; lia.
  - rewrite Hrun. cbn [bind]. exists (rle_counts st).
    destruct Hinv as (Hlen & Hs & Hsame & Hbound & _).
    split; [reflexivity|]. split; [assumption|]. split.
    + apply Forall_load. intros i Hi. apply Hbound. lia.
    + intros p Hp. apply Hsame. lia.
Qed.

(** X9.  For a histogram of counts between 0 and [max_count] whose sum, plus
    the number of symbols, is an [int], [OptimizeHuffmanForRle] returns: no
    sum or mean that it computes overflows.  The histogram keeps its size,
    and every count stays between 0 and [max_count]. *)
Theorem OptimizeHuffmanForRle_returns (counts : list Z) (max_count : Z) :
  Forall (fun c => 0 <= c <= max_count) counts ->
  total_count counts + Z.of_nat (length counts) <= INT_MAX ->
  exists counts',
    OptimizeHuffmanForRle (length counts) counts = Ok counts'
    /\ length counts' = length counts
    /\ Forall (fun c => 0 <= c <= max_count) counts'.
Proof.
  intros Hb Hsum.
  destruct (OptimizeHuffmanForRle_total counts max_count Hb Hsum)
    as (counts' & H1 & H2 & H3 & _).
  eauto.
Qed.

Lemma OptimizeHuffmanForRle_returns_witness :
  exists counts',
    OptimizeHuffmanForRle (length [10; 12; 11; 9; 0; 0; 0; 0; 0; 0; 40; 0])
      [10; 12; 11; 9; 0; 0; 0; 0; 0; 0; 40; 0] = Ok counts'
    /\ length counts' = length [10; 12; 11; 9; 0; 0; 0; 0; 0; 0; 40; 0]
    /\ Forall (fun c => 0 <= c <= 40) counts'.
Proof.
  apply (OptimizeHuffmanForRle_returns [10; 12; 11; 9; 0; 0; 0; 0; 0; 0; 40; 0] 40).
  - repeat constructor; lia.
  - vm_compute. discriminate.
Defined.

(** *** What pass 3 leaves alone *)

Lemma fill_back_above a i stride v p :
  0 <= p -> i <= p -> load (fill_back a i stride v) p = load a p.
Proof.
  intros Hp Hi.
  assert (H : forall n, load (fill_back a i (Z.of_nat n) v) p = load a p).
  { induction n as [|n IH]; [reflexivity|].
    rewrite fill_back_S, load_store_other by lia. exact IH. }
  specialize (H (Z.to_nat stride)). unfold fill_back in *.
  rewrite Nat2Z.id in H. exact H.
Qed.

(** A turn of pass 3 writes below its index only. *)
Lemma collapse_step_above length good i st st' :
  collapse_step length good i st = Ok st' ->
  List.length (rle_counts st') = List.length (rle_counts st)
  /\ forall p, 0 <= p -> i <= p -> load (rle_counts st') p = load (rle_counts st) p.
Proof.
  intros Hstep. apply collapse_step_inv in Hstep.
  destruct Hstep as (ends & st1 & _ & Hst1 & -> & _).
  destruct ends; [|subst st1; auto].
  destruct Hst1 as (counts1 & limit1 & -> & Hc1). simpl.
  destruct (stride_collapses st); [|subst counts1; auto].
  destruct Hc1 as (count & _ & ->). split.
  - apply length_fill_back.
  - intros p Hp Hi. now apply fill_back_above.
Qed.

Lemma trim_length_below counts p : forall length,
  0 <= p -> (forall q, p <= q < Z.of_nat length -> load counts q = 0) ->
  Z.of_nat (trim_length length counts) <= p.
Proof.
  intros length Hp. induction length as [|n IH]; intros Hz; simpl; [lia|].
  destruct (Z.eqb_spec (load counts (Z.of_nat n)) 0) as [E|E]; simpl.
  - apply IH. intros q Hq. apply Hz. lia.
  - destruct (Z.le_gt_cases p (Z.of_nat n)) as [Hle|Hgt]; [|lia].
    exfalso. apply E. apply Hz. lia.
Qed.

(** The last non-zero count is not protected: it is rewritten with the
    stride that it ends. *)
Example last_count_rewritten :
  OptimizeHuffmanForRle 7 [1; 2; 3; 1; 4; 0; 0] = Ok [2; 2; 2; 2; 2; 0; 0].
Proof. reflexivity. Qed.

(** X10.  [OptimizeHuffmanForRle] writes nothing after the last non-zero
    count: whenever it returns, the histogram has kept its size, and a zero
    count that only zeros follow is still zero.  No bound on the counts is
    needed for this. *)
Theorem trailing_zeros_stay (counts counts' : list Z) :
  OptimizeHuffmanForRle (length counts) counts = Ok counts' ->
  length counts' = length counts
  /\ forall p, 0 <= p < Z.of_nat (length counts) ->
       (forall q, p <= q < Z.of_nat (length counts) -> load counts q = 0) ->
       load counts' p = 0.
Proof.
  intros Hrun.
  assert (Hframe : length counts' = length counts
                   /\ forall p, Z.of_nat (trim_length (length counts) counts) <= p ->
                        load counts' p = load counts p).
  { unfold OptimizeHuffmanForRle in Hrun.
    destruct (trim_length (length counts) counts) as [|n] eqn:El.
    { inversion Hrun; subst. auto. }
    set (len := S n) in *.
    apply bind_Ok_inv in Hrun. destruct Hrun as (st & Hloop & Hrun).
    inversion Hrun; subst counts'; clear Hrun.
    assert (Hinv : length (rle_counts st) = length counts
                   /\ forall p, 0 <= p -> Z.of_nat len <= p ->
                        load (rle_counts st) p = load counts p).
    { revert Hloop.
      apply (for_each_range_invariant _
               (fun (_ : nat) s =>
                  length (rle_counts s) = length counts
                  /\ forall p, 0 <= p -> Z.of_nat len <= p ->
                       load (rle_counts s) p = load counts p)).
      - intros i s s' Hi [Hl Hsame] Hstep.
        apply collapse_step_above in Hstep. destruct Hstep as [Hl' Hsame'].
        split; [congruence|]. intros p Hp Hlen.
        rewrite Hsame' by lia. now apply Hsame.
      - simpl. auto. }
    destruct Hinv as [Hl Hsame]. split; [assumption|].
    intros p Hp. apply Hsame; lia. }
  destruct Hframe as [Hl Hsame]. split; [assumption|].
  intros p Hp Hz. rewrite Hsame; [apply Hz; lia|].
  apply trim_length_below; [lia | assumption].
Qed.

Lemma trailing_zeros_stay_witness : load [2; 2; 2; 2; 2; 0; 0] 5 = 0.
Proof.
  refine (proj2 (trailing_zeros_stay [1; 2; 3; 1; 4; 0; 0] [2; 2; 2; 2; 2; 0; 0] _)
            5 _ _).
  - vm_compute. reflexivity.
  - simpl. lia.
  - simpl. intros q Hq. assert (E : q = 5 \/ q = 6) by lia.
    destruct E as [-> | ->]; reflexivity.
Defined.

(* ------------------------------------------------------------------------- *)
(** ** The smoother does not spoil the existing runs *)

(** *** Pass 3 keeps the marked positions *)

Lemma stride_ends_false length good i st :
  stride_ends length good i st = Ok false ->
  i <> length /\ load good i = 0 /\ (i = 0 \/ load good (i - 1) = 0).
Proof.
  unfold stride_ends. intros H.
  destruct (Z.eqb_spec i length); [discriminate|].
  destruct (Z.eqb_spec (load good i) 0); [|discriminate]. cbn [negb] in H.
  destruct (Z.eqb_spec i 0); [auto|]. cbn [negb andb] in H.
  destruct (Z.eqb_spec (load good (i - 1)) 0); [auto | discriminate].
Qed.

Lemma collapse_step_protects counts0 len good i st st' :
  (i <= len <= length counts0)%nat ->
  collapse_step (Z.of_nat len) good (Z.of_nat i) st = Ok st' ->
  protecting_invariant counts0 good i st ->
  protecting_invariant counts0 good (S i) st'.
Proof.
  intros Hi Hstep (Hlen & Hs & Hmark & Hsame).
  apply collapse_step_inv in Hstep.
  destruct Hstep as (ends & st1 & Hends & Hst1 & Hc & Hstr & _).
  unfold protecting_invariant. rewrite Hc, Hstr.
  destruct ends.
  - destruct Hst1 as (counts1 & limit1 & -> & Hc1).
    cbn [rle_counts rle_stride].
    assert (H1 : length counts1 = length counts0
                 /\ forall p, 0 <= p -> load good p <> 0 \/ Z.of_nat i <= p ->
                      load counts1 p = load counts0 p).
    { destruct (stride_collapses st) eqn:Hcol.
      2:{ subst counts1. split; [assumption|]. intros p Hp Hor.
          apply Hsame; [assumption | destruct Hor; [auto | right; lia]]. }
      destruct Hc1 as (count & _ & ->).
      split; [now rewrite length_fill_back|].
      intros p Hp Hor. rewrite load_fill_back by lia.
      destruct (Z.leb_spec (Z.of_nat i - rle_stride st) p);
        destruct (Z.ltb_spec p (Z.of_nat i)); cbn [andb];
        try (apply Hsame; [assumption | destruct Hor; [auto | right; lia]]).
      destruct Hor as [Hgood|Hge]; [|lia].
      exfalso. specialize (Hmark p ltac:(lia) Hgood).
      unfold stride_collapses in Hcol. rewrite Hmark in Hcol. discriminate. }
    destruct H1 as [Hlen1 Hsame1].
    split; [assumption|]. split; [lia|]. split; [intros; lia|].
    intros p Hp Hor. apply Hsame1; [assumption|]. destruct Hor; [auto | right; lia].
  - subst st1. apply stride_ends_false in Hends. destruct Hends as (Hne & Hg & Hg1).
    split; [assumption|]. split; [lia|]. split.
    + intros p Hp Hgood. exfalso.
      destruct (Z.eq_dec p (Z.of_nat i)) as [->|Hpi]; [contradiction|].
      specialize (Hmark p ltac:(lia) Hgood).
      destruct Hg1 as [E|E]; [lia|].
      apply Hgood. replace p with (Z.of_nat i - 1) by lia. exact E.
    + intros p Hp Hor. apply Hsame; [assumption|]. destruct Hor; [auto | right; lia].
Qed.

Lemma OptimizeHuffmanForRle_protects counts counts' :
  OptimizeHuffmanForRle (length counts) counts = Ok counts' ->
  let len := trim_length (length counts) counts in
  forall p, 0 <= p ->
    load (mark_good_for_rle len counts) p <> 0 \/ Z.of_nat len <= p ->
    load counts' p = load counts p.
Proof.
  unfold OptimizeHuffmanForRle.
  pose proof (trim_length_le counts (length counts)) as Hle.
  destruct (trim_length (length counts) counts) as [|n] eqn:El.
  { intros H. inversion H; subst. reflexivity. }
  set (len := S n) in *. intros H.
  apply bind_Ok_inv in H. destruct H as (st & Hrun & H). inversion H; subst counts'.
  cbv zeta. intros p Hp Hor.
  assert (Hinv : protecting_invariant counts (mark_good_for_rle len counts) (len + 1) st).
  { revert Hrun.
    apply (for_each_range_invariant _
             (protecting_invariant counts (mark_good_for_rle len counts))).
    - intros i s s' Hi Hinv Hstep.
      apply (collapse_step_protects counts len _ i s s'); [lia | assumption | assumption].
    - unfold protecting_invariant. cbn [rle_counts rle_stride].
      split; [reflexivity|]. split; [lia|]. split; [intros; lia | reflexivity]. }
  destruct Hinv as (_ & _ & _ & Hsame).
  apply Hsame; [assumption|]. destruct Hor; [auto | right; lia].
Qed.

(** *** Pass 2 marks the long runs *)

Lemma fold_range_invariant {S : Type} (f : S -> Z -> S) (P : nat -> S -> Prop) n :
  (forall i s, (i < n)%nat -> P i s -> P (Datatypes.S i) (f s (Z.of_nat i))) ->
  forall s, P O s -> P n (fold_left f (range n) s).
Proof.
  induction n as [|n IH]; intros Hstep s H0; [exact H0|].
  rewrite range_S, fold_left_app. simpl.
  apply Hstep; [lia|]. apply IH; [|exact H0].
  intros i s' Hi. apply Hstep. lia.
Qed.

Lemma nth_update_keep a : forall n m v,
  nth m a 0 = v -> nth m (update a n v) 0 = v.
Proof.
  induction a as [|h t IH]; intros [|n] [|m] v H; simpl in *; auto.
Qed.

Lemma load_store_keep a j v p : load a p = v -> load (store a j v) p = v.
Proof.
  unfold load, store. intros H. destruct (0 <=? j); [|assumption].
  now apply nth_update_keep.
Qed.

Lemma fill_back_keep a i stride v p :
  load a p = v -> load (fill_back a i stride v) p = v.
Proof.
  unfold fill_back. generalize (range (Z.to_nat stride)). intros l. revert a.
  induction l as [|k l IH]; intros a H; simpl; [assumption|].
  apply IH. now apply load_store_keep.
Qed.

Section Marking.

Variables (counts : list Z) (len a b : nat) (v : Z).

Hypothesis run_inside : (a < b <= len)%nat.
Hypothesis run_value : forall p, Z.of_nat a <= p < Z.of_nat b -> load counts p = v.
Hypothesis run_starts : a = O \/ load counts (Z.of_nat a - 1) <> v.
Hypothesis run_ends : b = len \/ load counts (Z.of_nat b) <> v.
Hypothesis run_long : long_run v (Z.of_nat b - Z.of_nat a).

Lemma long_run_test :
  ((v =? 0) && (5 <=? Z.of_nat b - Z.of_nat a))
  || (negb (v =? 0) && (7 <=? Z.of_nat b - Z.of_nat a)) = true.
Proof.
  destruct run_long as [[-> H]|[Hv H]].
  - replace (5 <=? Z.of_nat b - Z.of_nat a) with true by blia. reflexivity.
  - replace (v =? 0) with false by blia.
    replace (7 <=? Z.of_nat b - Z.of_nat a) with true by blia. reflexivity.
Qed.

Lemma mark_step_run i st :
  (i < len + 1)%nat ->
  marking_invariant counts len a b i st ->
  marking_invariant counts len a b (S i) (mark_step (Z.of_nat len) counts (Z.of_nat i) st).
Proof.
  destruct st as [[symbol stride] good]. unfold marking_invariant, mark_step.
  intros Hi (Hlen & H0 & Hsym & Hstr & Hmk).
  (* at the end of the run, the run is marked *)
  assert (Hend : i = b ->
    forall p, Z.of_nat a <= p < Z.of_nat b ->
      load (if ((symbol =? 0) && (5 <=? stride)) || (negb (symbol =? 0) && (7 <=? stride))
            then fill_back good (Z.of_nat i) stride 1 else good) p = 1).
  { intros -> p Hp.
    rewrite (Hstr ltac:(lia)).
    rewrite (Hsym ltac:(lia)), (run_value (Z.of_nat b - 1)) by lia.
    rewrite long_run_test. rewrite load_fill_back by lia.
    replace (Z.of_nat b - (Z.of_nat b - Z.of_nat a) <=? p) with true by blia.
    replace (p <? Z.of_nat b) with true by blia. reflexivity. }
  assert (Hkeep : (b < i)%nat ->
    forall p, Z.of_nat a <= p < Z.of_nat b ->
      load (if ((symbol =? 0) && (5 <=? stride)) || (negb (symbol =? 0) && (7 <=? stride))
            then fill_back good (Z.of_nat i) stride 1 else good) p = 1).
  { intros Hb p Hp. specialize (Hmk Hb p Hp).
    destruct (_ || _); [now apply fill_back_keep | assumption]. }
  assert (Hlen' :
    length (if ((symbol =? 0) && (5 <=? stride)) || (negb (symbol =? 0) && (7 <=? stride))
            then fill_back good (Z.of_nat i) stride 1 else good) = len).
  { destruct (_ || _); [now rewrite length_fill_back | assumption]. }
  destruct (Z.eqb_spec (Z.of_nat i) (Z.of_nat len)) as [E|E]; cbn [orb negb].
  - (* the last turn *)
    split; [assumption|]. split; [lia|]. split; [lia|]. split; [lia|].
    intros Hb p Hp. destruct (Nat.eq_dec i b) as [Eb|Eb]; [now apply Hend|].
    apply Hkeep; [lia | assumption].
  - destruct (Z.eqb_spec (load counts (Z.of_nat i)) symbol) as [Es|Es]; cbn [negb].
    + (* the run of [symbol] goes on *)
      split; [assumption|]. split; [lia|]. split.
      { intros _. rewrite <- Es. f_equal. lia. }
      split.
      * intros Hab. destruct (Nat.eq_dec i a) as [Ea|Ea].
        -- subst i. destruct (Nat.eq_dec a 0) as [Ha|Ha].
           ++ destruct (H0 Ha) as [_ ->]. lia.
           ++ exfalso. destruct run_starts as [Hs|Hs]; [contradiction|].
              apply Hs. rewrite <- (Hsym ltac:(lia)).
              rewrite <- Es. apply run_value. lia.
        -- rewrite (Hstr ltac:(lia)). lia.
      * intros Hb p Hp. destruct (Nat.eq_dec i b) as [Eb|Eb]; [|apply Hmk; [lia | assumption]].
        exfalso. subst i. destruct run_ends as [Hl|Hl]; [lia|].
        apply Hl. rewrite Es, (Hsym ltac:(lia)). apply run_value. lia.
    + (* another run starts *)
      split; [assumption|]. split; [lia|]. split.
      { intros _. f_equal. lia. }
      split.
      * intros Hab. destruct (Nat.eq_dec i a) as [Ea|Ea]; [lia|].
        exfalso. apply Es. rewrite (Hsym ltac:(lia)).
        rewrite !run_value by lia. reflexivity.
      * intros Hb p Hp. destruct (Nat.eq_dec i b) as [Eb|Eb]; [now apply Hend|].
        apply Hkeep; [lia | assumption].
Qed.

Lemma mark_good_for_rle_run p :
  Z.of_nat a <= p < Z.of_nat b -> load (mark_good_for_rle len counts) p = 1.
Proof.
  intros Hp. unfold mark_good_for_rle.
  pose proof (fold_range_invariant
                (fun st i => mark_step (Z.of_nat len) counts i st)
                (marking_invariant counts len a b) (len + 1)
                ltac:(intros i s Hi Hinv; now apply mark_step_run)
                (load counts 0, 0, repeat 0 len)) as H.
  destruct (fold_left _ _ _) as [[symbol stride] good].
  unfold marking_invariant in H.
  destruct H as (_ & _ & _ & _ & Hmk).
  - split; [apply repeat_length|]. split; [auto|]. split; [lia|]. split; intros; lia.
  - apply Hmk; [lia | assumption].
Qed.

End Marking.

Lemma trim_length_last counts : forall length k,
  trim_length length counts = S k -> load counts (Z.of_nat k) <> 0.
Proof.
  induction length as [|n IH]; intros k H; simpl in H; [discriminate|].
  destruct (Z.eqb_spec (load counts (Z.of_nat n)) 0) as [E|E]; simpl in H.
  - now apply IH.
  - inversion H; subst. exact E.
Qed.

(** X11.  The smoother does not spoil the runs that already code well: a
    run of at least 7 equal non-zero counts, or of at least 5 zeros, that
    cannot be extended on either side is left as it is. *)
Theorem long_runs_kept (counts counts' : list Z) (a b : nat) (v : Z) :
  OptimizeHuffmanForRle (length counts) counts = Ok counts' ->
  maximal_run counts a b v ->
  long_run v (Z.of_nat b - Z.of_nat a) ->
  forall p, Z.of_nat a <= p < Z.of_nat b -> load counts' p = v.
Proof.
  intros Hrun (Hab & Hv & Hstart & Hend) Hlong p Hp.
  pose proof (OptimizeHuffmanForRle_protects counts counts' Hrun) as Hprot.
  cbv zeta in Hprot.
  pose proof (trim_length_le counts (length counts)) as Hle.
  rewrite <- (Hv p Hp).
  destruct (Nat.le_gt_cases b (trim_length (length counts) counts)) as [Hin|Hout].
  - apply Hprot; [lia|]. left.
    rewrite (mark_good_for_rle_run counts _ a b v); try assumption; lia.
  - apply Hprot; [lia|]. right.
    destruct (trim_length (length counts) counts) as [|k] eqn:El; [lia|].
    destruct (Z.le_gt_cases (Z.of_nat (S k)) p) as [Hge|Hlt]; [assumption|].
    exfalso.
    assert (Hzero : v = 0).
    { rewrite <- (Hv (Z.of_nat b - 1)) by lia.
      apply (trim_length_zeros counts (length counts)). rewrite El. lia. }
    apply (trim_length_last counts _ _ El).
    rewrite Hv by lia. exact Hzero.
Qed.

Lemma long_runs_kept_witness :
  load [1; 5; 5; 5; 5; 5; 5; 5; 3; 3; 3; 3; 3] 4 = 5.
Proof.
  refine (long_runs_kept [1; 5; 5; 5; 5; 5; 5; 5; 3; 4; 5; 4; 1]
            [1; 5; 5; 5; 5; 5; 5; 5; 3; 3; 3; 3; 3] 1 8 5 _ _ _ 4 _); [| | | simpl; lia].
  - vm_compute. reflexivity.
  - unfold maximal_run. split; [simpl; lia|]. split.
    + intros p Hp.
      assert (Hc : p = 1 \/ p = 2 \/ p = 3 \/ p = 4 \/ p = 5 \/ p = 6 \/ p = 7) by lia.
      repeat (destruct Hc as [-> | Hc]; [reflexivity|]). subst p. reflexivity.
    + split; right; vm_compute; discriminate.
  - right. split; [discriminate | vm_compute; discriminate].
Defined.

(* ------------------------------------------------------------------------- *)
(** ** More on [GenerateOptimalTree] *)

(** *** The order of the leaves *)

Lemma sorted_for_qsort_strict tree :
  NoDup (map value_ tree) -> sorted_for_qsort tree -> sorted_by_compare tree.
Proof.
  unfold sorted_for_qsort, sorted_by_compare.
  induction tree as [|t rest IH]; intros Hnd Hs; [constructor|].
  inversion Hnd as [|? ? Hnot Hnd']; subst. inversion Hs as [|? ? Hs' Hf]; subst.
  constructor; [now apply IH|].
  rewrite Forall_forall in *. intros x Hx. specialize (Hf x Hx).
  destruct (CompareHuffmanTrees_cases t x) as [H|[H|H]]; try lia.
  exfalso. apply Hnot. destruct H as (_ & _ & ->). now apply in_map.
Qed.

(** X12.  [CompareHuffmanTrees] orders the leaves of the working array
    totally, the symbol deciding between equal counts: whatever the
    algorithm of [qsort], the array it leaves, a rearrangement of the
    leaves in which no entry compares greater than a later one, is the
    same. *)
Theorem sorted_leaves_determined (histogram : list Z) (count_min : Z)
    (sorted : list HuffmanTree) :
  Permutation (init_leaves histogram 0 count_min) sorted ->
  sorted_for_qsort sorted ->
  sorted = qsort (init_leaves histogram 0 count_min).
Proof.
  intros Hp Hs.
  assert (Hnd : NoDup (map value_ (init_leaves histogram 0 count_min)))
    by (rewrite init_leaves_values; apply used_symbols_NoDup).
  apply qsort_unique; [assumption | assumption|].
  apply sorted_for_qsort_strict; [|assumption].
  apply (Permutation_NoDup (Permutation_map value_ Hp) Hnd).
Qed.

Lemma sorted_leaves_determined_witness :
  [mkTree 3 0 (-1) (-1); mkTree 3 3 (-1) (-1); mkTree 1 2 (-1) (-1)]
  = qsort (init_leaves [3; 0; 1; 3] 0 1).
Proof.
  apply (sorted_leaves_determined [3; 0; 1; 3] 1).
  - simpl. apply perm_skip. apply perm_swap.
  - unfold sorted_for_qsort.
    repeat (constructor; [| repeat constructor; vm_compute; discriminate]).
    constructor.
Defined.

(** *** The number of tries *)

(** X13.  For a histogram that is not empty, with counts at most
    [max_count] where [2 * max_count * max(1, number of used symbols)] is an
    [int], a depth limit that passes the assertion, and an array
    [bit_depths] whose entries for the unused symbols are within the limit,
    the retry loop of [GenerateOptimalTree] returns within
    [1 + log2_up max_count] tries, which is at most 31, with every depth
    within the limit. *)
Theorem GenerateOptimalTree_returns (histogram : list Z)
    (tree_depth_limit max_count : Z) (bit_depths : list Z) (fuel : nat) :
  histogram <> [] ->
  1 <= max_count ->
  Forall (fun h => h <= max_count) histogram ->
  2 * max_count * Z.max 1 (count_used histogram) <= INT_MAX ->
  feasible_depth_limit histogram tree_depth_limit ->
  length bit_depths = length histogram ->
  unused_within_limit histogram tree_depth_limit bit_depths ->
  (Z.to_nat (Z.log2_up max_count) < fuel)%nat ->
  Z.log2_up max_count <= 30
  /\ exists bit_depths',
       GenerateOptimalTree fuel histogram tree_depth_limit bit_depths = Ok bit_depths'
       /\ length bit_depths' = length histogram
       /\ Forall (fun d => d <= tree_depth_limit) bit_depths'.
Proof.
  intros Hne Hmax Hb Hov Hfeas Hlen Hunused Hfuel. split.
  - apply Z.log2_up_le_pow2; [lia|]. unfold INT_MAX in Hov.
    change (2 ^ 30) with 1073741824. lia.
  - destruct (GenerateOptimalTree_terminates_in histogram tree_depth_limit max_count
                Hne Hmax Hb Hov Hfeas bit_depths Hlen Hunused) as [bd' Hrun].
    apply (GenerateOptimalTree_fuel_mono _ fuel) in Hrun; [|lia].
    exists bd'. split; [assumption|].
    destruct (GenerateOptimalTree_spec _ _ _ _ _ Hrun) as (H1 & H2 & _). auto.
Qed.

Lemma GenerateOptimalTree_returns_witness :
  Z.log2_up 13 <= 30
  /\ exists bit_depths',
       GenerateOptimalTree 5 [1; 1; 0; 2; 3; 5; 8; 13] 4 [0; 0; 0; 0; 0; 0; 0; 0]
         = Ok bit_depths'
       /\ length bit_depths' = length [1; 1; 0; 2; 3; 5; 8; 13]
       /\ Forall (fun d => d <= 4) bit_depths'.
Proof.
  apply (GenerateOptimalTree_returns [1; 1; 0; 2; 3; 5; 8; 13] 4 13).
  - discriminate.
  - lia.
  - repeat constructor; lia.
  - vm_compute. discriminate.
  - unfold feasible_depth_limit. split; [lia | vm_compute; discriminate].
  - reflexivity.
  - intros i Hi _. apply (load_Forall (fun d => d <= 4)); [|lia].
    repeat constructor; lia.
  - vm_compute. lia.
Defined.

(** *** The entries of the unused symbols *)

(** X14.  [GenerateOptimalTree] writes no depth for a symbol whose count is
    zero: the entry of [bit_depths] is on return what it was on entry.  It
    still takes part in the test of the depth limit, so that the call only
    returns when that entry is within the limit. *)
Theorem unused_entries_untouched (fuel : nat) (histogram : list Z)
    (tree_depth_limit : Z) (bit_depths bit_depths' : list Z) (i : Z) :
  GenerateOptimalTree fuel histogram tree_depth_limit bit_depths = Ok bit_depths' ->
  0 <= i < Z.of_nat (length histogram) ->
  load histogram i = 0 ->
  load bit_depths' i = load bit_depths i /\ load bit_depths i <= tree_depth_limit.
Proof.
  intros Hrun Hi Hz.
  destruct (GenerateOptimalTree_spec _ _ _ _ _ Hrun) as (Hlen & Hmax & Hframe & _).
  assert (Hnot : ~ In i (used_symbols histogram 0)).
  { rewrite used_symbols_spec, Z.sub_0_r. tauto. }
  rewrite <- (Hframe i ltac:(lia) Hnot). split; [reflexivity|].
  unfold load. rewrite Forall_forall in Hmax. apply Hmax. apply nth_In. lia.
Qed.

Lemma unused_entries_untouched_witness :
  load [2; 3; 1; 2] 1 = load [0; 3; 0; 0] 1 /\ load [0; 3; 0; 0] 1 <= 4.
Proof.
  apply (unused_entries_untouched 1 [2; 0; 5; 3] 4 [0; 3; 0; 0] [2; 3; 1; 2] 1).
  - vm_compute. reflexivity.
  - simpl. lia.
  - reflexivity.
Defined.

(** *** The walk of [SetBitDepths] *)

(** X18.  Started at [level] on a node whose pool indices spell the tree
    [t], with leaves of distinct symbols inside the array, [SetBitDepths]
    returns (the recursion is as deep as the tree is high), writes for every
    leaf its level, as a [uint8_t], at the entry of its symbol, and leaves
    every other entry as it was. *)
Theorem SetBitDepths_writes_levels (pool : list HuffmanTree) (node : HuffmanTree)
    (t : htree) (fuel : nat) (bit_depths : list Z) (level : Z) :
  represents pool node t ->
  (height t < fuel)%nat ->
  NoDup (leaf_values t) ->
  (forall v, In v (leaf_values t) -> 0 <= v < Z.of_nat (length bit_depths)) ->
  exists bit_depths',
    SetBitDepths fuel node pool bit_depths level = Ok bit_depths'
    /\ length bit_depths' = length bit_depths
    /\ (forall v d, In (v, d) (leaf_depths t level) -> load bit_depths' v = u8 d)
    /\ (forall v, 0 <= v -> ~ In v (leaf_values t) ->
          load bit_depths' v = load bit_depths v).
Proof.
  intros Hrep Hfuel Hnd Hrange.
  exists (write_depths t level bit_depths).
  split; [now apply SetBitDepths_represents|].
  split; [apply length_write_depths|]. split.
  - intros v d Hvd. now apply load_write_depths.
  - intros v Hv Hnot. now apply load_write_depths_other.
Qed.

Lemma SetBitDepths_writes_levels_witness :
  exists bit_depths',
    SetBitDepths 3 (mkTree 6 (-1) 3 2)
      [mkTree 1 4 (-1) (-1); mkTree 2 0 (-1) (-1); mkTree 3 2 (-1) (-1); mkTree 3 (-1) 1 0]
      [0; 9; 0; 0; 0] 0 = Ok bit_depths'
    /\ length bit_depths' = length [0; 9; 0; 0; 0]
    /\ (forall v d,
          In (v, d) (leaf_depths (Node 6 (Node 3 (Leaf 2 0) (Leaf 1 4)) (Leaf 3 2)) 0) ->
          load bit_depths' v = u8 d)
    /\ (forall v, 0 <= v ->
          ~ In v (leaf_values (Node 6 (Node 3 (Leaf 2 0) (Leaf 1 4)) (Leaf 3 2))) ->
          load bit_depths' v = load [0; 9; 0; 0; 0] v).
Proof.
  apply (SetBitDepths_writes_levels
           [mkTree 1 4 (-1) (-1); mkTree 2 0 (-1) (-1); mkTree 3 2 (-1) (-1); mkTree 3 (-1) 1 0]
           (mkTree 6 (-1) 3 2) (Node 6 (Node 3 (Leaf 2 0) (Leaf 1 4)) (Leaf 3 2)) 3).
  - apply (represents_node _ (mkTree 6 (-1) 3 2) (mkTree 3 (-1) 1 0) (mkTree 3 2 (-1) (-1)));
      [simpl; lia | reflexivity | reflexivity | |].
    + apply (represents_node _ (mkTree 3 (-1) 1 0) (mkTree 2 0 (-1) (-1)) (mkTree 1 4 (-1) (-1)));
        [simpl; lia | reflexivity | reflexivity | |].
      * apply (represents_leaf _ (mkTree 2 0 (-1) (-1))). simpl. lia.
      * apply (represents_leaf _ (mkTree 1 4 (-1) (-1))). simpl. lia.
    + apply (represents_leaf _ (mkTree 3 2 (-1) (-1))). simpl. lia.
  - simpl. lia.
  - simpl. repeat constructor; simpl; intuition lia.
  - simpl. intros v [<-|[<-|[<-|[]]]]; lia.
Defined.

(** *** The depths of a try *)

(** X20.  In every try of the retry loop, also in one that the depth test
    rejects, the depth written for a used symbol is between 1 and 44: the
    counts merged are [int]s, a tree of height [h] weighs at least the
    Fibonacci number of rank [h], and so no tree is higher than 44 and no
    level stored into the [uint8_t] array wraps. *)
Theorem try_depths_bounded (histogram : list Z) (count_min : Z)
    (bit_depths bit_depths' : list Z) (i : Z) :
  1 <= count_min ->
  length bit_depths = length histogram ->
  assign_depths histogram count_min bit_depths = Ok bit_depths' ->
  0 <= i < Z.of_nat (length histogram) ->
  load histogram i <> 0 ->
  1 <= load bit_depths' i <= 44.
Proof.
  intros Hmin Hlen Hrun Hi Hnz.
  assert (Hin : In i (used_symbols histogram 0)).
  { rewrite used_symbols_spec, Z.sub_0_r. split; [lia | assumption]. }
  pose proof (assign_depths_spec _ _ _ _ Hmin Hlen Hrun) as Hspec.
  pose proof (used_symbols_range histogram 0) as Hrange.
  pose proof (used_symbols_NoDup histogram 0) as Hnd.
  destruct (used_symbols histogram 0) as [|a [|b l]] eqn:Eu; [contradiction | |].
  - destruct Hin as [<-|[]]. subst bit_depths'.
    rewrite load_store_same by lia. lia.
  - destruct Hspec as (t & Hperm & Hh & -> & _).
    apply (Permutation_in _ Hperm) in Hin.
    rewrite <- (leaf_depths_values t 0) in Hin. apply in_map_iff in Hin.
    destruct Hin as ([v d] & Hv & Hvd). simpl in Hv. subst v.
    pose proof (leaf_depths_bound t 0 i d Hvd) as Hd.
    rewrite (load_write_depths t 0 bit_depths i d); [| | | assumption].
    + unfold u8. rewrite Z.mod_small; destruct (Nat.eqb_spec (height t) 0); lia.
    + apply (Permutation_NoDup Hperm Hnd).
    + intros w Hw. apply (Permutation_in _ (Permutation_sym Hperm)) in Hw.
      apply Hrange in Hw. lia.
Qed.

Lemma try_depths_bounded_witness :
  1 <= load [6; 6; 0; 5; 4; 3; 2; 1] 0 <= 44.
Proof.
  apply (try_depths_bounded [1; 1; 0; 2; 3; 5; 8; 13] 1 [0; 0; 0; 0; 0; 0; 0; 0]
           [6; 6; 0; 5; 4; 3; 2; 1] 0).
  - lia.
  - reflexivity.
  - vm_compute. reflexivity.
  - simpl. lia.
  - vm_compute. discriminate.
Defined.

(* ------------------------------------------------------------------------- *)
(** ** The entry point as a whole *)

(** *** The depths of [GenerateOptimalTree] as code lengths *)

Lemma Forall2_load (R : Z -> Z -> Prop) a : forall b,
  length a = length b ->
  (forall i, 0 <= i < Z.of_nat (length a) -> R (load a i) (load b i)) ->
  Forall2 R a b.
Proof.
  induction a as [|x a IH]; intros [|y b] Hlen H; try discriminate; constructor.
  - apply (H 0). simpl. lia.
  - apply IH; [simpl in Hlen; lia|]. intros i Hi.
    specialize (H (i + 1) ltac:(simpl; lia)). unfold load in *.
    replace (Z.to_nat (i + 1)) with (S (Z.to_nat i)) in H by lia. exact H.
Qed.

Lemma GenerateOptimalTree_code_lengths fuel histogram tree_depth_limit bit_depths bit_depths' :
  tree_depth_limit <= MAX_ALLOWED_CODE_LENGTH ->
  Forall (fun d => d = 0) bit_depths ->
  GenerateOptimalTree fuel histogram tree_depth_limit bit_depths = Ok bit_depths' ->
  length bit_depths' = length histogram
  /\ valid_code_lengths bit_depths'
  /\ Forall2 (fun c d => (c = 0 -> d = 0) /\ (c <> 0 -> 1 <= d <= MAX_ALLOWED_CODE_LENGTH))
       histogram bit_depths'.
Proof.
  intros Hlimit Hzero Hrun.
  destruct (GenerateOptimalTree_spec _ _ _ _ _ Hrun) as (Hlen & Hmax & Hframe & _).
  pose proof (GenerateOptimalTree_used _ _ _ _ _ Hrun) as Hused.
  assert (Hentry : forall i, 0 <= i < Z.of_nat (length histogram) ->
            (load histogram i = 0 -> load bit_depths' i = 0)
            /\ (load histogram i <> 0 -> 1 <= load bit_depths' i <= MAX_ALLOWED_CODE_LENGTH)).
  { intros i Hi. pose proof (used_symbols_spec histogram 0 i) as Hspec.
    rewrite Z.sub_0_r in Hspec. split.
    - intros Hz. rewrite Hframe; [| lia | rewrite Hspec; tauto].
      now apply (load_Forall (fun d => d = 0)).
    - intros Hnz. specialize (Hused i ltac:(rewrite Hspec; split; [lia | assumption])).
      assert (load bit_depths' i <= tree_depth_limit).
      { unfold load. rewrite Forall_forall in Hmax. apply Hmax. apply nth_In. lia. }
      lia. }
  split; [assumption|]. split.
  - apply Forall_load. intros i Hi. rewrite Hlen in Hi.
    destruct (Hentry i Hi) as [H0 H1]. unfold MAX_ALLOWED_CODE_LENGTH in *.
    destruct (Z.eq_dec (load histogram i) 0) as [E|E]; [rewrite (H0 E) | specialize (H1 E)]; lia.
  - apply Forall2_load; [lia | exact Hentry].
Qed.

(** *** From the Kraft sum to the Kraft weight *)

Lemma half_power_scaled d :
  1 <= d <= MAX_ALLOWED_CODE_LENGTH ->
  (inject_Z (2 ^ (MAX_ALLOWED_CODE_LENGTH - d))
   == inject_Z (2 ^ MAX_ALLOWED_CODE_LENGTH) * (1 # 2) ^ d)%Q.
Proof.
  unfold MAX_ALLOWED_CODE_LENGTH. intros H.
  assert (Hc : d = 1 \/ d = 2 \/ d = 3 \/ d = 4 \/ d = 5 \/ d = 6 \/ d = 7 \/ d = 8 \/
               d = 9 \/ d = 10 \/ d = 11 \/ d = 12 \/ d = 13 \/ d = 14 \/ d = 15) by lia.
  repeat (destruct Hc as [-> | Hc]; [vm_compute; reflexivity|]).
  subst d. vm_compute. reflexivity.
Qed.

Lemma kraft_weight_sum histogram : forall bit_depths,
  Forall2 (fun c d => (c = 0 -> d = 0) /\ (c <> 0 -> 1 <= d <= MAX_ALLOWED_CODE_LENGTH))
    histogram bit_depths ->
  (inject_Z (kraft_weight bit_depths)
   == inject_Z (2 ^ MAX_ALLOWED_CODE_LENGTH) * kraft_sum histogram bit_depths)%Q.
Proof.
  induction histogram as [|c rest IH]; intros bd H; inversion H as [|? d ? bd' [H0 H1] Hrest];
    subst; cbn [kraft_weight kraft_sum].
  - ring.
  - rewrite inject_Z_plus, (IH bd' Hrest).
    destruct (Z.eqb_spec c 0) as [E|E]; cbn [negb].
    + rewrite (H0 E). rewrite Z.eqb_refl. change (inject_Z 0) with 0%Q. ring.
    + specialize (H1 E). replace (d =? 0) with false by blia.
      rewrite (half_power_scaled d H1). ring.
Qed.

Lemma kraft_weight_bound histogram bit_depths :
  Forall2 (fun c d => (c = 0 -> d = 0) /\ (c <> 0 -> 1 <= d <= MAX_ALLOWED_CODE_LENGTH))
    histogram bit_depths ->
  (kraft_sum histogram bit_depths <= 1)%Q ->
  kraft_weight bit_depths <= 2 ^ MAX_ALLOWED_CODE_LENGTH.
Proof.
  intros H Hk. rewrite Zle_Qle. rewrite (kraft_weight_sum histogram bit_depths H).
  rewrite <- (Qmult_1_r (inject_Z (2 ^ MAX_ALLOWED_CODE_LENGTH))) at 2.
  apply Qmult_le_l; [reflexivity | assumption].
Qed.

(** X15.  With a depth limit of at most 15 and code lengths that are zero
    on entry, the table that [VP8LCreateHuffmanTree] returns is a prefix
    code, first bit lowest: of two distinct symbols with code lengths
    [0 < li <= lj], the code of the second cut to its [li] low bits is not
    the code of the first. *)
Theorem created_codes_prefix_free (fuel : nat) (histogram : list Z)
    (tree_depth_limit : Z) (tree : HuffmanTreeCode)
    (histogram' : list Z) (tree' : HuffmanTreeCode)
    (i j : nat) (li lj ci cj : Z) :
  tree_depth_limit <= MAX_ALLOWED_CODE_LENGTH ->
  Forall (fun d => d = 0) (code_lengths tree) ->
  num_symbols tree <= INT_MAX ->
  VP8LCreateHuffmanTree fuel histogram tree_depth_limit tree = Ok (histogram', tree') ->
  nth_error (code_lengths tree') i = Some li ->
  nth_error (code_lengths tree') j = Some lj ->
  nth_error (codes tree') i = Some ci ->
  nth_error (codes tree') j = Some cj ->
  i <> j -> 0 < li <= lj ->
  cj mod 2 ^ li <> ci.
Proof.
  intros Hlimit Hzero Hn Hrun Hi Hj Hci Hcj Hij Hl.
  unfold VP8LCreateHuffmanTree in Hrun.
  destruct (Nat.eqb_spec (length histogram) (length (code_lengths tree))) as [Hlen|];
    [|discriminate].
  apply bind_Ok_inv in Hrun. destruct Hrun as (hist1 & Hrle & Hrun).
  apply bind_Ok_inv in Hrun. destruct Hrun as (bd & Hgen & Hrun).
  apply bind_Ok_inv in Hrun. destruct Hrun as (tree1 & Hconv & Hrun).
  inversion Hrun; subst histogram' tree1; clear Hrun.
  destruct (GenerateOptimalTree_code_lengths _ _ _ _ _ Hlimit Hzero Hgen)
    as (Hlenbd & Hvalid & Hrel).
  destruct (GenerateOptimalTree_kraft _ _ _ _ _ Hgen) as [_ Hkraft].
  pose proof (kraft_weight_bound hist1 bd Hrel Hkraft) as Hweight.
  pose proof (ConvertBitDepthsToSymbols_lengths _ _ Hconv) as Hsame.
  cbn [code_lengths] in Hsame. rewrite Hsame in Hi, Hj.
  apply (ConvertBitDepthsToSymbols_prefix (mkCode bd (codes tree)) tree' i j li lj ci cj);
    try assumption.
  unfold num_symbols in *. cbn [code_lengths].
  apply GenerateOptimalTree_inv in Hgen. destruct Hgen as (Hlen0 & _).
  unfold INT_MAX in Hn. change (2 ^ 32) with 4294967296. lia.
Qed.

Lemma created_codes_prefix_free_witness : 7 mod 2 ^ 2 <> 0.
Proof.
  apply (created_codes_prefix_free 1 [1; 0; 0; 0; 1] 15
           (mkCode [0; 0; 0; 0; 0] [0; 0; 0; 0; 0])
           [1; 1; 1; 1; 1] (mkCode [2; 2; 2; 3; 3] [0; 2; 1; 3; 7])
           0 4 2 3 0 7).
  - unfold MAX_ALLOWED_CODE_LENGTH. lia.
  - repeat constructor.
  - vm_compute. discriminate.
  - vm_compute. reflexivity.
  - reflexivity.
  - reflexivity.
  - reflexivity.
  - reflexivity.
  - discriminate.
  - lia.
Defined.

(** *** The entry point returns *)

Lemma count_used_le_length histogram :
  0 <= count_used histogram <= Z.of_nat (length histogram).
Proof.
  induction histogram as [|h rest IH]; cbn [count_used length]; [lia|].
  destruct (negb (h =? 0)); lia.
Qed.

Lemma total_count_le counts max_count :
  Forall (fun c => 0 <= c <= max_count) counts -> 0 <= max_count ->
  total_count counts <= Z.of_nat (length counts) * max_count.
Proof.
  intros Hb Hmax. unfold total_count. apply sum_range_le_mul.
  intros p Hp. apply (load_Forall (fun c => c <= max_count)); [|assumption].
  revert Hb. apply Forall_impl. intros; lia.
Qed.

(** X16.  [VP8LCreateHuffmanTree] returns for every histogram that is not
    empty, with counts between 0 and [max_count] where
    [2 * max_count * num_symbols] is an [int], a depth limit between 1 and 15
    with [num_symbols <= 2 ^ (limit - 1)], and code lengths cleared on
    entry: no assertion fails, no [int] overflows, and the retry loop ends
    within 31 tries.  The table returned has [num_symbols] code lengths, all
    between 0 and the limit, and as many codes. *)
Theorem VP8LCreateHuffmanTree_returns (fuel : nat) (histogram : list Z)
    (tree_depth_limit max_count : Z) (tree : HuffmanTreeCode) :
  histogram <> [] ->
  1 <= max_count ->
  Forall (fun c => 0 <= c <= max_count) histogram ->
  2 * max_count * Z.of_nat (length histogram) <= INT_MAX ->
  1 <= tree_depth_limit <= MAX_ALLOWED_CODE_LENGTH ->
  Z.of_nat (length histogram) <= 2 ^ (tree_depth_limit - 1) ->
  code_lengths tree = repeat 0 (length histogram) ->
  (31 <= fuel)%nat ->
  exists histogram' tree',
    VP8LCreateHuffmanTree fuel histogram tree_depth_limit tree = Ok (histogram', tree')
    /\ length histogram' = length histogram
    /\ length (code_lengths tree') = length histogram
    /\ length (codes tree') = length histogram
    /\ Forall (fun d => 0 <= d <= tree_depth_limit) (code_lengths tree').
Proof.
  intros Hne Hmax Hb Hov Hlimit Hsize Hzero Hfuel.
  assert (Hlen1 : (1 <= length histogram)%nat)
    by (destruct histogram; [congruence | simpl; lia]).
  unfold VP8LCreateHuffmanTree. rewrite Hzero, repeat_length, Nat.eqb_refl.
  (* the smoother *)
  destruct (OptimizeHuffmanForRle_total histogram max_count Hb)
    as (hist1 & Hrle & Hlenh & Hb1 & _).
  { pose proof (total_count_le histogram max_count Hb ltac:(lia)). nia. }
  rewrite Hrle. cbn [bind].
  (* the tree *)
  pose proof (count_used_le_length hist1) as Hused. rewrite Hlenh in Hused.
  assert (Hzeros : Forall (fun d => d = 0) (repeat 0 (length histogram)))
    by (apply Forall_forall; intros x Hx; now apply repeat_spec in Hx).
  destruct (GenerateOptimalTree_terminates_in hist1 tree_depth_limit max_count)
    with (bit_depths := repeat 0 (length histogram)) as [bd Hgen].
  - intros ->. simpl in Hlenh. lia.
  - assumption.
  - revert Hb1. apply Forall_impl. intros; lia.
  - nia.
  - unfold feasible_depth_limit, MAX_ALLOWED_CODE_LENGTH in *. split; lia.
  - now rewrite repeat_length.
  - intros i Hi _.
    rewrite (load_Forall (fun d => d = 0) _ i Hzeros eq_refl). lia.
  - apply (GenerateOptimalTree_fuel_mono _ fuel) in Hgen.
    2:{ assert (Z.log2_up max_count <= 30).
        { apply Z.log2_up_le_pow2; [lia|]. unfold INT_MAX in Hov.
          change (2 ^ 30) with 1073741824. nia. }
        lia. }
    rewrite Hgen. cbn [bind].
    destruct (GenerateOptimalTree_code_lengths _ _ _ _ _ (proj2 Hlimit) Hzeros Hgen)
      as (Hlenbd & Hvalid & _).
    destruct (GenerateOptimalTree_spec _ _ _ _ _ Hgen) as (_ & Hdepth & _).
    (* the codes *)
    unfold ConvertBitDepthsToSymbols, first_codes. cbn [code_lengths].
    destruct (count_depths_spec bd (repeat 0 (Z.to_nat (MAX_ALLOWED_CODE_LENGTH + 1)))
                ltac:(reflexivity) Hvalid) as (dc & Hdc & _).
    rewrite Hdc. cbn [bind].
    eexists. eexists. split; [reflexivity|]. cbn [code_lengths codes].
    rewrite assign_codes_length.
    split; [assumption|]. split; [lia|]. split; [lia|].
    unfold valid_code_lengths in Hvalid.
    rewrite Forall_forall in *. intros d Hd.
    specialize (Hvalid d Hd). specialize (Hdepth d Hd). lia.
Qed.

Lemma VP8LCreateHuffmanTree_returns_witness :
  exists histogram' tree',
    VP8LCreateHuffmanTree 31 [1; 1; 0; 2; 3; 5; 8; 13] 4
      (mkCode [0; 0; 0; 0; 0; 0; 0; 0] [0; 0; 0; 0; 0; 0; 0; 0])
    = Ok (histogram', tree')
    /\ length histogram' = length [1; 1; 0; 2; 3; 5; 8; 13]
    /\ length (code_lengths tree') = length [1; 1; 0; 2; 3; 5; 8; 13]
    /\ length (codes tree') = length [1; 1; 0; 2; 3; 5; 8; 13]
    /\ Forall (fun d => 0 <= d <= 4) (code_lengths tree').
Proof.
  apply (VP8LCreateHuffmanTree_returns 31 [1; 1; 0; 2; 3; 5; 8; 13] 4 13).
  - discriminate.
  - lia.
  - repeat constructor; lia.
  - vm_compute. discriminate.
  - unfold MAX_ALLOWED_CODE_LENGTH. lia.
  - vm_compute. discriminate.
  - reflexivity.
  - lia.
Defined.

(* ------------------------------------------------------------------------- *)
(** ** Heavier symbols are not deeper *)

(** *** The depths along the working array *)

Lemma occurs_at_children t c l r d :
  occurs_at t (Node c l r) d -> occurs_at t l (S d) /\ occurs_at t r (S d).
Proof.
  remember (Node c l r) as e eqn:He. induction 1 as [t | c' l' r' e d _ IH | c' l' r' e d _ IH].
  - subst t. split; [apply occurs_left | apply occurs_right]; constructor.
  - destruct (IH He). split; apply occurs_left; assumption.
  - destruct (IH He). split; apply occurs_right; assumption.
Qed.

Lemma node_count_bound e y x :
  is_node e -> well_formed e -> child_max e <= cnt y -> child_max e <= cnt x ->
  cnt e <= cnt y + cnt x.
Proof.
  destruct e as [c v | c l r]; simpl; [contradiction|].
  intros _ (-> & _ & _) Hy Hx. lia.
Qed.

Lemma merges_to_ordered forest t :
  merges_to forest t -> forest_ok forest ->
  exists G,
    map fst G = forest
    /\ Forall (fun p => occurs_at t (fst p) (snd p)) G
    /\ StronglySorted depth_ordered G.
Proof.
  induction 1 as [t | rest y x t _ IH]; intros Hok.
  - exists [(t, O)]. split; [reflexivity|]. split.
    + constructor; [constructor | constructor].
    + repeat constructor.
  - destruct (IH (merge_forest_ok rest y x Hok)) as (G' & Hmap & Hocc & Hsort).
    unfold merge_forest in Hmap.
    set (count := cnt y + cnt x) in *.
    set (k := forest_insertion_point rest count) in *.
    apply map_eq_app in Hmap. destruct Hmap as (G1 & G2 & -> & Hmap1 & Hmap2).
    apply map_eq_cons in Hmap2. destruct Hmap2 as ([n dn] & G2' & -> & Hn & Hmap2).
    simpl in Hn. subst n.
    pose proof (forest_insertion_point_firstn rest count) as Hbefore. fold k in Hbefore.
    destruct Hok as (Hdesc & Hwf & _ & Hcm).
    rewrite Forall_app in Hocc. destruct Hocc as [Hocc1 Hocc2].
    inversion Hocc2 as [|? ? Hnode Hocc2']; subst. simpl in Hnode.
    destruct (occurs_at_children _ _ _ _ _ Hnode) as [Hy Hx].
    apply StronglySorted_app in Hsort. destruct Hsort as (Hs1 & Hs2 & Hcross).
    inversion Hs2 as [|? ? Hs2' Hhead]; subst.
    exists (G1 ++ G2' ++ [(y, S dn); (x, S dn)]).
    split; [|split].
    + rewrite !map_app, Hmap1, Hmap2. simpl. rewrite app_assoc, firstn_skipn. reflexivity.
    + rewrite !Forall_app. split; [assumption|]. split; [assumption|].
      repeat constructor; assumption.
    + assert (Hiny : In y (rest ++ [y; x])) by (apply in_or_app; simpl; auto).
      assert (Hinx : In x (rest ++ [y; x])) by (apply in_or_app; simpl; auto).
      assert (Htail : forall b, In b [(y, S dn); (x, S dn)] -> snd b = S dn).
      { intros b [<-|[<-|[]]]; reflexivity. }
      apply StronglySorted_app. split; [assumption|]. split.
      * apply StronglySorted_app. split; [assumption|]. split.
        -- repeat constructor; simpl; lia.
        -- intros a b Ha Hb. rewrite (surjective_pairing b), (Htail b Hb).
           rewrite Forall_forall in Hhead. destruct (Hhead a Ha) as [H1 H2].
           simpl in H1, H2. specialize (H2 I). split; simpl; intros; lia.
      * intros a b Ha Hb. apply in_app_or in Hb. destruct Hb as [Hb|Hb].
        -- apply Hcross; [assumption | now right].
        -- destruct (Hcross a (Node count y x, dn) Ha ltac:(now left)) as [H1 _].
           simpl in H1. rewrite (surjective_pairing b), (Htail b Hb).
           split; simpl; [lia|]. intros Hnode_a. exfalso.
           assert (Hina : In (fst a) (firstn k rest))
             by (rewrite <- Hmap1; now apply in_map).
           rewrite Forall_forall in Hbefore. specialize (Hbefore _ Hina).
           assert (Hinr : In (fst a) (rest ++ [y; x])).
           { apply in_or_app. left. rewrite <- (firstn_skipn k rest).
             apply in_or_app. now left. }
           rewrite Forall_forall in Hwf.
           pose proof (node_count_bound (fst a) y x Hnode_a (Hwf _ Hinr)
                         (Hcm _ _ Hinr Hiny) (Hcm _ _ Hinr Hinx)).
           unfold count in Hbefore. lia.
Qed.

Lemma StronglySorted_nth_error {A : Type} (R : A -> A -> Prop) l :
  StronglySorted R l ->
  forall i j a b, (i < j)%nat ->
    nth_error l i = Some a -> nth_error l j = Some b -> R a b.
Proof.
  induction 1 as [|h l _ IH Hf]; intros i j a b Hij Hi Hj.
  - destruct i; discriminate.
  - destruct j as [|j]; [lia|]. simpl in Hj. destruct i as [|i]; simpl in Hi.
    + inversion Hi; subst. rewrite Forall_forall in Hf. apply Hf.
      eapply nth_error_In; eassumption.
    + apply (IH i j); [lia | assumption | assumption].
Qed.

Lemma occurs_leaf_depth t c v d :
  occurs_at t (Leaf c v) d ->
  forall level, In (v, level + Z.of_nat d) (leaf_depths t level).
Proof.
  remember (Leaf c v) as e eqn:He.
  induction 1 as [t | c' l' r' e d _ IH | c' l' r' e d _ IH]; intros level.
  - subst t. simpl. left. f_equal. lia.
  - simpl. apply in_or_app. left.
    replace (level + Z.of_nat (S d)) with (level + 1 + Z.of_nat d) by lia. now apply IH.
  - simpl. apply in_or_app. right.
    replace (level + Z.of_nat (S d)) with (level + 1 + Z.of_nat d) by lia. now apply IH.
Qed.

Lemma init_leaves_In histogram count_min : forall j i,
  In i (used_symbols histogram j) ->
  In (mkTree (raised_count count_min (load histogram (i - j))) i (-1) (-1))
     (init_leaves histogram j count_min).
Proof.
  induction histogram as [|h rest IH]; intros j i Hin; simpl in *; [contradiction|].
  assert (Hstep : j < i -> load (h :: rest) (i - j) = load rest (i - (j + 1))).
  { intros Hlt. unfold load.
    replace (Z.to_nat (i - j)) with (S (Z.to_nat (i - (j + 1)))) by lia. reflexivity. }
  destruct (negb (h =? 0)); simpl in *.
  - destruct Hin as [<-|Hin].
    + left. rewrite Z.sub_diag. reflexivity.
    + right. pose proof (used_symbols_range rest (j + 1) i Hin).
      rewrite Hstep by lia. now apply IH.
  - pose proof (used_symbols_range rest (j + 1) i Hin).
    rewrite Hstep by lia. now apply IH.
Qed.

(** In one try, a leaf that [CompareHuffmanTrees] puts first is not
    deeper. *)
Lemma assign_depths_ordered histogram count_min bit_depths bit_depths' :
  1 <= count_min ->
  length bit_depths = length histogram ->
  assign_depths histogram count_min bit_depths = Ok bit_depths' ->
  forall i j,
    In i (used_symbols histogram 0) -> In j (used_symbols histogram 0) ->
    CompareHuffmanTrees
      (mkTree (raised_count count_min (load histogram i)) i (-1) (-1))
      (mkTree (raised_count count_min (load histogram j)) j (-1) (-1)) < 0 ->
    load bit_depths' i <= load bit_depths' j.
Proof.
  intros Hmin Hlen Hrun i j Hi Hj Hcmp. unfold assign_depths in Hrun.
  destruct (sorted_leaves_spec histogram count_min Hmin)
    as (Hrep & Hok & Hh & Hperm & Hsize & _).
  pose proof (init_leaves_In histogram count_min 0 i Hi) as Hini.
  pose proof (init_leaves_In histogram count_min 0 j Hj) as Hinj.
  rewrite Z.sub_0_r in Hini, Hinj.
  remember (mkTree (raised_count count_min (load histogram i)) i (-1) (-1)) as ni eqn:Eni.
  remember (mkTree (raised_count count_min (load histogram j)) j (-1) (-1)) as nj eqn:Enj.
  assert (Hsorted : sorted_by_compare (qsort (init_leaves histogram 0 count_min))).
  { apply qsort_sorted. rewrite init_leaves_values. apply used_symbols_NoDup. }
  apply (Permutation_in _ (qsort_perm _)) in Hini, Hinj.
  set (tree := qsort (init_leaves histogram 0 count_min)) in *.
  destruct (Nat.ltb_spec 1 (length tree)) as [Hgt|Hle].
  2:{ (* at most one leaf: [i] and [j] are the same symbol *)
      exfalso. clearbody tree.
      destruct tree as [|node [|node' others]]; simpl in Hle; try lia.
      - contradiction.
      - destruct Hini as [Ei|[]]. destruct Hinj as [Ej|[]].
        rewrite <- Ei, <- Ej in Hcmp.
        exact (CompareHuffmanTrees_asym node node Hcmp Hcmp). }
  apply bind_Ok_inv in Hrun. destruct Hrun as ([tree' pool'] & Hloop & Hrun).
  cbn [fst snd] in Hrun.
  destruct (merge_loop_spec
              (fun f => forall t, merges_to f t -> merges_to (map leaf_of tree) t)
              ltac:(intros rest y x _ Hf t Ht; apply Hf; now constructor)
              _ _ _ _ _ _ Hrep Hok (fun t Ht => Ht) Hh ltac:(lia) Hloop)
    as (root & t & -> & Hr & Hokt & Hmerge & Hp & Hht & Hc).
  specialize (Hmerge t (merges_done t)).
  assert (Hpt : Permutation (used_symbols histogram 0) (leaf_values t))
    by (eapply Permutation_trans; eassumption).
  pose proof (used_symbols_range histogram 0) as Hrange.
  pose proof (used_symbols_NoDup histogram 0) as Hnd.
  rewrite (SetBitDepths_represents _ _ _ Hr) in Hrun; [| lia |].
  2:{ intros v Hv. apply (Permutation_in _ (Permutation_sym Hpt)) in Hv.
      apply Hrange in Hv. lia. }
  inversion Hrun; subst bit_depths'; clear Hrun.
  destruct Hokt as (_ & _ & Hfb & _). apply Forall_inv in Hfb.
  pose proof (height_bound t Hfb Hc) as H44.
  (* the places of the two leaves in the array *)
  destruct (In_nth_error _ _ Hini) as [p Hp1].
  destruct (In_nth_error _ _ Hinj) as [q Hq1].
  assert (Hpq : (p < q)%nat).
  { destruct (Nat.lt_total p q) as [Hlt|[Heq|Hgt']]; [assumption | |].
    - exfalso. assert (E : ni = nj) by congruence.
      rewrite E in Hcmp. exact (CompareHuffmanTrees_asym nj nj Hcmp Hcmp).
    - exfalso. apply (CompareHuffmanTrees_asym ni nj Hcmp).
      apply (StronglySorted_nth_error _ _ Hsorted q p nj ni Hgt' Hq1 Hp1). }
  destruct (merges_to_ordered _ _ Hmerge Hok) as (G & Hmap & Hocc & Hsort).
  assert (Hgp : exists dp, nth_error G p = Some (leaf_of ni, dp)).
  { pose proof (f_equal (fun l => nth_error l p) Hmap) as E. cbv beta in E.
    rewrite !nth_error_map, Hp1 in E. simpl in E.
    destruct (nth_error G p) as [[e d]|]; [|discriminate].
    simpl in E. inversion E; subst. eauto. }
  assert (Hgq : exists dq, nth_error G q = Some (leaf_of nj, dq)).
  { pose proof (f_equal (fun l => nth_error l q) Hmap) as E. cbv beta in E.
    rewrite !nth_error_map, Hq1 in E. simpl in E.
    destruct (nth_error G q) as [[e d]|]; [|discriminate].
    simpl in E. inversion E; subst. eauto. }
  destruct Hgp as [dp Hgp]. destruct Hgq as [dq Hgq].
  destruct (StronglySorted_nth_error _ _ Hsort p q _ _ Hpq Hgp Hgq) as [Hle _].
  simpl in Hle.
  rewrite Forall_forall in Hocc.
  pose proof (Hocc _ (nth_error_In _ _ Hgp)) as Hop.
  pose proof (Hocc _ (nth_error_In _ _ Hgq)) as Hoq.
  subst ni nj. unfold leaf_of in Hop, Hoq. simpl in Hop, Hoq.
  apply occurs_leaf_depth with (level := 0) in Hop, Hoq.
  assert (Hload : forall v d, In (v, d) (leaf_depths t 0) ->
            load (write_depths t 0 bit_depths) v = d).
  { intros v d Hvd.
    rewrite (load_write_depths t 0 bit_depths v d); [| | | assumption].
    - apply leaf_depths_bound in Hvd. unfold u8. apply Z.mod_small.
      destruct (Nat.eqb_spec (height t) 0); lia.
    - apply (Permutation_NoDup Hpt Hnd).
    - intros w Hw. apply (Permutation_in _ (Permutation_sym Hpt)) in Hw.
      apply Hrange in Hw. lia. }
  rewrite (Hload _ _ Hop), (Hload _ _ Hoq). lia.
Qed.

(** *** The try that returns *)

Lemma GenerateOptimalTree_loop_try histogram tree_depth_limit fuel :
  forall bit_depths count_min bit_depths',
    1 <= count_min ->
    length bit_depths = length histogram ->
    GenerateOptimalTree_loop fuel histogram tree_depth_limit bit_depths count_min
      = Ok bit_depths' ->
    exists k bit_depths_in,
      (k < fuel)%nat
      /\ length bit_depths_in = length histogram
      /\ assign_depths histogram (count_min * 2 ^ Z.of_nat k) bit_depths_in
         = Ok bit_depths'.
Proof.
  induction fuel as [|fuel IH]; intros bd cm bd' Hmin Hlen Hrun; [discriminate|].
  cbn [GenerateOptimalTree_loop] in Hrun.
  apply bind_Ok_inv in Hrun. destruct Hrun as (bd1 & Hassign & Hrun).
  apply bind_Ok_inv in Hrun. destruct Hrun as (m & Hmax & Hrun).
  destruct (Z.leb_spec m tree_depth_limit) as [Hle|Hgt].
  - inversion Hrun; subst bd'. exists O, bd. split; [lia|]. split; [assumption|].
    change (2 ^ Z.of_nat 0) with 1. now rewrite Z.mul_1_r.
  - apply bind_Ok_inv in Hrun. destruct Hrun as (cm2 & Hcm2 & Hrun).
    apply int_ok_inv in Hcm2. destruct Hcm2 as [-> _].
    destruct (assign_depths_frame _ _ _ _ Hmin Hlen Hassign) as [Hlen1 _].
    destruct (IH bd1 (cm * 2) bd' ltac:(lia) ltac:(lia) Hrun) as (k & bd_in & Hk & H1 & H2).
    exists (S k), bd_in. split; [lia|]. split; [assumption|].
    rewrite Nat2Z.inj_succ, Z.pow_succ_r by lia.
    replace (cm * (2 * 2 ^ Z.of_nat k)) with (cm * 2 * 2 ^ Z.of_nat k) by ring.
    exact H2.
Qed.

(** X17.  In the code lengths that [GenerateOptimalTree] returns, a heavier
    symbol is never deeper: the try that returns is the one with
    [count_min = 2 ^ k], for some [k] below the number of tries; with the
    counts of the used symbols raised to [count_min], a symbol of a larger
    count has a code length at most that of a symbol of a smaller count, and
    of two symbols of the same count the one of the lower index has a code
    length at most that of the other. *)
Theorem heavier_symbols_not_deeper (fuel : nat) (histogram : list Z)
    (tree_depth_limit : Z) (bit_depths bit_depths' : list Z) :
  GenerateOptimalTree fuel histogram tree_depth_limit bit_depths = Ok bit_depths' ->
  exists k,
    (k < fuel)%nat
    /\ forall i j,
         0 <= i < Z.of_nat (length histogram) ->
         0 <= j < Z.of_nat (length histogram) ->
         load histogram i <> 0 -> load histogram j <> 0 ->
         Z.max (load histogram j) (2 ^ Z.of_nat k) < Z.max (load histogram i) (2 ^ Z.of_nat k)
         \/ (Z.max (load histogram j) (2 ^ Z.of_nat k)
             = Z.max (load histogram i) (2 ^ Z.of_nat k) /\ i < j) ->
         load bit_depths' i <= load bit_depths' j.
Proof.
  intros Hrun. apply GenerateOptimalTree_inv in Hrun. destruct Hrun as (Hlen & _ & Hrun).
  apply GenerateOptimalTree_loop_try in Hrun; [| lia | assumption].
  destruct Hrun as (k & bd_in & Hk & Hlen_in & Hassign).
  rewrite Z.mul_1_l in Hassign.
  exists k. split; [assumption|]. intros i j Hi Hj Hni Hnj Horder.
  assert (Hpow : 1 <= 2 ^ Z.of_nat k) by (apply Z.lt_pred_le, Z.pow_pos_nonneg; lia).
  apply (assign_depths_ordered histogram (2 ^ Z.of_nat k) bd_in bit_depths' Hpow Hlen_in Hassign).
  - rewrite used_symbols_spec, Z.sub_0_r. split; [lia | assumption].
  - rewrite used_symbols_spec, Z.sub_0_r. split; [lia | assumption].
  - unfold CompareHuffmanTrees, raised_count. cbn [total_count_ value_].
    destruct (Z.ltb_spec (load histogram i) (2 ^ Z.of_nat k));
      destruct (Z.ltb_spec (load histogram j) (2 ^ Z.of_nat k));
      repeat match goal with
             | |- context [?a >? ?b] => destruct (Z.gtb_spec a b)
             | |- context [?a <? ?b] => destruct (Z.ltb_spec a b)
             end; lia.
Qed.

Lemma heavier_symbols_not_deeper_witness :
  exists k,
    (k < 2)%nat
    /\ forall i j,
         0 <= i < Z.of_nat (length [1; 1; 0; 2; 3; 5; 8; 13]) ->
         0 <= j < Z.of_nat (length [1; 1; 0; 2; 3; 5; 8; 13]) ->
         load [1; 1; 0; 2; 3; 5; 8; 13] i <> 0 -> load [1; 1; 0; 2; 3; 5; 8; 13] j <> 0 ->
         Z.max (load [1; 1; 0; 2; 3; 5; 8; 13] j) (2 ^ Z.of_nat k)
         < Z.max (load [1; 1; 0; 2; 3; 5; 8; 13] i) (2 ^ Z.of_nat k)
         \/ (Z.max (load [1; 1; 0; 2; 3; 5; 8; 13] j) (2 ^ Z.of_nat k)
             = Z.max (load [1; 1; 0; 2; 3; 5; 8; 13] i) (2 ^ Z.of_nat k) /\ i < j) ->
         load [3; 4; 0; 4; 3; 3; 2; 2] i <= load [3; 4; 0; 4; 3; 3; 2; 2] j.
Proof.
  apply (heavier_symbols_not_deeper 2 [1; 1; 0; 2; 3; 5; 8; 13] 4 [0; 0; 0; 0; 0; 0; 0; 0]).
  vm_compute. reflexivity.
Defined.

(* ------------------------------------------------------------------------- *)
(** ** The code lengths of one try are optimal *)

(** *** Exchanging lengths *)

Lemma push_down_weights d C :
  map fst (snd (push_down d C)) = map fst C.
Proof.
  revert d. induction C as [|[w e] rest IH]; intros d; simpl; [reflexivity|].
  destruct (d <? e)%nat.
  - specialize (IH e). destruct (push_down e rest) as [m rest']. simpl in *. now rewrite IH.
  - specialize (IH d). destruct (push_down d rest) as [m rest']. simpl in *. now rewrite IH.
Qed.

Lemma push_down_max d C :
  (d <= fst (push_down d C))%nat
  /\ Forall (fun p => (snd p <= fst (push_down d C))%nat) (snd (push_down d C)).
Proof.
  revert d. induction C as [|[w e] rest IH]; intros d; simpl; [split; [lia | constructor]|].
  destruct (Nat.ltb_spec d e).
  - specialize (IH e). destruct (push_down e rest) as [m rest']. simpl in *.
    destruct IH as [H1 H2]. split; [lia|]. constructor; [simpl; lia | assumption].
  - specialize (IH d). destruct (push_down d rest) as [m rest']. simpl in *.
    destruct IH as [H1 H2]. split; [lia|]. constructor; [simpl; lia | assumption].
Qed.

Lemma push_down_bound D d C :
  (d <= D)%nat -> Forall (fun p => (snd p <= D)%nat) C ->
  (fst (push_down d C) <= D)%nat
  /\ Forall (fun p => (snd p <= D)%nat) (snd (push_down d C)).
Proof.
  revert d. induction C as [|[w e] rest IH]; intros d Hd HC; simpl; [auto|].
  inversion HC as [|? ? He Hrest]; subst. simpl in He.
  destruct (Nat.ltb_spec d e).
  - specialize (IH e He Hrest). destruct (push_down e rest) as [m rest']. simpl in *.
    destruct IH as [H1 H2]. split; [assumption|]. constructor; [simpl; lia | assumption].
  - specialize (IH d Hd Hrest). destruct (push_down d rest) as [m rest']. simpl in *.
    destruct IH as [H1 H2]. split; [assumption|]. constructor; [simpl; lia | assumption].
Qed.

Lemma push_down_kraft D d C :
  2 ^ (Z.of_nat D - Z.of_nat (fst (push_down d C))) + kraft_at D (snd (push_down d C))
  = 2 ^ (Z.of_nat D - Z.of_nat d) + kraft_at D C.
Proof.
  revert d. induction C as [|[w e] rest IH]; intros d; simpl; [reflexivity|].
  destruct (d <? e)%nat.
  - specialize (IH e). destruct (push_down e rest) as [m rest']. simpl in *. lia.
  - specialize (IH d). destruct (push_down d rest) as [m rest']. simpl in *. lia.
Qed.

(** Carrying down the length of the lightest weight does not raise the
    cost. *)
Lemma push_down_cost a d C :
  Forall (fun p => a <= fst p) C ->
  a * Z.of_nat (fst (push_down d C)) + code_cost (snd (push_down d C))
  <= a * Z.of_nat d + code_cost C.
Proof.
  revert d. induction C as [|[w e] rest IH]; intros d HC; simpl; [lia|].
  inversion HC as [|? ? Hw Hrest]; subst. simpl in Hw.
  destruct (Nat.ltb_spec d e).
  - specialize (IH e Hrest). destruct (push_down e rest) as [m rest']. simpl in *. nia.
  - specialize (IH d Hrest). destruct (push_down d rest) as [m rest']. simpl in *. lia.
Qed.

(** *** Shortening the longest length *)

Lemma kraft_at_nonneg D C : 0 <= kraft_at D C.
Proof.
  induction C as [|[w d] rest IH]; simpl; [lia|].
  pose proof (Z.pow_nonneg 2 (Z.of_nat D - Z.of_nat d) ltac:(lia)). lia.
Qed.

Lemma kraft_at_multiple D m C :
  (m <= D)%nat -> Forall (fun p => (snd p <= m)%nat) C ->
  exists M, kraft_at D C = 2 ^ (Z.of_nat D - Z.of_nat m) * M.
Proof.
  intros Hm. induction 1 as [|[w d] rest Hd _ IH]; simpl.
  - exists 0. lia.
  - destruct IH as [M IH]. simpl in Hd.
    exists (2 ^ (Z.of_nat m - Z.of_nat d) + M). rewrite IH.
    replace (Z.of_nat D - Z.of_nat d)
      with ((Z.of_nat D - Z.of_nat m) + (Z.of_nat m - Z.of_nat d)) by lia.
    rewrite Z.pow_add_r by lia. ring.
Qed.

(** A length longer than all others can be shortened by one: the Kraft sum,
    in units of the longest length, is odd. *)
Lemma shorten_head D w m C :
  kraft_valid D ((w, S m) :: C) ->
  Forall (fun p => (snd p <= m)%nat) C ->
  kraft_valid D ((w, m) :: C).
Proof.
  intros [Hd Hk] Hm. inversion Hd as [|? ? Hh Hrest]; subst. simpl in Hh, Hk.
  split; [constructor; [simpl; lia | assumption]|]. simpl.
  destruct (kraft_at_multiple D m C ltac:(lia) Hm) as [M HM]. rewrite HM in *.
  set (u := 2 ^ (Z.of_nat D - Z.of_nat (S m))) in *.
  assert (Hu : 0 < u) by (apply Z.pow_pos_nonneg; lia).
  assert (H2u : 2 ^ (Z.of_nat D - Z.of_nat m) = 2 * u).
  { unfold u. replace (Z.of_nat D - Z.of_nat m)
      with (Z.succ (Z.of_nat D - Z.of_nat (S m))) by lia.
    now rewrite Z.pow_succ_r by lia. }
  assert (HD : 2 ^ Z.of_nat D = 2 * u * 2 ^ Z.of_nat m).
  { rewrite <- H2u, <- Z.pow_add_r by lia. f_equal. lia. }
  rewrite H2u, HD in *.
  assert (M + 1 <= 2 ^ Z.of_nat m) by nia.
  nia.
Qed.

Lemma shorten_head_to D w m C : forall k,
  kraft_valid D ((w, (m + k)%nat) :: C) ->
  Forall (fun p => (snd p <= m)%nat) C ->
  kraft_valid D ((w, m) :: C).
Proof.
  induction k as [|k IH]; intros Hv Hm.
  - now rewrite Nat.add_0_r in Hv.
  - apply IH; [|assumption]. apply shorten_head.
    + now rewrite Nat.add_succ_r in Hv.
    + revert Hm. apply Forall_impl. intros; lia.
Qed.

(** *** Merging the two lightest weights of a code *)

Lemma merge_code D a b R da db :
  0 <= a -> a <= b -> Forall (fun p => b <= fst p) R ->
  kraft_valid D ((a, da) :: (b, db) :: R) ->
  exists e R',
    map fst R' = map fst R
    /\ kraft_valid D ((a + b, e) :: R')
    /\ code_cost ((a + b, e) :: R') + a + b <= code_cost ((a, da) :: (b, db) :: R).
Proof.
  intros Ha Hab HR [Hd Hk].
  inversion Hd as [|? ? Hda Hd1]; subst.
  (* the lightest weight takes the longest length *)
  pose proof (push_down_weights da ((b, db) :: R)) as Hw1.
  pose proof (push_down_max da ((b, db) :: R)) as [_ Hmax1].
  pose proof (push_down_bound D da ((b, db) :: R) Hda Hd1) as [Hb1 Hbound1].
  pose proof (push_down_kraft D da ((b, db) :: R)) as Hk1.
  pose proof (push_down_cost a da ((b, db) :: R)
                ltac:(constructor; [simpl; lia |
                      revert HR; apply Forall_impl; intros; lia])) as Hc1.
  destruct (push_down da ((b, db) :: R)) as [m1 R1]. cbn [fst snd] in *.
  destruct R1 as [|[b' db'] R1']; [discriminate|].
  cbn [map fst] in Hw1. inversion Hw1 as [[Eb Hw1']]. subst b'.
  inversion Hmax1 as [|? ? Hdb' Hmax1']; subst. simpl in Hdb'.
  inversion Hbound1 as [|? ? Hdb'' Hbound1']; subst.
  (* the second lightest takes the longest length that is left *)
  assert (HR1 : Forall (fun p => b <= fst p) R1').
  { rewrite Forall_forall in *. intros p Hp.
    assert (Hin : In (fst p) (map fst R)) by (rewrite <- Hw1'; now apply in_map).
    apply in_map_iff in Hin. destruct Hin as (q & <- & Hq). auto. }
  pose proof (push_down_weights db' R1') as Hw2.
  pose proof (push_down_max db' R1') as [_ Hmax2].
  pose proof (push_down_bound m1 db' R1' Hdb' Hmax1') as [Hm21 _].
  pose proof (push_down_bound D db' R1' Hdb'' Hbound1') as [Hb2 Hbound2].
  pose proof (push_down_kraft D db' R1') as Hk2.
  pose proof (push_down_cost b db' R1' HR1) as Hc2.
  destruct (push_down db' R1') as [m2 R2]. cbn [fst snd] in *.
  cbn [kraft_at code_cost] in *.
  (* the longest length is cut to the second longest *)
  assert (Hv : kraft_valid D ((a, m2) :: (b, m2) :: R2)).
  { apply (shorten_head_to D a m2 ((b, m2) :: R2) (m1 - m2)).
    - replace (m2 + (m1 - m2))%nat with m1 by lia. split.
      + constructor; [simpl; lia|]. constructor; [simpl; lia | assumption].
      + cbn [kraft_at]. lia.
    - constructor; [simpl; lia | assumption]. }
  destruct Hv as [_ Hkv]. cbn [kraft_at] in Hkv.
  pose proof (kraft_at_nonneg D R2) as Hnn.
  destruct m2 as [|e].
  { exfalso. rewrite Z.sub_0_r in Hkv.
    assert (0 < 2 ^ Z.of_nat D) by (apply Z.pow_pos_nonneg; lia). lia. }
  exists e, R2. split; [congruence|]. split.
  - split.
    + constructor; [simpl; lia | assumption].
    + cbn [kraft_at].
      replace (Z.of_nat D - Z.of_nat e) with (Z.succ (Z.of_nat D - Z.of_nat (S e))) by lia.
      rewrite Z.pow_succ_r by lia. lia.
  - cbn [code_cost]. nia.
Qed.

(** *** Codes up to the order of their entries *)

Lemma code_cost_perm C C' : Permutation C C' -> code_cost C = code_cost C'.
Proof.
  induction 1 as [|[w d] l l' _ IH|[w d] [w' d'] l|l l' l'' _ IH1 _ IH2]; simpl; lia.
Qed.

Lemma kraft_at_perm D C C' : Permutation C C' -> kraft_at D C = kraft_at D C'.
Proof.
  induction 1 as [|[w d] l l' _ IH|[w d] [w' d'] l|l l' l'' _ IH1 _ IH2]; simpl; lia.
Qed.

Lemma kraft_valid_perm D C C' : Permutation C C' -> kraft_valid D C -> kraft_valid D C'.
Proof.
  intros Hp [Hd Hk]. split.
  - rewrite Forall_forall in *. intros p Hin. apply Hd.
    now apply (Permutation_in _ (Permutation_sym Hp)).
  - now rewrite <- (kraft_at_perm D C C' Hp).
Qed.

Lemma forest_cost_app A B : forest_cost (A ++ B) = forest_cost A + forest_cost B.
Proof. induction A as [|[t d] A IH]; simpl; lia. Qed.

Lemma code_cost_nonneg C : Forall (fun p => 0 <= fst p) C -> 0 <= code_cost C.
Proof.
  induction 1 as [|[w d] rest Hw _ IH]; simpl in *; [lia | nia].
Qed.

(** *** The merge loop builds a code of least cost *)

Lemma merges_to_optimal forest t :
  merges_to forest t -> forest_ok forest ->
  exists G,
    map fst G = forest
    /\ Forall (fun p => occurs_at t (fst p) (snd p)) G
    /\ forall D C,
         Permutation (map fst C) (map cnt forest) -> kraft_valid D C ->
         forest_cost G <= code_cost C.
Proof.
  induction 1 as [t | rest y x t _ IH]; intros Hok.
  - exists [(t, O)]. split; [reflexivity|]. split; [repeat constructor|].
    intros D C Hp _. simpl. rewrite Z.mul_0_r, Z.add_0_r.
    apply code_cost_nonneg. destruct Hok as (_ & Hwf & _).
    inversion Hwf as [|? ? Hwt _]; subst. apply well_formed_pos in Hwt.
    apply Forall_forall. intros p Hin. apply (in_map fst) in Hin.
    apply (Permutation_in _ Hp) in Hin. simpl in Hin. destruct Hin as [<-|[]]. lia.
  - destruct (IH (merge_forest_ok rest y x Hok)) as (G' & Hmap & Hocc & Hopt).
    pose proof Hmap as Hmap0.
    unfold merge_forest in Hmap.
    set (count := cnt y + cnt x) in *.
    set (k := forest_insertion_point rest count) in *.
    apply map_eq_app in Hmap. destruct Hmap as (G1 & G2 & -> & Hmap1 & Hmap2).
    apply map_eq_cons in Hmap2. destruct Hmap2 as ([n dn] & G2' & -> & Hn & Hmap2).
    simpl in Hn. subst n.
    destruct Hok as (Hdesc & Hwf & _ & _).
    rewrite Forall_app in Hocc. destruct Hocc as [Hocc1 Hocc2].
    inversion Hocc2 as [|? ? Hnode Hocc2']; subst. simpl in Hnode.
    destruct (occurs_at_children _ _ _ _ _ Hnode) as [Hy Hx].
    exists (G1 ++ G2' ++ [(y, S dn); (x, S dn)]).
    split; [|split].
    + rewrite !map_app, Hmap1, Hmap2. simpl. rewrite app_assoc, firstn_skipn. reflexivity.
    + rewrite !Forall_app. split; [assumption|]. split; [assumption|].
      repeat constructor; assumption.
    + intros D C Hp Hv.
      (* the counts of the two last trees, and of the others *)
      apply StronglySorted_app in Hdesc. destruct Hdesc as (_ & Htail & Hcross).
      inversion Htail as [|? ? _ Hyx]; subst. inversion Hyx as [|? ? Hxy _]; subst.
      rewrite Forall_app in Hwf. destruct Hwf as [_ Hwft].
      inversion Hwft as [|? ? _ Hwft']; subst. inversion Hwft' as [|? ? Hwx _]; subst.
      apply well_formed_pos in Hwx.
      assert (Hp' : Permutation (cnt x :: cnt y :: map cnt rest) (map fst C)).
      { apply Permutation_sym. eapply Permutation_trans; [exact Hp|].
        rewrite map_app. simpl.
        eapply Permutation_trans; [apply Permutation_app_comm|]. simpl. apply perm_swap. }
      apply Permutation_map_inv in Hp'. destruct Hp' as (C3 & HC3 & HpC).
      destruct C3 as [|[a da] [|[b db] R]]; try discriminate.
      simpl in HC3. inversion HC3 as [[Ea Eb HR]]. 
      assert (Hvalid : kraft_valid D ((cnt x, da) :: (cnt y, db) :: R)).
      { apply (kraft_valid_perm D C); [|assumption].
        rewrite Ea, Eb. exact HpC. }
      destruct (merge_code D (cnt x) (cnt y) R da db) as (e & R' & HR' & Hv' & Hcost);
        [lia | assumption | | assumption |].
      { apply Forall_forall. intros p Hin. apply (in_map fst) in Hin.
        rewrite <- HR in Hin. apply in_map_iff in Hin. destruct Hin as (u & <- & Hu).
        apply (Hcross u y Hu). simpl. auto. }
      assert (Hle : forest_cost (G1 ++ (Node count y x, dn) :: G2')
                    <= code_cost ((cnt x + cnt y, e) :: R')).
      { apply (Hopt D); [|assumption].
        cbn [map fst]. rewrite HR', <- HR.
        unfold merge_forest. fold count. fold k.
        rewrite map_app. cbn [map cnt].
        rewrite <- (firstn_skipn k rest) at 1. rewrite map_app.
        replace (cnt x + cnt y) with count by (unfold count; lia).
        apply Permutation_middle. }
      rewrite (code_cost_perm C _ HpC) in *.
      rewrite <- Ea, <- Eb.
      rewrite !forest_cost_app in *. cbn [forest_cost cnt] in *.
      unfold count in *. nia.
Qed.

(** *** Sums over the leaves *)

Lemma node_sum_perm f tree tree' :
  Permutation tree tree' -> node_sum f tree = node_sum f tree'.
Proof. induction 1; simpl; lia. Qed.

Lemma node_sum_ext f g tree :
  (forall node, In node tree -> f node = g node) -> node_sum f tree = node_sum g tree.
Proof.
  induction tree as [|node rest IH]; intros H; simpl; [reflexivity|].
  rewrite (H node) by (simpl; auto). rewrite IH; [reflexivity|].
  intros n Hn. apply H. simpl. auto.
Qed.

Lemma node_sum_le f g tree :
  (forall node, In node tree -> f node <= g node) -> node_sum f tree <= node_sum g tree.
Proof.
  induction tree as [|node rest IH]; intros H; simpl; [lia|].
  pose proof (H node ltac:(simpl; auto)).
  pose proof (IH ltac:(intros n Hn; apply H; simpl; auto)). lia.
Qed.

Lemma init_leaves_sum g histogram count_min : forall j lengths,
  length lengths = length histogram ->
  node_sum (fun node => g (total_count_ node) (load lengths (value_ node - j)))
    (init_leaves histogram j count_min)
  = used_sum g count_min histogram lengths.
Proof.
  induction histogram as [|h rest IH]; intros j lengths Hlen; [reflexivity|].
  destruct lengths as [|l ls]; [discriminate|]. simpl in Hlen.
  assert (Hshift : node_sum (fun node => g (total_count_ node) (load (l :: ls) (value_ node - j)))
                     (init_leaves rest (j + 1) count_min)
                   = used_sum g count_min rest ls).
  { rewrite <- (IH (j + 1) ls) by lia. apply node_sum_ext. intros node Hin.
    assert (Hv : In (value_ node) (used_symbols rest (j + 1))).
    { rewrite <- (init_leaves_values rest count_min (j + 1)). now apply in_map. }
    apply used_symbols_range in Hv. f_equal. unfold load.
    replace (Z.to_nat (value_ node - j)) with (S (Z.to_nat (value_ node - (j + 1)))) by lia.
    reflexivity. }
  cbn [init_leaves used_sum]. destruct (Z.eqb_spec h 0) as [E|E]; cbn [negb].
  - rewrite Hshift. lia.
  - cbn [node_sum total_count_ value_]. rewrite Hshift, Z.sub_diag.
    unfold raised_count, load. simpl. lia.
Qed.

Lemma used_sum_any_min g histogram : forall count_min count_min' lengths,
  (forall c c' l, g c l = g c' l) ->
  used_sum g count_min histogram lengths = used_sum g count_min' histogram lengths.
Proof.
  induction histogram as [|h rest IH]; intros cm cm' lengths Hg; [reflexivity|].
  destruct lengths as [|l ls]; [reflexivity|]. cbn [used_sum].
  rewrite (IH cm cm' ls Hg). destruct (h =? 0); [reflexivity|].
  now rewrite (Hg _ (raised_count cm' h)).
Qed.

(** The sums over the used symbols, as sums over the sorted leaves. *)
Lemma sorted_leaves_sum g histogram count_min lengths :
  length lengths = length histogram ->
  node_sum (fun node => g (total_count_ node) (load lengths (value_ node)))
    (qsort (init_leaves histogram 0 count_min))
  = used_sum g count_min histogram lengths.
Proof.
  intros Hlen. rewrite <- (node_sum_perm _ _ _ (qsort_perm _)).
  rewrite <- (init_leaves_sum g histogram count_min 0 lengths Hlen).
  apply node_sum_ext. intros node _. now rewrite Z.sub_0_r.
Qed.

Lemma forest_cost_leaves t bit_depths :
  (forall v d, In (v, d) (leaf_depths t 0) -> load bit_depths v = d) ->
  forall tree G,
    map fst G = map leaf_of tree ->
    Forall (fun p => occurs_at t (fst p) (snd p)) G ->
    forest_cost G
    = node_sum (fun node => total_count_ node * load bit_depths (value_ node)) tree.
Proof.
  intros Hload. induction tree as [|node rest IH]; intros G Hmap Hocc.
  - destruct G; [reflexivity | discriminate].
  - destruct G as [|[e d] G]; [discriminate|]. simpl in Hmap.
    inversion Hmap as [[He Hrest]]. inversion Hocc as [|? ? Ho Hocc']; subst.
    simpl in Ho. unfold leaf_of in Ho.
    apply occurs_leaf_depth with (level := 0) in Ho. apply Hload in Ho.
    cbn [forest_cost node_sum]. rewrite (IH G Hrest Hocc'), Ho. simpl. lia.
Qed.

Lemma code_of_lengths D lengths tree :
  (forall node, In node tree -> 0 <= load lengths (value_ node) <= Z.of_nat D) ->
  let C := map (fun node => (total_count_ node, Z.to_nat (load lengths (value_ node)))) tree in
  map fst C = map cnt (map leaf_of tree)
  /\ Forall (fun p => (snd p <= D)%nat) C
  /\ code_cost C
     = node_sum (fun node => total_count_ node * load lengths (value_ node)) tree
  /\ kraft_at D C
     = node_sum (fun node => 2 ^ (Z.of_nat D - load lengths (value_ node))) tree.
Proof.
  cbv zeta. induction tree as [|node rest IH]; intros H.
  - simpl. repeat split; constructor.
  - destruct (IH ltac:(intros n Hn; apply H; simpl; auto)) as (H1 & H2 & H3 & H4).
    pose proof (H node ltac:(simpl; auto)) as Hn.
    cbn [map fst code_cost kraft_at node_sum]. rewrite H1, H3, H4, Z2Nat.id by lia.
    repeat split. constructor; [simpl; lia | assumption].
Qed.

(** One try yields code lengths of least cost for the raised counts. *)
Lemma assign_depths_optimal histogram count_min bit_depths bit_depths' lengths D :
  1 <= count_min ->
  length bit_depths = length histogram ->
  assign_depths histogram count_min bit_depths = Ok bit_depths' ->
  length lengths = length histogram ->
  (forall i, In i (used_symbols histogram 0) -> 1 <= load lengths i <= D) ->
  kraft_scaled D histogram lengths <= 2 ^ D ->
  coding_cost count_min histogram bit_depths' <= coding_cost count_min histogram lengths.
Proof.
  intros Hmin Hlen Hrun Hlenl Hl Hkraft.
  destruct (assign_depths_frame _ _ _ _ Hmin Hlen Hrun) as [Hlen' _].
  unfold coding_cost.
  rewrite <- (sorted_leaves_sum Z.mul histogram count_min bit_depths') by lia.
  rewrite <- (sorted_leaves_sum Z.mul histogram count_min lengths) by lia.
  unfold kraft_scaled in Hkraft.
  rewrite (used_sum_any_min _ histogram 1 count_min lengths) in Hkraft by reflexivity.
  rewrite <- (sorted_leaves_sum _ histogram count_min lengths) in Hkraft by lia.
  unfold assign_depths in Hrun.
  destruct (sorted_leaves_spec histogram count_min Hmin)
    as (Hrep & Hok & Hh & Hperm & Hsize & _).
  assert (Hnodes : forall node, In node (qsort (init_leaves histogram 0 count_min)) ->
            In (value_ node) (used_symbols histogram 0) /\ 1 <= total_count_ node).
  { intros node Hin.
    apply (Permutation_in _ (Permutation_sym (qsort_perm _))) in Hin. split.
    - rewrite <- (init_leaves_values histogram count_min 0). now apply in_map.
    - pose proof (init_leaves_leaf histogram count_min 0) as Hleaf.
      rewrite Forall_forall in Hleaf. specialize (Hleaf node Hin). lia. }
  set (tree := qsort (init_leaves histogram 0 count_min)) in *.
  destruct (Nat.ltb_spec 1 (length tree)) as [Hgt|Hle].
  2:{ (* no leaf, or one leaf of depth 1 *)
      clearbody tree. destruct tree as [|node [|node' others]]; simpl in Hle; try lia.
      - simpl. lia.
      - apply store_checked_inv in Hrun. destruct Hrun as [-> Hrange].
        destruct (Hnodes node ltac:(simpl; auto)) as [Hv Hc].
        specialize (Hl _ Hv). cbn [node_sum].
        rewrite load_store_same by lia. nia. }
  apply bind_Ok_inv in Hrun. destruct Hrun as ([tree' pool'] & Hloop & Hrun).
  cbn [fst snd] in Hrun.
  destruct (merge_loop_spec
              (fun f => forall t, merges_to f t -> merges_to (map leaf_of tree) t)
              ltac:(intros rest y x _ Hf t Ht; apply Hf; now constructor)
              _ _ _ _ _ _ Hrep Hok (fun t Ht => Ht) Hh ltac:(lia) Hloop)
    as (root & t & -> & Hr & Hokt & Hmerge & Hp & Hht & Hc).
  specialize (Hmerge t (merges_done t)).
  assert (Hpt : Permutation (used_symbols histogram 0) (leaf_values t))
    by (eapply Permutation_trans; eassumption).
  pose proof (used_symbols_range histogram 0) as Hrange.
  pose proof (used_symbols_NoDup histogram 0) as Hnd.
  rewrite (SetBitDepths_represents _ _ _ Hr) in Hrun; [| lia |].
  2:{ intros v Hv. apply (Permutation_in _ (Permutation_sym Hpt)) in Hv.
      apply Hrange in Hv. lia. }
  inversion Hrun; subst bit_depths'; clear Hrun.
  destruct Hokt as (_ & _ & Hfb & _). apply Forall_inv in Hfb.
  pose proof (height_bound t Hfb Hc) as H44.
  assert (Hload : forall v d, In (v, d) (leaf_depths t 0) ->
            load (write_depths t 0 bit_depths) v = d).
  { intros v d Hvd.
    rewrite (load_write_depths t 0 bit_depths v d); [| | | assumption].
    - apply leaf_depths_bound in Hvd. unfold u8. apply Z.mod_small.
      destruct (Nat.eqb_spec (height t) 0); lia.
    - apply (Permutation_NoDup Hpt Hnd).
    - intros w Hw. apply (Permutation_in _ (Permutation_sym Hpt)) in Hw.
      apply Hrange in Hw. lia. }
  destruct (merges_to_optimal _ _ Hmerge Hok) as (G & Hmap & Hocc & Hopt).
  rewrite <- (forest_cost_leaves t _ Hload tree G Hmap Hocc).
  (* the code of the other lengths *)
  assert (HD : 1 <= D).
  { destruct tree as [|node rest]; [simpl in Hgt; lia|].
    destruct (Hnodes node ltac:(simpl; auto)) as [Hv _]. specialize (Hl _ Hv). lia. }
  destruct (code_of_lengths (Z.to_nat D) lengths tree) as (HC1 & HC2 & HC3 & HC4).
  { intros node Hin. destruct (Hnodes node Hin) as [Hv _]. specialize (Hl _ Hv). lia. }
  rewrite Z2Nat.id in HC4 by lia.
  rewrite <- HC3. apply (Hopt (Z.to_nat D)).
  - rewrite HC1. apply Permutation_refl.
  - split; [assumption|]. rewrite HC4, Z2Nat.id by lia. exact Hkraft.
Qed.

(** X19.  The code lengths that [GenerateOptimalTree] returns are those of
    a Huffman code for the counts of the try that returns: with
    [count_min = 2 ^ k] for some [k] below the number of tries, and the
    counts of the used symbols raised to [count_min], the sum of count times
    code length is at most that of any other code lengths of at least 1 for
    the used symbols that satisfy Kraft's inequality (the sum of
    [2 ^ (D - length)] over the used symbols is at most [2 ^ D], where [D]
    bounds the lengths).  When the first try returns, the counts are the
    positive counts of the histogram themselves. *)
Theorem code_lengths_optimal (fuel : nat) (histogram : list Z)
    (tree_depth_limit : Z) (bit_depths bit_depths' : list Z) :
  GenerateOptimalTree fuel histogram tree_depth_limit bit_depths = Ok bit_depths' ->
  exists k,
    (k < fuel)%nat
    /\ forall lengths D,
         length lengths = length histogram ->
         (forall i, 0 <= i < Z.of_nat (length histogram) ->
            load histogram i <> 0 -> 1 <= load lengths i <= D) ->
         kraft_scaled D histogram lengths <= 2 ^ D ->
         coding_cost (2 ^ Z.of_nat k) histogram bit_depths'
         <= coding_cost (2 ^ Z.of_nat k) histogram lengths.
Proof.
  intros Hrun. apply GenerateOptimalTree_inv in Hrun. destruct Hrun as (Hlen & _ & Hrun).
  apply GenerateOptimalTree_loop_try in Hrun; [| lia | assumption].
  destruct Hrun as (k & bd_in & Hk & Hlen_in & Hassign).
  rewrite Z.mul_1_l in Hassign.
  exists k. split; [assumption|]. intros lengths D Hlenl Hl Hkraft.
  assert (Hpow : 1 <= 2 ^ Z.of_nat k) by (apply Z.lt_pred_le, Z.pow_pos_nonneg; lia).
  apply (assign_depths_optimal histogram _ bd_in bit_depths' lengths D
           Hpow Hlen_in Hassign Hlenl); [|assumption].
  intros i Hi. apply used_symbols_spec in Hi. rewrite Z.sub_0_r in Hi.
  apply Hl; [lia | tauto].
Qed.

Lemma code_lengths_optimal_witness :
  exists k,
    (k < 1)%nat
    /\ forall lengths D,
         length lengths = length [5; 0; 2; 1; 1] ->
         (forall i, 0 <= i < Z.of_nat (length [5; 0; 2; 1; 1]) ->
            load [5; 0; 2; 1; 1] i <> 0 -> 1 <= load lengths i <= D) ->
         kraft_scaled D [5; 0; 2; 1; 1] lengths <= 2 ^ D ->
         coding_cost (2 ^ Z.of_nat k) [5; 0; 2; 1; 1] [1; 0; 2; 3; 3]
         <= coding_cost (2 ^ Z.of_nat k) [5; 0; 2; 1; 1] lengths.
Proof.
  apply (code_lengths_optimal 1 [5; 0; 2; 1; 1] 15 [0; 0; 0; 0; 0]).
  vm_compute. reflexivity.
Defined.

Example code_lengths_optimal_example :
  GenerateOptimalTree 1 [5; 0; 2; 1; 1] 15 [0; 0; 0; 0; 0] = Ok [1; 0; 2; 3; 3]
  /\ coding_cost 1 [5; 0; 2; 1; 1] [1; 0; 2; 3; 3] = 15
  /\ kraft_scaled 3 [5; 0; 2; 1; 1] [2; 0; 2; 2; 2] = 2 ^ 3
  /\ coding_cost 1 [5; 0; 2; 1; 1] [2; 0; 2; 2; 2] = 18.
Proof. repeat split; vm_compute; reflexivity. Qed.
